(** * A shallow embedding of the cache simulator [csim.c]

    The simulator keeps, for every cache set, a singly linked list of
    heap-allocated lines ordered from least to most recently used, and
    five counters.  The embedding follows the C text: machine integers
    are [Z] with the wrap-around written out, the heap of [line_t]
    nodes is a finite map from locations to records, the array of
    [set_t] is a list updated by index, and the body of the trace loop
    is written in a small state-and-fault monad. *)

From Stdlib Require Import ZArith Lia Ascii.
From stdpp Require Import base numbers option list sorting strings gmap.

Local Open Scope Z_scope.

(** ** Machine integers *)

Module MachineInt.

Definition INT_MAX : Z := 2147483647.
Definition INT_MIN : Z := -2147483648.

(** Two's complement reduction of a mathematical integer to [int].
    Signed overflow is undefined in C; the embedding gives it the
    wrap-around meaning of the usual targets. *)
Definition wrap32 (x : Z) : Z := (x + 2147483648) mod 4294967296 - 2147483648.

Definition is_int (x : Z) : Prop := INT_MIN <= x <= INT_MAX.

End MachineInt.
Export MachineInt.

(** ** Global configuration *)

Definition COLD_MISS_TYPE : Z := -1.
Definition CAPACITY_MISS_TYPE : Z := -2.

(** The globals of [csim.c].  C zero-initialises them. *)
Record globals : Type := Globals {
  s : Z;
  E : Z;
  b : Z;
  verbose : Z;
  help : Z;
  total_sets : Z;
  total_bytes : Z;
  file_name : string;
  set_mask : Z
}.

Definition globals0 : globals :=
  {| s := 0; E := 0; b := 0; verbose := 0; help := 0;
     total_sets := 0; total_bytes := 0; file_name := EmptyString; set_mask := 0 |}.

(** One option as [getopt] hands it to the switch of
    [set_global_values]; numeric arguments carry the value of [atoi]. *)
Inductive cli_opt : Type :=
| Opt_h
| Opt_v
| Opt_s (n : Z)
| Opt_E (n : Z)
| Opt_b (n : Z)
| Opt_t (name : string)
| Opt_unknown.

(** [pow2]: the recursion halves [index] with C's truncating division;
    [fuel] bounds the depth, and [pow2] supplies more than the depth
    needed (see [pow2_unfold]). *)
Fixpoint pow2_rec (fuel : nat) (index : Z) : Z :=
  match fuel with
  | O => 1
  | S fuel' =>
      if index =? 0 then 1
      else
        let half_res := pow2_rec fuel' (Z.quot index 2) in
        if Z.rem index 2 =? 0 then wrap32 (half_res * half_res)
        else wrap32 (wrap32 (2 * half_res) * half_res)
  end.

Definition pow2 (index : Z) : Z :=
  pow2_rec (S (Z.to_nat (Z.log2 (Z.abs index))) + 1) index.

Definition apply_opt (g : globals) (o : cli_opt) : globals :=
  match o with
  | Opt_h => Globals (s g) (E g) (b g) (verbose g) 1 (total_sets g) (total_bytes g) (file_name g) (set_mask g)
  | Opt_v => Globals (s g) (E g) (b g) 1 (help g) (total_sets g) (total_bytes g) (file_name g) (set_mask g)
  | Opt_s n => Globals (wrap32 n) (E g) (b g) (verbose g) (help g) (total_sets g) (total_bytes g) (file_name g) (set_mask g)
  | Opt_E n => Globals (s g) (wrap32 n) (b g) (verbose g) (help g) (total_sets g) (total_bytes g) (file_name g) (set_mask g)
  | Opt_b n => Globals (s g) (E g) (wrap32 n) (verbose g) (help g) (total_sets g) (total_bytes g) (file_name g) (set_mask g)
  | Opt_t name => Globals (s g) (E g) (b g) (verbose g) (help g) (total_sets g) (total_bytes g) name (set_mask g)
  | Opt_unknown => g
  end.

Definition set_global_values (argv : list cli_opt) : globals :=
  let g := fold_left apply_opt argv globals0 in
  let total_sets' := pow2 (s g) in
  let total_bytes' := pow2 (b g) in
  Globals (s g) (E g) (b g) (verbose g) (help g)
          total_sets' total_bytes' (file_name g) (wrap32 (total_sets' - 1)).

(** ** Trace records and address decomposition *)

(** The three fields [sscanf] extracts from one line of the trace:
    the operation character, the address (stored in a [long]) and the
    access size.  Lines on which [sscanf] fails leave the fields
    uninitialised in C and are not modelled. *)
Record trace_line : Type := TraceLine {
  op : ascii;
  addr : Z;
  byte_num : Z
}.

(** [parsing_line] returns what it stores through its three out
    parameters: [(is_load, tag, set_num)].  [>>] on a [long] is the
    arithmetic shift, [Z.shiftr], for a count from 0 to 63; C gives
    no meaning to a shift by any other count, and what is stated of
    the values of the tag and of the set index is stated for
    [0 <= s, b <= 63]. *)
Definition parsing_line (g : globals) (ln : trace_line) : Z * Z * Z :=
  let is_load := if Ascii.eqb (op ln) "S"%char then 0 else 1 in
  let addr1 := Z.shiftr (addr ln) (b g) in
  let set_num := Z.land addr1 (set_mask g) in
  let tag := Z.shiftr addr1 (s g) in
  (is_load, tag, set_num).

#[global] Arguments parsing_line : simpl never.

(** ** The heap of lines, the array of sets and the counters *)

Definition loc : Type := positive.

(** A [line_t *]; the null pointer is [None]. *)
Definition ptr : Type := option loc.
Definition NULL : ptr := None.

Record line_t : Type := Line {
  dirty_bit : Z;
  valid_bit : Z;
  tag : Z;
  next : ptr
}.

Record set_t : Type := CSet {
  line_count : Z;
  first_line : ptr;
  last_line : ptr
}.

(** Modelled from the spec: [csim_stats_t] is declared in [cachelab.h],
    which is not among the sources; the spec lists its five fields as
    counts and byte counts, modelled here as unbounded integers. *)
Record csim_stats_t : Type := Stats {
  hits : Z;
  misses : Z;
  evictions : Z;
  dirty_bytes : Z;
  dirty_evictions : Z
}.

(** Everything [main] mutates: the heap of allocated lines with the
    allocator's next fresh location, the [sets] array and [*stats]. *)
Record machine : Type := Machine {
  heap : gmap loc line_t;
  brk : loc;
  sets : list set_t;
  stats : csim_stats_t
}.

(** ** A state monad with memory faults

    A computation returns [None] when it dereferences a pointer that is
    null or not allocated, or indexes [sets] out of range. *)

Definition M (A : Type) : Type := machine → option (A * machine).

Definition ret {A} (a : A) : M A := λ m, Some (a, m).

Definition bind {A B} (c : M A) (k : A → M B) : M B :=
  λ m, match c m with
       | Some (a, m') => k a m'
       | None => None
       end.

Declare Scope csim_scope.
Delimit Scope csim_scope with csim.
Notation "x <- c ;; k" := (bind c (λ x, k))
  (at level 100, c at next level, right associativity) : csim_scope.
Notation "c ;;; k" := (bind c (λ _, k))
  (at level 100, right associativity) : csim_scope.
Local Open Scope csim_scope.

Definition load_line (p : ptr) : M line_t :=
  λ m, match p with
       | Some l => match heap m !! l with
                   | Some ln => Some (ln, m)
                   | None => None
                   end
       | None => None
       end.

Definition store_line (p : ptr) (ln : line_t) : M unit :=
  λ m, match p with
       | Some l => match heap m !! l with
                   | Some _ => Some (tt, Machine (<[l := ln]> (heap m)) (brk m) (sets m) (stats m))
                   | None => None
                   end
       | None => None
       end.

(** [xcalloc(UNIT_SIZE, sizeof(line_t))]: a fresh zeroed line.  The
    model's allocator never runs out of memory, so the [abort] of
    [xcalloc] is not reachable here. *)
Definition xcalloc_line : M ptr :=
  λ m, Some (Some (brk m),
             Machine (<[brk m := Line 0 0 0 NULL]> (heap m)) (Pos.succ (brk m)) (sets m) (stats m)).

Definition free (p : ptr) : M unit :=
  λ m, match p with
       | Some l => match heap m !! l with
                   | Some _ => Some (tt, Machine (delete l (heap m)) (brk m) (sets m) (stats m))
                   | None => None
                   end
       | None => Some (tt, m)
       end.

(** [sets[i]] as an rvalue and as an lvalue. *)
Definition load_set (i : Z) : M set_t :=
  λ m, if i <? 0 then None
       else match sets m !! Z.to_nat i with
            | Some st => Some (st, m)
            | None => None
            end.

Definition store_set (i : Z) (st : set_t) : M unit :=
  λ m, if i <? 0 then None
       else match sets m !! Z.to_nat i with
            | Some _ => Some (tt, Machine (heap m) (brk m) (<[Z.to_nat i := st]> (sets m)) (stats m))
            | None => None
            end.

Definition load_stats : M csim_stats_t := λ m, Some (stats m, m).

Definition store_stats (st : csim_stats_t) : M unit :=
  λ m, Some (tt, Machine (heap m) (brk m) (sets m) st).

(** Assignments to single fields. *)
Definition set_line_count (i : Z) (n : Z) : M unit :=
  st <- load_set i ;; store_set i (CSet n (first_line st) (last_line st)).
Definition set_first_line (i : Z) (p : ptr) : M unit :=
  st <- load_set i ;; store_set i (CSet (line_count st) p (last_line st)).
Definition set_last_line (i : Z) (p : ptr) : M unit :=
  st <- load_set i ;; store_set i (CSet (line_count st) (first_line st) p).

Definition set_dirty_bit (p : ptr) (v : Z) : M unit :=
  ln <- load_line p ;; store_line p (Line v (valid_bit ln) (tag ln) (next ln)).
Definition set_next (p : ptr) (q : ptr) : M unit :=
  ln <- load_line p ;; store_line p (Line (dirty_bit ln) (valid_bit ln) (tag ln) q).

Definition add_hits (n : Z) : M unit :=
  st <- load_stats ;;
  store_stats (Stats (hits st + n) (misses st) (evictions st) (dirty_bytes st) (dirty_evictions st)).
Definition add_misses (n : Z) : M unit :=
  st <- load_stats ;;
  store_stats (Stats (hits st) (misses st + n) (evictions st) (dirty_bytes st) (dirty_evictions st)).
Definition add_evictions (n : Z) : M unit :=
  st <- load_stats ;;
  store_stats (Stats (hits st) (misses st) (evictions st + n) (dirty_bytes st) (dirty_evictions st)).
Definition add_dirty_bytes (n : Z) : M unit :=
  st <- load_stats ;;
  store_stats (Stats (hits st) (misses st) (evictions st) (dirty_bytes st + n) (dirty_evictions st)).
Definition sub_dirty_bytes (n : Z) : M unit :=
  st <- load_stats ;;
  store_stats (Stats (hits st) (misses st) (evictions st) (dirty_bytes st - n) (dirty_evictions st)).
Definition add_dirty_evictions (n : Z) : M unit :=
  st <- load_stats ;;
  store_stats (Stats (hits st) (misses st) (evictions st) (dirty_bytes st) (dirty_evictions st + n)).

(** ** The functions of [csim.c] *)

Definition init_line (line : ptr) (tg : Z) : M unit :=
  ln <- load_line line ;;
  store_line line (Line 0 1 tg (next ln)).

(** The [for] loop of [miss_type] with [n] iterations left: [Some i]
    is the position of the line holding [tg], [None] means the loop ran
    to its end. *)
Fixpoint miss_type_loop (tg : Z) (line : ptr) (i : Z) (n : nat) : M (option Z) :=
  match n with
  | O => ret None
  | S n' =>
      ln <- load_line line ;;
      if tag ln =? tg then ret (Some i)
      else miss_type_loop tg (next ln) (i + 1) n'
  end.

Definition miss_type (g : globals) (set : set_t) (set_num : Z) (tg : Z) : M Z :=
  let line_count := line_count set in
  if line_count =? 0 then ret (-1)
  else
    found <- miss_type_loop tg (first_line set) 0 (Z.to_nat line_count) ;;
    match found with
    | Some i => ret i
    | None => if line_count =? E g then ret (-2) else ret (-1)
    end.

Fixpoint get_line_loop (line : ptr) (n : nat) : M ptr :=
  match n with
  | O => ret line
  | S n' => ln <- load_line line ;; get_line_loop (next ln) n'
  end.

Definition get_line (set : set_t) (pos : Z) : M ptr :=
  get_line_loop (first_line set) (Z.to_nat pos).

(** The body of [if (type == COLD_MISS_TYPE)]. *)
Definition cold_miss (g : globals) (is_load tg set_num : Z) : M unit :=
  new_line <- xcalloc_line ;;
  init_line new_line tg ;;;
  this_set <- load_set set_num ;;
  (if line_count this_set =? 0 then
     set_first_line set_num new_line ;;;
     set_last_line set_num new_line ;;;
     set_line_count set_num 1
   else
     set_line_count set_num (wrap32 (line_count this_set + 1)) ;;;
     set_next (last_line this_set) new_line ;;;
     set_last_line set_num new_line) ;;;
  (if is_load =? 0 then
     add_dirty_bytes (total_bytes g) ;;;
     set_dirty_bit new_line 1
   else ret tt) ;;;
  add_misses 1.

(** The body of [if (type == CAPACITY_MISS_TYPE)]. *)
Definition capacity_miss (g : globals) (is_load tg set_num : Z) : M unit :=
  new_line <- xcalloc_line ;;
  init_line new_line tg ;;;
  this_set <- load_set set_num ;;
  let first_line0 := first_line this_set in
  (if line_count this_set =? 1 then
     set_first_line set_num new_line ;;;
     set_last_line set_num new_line
   else
     fl <- load_line first_line0 ;;
     set_first_line set_num (next fl) ;;;
     this_set' <- load_set set_num ;;
     set_next (last_line this_set') new_line ;;;
     set_last_line set_num new_line) ;;;
  add_misses 1 ;;;
  add_evictions 1 ;;;
  fl <- load_line first_line0 ;;
  (if dirty_bit fl =? 1 then
     add_dirty_evictions (total_bytes g) ;;;
     sub_dirty_bytes (total_bytes g)
   else ret tt) ;;;
  (if is_load =? 0 then
     add_dirty_bytes (total_bytes g) ;;;
     set_dirty_bit new_line 1
   else ret tt) ;;;
  free first_line0.

(** The block "update new_line's position" of the hit branch: it
    moves the line at position [type] to the end of the list and
    yields [cur_line]. *)
Definition update_position (set_num type : Z) : M ptr :=
  this_set <- load_set set_num ;;
  if type =? wrap32 (line_count this_set - 1) then
    ret (last_line this_set)
  else if type =? 0 then
    let cur_line := first_line this_set in
    cl <- load_line cur_line ;;
    set_first_line set_num (next cl) ;;;
    set_next (last_line this_set) cur_line ;;;
    set_last_line set_num cur_line ;;;
    set_next cur_line NULL ;;;
    ret cur_line
  else
    prev_line <- get_line this_set (wrap32 (type - 1)) ;;
    pl <- load_line prev_line ;;
    let cur_line := next pl in
    cl <- load_line cur_line ;;
    set_next prev_line (next cl) ;;;
    set_next (last_line this_set) cur_line ;;;
    set_last_line set_num cur_line ;;;
    set_next cur_line NULL ;;;
    ret cur_line.

(** The body of [if (type >= 0)]. *)
Definition hit (g : globals) (is_load set_num type : Z) : M unit :=
  cur_line <- update_position set_num type ;;
  add_hits 1 ;;;
  cl <- load_line cur_line ;;
  if (is_load =? 0) && (dirty_bit cl =? 0) then
    add_dirty_bytes (total_bytes g) ;;;
    set_dirty_bit cur_line 1
  else ret tt.

(** One iteration of the [while (fgets ...)] loop; the result is the
    value of [type].  The diagnostic [printf]s under [verbose] do not
    touch the state and are left out. *)
Definition access (g : globals) (ln : trace_line) : M Z :=
  let '(is_load, tg, set_num) := parsing_line g ln in
  this_set <- load_set set_num ;;
  type <- miss_type g this_set set_num tg ;;
  (if type =? COLD_MISS_TYPE then cold_miss g is_load tg set_num else ret tt) ;;;
  (if type =? CAPACITY_MISS_TYPE then capacity_miss g is_load tg set_num else ret tt) ;;;
  (if 0 <=? type then hit g is_load set_num type else ret tt) ;;;
  ret type.

(** The whole loop over the lines of the trace, in file order; the
    result lists the [type] of every access. *)
Fixpoint run (g : globals) (trace : list trace_line) : M (list Z) :=
  match trace with
  | [] => ret []
  | ln :: trace' =>
      type <- access g ln ;;
      types <- run g trace' ;;
      ret (type :: types)
  end.

(** The state after the two [xcalloc]s of [main]: [total_sets] zeroed
    sets, zeroed statistics, no line allocated. *)
Definition init (g : globals) : machine :=
  Machine ∅ 1%positive (replicate (Z.to_nat (total_sets g)) (CSet 0 NULL NULL)) (Stats 0 0 0 0 0).

(** How a run of [main] ends. *)
Inductive outcome : Type :=
| Aborted
| Faulted
| Exited (types : list Z) (summary : csim_stats_t).

(** [main] up to the loop.  [calloc] of the set array fails when
    [total_sets], converted to [size_t], is out of reach, which is the
    case for every negative value; [file_open] aborts when the trace
    cannot be opened. *)
Definition main_init (argv : list cli_opt) (trace_opens : bool) : option (globals * machine) :=
  let g := set_global_values argv in
  if total_sets g <? 0 then None
  else if trace_opens then Some (g, init g)
  else None.

Definition main (argv : list cli_opt) (trace_file : option (list trace_line)) : outcome :=
  match main_init argv (bool_decide (is_Some trace_file)) with
  | None => Aborted
  | Some (g, m0) =>
      match run g (default [] trace_file) m0 with
      | None => Faulted
      | Some (types, m) => Exited types (stats m)
      end
  end.

(** The resident lines of a set as [miss_type] scans them: the first
    [line_count] nodes reached from [first_line], each as
    [(tag, dirty_bit)]. *)
Fixpoint walk (h : gmap loc line_t) (p : ptr) (n : nat) : option (list (Z * Z)) :=
  match n with
  | O => Some []
  | S n' =>
      match p with
      | Some l =>
          match h !! l with
          | Some ln =>
              match walk h (next ln) n' with
              | Some r => Some ((tag ln, dirty_bit ln) :: r)
              | None => None
              end
          | None => None
          end
      | None => None
      end
  end.

Definition set_view (h : gmap loc line_t) (st : set_t) : option (list (Z * Z)) :=
  walk h (first_line st) (Z.to_nat (line_count st)).

Definition cache_view (m : machine) : option (list (list (Z * Z))) :=
  mapM (set_view (heap m)) (sets m).

(** ** The list-level model

    The same loop body on plain lists: a set is its [line_count] and
    the sequence of [(tag, dirty_bit)] of its chain of lines, least
    recently used first.  It is related to the heap-level functions by
    [access_refines]; the properties of the simulator are proved on
    it and carried over. *)

Module ListModel.

Record lset : Type := LSet {
  l_count : Z;
  l_lines : list (Z * Z)
}.

Record lstate : Type := LState {
  l_sets : list lset;
  l_stats : csim_stats_t
}.

Fixpoint find_tag (tg : Z) (es : list (Z * Z)) (i : Z) : option Z :=
  match es with
  | [] => None
  | e :: es' => if e.1 =? tg then Some i else find_tag tg es' (i + 1)
  end.

Definition l_miss_type (g : globals) (ls : lset) (tg : Z) : Z :=
  if l_count ls =? 0 then -1
  else match find_tag tg (take (Z.to_nat (l_count ls)) (l_lines ls)) 0 with
       | Some i => i
       | None => if l_count ls =? E g then -2 else -1
       end.

Definition new_entry (is_load tg : Z) : Z * Z :=
  (tg, if is_load =? 0 then 1 else 0).

Definition touch (is_load : Z) (e : Z * Z) : Z * Z :=
  (e.1, if (is_load =? 0) && (e.2 =? 0) then 1 else e.2).

Definition l_cold (is_load tg : Z) (ls : lset) : lset :=
  if l_count ls =? 0 then LSet 1 [new_entry is_load tg]
  else LSet (wrap32 (l_count ls + 1)) (l_lines ls ++ [new_entry is_load tg]).

Definition l_capacity (is_load tg : Z) (ls : lset) : lset :=
  if l_count ls =? 1 then LSet (l_count ls) [new_entry is_load tg]
  else LSet (l_count ls) (tail (l_lines ls) ++ [new_entry is_load tg]).

Definition l_hit (is_load type : Z) (ls : lset) : lset :=
  let i := Z.to_nat type in
  LSet (l_count ls)
       (take i (l_lines ls) ++ drop (S i) (l_lines ls)
          ++ [touch is_load (nth i (l_lines ls) (0, 0))]).

Definition stats_cold (g : globals) (is_load : Z) (st : csim_stats_t) : csim_stats_t :=
  Stats (hits st) (misses st + 1) (evictions st)
        (if is_load =? 0 then dirty_bytes st + total_bytes g else dirty_bytes st)
        (dirty_evictions st).

Definition stats_capacity (g : globals) (is_load victim_dirty : Z) (st : csim_stats_t)
  : csim_stats_t :=
  let db := if victim_dirty =? 1 then dirty_bytes st - total_bytes g else dirty_bytes st in
  Stats (hits st) (misses st + 1) (evictions st + 1)
        (if is_load =? 0 then db + total_bytes g else db)
        (if victim_dirty =? 1 then dirty_evictions st + total_bytes g else dirty_evictions st).

Definition stats_hit (g : globals) (is_load line_dirty : Z) (st : csim_stats_t)
  : csim_stats_t :=
  Stats (hits st + 1) (misses st) (evictions st)
        (if (is_load =? 0) && (line_dirty =? 0) then dirty_bytes st + total_bytes g
         else dirty_bytes st)
        (dirty_evictions st).

(** What one access does to its set and to the counters, given the
    [type] computed by [l_miss_type]. *)
Definition l_apply (g : globals) (is_load tg type : Z) (ls : lset) (st : csim_stats_t)
  : lset * csim_stats_t :=
  if type =? COLD_MISS_TYPE then
    (l_cold is_load tg ls, stats_cold g is_load st)
  else if type =? CAPACITY_MISS_TYPE then
    (l_capacity is_load tg ls,
     stats_capacity g is_load (hd (0, 0) (l_lines ls)).2 st)
  else
    (l_hit is_load type ls,
     stats_hit g is_load (nth (Z.to_nat type) (l_lines ls) (0, 0)).2 st).

(** One access.  An index outside the array leaves the state as it
    is; for a well-formed configuration the index is always inside
    ([set_num_in_range]). *)
Definition l_access (g : globals) (ln : trace_line) (a : lstate) : Z * lstate :=
  let '(is_load, tg, set_num) := parsing_line g ln in
  match l_sets a !! Z.to_nat set_num with
  | None => (0, a)
  | Some ls =>
      let type := l_miss_type g ls tg in
      let '(ls', st') := l_apply g is_load tg type ls (l_stats a) in
      (type, LState (<[Z.to_nat set_num := ls']> (l_sets a)) st')
  end.

Fixpoint l_run (g : globals) (trace : list trace_line) (a : lstate) : list Z * lstate :=
  match trace with
  | [] => ([], a)
  | ln :: trace' =>
      let '(type, a') := l_access g ln a in
      let '(types, a'') := l_run g trace' a' in
      (type :: types, a'')
  end.

Definition l_init (g : globals) : lstate :=
  LState (replicate (Z.to_nat (total_sets g)) (LSet 0 [])) (Stats 0 0 0 0 0).

Definition l_view (ls : lset) : list (Z * Z) :=
  take (Z.to_nat (l_count ls)) (l_lines ls).

End ListModel.
Import ListModel.

(** ** Well-formed configurations *)

(** The set array is not empty and [set_mask] is [total_sets - 1]
    without overflow; this holds after [set_global_values] whenever
    [pow2 s] is positive. *)
Definition wf_globals (g : globals) : Prop :=
  0 < total_sets g ∧ set_mask g = total_sets g - 1.

(** ** Representation of the list-level state in the heap *)

(** [lseg h p q ns]: following [next] from [p] visits exactly the
    nodes [ns] (location with tag and dirty bit) and then reaches
    [q]. *)
Fixpoint lseg (h : gmap loc line_t) (p q : ptr) (ns : list (loc * (Z * Z))) : Prop :=
  match ns with
  | [] => p = q
  | n :: ns' =>
      p = Some n.1 ∧
      ∃ ln, h !! n.1 = Some ln ∧ (tag ln, dirty_bit ln) = n.2 ∧ lseg h (next ln) q ns'
  end.

(** The chain length and the stored count agree modulo the width of
    [int]; the chain never gets longer than [2^32] nodes. *)
Definition counted (ls : lset) : Prop :=
  l_count ls = wrap32 (Z.of_nat (length (l_lines ls))) ∧
  Z.of_nat (length (l_lines ls)) <= 4294967296.

Definition set_rep (h : gmap loc line_t) (st : set_t) (ns : list (loc * (Z * Z))) (ls : lset)
  : Prop :=
  lseg h (first_line st) NULL ns ∧
  last_line st = last ns.*1 ∧
  NoDup ns.*1 ∧
  l_count ls = line_count st ∧
  l_lines ls = ns.*2.

(** Every allocated location lies below the allocator's mark. *)
Definition bounded (h : gmap loc line_t) (k : loc) : Prop :=
  ∀ x, is_Some (h !! x) → (x < k)%positive.

Definition rep_by (nss : list (list (loc * (Z * Z)))) (m : machine) (a : lstate) : Prop :=
  length (sets m) = length nss ∧
  length (l_sets a) = length nss ∧
  (∀ i st ns ls, sets m !! i = Some st → nss !! i = Some ns → l_sets a !! i = Some ls →
                 set_rep (heap m) st ns ls) ∧
  (∀ i j ns1 ns2 x, i ≠ j → nss !! i = Some ns1 → nss !! j = Some ns2 →
                    x ∈ ns1.*1 → x ∉ ns2.*1) ∧
  bounded (heap m) (brk m) ∧
  l_stats a = stats m.

Definition Rep (m : machine) (a : lstate) : Prop :=
  ∃ nss, rep_by nss m a.

(** Weakest precondition of a monadic computation: it does not fault
    and its result satisfies [Q]. *)
Definition wp {A} (c : M A) (m : machine) (Q : A → machine → Prop) : Prop :=
  ∃ a m', c m = Some (a, m') ∧ Q a m'.

(** ** Invariants of the list-level model *)

(** Tags of the lines a scan can see are pairwise different. *)
Definition tags_unique (ls : lset) : Prop :=
  0 < l_count ls → NoDup (l_lines ls).*1.

Definition general_inv (a : lstate) : Prop :=
  Forall (λ ls, counted ls ∧ tags_unique ls) (l_sets a).

Definition is_dirty (e : Z * Z) : bool := e.2 =? 1.

Definition count_dirty (es : list (Z * Z)) : Z :=
  Z.of_nat (length (filter (λ e, is_dirty e = true) es)).

Definition dirty_lines (v : list (list (Z * Z))) : Z :=
  count_dirty (concat v).

(** The stronger invariant of runs in which [line_count] does not
    overflow: [n] accesses have been processed so far. *)
Definition exact_set (g : globals) (n : nat) (ls : lset) : Prop :=
  l_count ls = Z.of_nat (length (l_lines ls)) ∧
  (1 <= E g → Z.of_nat (length (l_lines ls)) <= E g) ∧
  (length (l_lines ls) ≤ n)%nat ∧
  NoDup (l_lines ls).*1 ∧
  Forall (λ e, e.2 = 0 ∨ e.2 = 1) (l_lines ls).

Definition exact_inv (g : globals) (n : nat) (a : lstate) : Prop :=
  Forall (exact_set g n) (l_sets a) ∧
  dirty_bytes (l_stats a) = total_bytes g * dirty_lines (l_lines <$> l_sets a).

(** ** Time of last reference *)

Definition refers (g : globals) (set_num tg : Z) (ln : trace_line) : bool :=
  let '(_, tg', set_num') := parsing_line g ln in
  (set_num' =? set_num) && (tg' =? tg).

(** Position in the trace (counted from [k]) of the last access to
    line [tg] of set [set_num]. *)
Fixpoint last_ref_from (g : globals) (set_num tg : Z) (trace : list trace_line) (k : nat)
  : option nat :=
  match trace with
  | [] => None
  | ln :: trace' =>
      match last_ref_from g set_num tg trace' (S k) with
      | Some t => Some t
      | None => if refers g set_num tg ln then Some k else None
      end
  end.

Definition last_ref (g : globals) (trace : list trace_line) (set_num tg : Z) : option nat :=
  last_ref_from g set_num tg trace 0.

(** [older g trace set_num e1 e2]: both lines have been referenced and
    [e1] less recently than [e2]. *)
Definition older (g : globals) (trace : list trace_line) (set_num : Z) (e1 e2 : Z * Z) : Prop :=
  ∃ t1 t2, last_ref g trace set_num e1.1 = Some t1 ∧
           last_ref g trace set_num e2.1 = Some t2 ∧ (t1 < t2)%nat.

(** The order of every set is the order of last reference. *)
Definition lru_ordered (g : globals) (trace : list trace_line) (a : lstate) : Prop :=
  ∀ i ls, l_sets a !! i = Some ls →
    Forall (λ e, is_Some (last_ref g trace (Z.of_nat i) e.1)) (l_lines ls) ∧
    StronglySorted (older g trace (Z.of_nat i)) (l_lines ls).

(** ** Classification of an access by the value of [type] *)

Inductive access_kind : Type := Hit | ColdMiss | CapacityMiss.

(** The three tests of the loop body, in source order. *)
Definition is_cold (type : Z) : bool := type =? COLD_MISS_TYPE.
Definition is_capacity (type : Z) : bool := type =? CAPACITY_MISS_TYPE.
Definition is_hit (type : Z) : bool := 0 <=? type.

Definition kinds_of (type : Z) : list access_kind :=
  (if is_cold type then [ColdMiss] else []) ++
  (if is_capacity type then [CapacityMiss] else []) ++
  (if is_hit type then [Hit] else []).

Definition count_kind (f : Z → bool) (types : list Z) : Z :=
  Z.of_nat (length (filter (λ t, f t = true) types)).

(** Whether an access of the given [type] to set [set_num] evicts a
    dirty line, given the views before the access: it is a capacity
    miss and the first line of the set has its dirty bit set. *)
Definition dirty_victim (v : list (list (Z * Z))) (set_num type : Z) : bool :=
  is_capacity type &&
  match v !! Z.to_nat set_num with
  | Some (e :: _) => is_dirty e
  | _ => false
  end.

(** A trace of [n] loads of the addresses [0, 1, ..., n - 1]. *)
Definition distinct_loads (n : nat) : list trace_line :=
  (λ k : nat, TraceLine "L" (Z.of_nat k) 1) <$> seq 0 n.

Definition distinct_lines (n : nat) : list (Z * Z) :=
  (λ k : nat, (Z.of_nat k, 0)) <$> seq 0 n.

(** ** Releasing the cache: [free_mem] *)

(** The loop [while (next) { cur = next; next = next->next; free(cur); }].
    Every iteration frees one allocated line, so the loop runs at most
    as many times as the heap has lines; [fuel] is that bound
    ([free_set] passes the size of the heap).  A pointer that is still
    not null when the bound is used up points to a freed line, and
    dereferencing it is a fault. *)
Fixpoint free_rest (fuel : nat) (next0 : ptr) : M unit :=
  match next0 with
  | None => ret tt
  | Some _ =>
      match fuel with
      | O => λ _, None
      | S fuel' =>
          cur <- load_line next0 ;;
          free next0 ;;;
          free_rest fuel' (next cur)
      end
  end.

(** The body of the [for] loop of [free_mem], for the copy [set] of
    [sets[i]]. *)
Definition free_set (set : set_t) : M unit :=
  if 0 <? line_count set then
    let cur := first_line set in
    cl <- load_line cur ;;
    free cur ;;;
    (λ m, free_rest (size (heap m)) (next cl) m)
  else ret tt.

(** The [for] loop of [free_mem] at index [i] with [n] iterations
    left. *)
Fixpoint free_sets (i : Z) (n : nat) : M unit :=
  match n with
  | O => ret tt
  | S n' =>
      set <- load_set i ;;
      free_set set ;;;
      free_sets (i + 1) n'
  end.

(** The two blocks that [main] gets from [xcalloc] before the loop
    and hands to [free_mem]: [*stats] and the [sets] array.  A field
    is [true] while its block is allocated. *)
Record blocks : Type := Blocks {
  stats_block : bool;
  sets_block : bool
}.

(** [free(p)] for one of these blocks; to free a block that is not
    allocated is a fault. *)
Definition free_block (allocated : bool) : option bool :=
  if allocated then Some false else None.

(** [free_mem]: [free(stats)], the loop over the sets, which reads
    the [sets] array, and [free(sets)].  What the machine still shows
    in [stats] and [sets] afterwards is no longer memory of the
    program. *)
Definition free_mem (g : globals) (bl : blocks) (m : machine) : option (blocks * machine) :=
  match free_block (stats_block bl) with
  | None => None
  | Some stats' =>
      if sets_block bl then
        match free_sets 0 (Z.to_nat (total_sets g)) m with
        | None => None
        | Some (_, m') =>
            match free_block (sets_block bl) with
            | None => None
            | Some sets' => Some (Blocks stats' sets', m')
            end
        end
      else None
  end.

(** ** Properties of the lines in the heap *)

(** What [init_line] establishes for a line and the loop keeps. *)
Definition line_ok (ln : line_t) : Prop :=
  valid_bit ln = 1 ∧ (dirty_bit ln = 0 ∨ dirty_bit ln = 1).

Definition lines_ok (m : machine) : Prop :=
  map_Forall (λ _ ln, line_ok ln) (heap m).

(** [preserves c]: whenever [c] returns, it returns in a machine
    whose lines are [line_ok] again. *)
Definition preserves {A} (c : M A) : Prop :=
  ∀ m a m', lines_ok m → c m = Some (a, m') → lines_ok m'.

(** [tracked c d]: whenever [c] returns [a], the heap has [d a] more
    lines than before, all of them below the allocator's mark. *)
Definition tracked {A} (c : M A) (d : A → Z) : Prop :=
  ∀ m a m', bounded (heap m) (brk m) → c m = Some (a, m') →
    bounded (heap m') (brk m') ∧
    Z.of_nat (size (heap m')) = Z.of_nat (size (heap m)) + d a.

(** The number of lines a cache holds, from its views. *)
Definition occupancy (v : list (list (Z * Z))) : Z :=
  Z.of_nat (length (concat v)).

(** What freeing the nodes [ns] does to a machine. *)
Definition freed (ns : list (loc * (Z * Z))) (m m' : machine) : Prop :=
  sets m' = sets m ∧
  (∀ x, x ∉ ns.*1 → heap m' !! x = heap m !! x) ∧
  (∀ x, x ∈ ns.*1 → heap m' !! x = None).

(** ** One access in terms of the lines of its set *)

(** [is_step g is_load tg lines st type lines' st']: an access with
    tag [tg] to a set holding [lines], with counters [st], has the
    given [type] and leaves the set holding [lines'] and the counters
    [st'].  The three alternatives are the three [if]s of the loop
    body. *)
Definition is_step (g : globals) (is_load tg : Z) (lines : list (Z * Z)) (st : csim_stats_t)
           (type : Z) (lines' : list (Z * Z)) (st' : csim_stats_t) : Prop :=
  (type = COLD_MISS_TYPE ∧ (tg ∉ lines.*1) ∧
   (lines = [] ∨ Z.of_nat (length lines) ≠ E g) ∧
   lines' = lines ++ [(tg, if is_load =? 0 then 1 else 0)] ∧
   st' = stats_cold g is_load st) ∨
  (type = CAPACITY_MISS_TYPE ∧ (tg ∉ lines.*1) ∧
   Z.of_nat (length lines) = E g ∧
   ∃ victim rest, lines = victim :: rest ∧
                  lines' = rest ++ [(tg, if is_load =? 0 then 1 else 0)] ∧
                  st' = stats_capacity g is_load victim.2 st) ∨
  (∃ l1 d l2, lines = l1 ++ (tg, d) :: l2 ∧
              type = Z.of_nat (length l1) ∧
              lines' = l1 ++ l2 ++ [(tg, if (is_load =? 0) && (d =? 0) then 1 else d)] ∧
              st' = stats_hit g is_load d st).

(** The number of stores in a trace. *)
Definition stores (trace : list trace_line) : Z :=
  Z.of_nat (length (filter (λ ln, Ascii.eqb (op ln) "S"%char = true) trace)).

(** No line is dirty and both dirty counters are 0. *)
Definition clean (a : lstate) : Prop :=
  Forall (λ ls, Forall (λ e : Z * Z, e.2 = 0) (l_lines ls)) (l_sets a) ∧
  dirty_bytes (l_stats a) = 0 ∧ dirty_evictions (l_stats a) = 0.

(** ** Two caches that differ in associativity only *)

(** Every set of [a1] holds, in the same order, the most recently
    used lines of the same set of [a2]. *)
Definition included (a1 a2 : lstate) : Prop :=
  Forall2 (λ ls1 ls2, (l_lines ls1).*1 `suffix_of` (l_lines ls2).*1) (l_sets a1) (l_sets a2).

(** * A shallow embedding of the transpose functions [trans.c]

    The matrices are lists of rows, indexed as the C arrays are, with
    an access outside the declared bounds a fault; [size_t] is [Z]
    with its wrap-around written out; the elements, C [double]s, are
    only copied and compared, so their type [T] and the comparison
    [dne] (the operator [!=]) are left open. *)

Module Trans.

(** How a statement ends: normally with the next state, by a
    [return] of [is_transpose], with an access outside an array, by a
    failed [assert], or never within the bound on iterations that
    [for_loop] computes. *)
Inductive ctl (S : Type) : Type :=
| Next (st : S)
| Return (r : bool)
| Fault
| Abort
| Fuel.
Arguments Next {S} st.
Arguments Return {S} r.
Arguments Fault {S}.
Arguments Abort {S}.
Arguments Fuel {S}.

Definition ctl_bind {S S'} (c : ctl S) (k : S → ctl S') : ctl S' :=
  match c with
  | Next st => k st
  | Return r => Return r
  | Fault => Fault
  | Abort => Abort
  | Fuel => Fuel
  end.

Declare Scope ctl_scope.
Delimit Scope ctl_scope with ctl.
Notation "x <- c ;; k" := (ctl_bind c (λ x, k))
  (at level 100, c at next level, right associativity) : ctl_scope.
Notation "c ;;; k" := (ctl_bind c (λ _, k))
  (at level 100, right associativity) : ctl_scope.
Local Open Scope ctl_scope.

Definition wrap64 (x : Z) : Z := x mod 18446744073709551616.

(** [for (size_t v = lo; v < hi; v = v + step) body]: [hi] does not
    change in the loops of [trans.c].  A loop that counts upwards by
    at least one without wrapping around makes fewer than [hi]
    iterations, which is the bound [for_loop] supplies. *)
Fixpoint for_loop_rec {S} (fuel : nat) (step hi : Z) (body : Z → S → ctl S) (v : Z) (st : S)
  : ctl S :=
  if v <? hi then
    match fuel with
    | O => Fuel
    | S fuel' =>
        st' <- body v st ;;
        for_loop_rec fuel' step hi body (wrap64 (v + step)) st'
    end
  else Next st.

Definition for_loop {S} (lo hi step : Z) (body : Z → S → ctl S) (st : S) : ctl S :=
  for_loop_rec (Z.to_nat hi) step hi body lo st.

Section Trans.
Context {T : Type}.

(** The operator [!=] on [double]. *)
Variable dne : T → T → bool.

(** [X[i][j]] as an rvalue and [X[i][j] = v]. *)
Definition rd2 (X : list (list T)) (i j : Z) : ctl T :=
  if (i <? 0) || (j <? 0) then Fault
  else match X !! Z.to_nat i with
       | Some row => match row !! Z.to_nat j with
                     | Some v => Next v
                     | None => Fault
                     end
       | None => Fault
       end.

Definition wr2 (X : list (list T)) (i j : Z) (v : T) : ctl (list (list T)) :=
  if (i <? 0) || (j <? 0) then Fault
  else match X !! Z.to_nat i with
       | Some row => match row !! Z.to_nat j with
                     | Some _ => Next (<[Z.to_nat i := <[Z.to_nat j := v]> row]> X)
                     | None => Fault
                     end
       | None => Fault
       end.

(** [tmp[k]] as an rvalue and [tmp[k] = v]. *)
Definition rd1 (t : list T) (k : Z) : ctl T :=
  if k <? 0 then Fault
  else match t !! Z.to_nat k with
       | Some v => Next v
       | None => Fault
       end.

Definition wr1 (t : list T) (k : Z) (v : T) : ctl (list T) :=
  if k <? 0 then Fault
  else match t !! Z.to_nat k with
       | Some _ => Next (<[Z.to_nat k := v]> t)
       | None => Fault
       end.

(** What the transpose functions write: [B] and [tmp].  The length
    of the list [tmp] is [TMPCOUNT], which is declared in
    [cachelab.h] and not among the sources. *)
Record mem : Type := Mem {
  matB : list (list T);
  tmp : list T
}.

Definition block : Z := 8.

(** [is_transpose]; the [fprintf] before [return false] is left out. *)
Definition is_transpose (M N : Z) (A B : list (list T)) : ctl unit :=
  for_loop 0 N 1 (λ i _,
    for_loop 0 M 1 (λ j _,
      a <- rd2 A i j ;;
      b <- rd2 B j i ;;
      if dne a b then Return false else Next tt) tt) tt ;;;
  Return true.

(** [assert(is_transpose(M, N, A, B))]. *)
Definition assert_is_transpose (M N : Z) (A : list (list T)) (st : mem) : ctl mem :=
  match is_transpose M N A (matB st) with
  | Return true => Next st
  | Return false => Abort
  | Next _ => Fault
  | Fault => Fault
  | Abort => Abort
  | Fuel => Fuel
  end.

Definition assert (c : bool) : ctl unit := if c then Next tt else Abort.

(** [B[x][y] = A[y'][x']]. *)
Definition copy (A : list (list T)) (x y y' x' : Z) (st : mem) : ctl mem :=
  a <- rd2 A y' x' ;;
  B' <- wr2 (matB st) x y a ;;
  Next (Mem B' (tmp st)).

(** The block on the diagonal of [trans_basic], by way of [tmp];
    the pair carries [idx]. *)
Definition diagonal_block (A : list (list T)) (i j : Z) (st : mem) : ctl mem :=
  r1 <- for_loop i (wrap64 (i + block)) 1 (λ i1 s,
          for_loop j (wrap64 (j + block)) 1 (λ j1 s,
            let '(st, idx) := s in
            a <- rd2 A j1 i1 ;;
            t' <- wr1 (tmp st) idx a ;;
            Next (Mem (matB st) t', wrap64 (idx + 1))) s) (st, 0) ;;
  r2 <- for_loop i (wrap64 (i + block)) 1 (λ i1 s,
          for_loop j (wrap64 (j + block)) 1 (λ j1 s,
            let '(st, idx) := s in
            a <- rd1 (tmp st) idx ;;
            B' <- wr2 (matB st) i1 j1 a ;;
            Next (Mem B' (tmp st), wrap64 (idx + 1))) s) (r1.1, 0) ;;
  Next r2.1.

Definition trans_basic (M N : Z) (A : list (list T)) (st : mem) : ctl mem :=
  assert (0 <? M) ;;;
  assert (0 <? N) ;;;
  let multN := wrap64 (N / block * block) in
  let multM := wrap64 (M / block * block) in
  st <- for_loop 0 multM block (λ i st,
          for_loop 0 multN block (λ j st,
            if i =? j then diagonal_block A i j st
            else
              for_loop i (wrap64 (i + block)) 1 (λ i1 st,
                for_loop j (wrap64 (j + block)) 1 (λ j1 st,
                  copy A i1 j1 j1 i1 st) st) st) st) st ;;
  st <- (if negb (multN =? N) || negb (multM =? M) then
           st <- for_loop 0 multM 1 (λ i st,
                   for_loop multN N 1 (λ j st, copy A j i i j st) st) st ;;
           st <- for_loop multM M 1 (λ i st,
                   for_loop 0 multN 1 (λ j st, copy A j i i j st) st) st ;;
           for_loop multM M 1 (λ i st,
             for_loop multN N 1 (λ j st, copy A i j j i st) st) st
         else Next st) ;;
  assert_is_transpose M N A st.

(** [tmp[8 * di + dj] = A[i][j]; B[j][i] = tmp[8 * di + dj];] *)
Definition copy_through_tmp (A : list (list T)) (i j : Z) (st : mem) : ctl mem :=
  let di := i mod 8 in
  let dj := j mod 8 in
  a <- rd2 A i j ;;
  t' <- wr1 (tmp st) (wrap64 (wrap64 (8 * di) + dj)) a ;;
  a' <- rd1 t' (wrap64 (wrap64 (8 * di) + dj)) ;;
  B' <- wr2 (matB st) j i a' ;;
  Next (Mem B' t').

Definition trans_tmp (M N : Z) (A : list (list T)) (st : mem) : ctl mem :=
  assert (0 <? M) ;;;
  assert (0 <? N) ;;;
  st <- (if M <? block then
           for_loop 0 M 1 (λ j st,
             for_loop 0 N 1 (λ i st, copy A j i i j st) st) st
         else if N <? block then
           for_loop 0 N 1 (λ i st,
             for_loop 0 M 1 (λ j st, copy A j i i j st) st) st
         else
           for_loop 0 N 1 (λ i st,
             for_loop 0 M 1 (λ j st, copy_through_tmp A i j st) st) st) ;;
  assert_is_transpose M N A st.

Definition transpose_submit (M N : Z) (A : list (list T)) (st : mem) : ctl mem :=
  if M =? N then trans_basic M N A st else trans_tmp M N A st.

(** ** What a transpose is *)

(** [X] has [r] rows of [c] elements. *)
Definition shape (r c : Z) (X : list (list T)) : Prop :=
  Z.of_nat (length X) = r ∧ Forall (λ row, Z.of_nat (length row) = c) X.

(** [B[x][y]] is [A[y][x]] wherever [W x y] holds. *)
Definition transposed_on (W : Z → Z → Prop) (A B : list (list T)) : Prop :=
  ∀ x y, W x y → ∃ v, rd2 B x y = Next v ∧ rd2 A y x = Next v.

Definition whole (M N : Z) (x y : Z) : Prop := 0 <= x < M ∧ 0 <= y < N.

(** The invariant of the loops that fill [B]: the arrays keep their
    bounds, [tmp] has room for a block, and [B] is right on [W]. *)
Definition good (M N : Z) (A : list (list T)) (W : Z → Z → Prop) (st : mem) : Prop :=
  shape M N (matB st) ∧ 64 <= Z.of_nat (length (tmp st)) ∧ transposed_on W A (matB st).

(** [tmp] holds the first [n] elements of the block of [A] at
    [(i, j)] that [trans_basic] copies, row by row. *)
Definition tmp_holds (A : list (list T)) (t : list T) (i j n : Z) : Prop :=
  ∀ k, 0 <= k < n → ∃ v, rd1 t k = Next v ∧ rd2 A (j + k mod 8) (i + k / 8) = Next v.

End Trans.

End Trans.

(** * Proofs *)

(** ** Machine arithmetic *)

Lemma wrap32_id (x : Z) : INT_MIN <= x <= INT_MAX → wrap32 x = x.
Proof. unfold wrap32, INT_MIN, INT_MAX. intros Hx. rewrite Z.mod_small; lia. Qed.

Lemma wrap32_is_int (x : Z) : is_int (wrap32 x).
Proof.
  unfold is_int, wrap32, INT_MIN, INT_MAX.
  pose proof (Z.mod_pos_bound (x + 2147483648) 4294967296). lia.
Qed.

(** With the chain bounded by [2^32], a positive count is the length
    itself. *)
Lemma counted_pos (ls : lset) :
  counted ls → 0 < l_count ls → l_count ls = Z.of_nat (length (l_lines ls)).
Proof.
  unfold counted, wrap32. intros [Hc Hb] Hpos. rewrite Hc in *.
  pose proof (Z.mod_pos_bound (Z.of_nat (length (l_lines ls)) + 2147483648) 4294967296).
  assert (Hlt : Z.of_nat (length (l_lines ls)) < 2147483648 ∨
                2147483648 <= Z.of_nat (length (l_lines ls))) by lia.
  destruct Hlt as [Hlt|Hge].
  - rewrite Z.mod_small; lia.
  - exfalso.
    assert (Z.of_nat (length (l_lines ls)) = 4294967296 ∨
            Z.of_nat (length (l_lines ls)) < 4294967296) as [Heq|Hlt2] by lia.
    + rewrite Heq in Hpos. vm_compute in Hpos. discriminate.
    + rewrite <- (Z.mod_add _ (-1) 4294967296) in Hpos by lia.
      rewrite Z.mod_small in Hpos; lia.
Qed.

Lemma counted_nonpos_view (ls : lset) :
  l_count ls <= 0 → l_view ls = [].
Proof.
  intros H. unfold l_view. replace (Z.to_nat (l_count ls)) with O by lia. reflexivity.
Qed.

Lemma counted_pos_view (ls : lset) :
  counted ls → 0 < l_count ls → l_view ls = l_lines ls.
Proof.
  intros Hc Hp. unfold l_view. rewrite (counted_pos ls Hc Hp), Nat2Z.id.
  apply firstn_all.
Qed.

(** A count other than zero means a chain that is neither empty nor
    at its bound. *)
Lemma counted_nonzero (ls : lset) :
  counted ls → l_count ls ≠ 0 →
  0 < Z.of_nat (length (l_lines ls)) < 4294967296.
Proof.
  unfold counted. intros [Hc Hb] Hne.
  assert (Z.of_nat (length (l_lines ls)) ≠ 0).
  { intros H0. rewrite H0 in Hc. apply Hne. rewrite Hc. reflexivity. }
  assert (Z.of_nat (length (l_lines ls)) ≠ 4294967296).
  { intros H0. rewrite H0 in Hc. apply Hne. rewrite Hc. reflexivity. }
  lia.
Qed.

(** ** [pow2] *)

Lemma abs_quot2 (index : Z) : Z.abs (index ÷ 2) = Z.abs index / 2.
Proof.
  rewrite <- (Z.quot_abs index 2) by lia. change (Z.abs 2) with 2.
  apply Z.quot_div_nonneg; lia.
Qed.

Lemma log2_abs_quot2 (index : Z) :
  index ÷ 2 ≠ 0 → Z.log2 (Z.abs (index ÷ 2)) + 1 <= Z.log2 (Z.abs index).
Proof.
  intros Hq. rewrite abs_quot2.
  assert (index ≠ 0) by (intros ->; apply Hq; reflexivity).
  change 2 with (2 ^ 1) at 1. rewrite <- Z.shiftr_div_pow2 by lia.
  rewrite Z.log2_shiftr by lia.
  assert (0 < Z.log2 (Z.abs index)).
  { apply Z.log2_pos. destruct (Z.eq_dec (Z.abs index) 1) as [He|Hne].
    - exfalso. apply Hq. destruct index as [|p|p]; simpl in He; try lia;
        injection He as ->; reflexivity.
    - lia. }
  lia.
Qed.

Lemma pow2_rec_fuel (n m : nat) (index : Z) :
  Z.log2 (Z.abs index) + 1 < Z.of_nat n →
  Z.log2 (Z.abs index) + 1 < Z.of_nat m →
  pow2_rec n index = pow2_rec m index.
Proof.
  revert m index. induction n as [|n IH]; intros m index Hn Hm.
  - pose proof (Z.log2_nonneg (Z.abs index)). lia.
  - destruct m as [|m]; [pose proof (Z.log2_nonneg (Z.abs index)); lia|].
    simpl. destruct (index =? 0) eqn:H0; [reflexivity|].
    apply Z.eqb_neq in H0.
    destruct (Z.eq_dec (index ÷ 2) 0) as [Hq|Hq].
    { rewrite Hq. destruct n, m; try reflexivity;
        pose proof (Z.log2_nonneg (Z.abs index)); lia. }
    pose proof (log2_abs_quot2 index Hq).
    rewrite (IH m (index ÷ 2)) by lia. reflexivity.
Qed.

(** The recursion equation of the C function. *)
Lemma pow2_unfold (index : Z) :
  pow2 index =
    if index =? 0 then 1
    else let half_res := pow2 (Z.quot index 2) in
         if Z.rem index 2 =? 0 then wrap32 (half_res * half_res)
         else wrap32 (wrap32 (2 * half_res) * half_res).
Proof.
  unfold pow2 at 1.
  replace (S (Z.to_nat (Z.log2 (Z.abs index))) + 1)%nat
    with (S (S (Z.to_nat (Z.log2 (Z.abs index))))) by lia.
  set (fuel := S (Z.to_nat (Z.log2 (Z.abs index)))).
  change (pow2_rec (S fuel) index)
    with (if index =? 0 then 1
          else let half_res := pow2_rec fuel (Z.quot index 2) in
               if Z.rem index 2 =? 0 then wrap32 (half_res * half_res)
               else wrap32 (wrap32 (2 * half_res) * half_res)).
  destruct (index =? 0) eqn:H0; [reflexivity|].
  apply Z.eqb_neq in H0. cbv zeta. subst fuel.
  assert (Hfuel : pow2_rec (S (Z.to_nat (Z.log2 (Z.abs index)))) (index ÷ 2)
                  = pow2 (index ÷ 2)).
  { unfold pow2.
    pose proof (Z.log2_nonneg (Z.abs index)).
    destruct (Z.eq_dec (index ÷ 2) 0) as [Hq|Hq].
    - rewrite Hq. reflexivity.
    - pose proof (Z.log2_nonneg (Z.abs (index ÷ 2))).
      pose proof (log2_abs_quot2 index Hq).
      apply pow2_rec_fuel; lia. }
  rewrite Hfuel. reflexivity.
Qed.

(** For the exponents whose power fits an [int], [pow2] is the
    power of two of the absolute value. *)
Lemma pow2_small (n : Z) : -30 <= n <= 30 → pow2 n = 2 ^ Z.abs n.
Proof.
  intros Hn.
  assert (Hall : forallb (λ k, pow2 (Z.of_nat k - 30) =? 2 ^ Z.abs (Z.of_nat k - 30))
                         (seq 0 61) = true) by (vm_compute; reflexivity).
  rewrite forallb_forall in Hall.
  specialize (Hall (Z.to_nat (n + 30))).
  replace (Z.of_nat (Z.to_nat (n + 30)) - 30) with n in Hall by lia.
  apply Z.eqb_eq, Hall, in_seq. lia.
Qed.

Lemma pow2_is_int (n : Z) : is_int (pow2 n).
Proof.
  rewrite pow2_unfold. destruct (n =? 0); [unfold is_int, INT_MIN, INT_MAX; lia|].
  cbv zeta. destruct (_ =? 0); apply wrap32_is_int.
Qed.

Lemma set_global_values_wf (argv : list cli_opt) :
  0 < total_sets (set_global_values argv) → wf_globals (set_global_values argv).
Proof.
  intros Hpos. split; [exact Hpos|].
  unfold set_global_values in *. cbn [total_sets set_mask] in *.
  pose proof (pow2_is_int (s (fold_left apply_opt argv globals0))) as Hi.
  apply wrap32_id. unfold is_int, INT_MIN, INT_MAX in *. lia.
Qed.

Lemma set_num_in_range (g : globals) (ln : trace_line) :
  wf_globals g → 0 <= (parsing_line g ln).2 < total_sets g.
Proof.
  intros [Hpos Hmask]. unfold parsing_line. cbn [snd]. rewrite Hmask.
  set (x := Z.land (addr ln ≫ b g) (total_sets g - 1)).
  assert (Hsub : Z.ldiff x (total_sets g - 1) = 0).
  { apply Z.bits_inj'. intros n Hn. rewrite Z.ldiff_spec, Z.bits_0.
    unfold x. rewrite Z.land_spec.
    destruct (Z.testbit (total_sets g - 1) n); cbn [negb]; rewrite ?andb_false_r; reflexivity. }
  apply Z.ldiff_le in Hsub; lia.
Qed.

(** ** Rules for the monad *)

Section WP.
Context {A B : Type}.

Lemma wp_ret (a : A) (m : machine) (Q : A → machine → Prop) :
  Q a m → wp (ret a) m Q.
Proof. intros H. exists a, m. split; [reflexivity|exact H]. Qed.

Lemma wp_bind (c : M A) (k : A → M B) (m : machine) (Q : B → machine → Prop) :
  wp c m (λ a m', wp (k a) m' Q) → wp (bind c k) m Q.
Proof.
  intros (a & m' & Hc & b' & m'' & Hk & HQ).
  exists b', m''. split; [|exact HQ]. unfold bind. rewrite Hc. exact Hk.
Qed.

Lemma wp_of_eq (c : M A) (m m' : machine) (a : A) (Q : A → machine → Prop) :
  c m = Some (a, m') → Q a m' → wp c m Q.
Proof. intros Hc HQ. exists a, m'. auto. Qed.

Lemma wp_mono (c : M A) (m : machine) (Q Q' : A → machine → Prop) :
  (∀ a m', Q a m' → Q' a m') → wp c m Q → wp c m Q'.
Proof. intros HQ (a & m' & Hc & H). exists a, m'. auto. Qed.
End WP.

Lemma wp_load_line (l : loc) (ln : line_t) (m : machine) (Q : line_t → machine → Prop) :
  heap m !! l = Some ln → Q ln m → wp (load_line (Some l)) m Q.
Proof. intros Hl HQ. exists ln, m. unfold load_line. rewrite Hl. auto. Qed.

Lemma wp_store_line (l : loc) (ln : line_t) (m : machine) (Q : unit → machine → Prop) :
  is_Some (heap m !! l) →
  Q tt (Machine (<[l := ln]> (heap m)) (brk m) (sets m) (stats m)) →
  wp (store_line (Some l) ln) m Q.
Proof.
  intros [old Hl] HQ. eexists tt, _. unfold store_line. rewrite Hl. split; [reflexivity|exact HQ].
Qed.

Lemma wp_xcalloc_line (m : machine) (Q : ptr → machine → Prop) :
  Q (Some (brk m))
    (Machine (<[brk m := Line 0 0 0 NULL]> (heap m)) (Pos.succ (brk m)) (sets m) (stats m)) →
  wp xcalloc_line m Q.
Proof. intros HQ. eexists _, _. split; [reflexivity|exact HQ]. Qed.

Lemma wp_free (l : loc) (m : machine) (Q : unit → machine → Prop) :
  is_Some (heap m !! l) →
  Q tt (Machine (delete l (heap m)) (brk m) (sets m) (stats m)) →
  wp (free (Some l)) m Q.
Proof.
  intros [old Hl] HQ. eexists tt, _. unfold free. rewrite Hl. split; [reflexivity|exact HQ].
Qed.

Lemma wp_load_set (i : Z) (st : set_t) (m : machine) (Q : set_t → machine → Prop) :
  0 <= i → sets m !! Z.to_nat i = Some st → Q st m → wp (load_set i) m Q.
Proof.
  intros Hi Hl HQ. exists st, m. unfold load_set.
  destruct (i <? 0) eqn:Hlt; [apply Z.ltb_lt in Hlt; lia|]. rewrite Hl. auto.
Qed.

Lemma wp_store_set (i : Z) (st : set_t) (m : machine) (Q : unit → machine → Prop) :
  0 <= i → is_Some (sets m !! Z.to_nat i) →
  Q tt (Machine (heap m) (brk m) (<[Z.to_nat i := st]> (sets m)) (stats m)) →
  wp (store_set i st) m Q.
Proof.
  intros Hi [old Hl] HQ. eexists tt, _. unfold store_set.
  destruct (i <? 0) eqn:Hlt; [apply Z.ltb_lt in Hlt; lia|]. rewrite Hl.
  split; [reflexivity|exact HQ].
Qed.

Lemma wp_load_stats (m : machine) (Q : csim_stats_t → machine → Prop) :
  Q (stats m) m → wp load_stats m Q.
Proof. intros HQ. eexists _, _. split; [reflexivity|exact HQ]. Qed.

Lemma wp_store_stats (st : csim_stats_t) (m : machine) (Q : unit → machine → Prop) :
  Q tt (Machine (heap m) (brk m) (sets m) st) → wp (store_stats st) m Q.
Proof. intros HQ. eexists _, _. split; [reflexivity|exact HQ]. Qed.

(** Field assignments, derived. *)

Lemma wp_set_field (f : set_t → set_t) (i : Z) (st : set_t) (m : machine)
      (Q : unit → machine → Prop) :
  0 <= i → sets m !! Z.to_nat i = Some st →
  Q tt (Machine (heap m) (brk m) (<[Z.to_nat i := f st]> (sets m)) (stats m)) →
  wp (st0 <- load_set i ;; store_set i (f st0)) m Q.
Proof.
  intros Hi Hl HQ. apply wp_bind. eapply wp_load_set; [exact Hi|exact Hl|].
  apply wp_store_set; [exact Hi|eauto|exact HQ].
Qed.

Lemma wp_set_line_count (i n : Z) (st : set_t) (m : machine) (Q : unit → machine → Prop) :
  0 <= i → sets m !! Z.to_nat i = Some st →
  Q tt (Machine (heap m) (brk m)
                (<[Z.to_nat i := CSet n (first_line st) (last_line st)]> (sets m)) (stats m)) →
  wp (set_line_count i n) m Q.
Proof. apply (wp_set_field (λ st, CSet n (first_line st) (last_line st))). Qed.

Lemma wp_set_first_line (i : Z) (p : ptr) (st : set_t) (m : machine)
      (Q : unit → machine → Prop) :
  0 <= i → sets m !! Z.to_nat i = Some st →
  Q tt (Machine (heap m) (brk m)
                (<[Z.to_nat i := CSet (line_count st) p (last_line st)]> (sets m)) (stats m)) →
  wp (set_first_line i p) m Q.
Proof. apply (wp_set_field (λ st, CSet (line_count st) p (last_line st))). Qed.

Lemma wp_set_last_line (i : Z) (p : ptr) (st : set_t) (m : machine)
      (Q : unit → machine → Prop) :
  0 <= i → sets m !! Z.to_nat i = Some st →
  Q tt (Machine (heap m) (brk m)
                (<[Z.to_nat i := CSet (line_count st) (first_line st) p]> (sets m)) (stats m)) →
  wp (set_last_line i p) m Q.
Proof. apply (wp_set_field (λ st, CSet (line_count st) (first_line st) p)). Qed.

Lemma wp_set_next (l : loc) (q : ptr) (ln : line_t) (m : machine) (Q : unit → machine → Prop) :
  heap m !! l = Some ln →
  Q tt (Machine (<[l := Line (dirty_bit ln) (valid_bit ln) (tag ln) q]> (heap m))
                (brk m) (sets m) (stats m)) →
  wp (set_next (Some l) q) m Q.
Proof.
  intros Hl HQ. apply wp_bind. eapply wp_load_line; [exact Hl|].
  apply wp_store_line; [eauto|exact HQ].
Qed.

Lemma wp_set_dirty_bit (l : loc) (v : Z) (ln : line_t) (m : machine)
      (Q : unit → machine → Prop) :
  heap m !! l = Some ln →
  Q tt (Machine (<[l := Line v (valid_bit ln) (tag ln) (next ln)]> (heap m))
                (brk m) (sets m) (stats m)) →
  wp (set_dirty_bit (Some l) v) m Q.
Proof.
  intros Hl HQ. apply wp_bind. eapply wp_load_line; [exact Hl|].
  apply wp_store_line; [eauto|exact HQ].
Qed.

Lemma wp_init_line (l : loc) (tg : Z) (ln : line_t) (m : machine) (Q : unit → machine → Prop) :
  heap m !! l = Some ln →
  Q tt (Machine (<[l := Line 0 1 tg (next ln)]> (heap m)) (brk m) (sets m) (stats m)) →
  wp (init_line (Some l) tg) m Q.
Proof.
  intros Hl HQ. apply wp_bind. eapply wp_load_line; [exact Hl|].
  apply wp_store_line; [eauto|exact HQ].
Qed.

Lemma wp_add_stats (f : csim_stats_t → csim_stats_t) (m : machine) (Q : unit → machine → Prop) :
  Q tt (Machine (heap m) (brk m) (sets m) (f (stats m))) →
  wp (st <- load_stats ;; store_stats (f st)) m Q.
Proof. intros HQ. apply wp_bind, wp_load_stats, wp_store_stats, HQ. Qed.

(** ** List segments *)

Lemma lseg_app (h : gmap loc line_t) (p q : ptr) (n1 n2 : list (loc * (Z * Z))) :
  lseg h p q (n1 ++ n2) ↔ ∃ r, lseg h p r n1 ∧ lseg h r q n2.
Proof.
  revert p. induction n1 as [|n n1 IH]; intros p; simpl.
  - split; [intros H; exists p; auto | intros (r & -> & H); exact H].
  - split.
    + intros (Hp & ln & Hl & He & Hs). apply IH in Hs as (r & H1 & H2).
      exists r. split; [|exact H2]. split; [exact Hp|]. exists ln. auto.
    + intros (r & (Hp & ln & Hl & He & H1) & H2). split; [exact Hp|].
      exists ln. repeat split; try assumption. apply IH. exists r. auto.
Qed.

Lemma lseg_frame (h h' : gmap loc line_t) (p q : ptr) (ns : list (loc * (Z * Z))) :
  (∀ x, x ∈ ns.*1 → h' !! x = h !! x) → lseg h p q ns → lseg h' p q ns.
Proof.
  revert p. induction ns as [|n ns IH]; intros p Hfr; simpl; [auto|].
  intros (Hp & ln & Hl & He & Hs). split; [exact Hp|]. exists ln.
  split; [rewrite Hfr; [exact Hl|simpl; left]|].
  split; [exact He|]. apply IH; [|exact Hs]. intros x Hx. apply Hfr. simpl. right. exact Hx.
Qed.

Lemma lseg_allocated (h : gmap loc line_t) (p q : ptr) (ns : list (loc * (Z * Z))) (x : loc) :
  lseg h p q ns → x ∈ ns.*1 → is_Some (h !! x).
Proof.
  revert p. induction ns as [|n ns IH]; intros p; simpl.
  - intros _ Hx. inversion Hx.
  - intros (Hp & ln & Hl & He & Hs) Hx. apply elem_of_cons in Hx as [->|Hx]; eauto.
Qed.

Lemma lseg_snoc (h : gmap loc line_t) (p q : ptr) (ns : list (loc * (Z * Z)))
      (x : loc) (e : Z * Z) :
  lseg h p q (ns ++ [(x, e)]) ↔
  lseg h p (Some x) ns ∧ ∃ ln, h !! x = Some ln ∧ (tag ln, dirty_bit ln) = e ∧ next ln = q.
Proof.
  rewrite lseg_app. simpl. split.
  - intros (r & H1 & -> & ln & Hl & He & Hq). split; [exact H1|]. exists ln. auto.
  - intros (H1 & ln & Hl & He & Hq). exists (Some x). split; [exact H1|].
    split; [reflexivity|]. exists ln. auto.
Qed.

(** The scan of [set_view] reads the tags and dirty bits of a segment. *)
Lemma walk_lseg (h : gmap loc line_t) (p q : ptr) (ns : list (loc * (Z * Z))) (n : nat) :
  lseg h p q ns → (n ≤ length ns)%nat → walk h p n = Some (take n ns.*2).
Proof.
  revert p ns. induction n as [|n IH]; intros p ns Hs Hn; [reflexivity|].
  destruct ns as [|nd ns]; [simpl in Hn; lia|].
  simpl in Hs. destruct Hs as (-> & ln & Hl & He & Hs).
  simpl. rewrite Hl. rewrite (IH _ ns Hs) by (simpl in Hn; lia).
  rewrite He. reflexivity.
Qed.

(** The loop of [miss_type] over a segment computes [find_tag]. *)
Lemma miss_type_loop_lseg (tg : Z) (m : machine) (p q : ptr) (ns : list (loc * (Z * Z)))
      (i : Z) (n : nat) :
  lseg (heap m) p q ns → (n ≤ length ns)%nat →
  miss_type_loop tg p i n m = Some (find_tag tg (take n ns.*2) i, m).
Proof.
  revert p ns i. induction n as [|n IH]; intros p ns i Hs Hn; [reflexivity|].
  destruct ns as [|nd ns]; [simpl in Hn; lia|].
  simpl in Hs. destruct Hs as (-> & ln & Hl & He & Hs).
  cbn [miss_type_loop]. unfold bind, load_line. rewrite Hl.
  cbn [fmap list_fmap take find_tag]. rewrite <- He. cbn [fst snd].
  destruct (tag ln =? tg); [reflexivity|].
  apply IH; [exact Hs|simpl in Hn; lia].
Qed.

(** [get_line] returns the node at the given position of a segment. *)
Lemma get_line_loop_lseg (m : machine) (p q : ptr) (n1 n2 : list (loc * (Z * Z))) :
  lseg (heap m) p q (n1 ++ n2) → n2 ≠ [] →
  get_line_loop p (length n1) m = Some (head n2.*1, m).
Proof.
  revert p. induction n1 as [|nd n1 IH]; intros p Hs Hne.
  - simpl in *. destruct n2 as [|nd n2]; [done|].
    simpl in Hs. destruct Hs as (-> & _). reflexivity.
  - simpl in Hs. destruct Hs as (-> & ln & Hl & He & Hs).
    cbn [length get_line_loop]. unfold bind, load_line. rewrite Hl.
    apply IH; assumption.
Qed.

(** ** Preservation of the representation *)

Lemma bounded_insert (h : gmap loc line_t) (k : loc) (x : loc) (v : line_t) :
  (x < k)%positive → bounded h k → bounded (<[x := v]> h) k.
Proof.
  intros Hx Hb y [w Hy]. destruct (decide (x = y)) as [<-|Hne]; [exact Hx|].
  rewrite lookup_insert_ne in Hy by exact Hne. apply Hb. eauto.
Qed.

Lemma bounded_delete (h : gmap loc line_t) (k : loc) (x : loc) :
  bounded h k → bounded (delete x h) k.
Proof.
  intros Hb y [w Hy]. destruct (decide (x = y)) as [<-|Hne].
  - rewrite lookup_delete_eq in Hy. discriminate.
  - rewrite lookup_delete_ne in Hy by exact Hne. apply Hb. eauto.
Qed.

Lemma bounded_succ (h : gmap loc line_t) (k : loc) :
  bounded h k → bounded h (Pos.succ k).
Proof. intros Hb y Hy. specialize (Hb y Hy). lia. Qed.

(** A step that changes one set and only touches that set's nodes and
    freshly allocated ones preserves the representation of all
    others. *)
Lemma rep_by_update (nss : list (list (loc * (Z * Z)))) (m m' : machine) (a : lstate)
      (i : nat) (ns ns' : list (loc * (Z * Z))) (st' : set_t) (ls' : lset) :
  rep_by nss m a →
  nss !! i = Some ns →
  sets m' = <[i := st']> (sets m) →
  (∀ x, x ∉ ns.*1 → (x < brk m)%positive → heap m' !! x = heap m !! x) →
  bounded (heap m') (brk m') →
  (∀ x, x ∈ ns'.*1 → x ∈ ns.*1 ∨ (brk m ≤ x)%positive) →
  set_rep (heap m') st' ns' ls' →
  rep_by (<[i := ns']> nss) m' (LState (<[i := ls']> (l_sets a)) (stats m')).
Proof.
  intros (Hlen1 & Hlen2 & Hsets & Hdisj & Hbrk & Hstats) Hi Hsets' Hframe Hbrk' Hnew Hrep'.
  assert (Hilt : (i < length nss)%nat) by (eapply lookup_lt_Some; eassumption).
  assert (Hold : ∀ j nsj x, nss !! j = Some nsj → x ∈ nsj.*1 → (x < brk m)%positive).
  { intros j nsj x Hj Hx.
    destruct (lookup_lt_is_Some_2 (sets m) j) as [stj Hstj];
      [rewrite Hlen1; eapply lookup_lt_Some; eassumption|].
    destruct (lookup_lt_is_Some_2 (l_sets a) j) as [lsj Hlsj];
      [rewrite Hlen2; eapply lookup_lt_Some; eassumption|].
    destruct (Hsets j stj nsj lsj Hstj Hj Hlsj) as (Hseg & _).
    apply Hbrk. eapply lseg_allocated; eassumption. }
  split; [|split; [|split; [|split; [|split; [|reflexivity]]]]].
  - rewrite Hsets', !length_insert. exact Hlen1.
  - cbn [l_sets]. rewrite !length_insert. exact Hlen2.
  - intros j stj nsj lsj. rewrite Hsets'. cbn [l_sets].
    destruct (decide (i = j)) as [<-|Hne].
    + rewrite !list_lookup_insert_eq by lia. intros [= <-] [= <-] [= <-]. exact Hrep'.
    + rewrite !list_lookup_insert_ne by exact Hne. intros Hstj Hnsj Hlsj.
      destruct (Hsets j stj nsj lsj Hstj Hnsj Hlsj) as (Hseg & Hrest).
      split; [|exact Hrest].
      eapply lseg_frame; [|exact Hseg]. intros x Hx. apply Hframe.
      * intros Hx'. exact (Hdisj j i nsj ns x (not_eq_sym Hne) Hnsj Hi Hx Hx').
      * eapply Hold; eassumption.
  - intros j1 j2 ns1 ns2 x Hne.
    destruct (decide (i = j1)) as [<-|Hne1]; [|destruct (decide (i = j2)) as [<-|Hne2]].
    + rewrite list_lookup_insert_eq by lia. rewrite list_lookup_insert_ne by exact Hne.
      intros [= <-] Hj2 Hx Hx2. destruct (Hnew x Hx) as [Hin|Hfresh].
      * exact (Hdisj i j2 ns ns2 x Hne Hi Hj2 Hin Hx2).
      * pose proof (Hold j2 ns2 x Hj2 Hx2). lia.
    + rewrite list_lookup_insert_ne by exact Hne1. rewrite list_lookup_insert_eq by lia.
      intros Hj1 [= <-] Hx1 Hx. destruct (Hnew x Hx) as [Hin|Hfresh].
      * exact (Hdisj j1 i ns1 ns x Hne Hj1 Hi Hx1 Hin).
      * pose proof (Hold j1 ns1 x Hj1 Hx1). lia.
    + rewrite !list_lookup_insert_ne by assumption. apply Hdisj. exact Hne.
  - exact Hbrk'.
Qed.

Lemma set_rep_counted_length (h : gmap loc line_t) (st : set_t) (ns : list (loc * (Z * Z)))
      (ls : lset) :
  set_rep h st ns ls → length (l_lines ls) = length ns.
Proof. intros (_ & _ & _ & _ & ->). apply length_fmap. Qed.

Lemma miss_type_refines (g : globals) (st : set_t) (ns : list (loc * (Z * Z))) (ls : lset)
      (set_num tg : Z) (m : machine) :
  set_rep (heap m) st ns ls → counted ls →
  miss_type g st set_num tg m = Some (l_miss_type g ls tg, m).
Proof.
  intros Hrep Hc. pose proof (set_rep_counted_length _ _ _ _ Hrep) as Hlen.
  destruct Hrep as (Hseg & _ & _ & Hcount & Hlines).
  unfold miss_type, l_miss_type. rewrite <- Hcount.
  destruct (l_count ls =? 0) eqn:H0; [reflexivity|].
  unfold bind. rewrite (miss_type_loop_lseg tg m _ _ ns 0 _ Hseg).
  - rewrite Hlines. destruct (find_tag _ _ _); [reflexivity|].
    destruct (l_count ls =? E g); reflexivity.
  - destruct (Z_lt_le_dec 0 (l_count ls)) as [Hpos|Hneg]; [|lia].
    rewrite (counted_pos ls Hc Hpos). lia.
Qed.

Lemma set_view_refines (h : gmap loc line_t) (st : set_t) (ns : list (loc * (Z * Z)))
      (ls : lset) :
  set_rep h st ns ls → counted ls → set_view h st = Some (l_view ls).
Proof.
  intros Hrep Hc. pose proof (set_rep_counted_length _ _ _ _ Hrep) as Hlen.
  destruct Hrep as (Hseg & _ & _ & Hcount & Hlines).
  unfold set_view, l_view. rewrite <- Hcount, Hlines.
  eapply walk_lseg; [exact Hseg|].
  destruct (Z_lt_le_dec 0 (l_count ls)) as [Hpos|Hneg]; [|lia].
  rewrite (counted_pos ls Hc Hpos). lia.
Qed.

(** Facts about [find_tag]. *)
Lemma find_tag_Some (tg : Z) (es : list (Z * Z)) (i0 i : Z) :
  find_tag tg es i0 = Some i →
  ∃ l1 e l2, es = l1 ++ e :: l2 ∧ e.1 = tg ∧ (tg ∉ l1.*1) ∧ i = i0 + Z.of_nat (length l1).
Proof.
  revert i0. induction es as [|e es IH]; intros i0; simpl; [discriminate|].
  destruct (e.1 =? tg) eqn:He.
  - intros [= <-]. apply Z.eqb_eq in He. exists [], e, es. simpl.
    repeat split; [exact He|apply not_elem_of_nil|lia].
  - intros H. apply IH in H as (l1 & e' & l2 & -> & He' & Hnin & ->).
    apply Z.eqb_neq in He.
    exists (e :: l1), e', l2. simpl. repeat split; [exact He'| |lia].
    rewrite not_elem_of_cons. split; [congruence|exact Hnin].
Qed.

Lemma find_tag_None (tg : Z) (es : list (Z * Z)) (i0 : Z) :
  find_tag tg es i0 = None ↔ tg ∉ es.*1.
Proof.
  revert i0. induction es as [|e es IH]; intros i0; simpl.
  - split; [intros _; apply not_elem_of_nil|reflexivity].
  - rewrite not_elem_of_cons. destruct (e.1 =? tg) eqn:He.
    + apply Z.eqb_eq in He. split; [discriminate|]. intros [Hne _]. congruence.
    + apply Z.eqb_neq in He. rewrite IH. split; [intros H; split; [congruence|exact H]|tauto].
Qed.

(** The three possible values of [type]. *)
Lemma l_miss_type_cases (g : globals) (ls : lset) (tg : Z) :
  counted ls →
  let type := l_miss_type g ls tg in
  (type = -1 ∧ (l_count ls = 0 ∨ (l_count ls ≠ E g ∧ tg ∉ (l_view ls).*1))) ∨
  (type = -2 ∧ l_count ls ≠ 0 ∧ l_count ls = E g ∧ tg ∉ (l_view ls).*1) ∨
  (0 < l_count ls ∧
   ∃ l1 e l2, l_lines ls = l1 ++ e :: l2 ∧ e.1 = tg ∧ (tg ∉ l1.*1) ∧
              type = Z.of_nat (length l1)).
Proof.
  intros Hc. unfold l_miss_type. fold (l_view ls).
  destruct (l_count ls =? 0) eqn:H0; [left; split; [reflexivity|left; lia]|].
  apply Z.eqb_neq in H0.
  destruct (find_tag tg (l_view ls) 0) as [i|] eqn:Hf.
  - right. right.
    destruct (Z_lt_le_dec 0 (l_count ls)) as [Hpos|Hneg].
    + split; [exact Hpos|]. rewrite (counted_pos_view ls Hc Hpos) in Hf.
      apply find_tag_Some in Hf as (l1 & e & l2 & Hl & He & Hnin & ->).
      exists l1, e, l2. repeat split; try assumption.
    + rewrite counted_nonpos_view in Hf by exact Hneg. discriminate.
  - apply find_tag_None in Hf.
    destruct (l_count ls =? E g) eqn:HE.
    + right. left. apply Z.eqb_eq in HE. auto.
    + left. apply Z.eqb_neq in HE. auto.
Qed.

(** ** The three branches of the loop body *)

Ltac wp_bind := apply wp_bind.

(** Lookups in heaps and set arrays that were just written. *)
Ltac heap_lookup :=
  cbn [heap sets brk stats];
  repeat first
    [ rewrite lookup_insert_eq
    | rewrite lookup_insert_ne by (first [assumption | congruence | apply not_eq_sym; assumption])
    | rewrite lookup_delete_ne by (first [assumption | congruence | apply not_eq_sym; assumption]) ];
  first [reflexivity | eassumption].

Ltac sets_lookup :=
  cbn [heap sets brk stats];
  first
    [ eassumption
    | rewrite list_lookup_insert_eq
        by (rewrite ?length_insert; eapply lookup_lt_Some; eassumption);
      reflexivity ].

Ltac wp_line := wp_bind; eapply wp_load_line; [heap_lookup|].
Ltac wp_set := wp_bind; eapply wp_load_set; [assumption|sets_lookup|].

Lemma last_snoc_fst (ns : list (loc * (Z * Z))) (n : loc * (Z * Z)) :
  last (ns ++ [n]).*1 = Some n.1.
Proof. rewrite fmap_app. simpl. apply last_snoc. Qed.

Lemma fresh_not_in (nss : list (list (loc * (Z * Z)))) (m : machine) (a : lstate)
      (i : nat) (ns : list (loc * (Z * Z))) (st : set_t) (ls : lset) :
  rep_by nss m a → sets m !! i = Some st → nss !! i = Some ns → l_sets a !! i = Some ls →
  heap m !! brk m = None ∧ brk m ∉ ns.*1.
Proof.
  intros (Hlen1 & Hlen2 & Hsets & Hdisj & Hbrk & Hstats) Hst Hns Hls.
  assert (Hnone : heap m !! brk m = None).
  { destruct (heap m !! brk m) eqn:Hl; [|reflexivity].
    assert (brk m < brk m)%positive by (apply Hbrk; eauto). lia. }
  split; [exact Hnone|]. intros Hin.
  destruct (Hsets _ _ _ _ Hst Hns Hls) as (Hseg & _).
  destruct (lseg_allocated _ _ _ _ _ Hseg Hin) as [x Hx]. congruence.
Qed.

(** Side conditions of [rep_by_update]. *)
Ltac solve_ne :=
  first [ assumption | apply not_eq_sym; assumption | lia
        | intros ->; first [contradiction | lia] | intros <-; first [contradiction | lia] ].

Ltac frame_tac :=
  let x := fresh "x" in
  let Hnotin := fresh "Hnotin" in
  let Hlt := fresh "Hlt" in
  intros x Hnotin; try intros Hlt; cbn [heap sets brk stats] in *;
  repeat first [ rewrite lookup_insert_ne by solve_ne
               | rewrite lookup_delete_ne by solve_ne ];
  reflexivity.

Ltac bounded_tac :=
  cbn [heap sets brk stats];
  repeat first [ apply bounded_delete
               | apply bounded_insert; [first [lia | assumption]|] ];
  first [ assumption | apply bounded_succ; assumption ].

Ltac finish_rep nss0 a0 ns0 ns1 i0 :=
  cbn [heap sets brk stats];
  split; [|rewrite ?length_insert; reflexivity];
  exists (<[i0 := ns1]> nss0);
  match goal with |- rep_by _ ?m' (LState _ ?s) => change s with (stats m') end;
  eapply (rep_by_update nss0 _ _ a0 _ ns0);
  [ eassumption | eassumption | reflexivity | first [frame_tac | idtac] | bounded_tac | | ].

Lemma lseg_append_node (h h' : gmap loc line_t) (p : ptr) (ns0 : list (loc * (Z * Z)))
      (al : loc) (el : Z * Z) (ll : line_t) (k : loc) (e : Z * Z) (lk : line_t) :
  lseg h p (Some al) ns0 → h !! al = Some ll → (tag ll, dirty_bit ll) = el →
  (∀ x, x ∈ ns0.*1 → h' !! x = h !! x) →
  h' !! al = Some (Line (dirty_bit ll) (valid_bit ll) (tag ll) (Some k)) →
  h' !! k = Some lk → (tag lk, dirty_bit lk) = e → next lk = NULL →
  lseg h' p NULL ((ns0 ++ [(al, el)]) ++ [(k, e)]).
Proof.
  intros Hseg0 Hll Hel Hfr Hal' Hk He Hnext. apply lseg_snoc. split.
  - apply lseg_snoc. split; [eapply lseg_frame; [exact Hfr|exact Hseg0]|].
    eexists. split; [exact Hal'|]. split; [exact Hel|reflexivity].
  - eexists. split; [exact Hk|]. split; assumption.
Qed.

Lemma NoDup_mid {A} (l1 l2 : list A) (x : A) :
  NoDup (l1 ++ x :: l2) ↔ (x ∉ l1) ∧ (x ∉ l2) ∧ NoDup (l1 ++ l2).
Proof.
  rewrite <- (Permutation_middle l1 l2 x), NoDup_cons, not_elem_of_app. tauto.
Qed.

Lemma NoDup_snoc_fst (ns : list (loc * (Z * Z))) (n : loc * (Z * Z)) :
  NoDup ns.*1 → n.1 ∉ ns.*1 → NoDup (ns ++ [n]).*1.
Proof.
  intros Hnd Hn. rewrite fmap_app. apply NoDup_app. split; [exact Hnd|]. split.
  - intros x Hx Hx'. apply list_elem_of_singleton in Hx'. simpl in Hx'. congruence.
  - apply NoDup_singleton.
Qed.

Lemma elem_of_snoc_fst (ns : list (loc * (Z * Z))) (n : loc * (Z * Z)) (x : loc) :
  x ∈ (ns ++ [n]).*1 ↔ x ∈ ns.*1 ∨ x = n.1.
Proof.
  rewrite fmap_app, elem_of_app. simpl. rewrite list_elem_of_singleton. reflexivity.
Qed.

Lemma cold_miss_refines (nss : list (list (loc * (Z * Z)))) (m : machine) (a : lstate)
      (g : globals) (is_load tg set_num : Z) (st : set_t) (ns : list (loc * (Z * Z)))
      (ls : lset) :
  rep_by nss m a → 0 <= set_num →
  sets m !! Z.to_nat set_num = Some st →
  nss !! Z.to_nat set_num = Some ns →
  l_sets a !! Z.to_nat set_num = Some ls →
  counted ls →
  wp (cold_miss g is_load tg set_num) m
     (λ _ m', Rep m' (LState (<[Z.to_nat set_num := l_cold is_load tg ls]> (l_sets a))
                             (stats_cold g is_load (l_stats a))) ∧
              length (sets m') = length (sets m)).
Proof.
  intros Hrep Hsn Hst Hns Hls Hc.
  destruct (fresh_not_in _ _ _ _ _ _ _ Hrep Hst Hns Hls) as [Hfresh Hnin].
  pose proof Hrep as (Hlen1 & Hlen2 & Hsets & Hdisj & Hbrk & Hstats).
  pose proof (Hsets _ _ _ _ Hst Hns Hls) as Hsr.
  pose proof (set_rep_counted_length _ _ _ _ Hsr) as Hlen.
  destruct Hsr as (Hseg & Hlast & Hnd & Hcount & Hlines).
  destruct m as [h k ss sts]. cbn [heap sets brk stats] in *.
  destruct st as [c fp lp]. cbn [line_count first_line last_line] in *.
  unfold cold_miss.
  wp_bind. apply wp_xcalloc_line. cbn [heap sets brk stats].
  wp_bind. eapply wp_init_line; [heap_lookup|]. cbn [heap sets brk stats next].
  wp_set. cbn [line_count first_line last_line].
  rewrite insert_insert_eq.
  unfold l_cold, stats_cold, new_entry. rewrite Hcount, Hstats.
  destruct (c =? 0) eqn:Hc0.
  - (* the set was empty *)
    assert (Hnew : ∀ d, lseg (<[k := Line d 1 tg NULL]> h) (Some k) NULL [(k, (tg, d))]).
    { intros d. simpl. split; [reflexivity|]. eexists. rewrite lookup_insert_eq. eauto. }
    wp_bind. wp_bind. eapply wp_set_first_line; [assumption|sets_lookup|].
    cbn [heap sets brk stats line_count first_line last_line].
    wp_bind. eapply wp_set_last_line; [assumption|sets_lookup|].
    cbn [heap sets brk stats line_count first_line last_line].
    eapply wp_set_line_count; [assumption|sets_lookup|].
    cbn [heap sets brk stats line_count first_line last_line].
    rewrite !list_insert_insert_eq.
    destruct (is_load =? 0).
    + wp_bind. wp_bind. apply wp_add_stats. cbn [heap sets brk stats].
      eapply wp_set_dirty_bit; [heap_lookup|]. cbn [heap sets brk stats valid_bit tag next].
      apply wp_add_stats. rewrite insert_insert_eq.
      finish_rep nss a ns [(k, (tg, 1))] (Z.to_nat set_num).
      * intros x Hx. apply list_elem_of_singleton in Hx as ->. right. simpl. lia.
      * split; [apply Hnew|]. repeat split. apply NoDup_singleton.
    + wp_bind. apply wp_ret. apply wp_add_stats.
      finish_rep nss a ns [(k, (tg, 0))] (Z.to_nat set_num).
      * intros x Hx. apply list_elem_of_singleton in Hx as ->. right. simpl. lia.
      * split; [apply Hnew|]. repeat split. apply NoDup_singleton.
  - (* a line is appended *)
    apply Z.eqb_neq in Hc0.
    assert (Hnz : 0 < Z.of_nat (length ns) < 4294967296).
    { rewrite <- Hlen. apply counted_nonzero; [exact Hc|lia]. }
    destruct (exists_last (l := ns)) as (ns0 & [al el] & ->).
    { intros ->. simpl in Hnz. lia. }
    rewrite last_snoc_fst in Hlast. cbn [fst] in Hlast. subst lp.
    apply lseg_snoc in Hseg as (Hseg0 & ll & Hll & Hel & Hnext).
    rewrite fmap_app in Hnd, Hnin. cbn [fmap list_fmap fst] in Hnd, Hnin.
    apply NoDup_app in Hnd as (Hnd0 & Hnd1 & _).
    assert (Hal : al ∉ ns0.*1).
    { intros Hin. apply (Hnd1 al Hin). left. }
    assert (Hkal : k ≠ al).
    { intros ->. apply Hnin. apply elem_of_app. right. left. }
    assert (Hk0 : k ∉ ns0.*1).
    { intros Hin. apply Hnin. apply elem_of_app. left. exact Hin. }
    wp_bind. wp_bind. eapply wp_set_line_count; [assumption|sets_lookup|].
    cbn [heap sets brk stats line_count first_line last_line].
    wp_bind. eapply wp_set_next; [heap_lookup|].
    cbn [heap sets brk stats line_count first_line last_line].
    eapply wp_set_last_line; [assumption|sets_lookup|].
    cbn [heap sets brk stats line_count first_line last_line].
    rewrite !list_insert_insert_eq.
    assert (Hal_in : al ∈ (ns0 ++ [(al, el)]).*1).
    { rewrite fmap_app. apply elem_of_app. right. left. }
    assert (Halk : (al < k)%positive) by (apply Hbrk; eauto).
    assert (Hsub : ∀ d x, x ∈ ((ns0 ++ [(al, el)]) ++ [(k, (tg, d))]).*1 →
                          x ∈ (ns0 ++ [(al, el)]).*1 ∨ (k ≤ x)%positive).
    { intros d x. rewrite (fmap_app _ (ns0 ++ _)). rewrite elem_of_app.
      intros [Hx|Hx]; [left; exact Hx|right].
      apply list_elem_of_singleton in Hx as ->. simpl. lia. }
    assert (Hrep' : ∀ d h',
      h' !! k = Some (Line d 1 tg NULL) →
      h' !! al = Some (Line (dirty_bit ll) (valid_bit ll) (tag ll) (Some k)) →
      (∀ x, x ∈ ns0.*1 → h' !! x = h !! x) →
      set_rep h' (CSet (wrap32 (c + 1)) fp (Some k))
              ((ns0 ++ [(al, el)]) ++ [(k, (tg, d))])
              (LSet (wrap32 (c + 1)) (l_lines ls ++ [(tg, d)]))).
    { intros d h' Hk Hal' Hfr. split; [|split; [|split; [|split]]].
      - apply lseg_snoc. split.
        + apply lseg_snoc. split; [eapply lseg_frame; [exact Hfr|exact Hseg0]|].
          eexists. split; [exact Hal'|]. split; [exact Hel|reflexivity].
        + eexists. split; [exact Hk|]. split; reflexivity.
      - cbn [last_line]. rewrite last_snoc_fst. reflexivity.
      - rewrite (fmap_app _ (ns0 ++ _)). apply NoDup_app. split; [|split].
        + rewrite fmap_app. apply NoDup_app. split; [exact Hnd0|]. split; [exact Hnd1|].
          apply NoDup_singleton.
        + intros x Hx Hx'. apply list_elem_of_singleton in Hx'. simpl in Hx'. subst x.
          rewrite fmap_app in Hx. apply elem_of_app in Hx as [Hx|Hx]; [contradiction|].
          apply list_elem_of_singleton in Hx. simpl in Hx. congruence.
        + apply NoDup_singleton.
      - reflexivity.
      - cbn [l_lines]. rewrite Hlines, (fmap_app _ (ns0 ++ _)). reflexivity. }
    destruct (is_load =? 0).
    + wp_bind. wp_bind. apply wp_add_stats. cbn [heap sets brk stats].
      eapply wp_set_dirty_bit; [heap_lookup|]. cbn [heap sets brk stats valid_bit tag next].
      apply wp_add_stats.
      finish_rep nss a (ns0 ++ [(al, el)]) ((ns0 ++ [(al, el)]) ++ [(k, (tg, 1))])
                 (Z.to_nat set_num).
      * apply Hsub.
      * apply Hrep'; [heap_lookup|heap_lookup|].
        intros x Hx. cbn [heap].
        rewrite !lookup_insert_ne by (intros ->; contradiction). reflexivity.
    + wp_bind. apply wp_ret. apply wp_add_stats.
      finish_rep nss a (ns0 ++ [(al, el)]) ((ns0 ++ [(al, el)]) ++ [(k, (tg, 0))])
                 (Z.to_nat set_num).
      * apply Hsub.
      * apply Hrep'; [heap_lookup|heap_lookup|].
        intros x Hx. cbn [heap].
        rewrite !lookup_insert_ne by (intros ->; contradiction). reflexivity.
Qed.

(** Symbolic execution of straight-line code. *)
Ltac wp_prim :=
  lazymatch goal with
  | |- wp (bind _ _) _ _ => apply wp_bind
  | |- wp (ret _) _ _ => apply wp_ret
  | |- wp (add_hits _) _ _ => apply wp_add_stats
  | |- wp (add_misses _) _ _ => apply wp_add_stats
  | |- wp (add_evictions _) _ _ => apply wp_add_stats
  | |- wp (add_dirty_bytes _) _ _ => apply wp_add_stats
  | |- wp (add_dirty_evictions _) _ _ => apply wp_add_stats
  | |- wp (sub_dirty_bytes _) _ _ => apply wp_add_stats
  | |- wp xcalloc_line _ _ => apply wp_xcalloc_line
  | |- wp (load_line _) _ _ => eapply wp_load_line; [heap_lookup|]
  | |- wp (set_dirty_bit _ _) _ _ => eapply wp_set_dirty_bit; [heap_lookup|]
  | |- wp (set_next _ _) _ _ => eapply wp_set_next; [heap_lookup|]
  | |- wp (init_line _ _) _ _ => eapply wp_init_line; [heap_lookup|]
  | |- wp (free _) _ _ => eapply wp_free; [eexists; heap_lookup|]
  | |- wp (load_set _) _ _ => eapply wp_load_set; [assumption|sets_lookup|]
  | |- wp (set_first_line _ _) _ _ => eapply wp_set_first_line; [assumption|sets_lookup|]
  | |- wp (set_last_line _ _) _ _ => eapply wp_set_last_line; [assumption|sets_lookup|]
  | |- wp (set_line_count _ _) _ _ => eapply wp_set_line_count; [assumption|sets_lookup|]
  end.

Ltac wp_simpl :=
  cbn [heap sets brk stats line_count first_line last_line valid_bit tag next dirty_bit].

Ltac wp_run :=
  repeat (wp_simpl;
          lazymatch goal with
          | |- wp _ _ _ => wp_prim
          end);
  wp_simpl.

Ltac wp_if :=
  lazymatch goal with
  | |- wp (if ?c then _ else _) _ _ => destruct c eqn:?
  | |- wp (bind (if ?c then _ else _) _) _ _ => destruct c eqn:?
  end.

Lemma capacity_miss_refines (nss : list (list (loc * (Z * Z)))) (m : machine) (a : lstate)
      (g : globals) (is_load tg set_num : Z) (st : set_t) (ns : list (loc * (Z * Z)))
      (ls : lset) :
  rep_by nss m a → 0 <= set_num →
  sets m !! Z.to_nat set_num = Some st →
  nss !! Z.to_nat set_num = Some ns →
  l_sets a !! Z.to_nat set_num = Some ls →
  counted ls → l_count ls ≠ 0 →
  wp (capacity_miss g is_load tg set_num) m
     (λ _ m', Rep m' (LState (<[Z.to_nat set_num := l_capacity is_load tg ls]> (l_sets a))
                             (stats_capacity g is_load (hd (0, 0) (l_lines ls)).2
                                             (l_stats a))) ∧
              length (sets m') = length (sets m)).
Proof.
  intros Hrep Hsn Hst Hns Hls Hc Hc0.
  destruct (fresh_not_in _ _ _ _ _ _ _ Hrep Hst Hns Hls) as [Hfresh Hnin].
  pose proof Hrep as (Hlen1 & Hlen2 & Hsets & Hdisj & Hbrk & Hstats).
  pose proof (Hsets _ _ _ _ Hst Hns Hls) as Hsr.
  pose proof (set_rep_counted_length _ _ _ _ Hsr) as Hlen.
  destruct Hsr as (Hseg & Hlast & Hnd & Hcount & Hlines).
  destruct m as [h k ss sts]. cbn [heap sets brk stats] in *.
  destruct st as [c fp lp]. cbn [line_count first_line last_line] in *.
  pose proof (counted_nonzero ls Hc Hc0) as Hnz. rewrite Hlen in Hnz.
  destruct ns as [|[a0 e0] ns1]; [simpl in Hnz; lia|].
  simpl in Hseg. destruct Hseg as (-> & l0 & Hl0 & He0 & Hseg1).
  cbn [fmap list_fmap fst] in Hnd, Hnin.
  apply NoDup_cons in Hnd as [Ha0 Hnd1].
  apply not_elem_of_cons in Hnin as [Hka0 Hk1].
  assert (Ha0k : (a0 < k)%positive) by (apply Hbrk; eauto).
  assert (Ha0_in : a0 ∈ ((a0, e0) :: ns1).*1) by left.
  unfold capacity_miss, l_capacity, stats_capacity, new_entry.
  rewrite Hcount, Hstats, Hlines. cbn [fmap list_fmap hd snd]. rewrite <- He0. cbn [snd].
  wp_run.
  destruct (c =? 1) eqn:Hc1.
  - (* the only line of the set is replaced *)
    apply Z.eqb_eq in Hc1.
    assert (ns1 = []) as ->.
    { assert (Hpos : 0 < l_count ls) by lia.
      pose proof (counted_pos ls Hc Hpos) as Hl. rewrite Hlen in Hl. simpl in Hl.
      destruct ns1; [reflexivity|simpl in Hl; lia]. }
    wp_run. rewrite !list_insert_insert_eq, ?insert_insert_eq.
    wp_if; wp_run; wp_if; wp_run; rewrite ?insert_insert_eq;
      (match goal with
       | |- context [Line ?d 1 tg NULL] =>
           finish_rep nss a [(a0, e0)] [(k, (tg, d))] (Z.to_nat set_num)
       end;
       [ intros x Hx; apply list_elem_of_singleton in Hx as ->; right; simpl; lia
       | split; [|repeat split; apply NoDup_singleton];
         simpl; split; [reflexivity|]; eexists; split; [heap_lookup|split; reflexivity] ]).
  - (* the first line leaves, the new one is appended *)
    apply Z.eqb_neq in Hc1.
    destruct (exists_last (l := ns1)) as (ns0 & [al el] & ->).
    { intros ->. apply Hc1. destruct Hc as [Hw _]. rewrite <- Hcount, Hw, Hlen. reflexivity. }
    apply lseg_snoc in Hseg1 as (Hseg0 & ll & Hll & Hel & Hnext).
    rewrite app_comm_cons, last_snoc_fst in Hlast. cbn [fst] in Hlast. subst lp.
    rewrite elem_of_snoc_fst in Ha0, Hk1. cbn [fst] in Ha0, Hk1.
    assert (Hnd1' := Hnd1). rewrite fmap_app in Hnd1'.
    apply NoDup_app in Hnd1' as (Hnd0 & Hnd01 & _).
    assert (Hal0 : al ∉ ns0.*1) by (intros Hin; apply (Hnd01 al Hin); left).
    assert (Ha0al : a0 ≠ al) by tauto.
    assert (Hkal : k ≠ al) by tauto.
    assert (Ha00 : a0 ∉ ns0.*1) by tauto.
    assert (Hk0 : k ∉ ns0.*1) by tauto.
    assert (Halk : (al < k)%positive) by (apply Hbrk; eauto).
    assert (Hal_in : al ∈ ((a0, e0) :: ns0 ++ [(al, el)]).*1).
    { right. apply elem_of_snoc_fst. right. reflexivity. }
    wp_run. rewrite !list_insert_insert_eq.
    wp_if; wp_run; wp_if; wp_run;
      (match goal with
       | |- context [<[k := Line ?d 1 tg NULL]> (<[al := _]> _)] =>
           finish_rep nss a ((a0, e0) :: ns0 ++ [(al, el)])
                      ((ns0 ++ [(al, el)]) ++ [(k, (tg, d))]) (Z.to_nat set_num)
       | |- context [<[al := _]> (<[k := Line ?d 1 tg NULL]> _)] =>
           finish_rep nss a ((a0, e0) :: ns0 ++ [(al, el)])
                      ((ns0 ++ [(al, el)]) ++ [(k, (tg, d))]) (Z.to_nat set_num)
       end;
       [ intros x Hx; apply elem_of_snoc_fst in Hx as [Hx| ->];
         [left; right; exact Hx | right; simpl; lia]
       | split; [|split; [|split; [|split]]];
         [ eapply (lseg_append_node h _ _ ns0 al el ll k);
           [ exact Hseg0 | exact Hll | exact Hel
           | intros x Hx; cbn [heap];
             rewrite ?lookup_delete_ne by (intros ->; contradiction);
             rewrite !lookup_insert_ne by (intros ->; contradiction); reflexivity
           | heap_lookup | heap_lookup | reflexivity | reflexivity ]
         | cbn [last_line]; rewrite last_snoc_fst; reflexivity
         | apply NoDup_snoc_fst; [exact Hnd1|cbn [fst]; rewrite elem_of_snoc_fst; tauto]
         | reflexivity
         | cbn [l_lines tail]; rewrite (fmap_app _ (ns0 ++ _)); reflexivity ] ]).
Qed.

Lemma take_drop_middle_snoc {A} (l1 l2 : list A) (e d : A) (f : A → A) :
  take (length l1) (l1 ++ e :: l2) ++ drop (S (length l1)) (l1 ++ e :: l2)
    ++ [f (nth (length l1) (l1 ++ e :: l2) d)]
  = (l1 ++ l2) ++ [f e].
Proof.
  rewrite take_app_length.
  replace (drop (S (length l1)) (l1 ++ e :: l2)) with l2.
  - rewrite app_nth2 by lia. rewrite Nat.sub_diag. cbn [nth].
    rewrite <- app_assoc. reflexivity.
  - change (S (length l1)) with (1 + length l1)%nat. rewrite Nat.add_comm.
    rewrite <- drop_drop, drop_app_length. reflexivity.
Qed.

Lemma update_position_refines (nss : list (list (loc * (Z * Z)))) (m : machine) (a : lstate)
      (set_num : Z) (st : set_t) (ls : lset)
      (n1 n2 : list (loc * (Z * Z))) (ac : loc) (e : Z * Z) :
  rep_by nss m a → 0 <= set_num →
  sets m !! Z.to_nat set_num = Some st →
  nss !! Z.to_nat set_num = Some (n1 ++ (ac, e) :: n2) →
  l_sets a !! Z.to_nat set_num = Some ls →
  counted ls → 0 < l_count ls →
  wp (update_position set_num (Z.of_nat (length n1))) m
     (λ cur m1,
        cur = Some ac ∧
        ∃ h1 fp1,
          m1 = Machine h1 (brk m)
                       (<[Z.to_nat set_num := CSet (line_count st) fp1 (Some ac)]> (sets m))
                       (stats m) ∧
          lseg h1 fp1 NULL ((n1 ++ n2) ++ [(ac, e)]) ∧
          (∀ x, x ∉ (n1 ++ (ac, e) :: n2).*1 → h1 !! x = heap m !! x) ∧
          bounded h1 (brk m)).
Proof.
  intros Hrep Hsn Hst Hns Hls Hc Hpos.
  pose proof Hrep as (Hlen1 & Hlen2 & Hsets & Hdisj & Hbrk & Hstats).
  pose proof (Hsets _ _ _ _ Hst Hns Hls) as Hsr.
  pose proof (set_rep_counted_length _ _ _ _ Hsr) as Hlen.
  destruct Hsr as (Hseg & Hlast & Hnd & Hcount & Hlines).
  pose proof (counted_pos ls Hc Hpos) as Hcl. rewrite Hlen, length_app in Hcl.
  cbn [length] in Hcl.
  pose proof (wrap32_is_int (Z.of_nat (length (l_lines ls)))) as Hint.
  destruct Hc as [Hw Hb]. rewrite <- Hw in Hint. unfold is_int, INT_MIN, INT_MAX in Hint.
  destruct m as [h k ss sts]. cbn [heap sets brk stats] in *.
  destruct st as [c fp lp]. cbn [line_count first_line last_line] in *.
  subst c.
  unfold update_position. wp_run.
  rewrite wrap32_id by (unfold INT_MIN, INT_MAX; lia).
  rewrite fmap_app, fmap_cons in Hnd. cbn [fst] in Hnd.
  apply NoDup_mid in Hnd as (Hac1 & Hac2 & Hnd').
  apply lseg_app in Hseg as (r & Hseg1 & Hseg2).
  simpl in Hseg2. destruct Hseg2 as (-> & lc & Hlc & He & Hseg2).
  destruct (Z.of_nat (length n1) =? _) eqn:Hlastpos.
  - (* the line is already the last one *)
    apply Z.eqb_eq in Hlastpos.
    assert (n2 = []) as -> by (destruct n2; [reflexivity|simpl in Hcl; lia]).
    simpl in Hseg2.
    change (n1 ++ [(ac, e)]) with (n1 ++ [(ac, e)]) in Hlast.
    rewrite last_snoc_fst in Hlast. cbn [fst] in Hlast. subst lp.
    wp_run. split; [reflexivity|]. exists h, fp.
    split; [rewrite list_insert_id by exact Hst; reflexivity|].
    split; [|split; [reflexivity|exact Hbrk]].
    rewrite app_nil_r. apply lseg_snoc. split; [exact Hseg1|]. exists lc. auto.
  - (* the line is unlinked and appended *)
    apply Z.eqb_neq in Hlastpos.
    destruct (exists_last (l := n2)) as (n2' & [al el] & ->).
    { intros ->. simpl in Hcl. lia. }
    apply lseg_snoc in Hseg2 as (Hseg2 & ll & Hll & Hel & Hnl).
    rewrite app_comm_cons, app_assoc, last_snoc_fst in Hlast. cbn [fst] in Hlast. subst lp.
    rewrite elem_of_snoc_fst in Hac2. cbn [fst] in Hac2.
    rewrite (fmap_app _ n2') in Hnd'. cbn [fmap list_fmap fst] in Hnd'.
    rewrite app_assoc in Hnd'. apply NoDup_mid in Hnd' as (Hal1 & _ & Hnd').
    rewrite app_nil_r in Hnd'. rewrite not_elem_of_app in Hal1. destruct Hal1 as [Hal1 Hal2].
    assert (Hacal : ac ≠ al) by tauto.
    assert (Hac2' : ac ∉ n2'.*1) by tauto.
    assert (Hack : (ac < k)%positive) by (apply Hbrk; eauto).
    assert (Halk : (al < k)%positive) by (apply Hbrk; eauto).
    assert (Hac_in : ac ∈ (n1 ++ (ac, e) :: n2' ++ [(al, el)]).*1).
    { rewrite fmap_app. apply elem_of_app. right. left. }
    assert (Hal_in : al ∈ (n1 ++ (ac, e) :: n2' ++ [(al, el)]).*1).
    { rewrite app_comm_cons, app_assoc. apply elem_of_snoc_fst. right. reflexivity. }
    destruct (Z.of_nat (length n1) =? 0) eqn:Hfirst.
    + (* it was the first line *)
      apply Z.eqb_eq in Hfirst. destruct n1 as [|? ?]; [|simpl in Hfirst; lia].
      simpl in Hseg1. subst fp.
      wp_run. split; [reflexivity|]. eexists _, _.
      split; [rewrite !list_insert_insert_eq; reflexivity|].
      split; [|split; [frame_tac|bounded_tac]].
      cbn [app].
      eapply (lseg_append_node h _ _ n2' al el ll ac e);
        [ exact Hseg2 | exact Hll | exact Hel
        | intros x Hx; rewrite !lookup_insert_ne by (intros ->; contradiction); reflexivity
        | heap_lookup | heap_lookup | exact He | reflexivity ].
    + (* it was in the middle *)
      apply Z.eqb_neq in Hfirst.
      destruct (exists_last (l := n1)) as (n1' & [ap ep] & ->).
      { intros ->. simpl in Hfirst. lia. }
      pose proof Hseg1 as Hseg1w.
      apply lseg_snoc in Hseg1 as (Hseg1 & lpp & Hlpp & Hep & Hnp).
      rewrite elem_of_snoc_fst in Hac1, Hal1. cbn [fst] in Hac1, Hal1.
      rewrite (fmap_app _ n1') in Hnd'. cbn [fmap list_fmap fst] in Hnd'.
      rewrite <- app_assoc in Hnd'. cbn [app] in Hnd'.
      apply NoDup_mid in Hnd' as (Hap1 & Hap2 & Hnd').
      assert (Hapac : ap ≠ ac) by (intros ->; tauto).
      assert (Hapal : ap ≠ al) by (intros ->; tauto).
      assert (Hac1' : ac ∉ n1'.*1) by tauto.
      assert (Hal1' : al ∉ n1'.*1) by tauto.
      assert (Hapk : (ap < k)%positive) by (apply Hbrk; eauto).
      assert (Hap_in : ap ∈ ((n1' ++ [(ap, ep)]) ++ (ac, e) :: n2' ++ [(al, el)]).*1).
      { rewrite fmap_app. apply elem_of_app. left. apply elem_of_snoc_fst. right. reflexivity. }
      rewrite length_app in Hfirst, Hcl |- *. cbn [length] in Hfirst, Hcl |- *.
      rewrite wrap32_id by (unfold INT_MIN, INT_MAX; lia).
      wp_bind. eapply wp_of_eq.
      { unfold get_line. cbn [first_line].
        replace (Z.to_nat (Z.of_nat (length n1' + 1) - 1)) with (length n1') by lia.
        eapply (get_line_loop_lseg _ _ _ n1' [(ap, ep)]); [exact Hseg1w|discriminate]. }
      cbn [head fmap list_fmap fst].
      wp_run. rewrite Hnp. wp_run.
      split; [reflexivity|]. eexists _, _.
      split; [reflexivity|].
      split; [|split; [frame_tac|bounded_tac]].
      rewrite (app_assoc _ n2').
      eapply (lseg_append_node (<[ap := Line (dirty_bit lpp) (valid_bit lpp) (tag lpp) (next lc)]> h)
                               _ _ _ al el ll ac e).
      * apply lseg_app. exists (next lc). split.
        -- apply lseg_snoc. split.
           ++ eapply lseg_frame; [|exact Hseg1]. intros x Hx.
              rewrite lookup_insert_ne by (intros ->; contradiction). reflexivity.
           ++ eexists. rewrite lookup_insert_eq. split; [reflexivity|].
              split; [exact Hep|reflexivity].
        -- eapply lseg_frame; [|exact Hseg2]. intros x Hx.
           rewrite lookup_insert_ne by (intros ->; contradiction). reflexivity.
      * rewrite lookup_insert_ne by exact Hapal. exact Hll.
      * exact Hel.
      * intros x Hx. rewrite fmap_app, elem_of_app, elem_of_snoc_fst in Hx. cbn [fst] in Hx.
        rewrite !(lookup_insert_ne _ ac), !(lookup_insert_ne _ al);
          [reflexivity|intros ->; tauto|intros ->; tauto].
      * heap_lookup.
      * heap_lookup.
      * exact He.
      * reflexivity.
Qed.

Lemma l_hit_split (is_load : Z) (ls : lset) (l1 l2 : list (Z * Z)) (e : Z * Z) :
  l_lines ls = l1 ++ e :: l2 →
  l_hit is_load (Z.of_nat (length l1)) ls
  = LSet (l_count ls) ((l1 ++ l2) ++ [touch is_load e]).
Proof.
  intros Hl. unfold l_hit. rewrite Nat2Z.id, Hl.
  rewrite (take_drop_middle_snoc l1 l2 e (0, 0) (touch is_load)). reflexivity.
Qed.

Lemma nth_middle_snd (l1 l2 : list (Z * Z)) (e : Z * Z) :
  nth (length l1) (l1 ++ e :: l2) (0, 0) = e.
Proof. rewrite app_nth2 by lia. rewrite Nat.sub_diag. reflexivity. Qed.

Lemma hit_refines (nss : list (list (loc * (Z * Z)))) (m : machine) (a : lstate)
      (g : globals) (is_load set_num : Z) (st : set_t) (ls : lset)
      (n1 n2 : list (loc * (Z * Z))) (ac : loc) (e : Z * Z) :
  rep_by nss m a → 0 <= set_num →
  sets m !! Z.to_nat set_num = Some st →
  nss !! Z.to_nat set_num = Some (n1 ++ (ac, e) :: n2) →
  l_sets a !! Z.to_nat set_num = Some ls →
  counted ls → 0 < l_count ls →
  wp (hit g is_load set_num (Z.of_nat (length n1))) m
     (λ _ m', Rep m' (LState (<[Z.to_nat set_num := l_hit is_load (Z.of_nat (length n1)) ls]>
                                (l_sets a))
                             (stats_hit g is_load
                                        (nth (length n1) (l_lines ls) (0, 0)).2 (l_stats a))) ∧
              length (sets m') = length (sets m)).
Proof.
  intros Hrep Hsn Hst Hns Hls Hc Hpos.
  pose proof Hrep as (Hlen1 & Hlen2 & Hsets & Hdisj & Hbrk & Hstats).
  pose proof (Hsets _ _ _ _ Hst Hns Hls) as (Hseg & Hlast & Hnd & Hcount & Hlines).
  rewrite fmap_app, fmap_cons in Hlines. cbn [snd] in Hlines.
  assert (Hh : l_hit is_load (Z.of_nat (length n1)) ls
               = LSet (l_count ls) ((n1.*2 ++ n2.*2) ++ [touch is_load e])).
  { rewrite <- (length_fmap snd n1). apply l_hit_split. exact Hlines. }
  assert (Hn : nth (length n1) (l_lines ls) (0, 0) = e).
  { rewrite <- (length_fmap snd n1), Hlines. apply nth_middle_snd. }
  rewrite Hh, Hn. clear Hh Hn.
  unfold hit. wp_bind.
  eapply wp_mono; [|eapply update_position_refines; eassumption].
  intros cur m1 (-> & h1 & fp1 & -> & Hseg1 & Hfr & Hb1).
  destruct m as [h k ss sts]. cbn [heap sets brk stats] in *.
  pose proof Hseg1 as Hseg1'.
  apply lseg_snoc in Hseg1' as (Hseg0 & lc & Hlc & He & Hnext).
  assert (Hac_in : ac ∈ (n1 ++ (ac, e) :: n2).*1).
  { rewrite fmap_app. apply elem_of_app. right. left. }
  assert (Hack : (ac < k)%positive) by (apply Hb1; eauto).
  rewrite fmap_app, fmap_cons in Hnd. cbn [fst] in Hnd.
  apply NoDup_mid in Hnd as (Hac1 & Hac2 & Hnd').
  assert (Hsub : ∀ d x, x ∈ ((n1 ++ n2) ++ [(ac, d)]).*1 →
                        x ∈ (n1 ++ (ac, e) :: n2).*1 ∨ (k ≤ x)%positive).
  { intros d x Hx. left. apply elem_of_snoc_fst in Hx.
    rewrite fmap_app, elem_of_app in Hx. rewrite fmap_app, fmap_cons, elem_of_app, elem_of_cons.
    cbn [fst] in *. tauto. }
  assert (Hnd2 : ∀ d, NoDup ((n1 ++ n2) ++ [(ac, d)]).*1).
  { intros d. apply NoDup_snoc_fst; [rewrite fmap_app; exact Hnd'|].
    cbn [fst]. rewrite fmap_app, not_elem_of_app. tauto. }
  unfold stats_hit, touch. rewrite Hstats, <- He. cbn [fst snd].
  wp_run. wp_if; wp_run.
  - finish_rep nss a (n1 ++ (ac, e) :: n2) ((n1 ++ n2) ++ [(ac, (tag lc, 1))])
               (Z.to_nat set_num).
    + intros x Hnotin Hlt. cbn [heap].
      rewrite lookup_insert_ne by (intros ->; contradiction). apply Hfr. exact Hnotin.
    + apply Hsub.
    + split; [|split; [|split; [|split]]].
      * apply lseg_snoc. split.
        -- eapply lseg_frame; [|exact Hseg0]. intros x Hx. cbn [heap].
           rewrite lookup_insert_ne; [reflexivity|]. intros ->.
           rewrite fmap_app, elem_of_app in Hx. tauto.
        -- eexists. cbn [heap]. rewrite lookup_insert_eq. split; [reflexivity|].
           split; [reflexivity|]. exact Hnext.
      * cbn [last_line]. rewrite last_snoc_fst. reflexivity.
      * apply Hnd2.
      * cbn [l_count line_count]. exact Hcount.
      * cbn [l_lines]. rewrite !fmap_app. reflexivity.
  - finish_rep nss a (n1 ++ (ac, e) :: n2) ((n1 ++ n2) ++ [(ac, (tag lc, dirty_bit lc))])
               (Z.to_nat set_num).
    + intros x Hnotin Hlt. cbn [heap]. apply Hfr. exact Hnotin.
    + apply Hsub.
    + split; [|split; [|split; [|split]]].
      * rewrite He. exact Hseg1.
      * cbn [last_line]. rewrite last_snoc_fst. reflexivity.
      * apply Hnd2.
      * cbn [l_count line_count]. exact Hcount.
      * cbn [l_lines]. rewrite !fmap_app. reflexivity.
Qed.

(** ** The loop body and the loop refine the list-level model *)

Lemma wrap32_succ (x : Z) : wrap32 (wrap32 x + 1) = wrap32 (x + 1).
Proof.
  unfold wrap32.
  replace ((x + 2147483648) mod 4294967296 - 2147483648 + 1 + 2147483648)
    with ((x + 2147483648) mod 4294967296 + 1) by lia.
  rewrite Zplus_mod_idemp_l. f_equal. f_equal. lia.
Qed.

Lemma l_apply_counted (g : globals) (is_load tg : Z) (ls : lset) (st : csim_stats_t) :
  counted ls → counted (l_apply g is_load tg (l_miss_type g ls tg) ls st).1.
Proof.
  intros Hc. pose proof (l_miss_type_cases g ls tg Hc) as Hcases. cbv zeta in Hcases.
  unfold l_apply.
  destruct Hcases as [(Hty & _)|[(Hty & Hnz & _)|(Hpos & l1 & e & l2 & Hl & _ & _ & Hty)]];
    rewrite Hty.
  - (* cold miss *)
    cbn [Z.eqb COLD_MISS_TYPE fst Pos.eqb]. unfold l_cold.
    destruct (l_count ls =? 0) eqn:H0.
    + split; cbn [l_count l_lines length]; [reflexivity|lia].
    + apply Z.eqb_neq in H0. pose proof (counted_nonzero ls Hc H0) as Hnz.
      destruct Hc as [Hw Hb].
      split; cbn [l_count l_lines]; rewrite length_app; cbn [length].
      * rewrite Hw, wrap32_succ. f_equal. lia.
      * lia.
  - (* capacity miss *)
    cbn [Z.eqb COLD_MISS_TYPE CAPACITY_MISS_TYPE fst Pos.eqb]. unfold l_capacity.
    destruct (l_count ls =? 1) eqn:H1.
    + apply Z.eqb_eq in H1. rewrite H1.
      split; cbn [l_count l_lines length]; [reflexivity|lia].
    + pose proof (counted_nonzero ls Hc Hnz) as Hlen. destruct Hc as [Hw Hb].
      destruct (l_lines ls) as [|e0 es] eqn:Hes; [simpl in Hlen; lia|].
      split; cbn [l_count l_lines tail]; rewrite length_app; cbn [length] in *.
      * rewrite Hw. f_equal. lia.
      * lia.
  - (* hit *)
    assert (Hne1 : (Z.of_nat (length l1) =? COLD_MISS_TYPE) = false)
      by (apply Z.eqb_neq; unfold COLD_MISS_TYPE; lia).
    assert (Hne2 : (Z.of_nat (length l1) =? CAPACITY_MISS_TYPE) = false)
      by (apply Z.eqb_neq; unfold CAPACITY_MISS_TYPE; lia).
    rewrite Hne1, Hne2. cbn [fst]. rewrite (l_hit_split is_load ls l1 l2 e Hl).
    destruct Hc as [Hw Hb]. rewrite Hl in Hw, Hb.
    split; cbn [l_count l_lines]; rewrite !length_app in *; cbn [length] in *.
    + rewrite Hw. f_equal. lia.
    + lia.
Qed.

Lemma l_access_counted (g : globals) (ln : trace_line) (a : lstate) :
  Forall counted (l_sets a) → Forall counted (l_sets (l_access g ln a).2).
Proof.
  intros Hall. unfold l_access. destruct (parsing_line g ln) as [[is_load tg] set_num].
  destruct (l_sets a !! Z.to_nat set_num) as [ls|] eqn:Hls; [|exact Hall].
  pose proof (l_apply_counted g is_load tg ls (l_stats a)
                (Forall_lookup_1 _ _ _ _ Hall Hls)) as Hc.
  destruct (l_apply g is_load tg (l_miss_type g ls tg) ls (l_stats a)) as [ls' st'].
  cbn [snd l_sets]. apply Forall_insert; assumption.
Qed.

Lemma l_access_length (g : globals) (ln : trace_line) (a : lstate) :
  length (l_sets (l_access g ln a).2) = length (l_sets a).
Proof.
  unfold l_access. destruct (parsing_line g ln) as [[is_load tg] set_num].
  destruct (l_sets a !! Z.to_nat set_num) as [ls|]; [|reflexivity].
  destruct (l_apply _ _ _ _ _ _) as [ls' st']. cbn [snd l_sets]. apply length_insert.
Qed.

Lemma access_refines (g : globals) (ln : trace_line) (m : machine) (a : lstate) :
  wf_globals g → length (sets m) = Z.to_nat (total_sets g) →
  Rep m a → Forall counted (l_sets a) →
  wp (access g ln) m
     (λ type m', type = (l_access g ln a).1 ∧ Rep m' (l_access g ln a).2 ∧
                 length (sets m') = length (sets m)).
Proof.
  intros Hwf Hlen [nss Hrep] Hall.
  pose proof (set_num_in_range g ln Hwf) as Hrange.
  unfold access, l_access.
  destruct (parsing_line g ln) as [[is_load tg] set_num]. cbn [snd] in Hrange.
  pose proof Hrep as (Hlen1 & Hlen2 & Hsets & _).
  assert (Hlt : (Z.to_nat set_num < length (sets m))%nat) by lia.
  destruct (lookup_lt_is_Some_2 (sets m) _ Hlt) as [st Hst].
  destruct (lookup_lt_is_Some_2 nss (Z.to_nat set_num)) as [ns Hns]; [lia|].
  destruct (lookup_lt_is_Some_2 (l_sets a) (Z.to_nat set_num)) as [ls Hls]; [lia|].
  pose proof (Forall_lookup_1 _ _ _ _ Hall Hls) as Hc.
  pose proof (Hsets _ _ _ _ Hst Hns Hls) as Hsr.
  rewrite Hls.
  wp_bind. eapply wp_load_set; [lia|exact Hst|].
  wp_bind. eapply wp_of_eq; [eapply miss_type_refines; eassumption|].
  pose proof (l_miss_type_cases g ls tg Hc) as Hcases. cbv zeta in Hcases.
  unfold l_apply.
  destruct Hcases as [(Hty & _)|[(Hty & Hnz & _)|(Hpos & l1 & e & l2 & Hl & _ & _ & Hty)]];
    rewrite Hty.
  - cbn [Z.eqb COLD_MISS_TYPE CAPACITY_MISS_TYPE Z.leb Z.compare Pos.eqb].
    wp_bind. eapply wp_mono; [|eapply cold_miss_refines; try eassumption; lia].
    intros [] m1 [Hrep1 Hlen']. wp_run. auto.
  - cbn [Z.eqb COLD_MISS_TYPE CAPACITY_MISS_TYPE Z.leb Z.compare Pos.eqb].
    wp_run. eapply wp_mono; [|eapply capacity_miss_refines; try eassumption; lia].
    intros [] m1 [Hrep1 Hlen']. wp_run. auto.
  - assert (Hne1 : (Z.of_nat (length l1) =? COLD_MISS_TYPE) = false)
      by (apply Z.eqb_neq; unfold COLD_MISS_TYPE; lia).
    assert (Hne2 : (Z.of_nat (length l1) =? CAPACITY_MISS_TYPE) = false)
      by (apply Z.eqb_neq; unfold CAPACITY_MISS_TYPE; lia).
    assert (Hge : (0 <=? Z.of_nat (length l1)) = true) by (apply Z.leb_le; lia).
    rewrite Hne1, Hne2, Hge. wp_run.
    destruct Hsr as (_ & _ & _ & _ & Hlines). rewrite Hl in Hlines.
    symmetry in Hlines. apply fmap_app_inv in Hlines as (n1 & nr & -> & Hnr & ->).
    symmetry in Hnr. apply fmap_cons_inv in Hnr as ([ac e'] & n2 & He' & -> & ->).
    cbn [snd] in He'. subst e'.
    rewrite length_fmap, Nat2Z.id.
    eapply wp_mono; [|eapply hit_refines; try eassumption; lia].
    intros [] m1 [Hrep1 Hlen']. wp_run. auto.
Qed.

Lemma run_refines (g : globals) (trace : list trace_line) (m : machine) (a : lstate) :
  wf_globals g → length (sets m) = Z.to_nat (total_sets g) →
  Rep m a → Forall counted (l_sets a) →
  wp (run g trace) m
     (λ types m', types = (l_run g trace a).1 ∧ Rep m' (l_run g trace a).2 ∧
                  length (sets m') = length (sets m)).
Proof.
  intros Hwf. revert m a. induction trace as [|ln trace IH]; intros m a Hlen Hrep Hall.
  - apply wp_ret. auto.
  - cbn [run l_run]. wp_bind.
    eapply wp_mono; [|apply access_refines; eassumption].
    intros type m1 (Hty & Hrep1 & Hlen1).
    pose proof (l_access_counted g ln a Hall) as Hall1.
    destruct (l_access g ln a) as [type' a1]. cbn [fst snd] in *. subst type'.
    wp_bind. eapply wp_mono; [|apply IH; [congruence|eassumption|eassumption]].
    intros types m2 (Htys & Hrep2 & Hlen2).
    destruct (l_run g trace a1) as [types' a2]. cbn [fst snd] in *. subst types'.
    apply wp_ret. split; [reflexivity|]. split; [exact Hrep2|congruence].
Qed.

Lemma init_Rep (g : globals) : Rep (init g) (l_init g).
Proof.
  exists (replicate (Z.to_nat (total_sets g)) []).
  unfold init, l_init, rep_by. cbn [heap sets brk stats l_sets l_stats].
  rewrite !length_replicate.
  split; [reflexivity|]. split; [reflexivity|]. split; [|split; [|split; [|reflexivity]]].
  - intros i st ns ls Hst Hns Hls.
    apply lookup_replicate in Hst as [-> _]. apply lookup_replicate in Hns as [-> _].
    apply lookup_replicate in Hls as [-> _].
    repeat split. apply NoDup_nil_2.
  - intros i j ns1 ns2 x _ Hns1 _ Hx. apply lookup_replicate in Hns1 as [-> _].
    inversion Hx.
  - intros x [v Hx]. rewrite lookup_empty in Hx. discriminate.
Qed.

Lemma init_counted (g : globals) : Forall counted (l_sets (l_init g)).
Proof.
  unfold l_init. cbn [l_sets]. apply Forall_replicate.
  split; cbn [l_count l_lines length]; [reflexivity|lia].
Qed.

(** Every run from the initial state terminates without a memory
    fault, in the state computed by the list-level model. *)
Lemma run_init (g : globals) (trace : list trace_line) :
  wf_globals g →
  ∃ m, run g trace (init g) = Some ((l_run g trace (l_init g)).1, m) ∧
       Rep m (l_run g trace (l_init g)).2 ∧
       length (sets m) = Z.to_nat (total_sets g).
Proof.
  intros Hwf.
  destruct (run_refines g trace (init g) (l_init g) Hwf) as (types & m & Hrun & Hty & Hrep & Hl).
  - unfold init. cbn [sets]. apply length_replicate.
  - apply init_Rep.
  - apply init_counted.
  - exists m. subst types. split; [exact Hrun|]. split; [exact Hrep|].
    rewrite Hl. unfold init. cbn [sets]. apply length_replicate.
Qed.

(** ** Properties of the list-level model *)

(** What one access does to its set, case by case. *)
Lemma l_step_cases (g : globals) (is_load tg : Z) (ls : lset) (st : csim_stats_t) :
  counted ls →
  let type := l_miss_type g ls tg in
  let r := l_apply g is_load tg type ls st in
  (type = -1 ∧ l_count ls = 0 ∧
   r = (LSet 1 [new_entry is_load tg], stats_cold g is_load st)) ∨
  (type = -1 ∧ l_count ls ≠ 0 ∧ l_count ls ≠ E g ∧ (tg ∉ (l_view ls).*1) ∧
   r = (LSet (wrap32 (l_count ls + 1)) (l_lines ls ++ [new_entry is_load tg]),
        stats_cold g is_load st)) ∨
  (type = -2 ∧ l_count ls = E g ∧ l_count ls ≠ 0 ∧ (tg ∉ (l_view ls).*1) ∧
   ∃ e0 es, l_lines ls = e0 :: es ∧
            r = (LSet (l_count ls) (es ++ [new_entry is_load tg]),
                 stats_capacity g is_load e0.2 st)) ∨
  (0 < l_count ls ∧
   ∃ l1 e l2, l_lines ls = l1 ++ e :: l2 ∧ e.1 = tg ∧ (tg ∉ l1.*1) ∧
              type = Z.of_nat (length l1) ∧
              r = (LSet (l_count ls) ((l1 ++ l2) ++ [touch is_load e]),
                   stats_hit g is_load e.2 st)).
Proof.
  intros Hc. pose proof (l_miss_type_cases g ls tg Hc) as Hcases. cbv zeta in *.
  unfold l_apply.
  destruct Hcases as [(Hty & Hwhy)|[(Hty & Hnz & HE & Hnin)|
                                     (Hpos & l1 & e & l2 & Hl & He & Hnin & Hty)]];
    rewrite Hty.
  - cbn [Z.eqb COLD_MISS_TYPE Pos.eqb]. unfold l_cold.
    destruct (l_count ls =? 0) eqn:H0.
    + left. apply Z.eqb_eq in H0. auto.
    + right. left. apply Z.eqb_neq in H0. destruct Hwhy as [?|[? ?]]; [lia|]. auto.
  - cbn [Z.eqb COLD_MISS_TYPE CAPACITY_MISS_TYPE Pos.eqb]. right. right. left.
    split; [reflexivity|]. split; [exact HE|]. split; [exact Hnz|]. split; [exact Hnin|].
    pose proof (counted_nonzero ls Hc Hnz) as Hlen.
    destruct (l_lines ls) as [|e0 es] eqn:Hes; [simpl in Hlen; lia|].
    exists e0, es. split; [reflexivity|]. cbn [hd tail]. unfold l_capacity. rewrite Hes.
    destruct (l_count ls =? 1) eqn:H1; [|reflexivity].
    apply Z.eqb_eq in H1.
    assert (Hp : 0 < l_count ls) by lia.
    pose proof (counted_pos ls Hc Hp) as Hl. rewrite Hes, H1 in Hl. cbn [length] in Hl.
    destruct es; [reflexivity|simpl in Hl; lia].
  - right. right. right. split; [exact Hpos|]. exists l1, e, l2.
    assert (Hne1 : (Z.of_nat (length l1) =? COLD_MISS_TYPE) = false)
      by (apply Z.eqb_neq; unfold COLD_MISS_TYPE; lia).
    assert (Hne2 : (Z.of_nat (length l1) =? CAPACITY_MISS_TYPE) = false)
      by (apply Z.eqb_neq; unfold CAPACITY_MISS_TYPE; lia).
    rewrite Hne1, Hne2, (l_hit_split is_load ls l1 l2 e Hl), Nat2Z.id, Hl, nth_middle_snd.
    auto.
Qed.

Lemma NoDup_fst_move (l1 l2 : list (Z * Z)) (e e' : Z * Z) :
  e'.1 = e.1 → NoDup (l1 ++ e :: l2).*1 → NoDup ((l1 ++ l2) ++ [e']).*1.
Proof.
  intros He. rewrite !fmap_app, fmap_cons. cbn [fmap list_fmap]. rewrite He.
  intros Hnd. apply NoDup_mid in Hnd as (Hn1 & Hn2 & Hnd).
  apply NoDup_app. split; [exact Hnd|]. split; [|apply NoDup_singleton].
  intros x Hx Hx'. apply list_elem_of_singleton in Hx'. subst x.
  apply elem_of_app in Hx. tauto.
Qed.

Lemma NoDup_fst_snoc (es : list (Z * Z)) (e : Z * Z) :
  NoDup es.*1 → e.1 ∉ es.*1 → NoDup (es ++ [e]).*1.
Proof.
  intros Hnd Hn. rewrite fmap_app. apply NoDup_app. split; [exact Hnd|]. split.
  - intros x Hx Hx'. apply list_elem_of_singleton in Hx'. simpl in Hx'. congruence.
  - apply NoDup_singleton.
Qed.

Lemma l_apply_tags_unique (g : globals) (is_load tg : Z) (ls : lset) (st : csim_stats_t) :
  counted ls → tags_unique ls →
  tags_unique (l_apply g is_load tg (l_miss_type g ls tg) ls st).1.
Proof.
  intros Hc Hu. pose proof (l_step_cases g is_load tg ls st Hc) as Hcases.
  cbv zeta in Hcases. unfold tags_unique in *.
  destruct Hcases as [(_ & _ & ->)|[(_ & Hnz & _ & Hnin & ->)|
    [(_ & _ & Hnz & Hnin & e0 & es & Hl & ->)|
     (Hpos & l1 & e & l2 & Hl & He & _ & _ & ->)]]]; cbn [fst l_count l_lines].
  - intros _. apply NoDup_singleton.
  - intros Hpos'.
    pose proof (wrap32_is_int (Z.of_nat (length (l_lines ls)))) as Hint.
    destruct Hc as [Hw Hb]. rewrite <- Hw in Hint. unfold is_int, INT_MIN, INT_MAX in Hint.
    assert (Hpos : 0 < l_count ls).
    { destruct (Z_lt_le_dec 0 (l_count ls)) as [|Hle]; [assumption|exfalso].
      rewrite wrap32_id in Hpos' by (unfold INT_MIN, INT_MAX; lia). lia. }
    rewrite (counted_pos_view ls (conj Hw Hb) Hpos) in Hnin.
    apply NoDup_fst_snoc; [apply Hu; exact Hpos|exact Hnin].
  - intros Hpos. rewrite (counted_pos_view ls Hc Hpos), Hl in Hnin.
    specialize (Hu Hpos). rewrite Hl in Hu. cbn [fmap list_fmap] in Hu, Hnin.
    apply NoDup_cons in Hu as [_ Hu]. apply not_elem_of_cons in Hnin as [_ Hnin].
    apply NoDup_fst_snoc; assumption.
  - intros _. specialize (Hu Hpos). rewrite Hl in Hu.
    eapply NoDup_fst_move; [|exact Hu]. reflexivity.
Qed.

Lemma l_access_general_inv (g : globals) (ln : trace_line) (a : lstate) :
  general_inv a → general_inv (l_access g ln a).2.
Proof.
  intros Hall. unfold general_inv, l_access in *.
  destruct (parsing_line g ln) as [[is_load tg] set_num].
  destruct (l_sets a !! Z.to_nat set_num) as [ls|] eqn:Hls; [|exact Hall].
  destruct (Forall_lookup_1 _ _ _ _ Hall Hls) as [Hc Hu].
  pose proof (l_apply_counted g is_load tg ls (l_stats a) Hc) as Hc'.
  pose proof (l_apply_tags_unique g is_load tg ls (l_stats a) Hc Hu) as Hu'.
  destruct (l_apply g is_load tg (l_miss_type g ls tg) ls (l_stats a)) as [ls' st'].
  cbn [snd l_sets]. apply Forall_insert; [exact Hall|]. split; assumption.
Qed.

Lemma general_inv_counted (a : lstate) : general_inv a → Forall counted (l_sets a).
Proof. intros H. eapply Forall_impl; [exact H|]. intros ls [Hc _]. exact Hc. Qed.

Lemma l_run_snoc (g : globals) (trace : list trace_line) (ln : trace_line) (a : lstate) :
  l_run g (trace ++ [ln]) a =
    let '(types, a') := l_run g trace a in
    let '(type, a'') := l_access g ln a' in
    (types ++ [type], a'').
Proof.
  revert a. induction trace as [|l0 trace IH]; intros a; cbn [app l_run].
  - destruct (l_access g ln a) as [type a']. reflexivity.
  - destruct (l_access g l0 a) as [type0 a0]. rewrite IH.
    destruct (l_run g trace a0) as [types a']. destruct (l_access g ln a') as [type a''].
    reflexivity.
Qed.

Lemma l_run_length (g : globals) (trace : list trace_line) (a : lstate) :
  length (l_sets (l_run g trace a).2) = length (l_sets a).
Proof.
  revert a. induction trace as [|ln trace IH]; intros a; [reflexivity|].
  cbn [l_run]. pose proof (l_access_length g ln a) as H1.
  destruct (l_access g ln a) as [type a']. cbn [snd] in H1.
  specialize (IH a'). destruct (l_run g trace a') as [types a'']. cbn [snd] in *. congruence.
Qed.

Lemma l_run_general_inv (g : globals) (trace : list trace_line) (a : lstate) :
  general_inv a → general_inv (l_run g trace a).2.
Proof.
  revert a. induction trace as [|ln trace IH]; intros a Hall; [exact Hall|].
  cbn [l_run]. pose proof (l_access_general_inv g ln a Hall) as H1.
  destruct (l_access g ln a) as [type a']. cbn [snd] in H1.
  specialize (IH a' H1). destruct (l_run g trace a') as [types a'']. exact IH.
Qed.

Lemma init_general_inv (g : globals) : general_inv (l_init g).
Proof.
  unfold general_inv, l_init. cbn [l_sets]. apply Forall_replicate. split.
  - split; cbn [l_count l_lines length]; [reflexivity|lia].
  - intros H. cbn [l_count] in H. lia.
Qed.

(** The views of the heap-level state are those of the list-level
    state it represents. *)
Lemma cache_view_refines (m : machine) (a : lstate) :
  Rep m a → Forall counted (l_sets a) → cache_view m = Some (l_view <$> l_sets a).
Proof.
  intros [nss (Hlen1 & Hlen2 & Hsets & _)] Hall. unfold cache_view.
  apply mapM_Some. apply Forall2_fmap_r. apply Forall2_same_length_lookup.
  split; [congruence|]. intros i st ls Hst Hls.
  destruct (lookup_lt_is_Some_2 nss i) as [ns Hns];
    [rewrite <- Hlen1; eapply lookup_lt_Some; eassumption|].
  eapply set_view_refines; [eapply Hsets; eassumption|].
  eapply Forall_lookup_1; eassumption.
Qed.

Lemma l_access_view (g : globals) (ln : trace_line) (a : lstate) (ls : lset) :
  l_sets a !! Z.to_nat (parsing_line g ln).2 = Some ls →
  l_access g ln a
  = (l_miss_type g ls (parsing_line g ln).1.2,
     LState (<[Z.to_nat (parsing_line g ln).2 :=
                 (l_apply g (parsing_line g ln).1.1 (parsing_line g ln).1.2
                          (l_miss_type g ls (parsing_line g ln).1.2) ls (l_stats a)).1]>
               (l_sets a))
            (l_apply g (parsing_line g ln).1.1 (parsing_line g ln).1.2
                     (l_miss_type g ls (parsing_line g ln).1.2) ls (l_stats a)).2).
Proof.
  unfold l_access. destruct (parsing_line g ln) as [[is_load tg] set_num].
  cbn [fst snd]. intros ->. destruct (l_apply _ _ _ _ _ _) as [ls' st']. reflexivity.
Qed.

(** *** Classification and counters *)

Lemma count_kind_cons (f : Z → bool) (t : Z) (ts : list Z) :
  count_kind f (t :: ts) = (if f t then 1 else 0) + count_kind f ts.
Proof.
  unfold count_kind. rewrite filter_cons. destruct (f t) eqn:Hf.
  - rewrite decide_True by reflexivity. cbn [length]. lia.
  - rewrite decide_False by discriminate. lia.
Qed.

Lemma init_length (g : globals) : length (l_sets (l_init g)) = Z.to_nat (total_sets g).
Proof. unfold l_init. cbn [l_sets]. apply length_replicate. Qed.

Lemma l_access_lookup (g : globals) (ln : trace_line) (a : lstate) :
  wf_globals g → length (l_sets a) = Z.to_nat (total_sets g) →
  ∃ ls, l_sets a !! Z.to_nat (parsing_line g ln).2 = Some ls.
Proof.
  intros Hwf Hlen. pose proof (set_num_in_range g ln Hwf) as Hr.
  apply lookup_lt_is_Some_2. lia.
Qed.

Lemma l_access_counts (g : globals) (ln : trace_line) (a : lstate) :
  wf_globals g → length (l_sets a) = Z.to_nat (total_sets g) →
  Forall counted (l_sets a) →
  let r := l_access g ln a in
  (∃ k, kinds_of r.1 = [k]) ∧
  hits (l_stats r.2) = hits (l_stats a) + (if is_hit r.1 then 1 else 0) ∧
  misses (l_stats r.2)
    = misses (l_stats a) + (if is_cold r.1 then 1 else 0)
      + (if is_capacity r.1 then 1 else 0) ∧
  evictions (l_stats r.2) = evictions (l_stats a) + (if is_capacity r.1 then 1 else 0).
Proof.
  intros Hwf Hlen Hall. destruct (l_access_lookup g ln a Hwf Hlen) as [ls Hls].
  cbv zeta. unfold l_access.
  destruct (parsing_line g ln) as [[is_load tg] set_num]. cbn [snd] in Hls. rewrite Hls.
  pose proof (l_step_cases g is_load tg ls (l_stats a) (Forall_lookup_1 _ _ _ _ Hall Hls))
    as Hcases. cbv zeta in Hcases.
  destruct Hcases as [(Hty & _ & Hr)|[(Hty & _ & _ & _ & Hr)|
    [(Hty & _ & _ & _ & e0 & es & _ & Hr)|
     (_ & l1 & e & l2 & _ & _ & _ & Hty & Hr)]]]; rewrite Hr, Hty; cbn [fst snd l_stats].
  - split; [exists ColdMiss; reflexivity|]. cbn. lia.
  - split; [exists ColdMiss; reflexivity|]. cbn. lia.
  - split; [exists CapacityMiss; reflexivity|]. cbn. lia.
  - unfold kinds_of, is_hit, is_cold, is_capacity, COLD_MISS_TYPE, CAPACITY_MISS_TYPE.
    assert (Hne1 : (Z.of_nat (length l1) =? -1) = false) by (apply Z.eqb_neq; lia).
    assert (Hne2 : (Z.of_nat (length l1) =? -2) = false) by (apply Z.eqb_neq; lia).
    assert (Hge : (0 <=? Z.of_nat (length l1)) = true) by (apply Z.leb_le; lia).
    rewrite Hne1, Hne2, Hge. split; [exists Hit; reflexivity|]. cbn. lia.
Qed.

Lemma l_run_counts (g : globals) (trace : list trace_line) (a : lstate) :
  wf_globals g → length (l_sets a) = Z.to_nat (total_sets g) →
  Forall counted (l_sets a) →
  let r := l_run g trace a in
  length r.1 = length trace ∧
  Forall (λ t, ∃ k, kinds_of t = [k]) r.1 ∧
  hits (l_stats r.2) = hits (l_stats a) + count_kind is_hit r.1 ∧
  misses (l_stats r.2)
    = misses (l_stats a) + count_kind is_cold r.1 + count_kind is_capacity r.1 ∧
  evictions (l_stats r.2) = evictions (l_stats a) + count_kind is_capacity r.1.
Proof.
  intros Hwf. revert a. induction trace as [|ln trace IH]; intros a Hlen Hall; cbv zeta.
  - cbn [l_run fst snd]. unfold count_kind. cbn. repeat split; try lia. constructor.
  - cbn [l_run].
    pose proof (l_access_counts g ln a Hwf Hlen Hall) as (Hk & Hh & Hm & He).
    pose proof (l_access_counted g ln a Hall) as Hall1.
    pose proof (l_access_length g ln a) as Hlen1.
    destruct (l_access g ln a) as [type a1]. cbn [fst snd] in *.
    specialize (IH a1 ltac:(congruence) Hall1). cbv zeta in IH.
    destruct (l_run g trace a1) as [types a2]. cbn [fst snd] in *.
    destruct IH as (Hl & Hks & Hh2 & Hm2 & He2).
    rewrite !count_kind_cons. cbn [length].
    split; [lia|]. split; [constructor; assumption|]. lia.
Qed.

(** *** Occupancy and dirty bytes *)

Lemma count_dirty_app (l1 l2 : list (Z * Z)) :
  count_dirty (l1 ++ l2) = count_dirty l1 + count_dirty l2.
Proof. unfold count_dirty. rewrite filter_app, length_app. lia. Qed.

Lemma count_dirty_cons (e : Z * Z) (l : list (Z * Z)) :
  count_dirty (e :: l) = (if is_dirty e then 1 else 0) + count_dirty l.
Proof.
  unfold count_dirty. rewrite filter_cons. destruct (is_dirty e).
  - rewrite decide_True by reflexivity. cbn [length]. lia.
  - rewrite decide_False by discriminate. lia.
Qed.

Lemma count_dirty_nil : count_dirty [] = 0.
Proof. reflexivity. Qed.

Lemma dirty_lines_insert (v : list (list (Z * Z))) (i : nat) (old new : list (Z * Z)) :
  v !! i = Some old →
  dirty_lines (<[i := new]> v) = dirty_lines v - count_dirty old + count_dirty new.
Proof.
  intros Hi. unfold dirty_lines.
  assert (Hv : concat v = concat (take i v) ++ old ++ concat (drop (S i) v)).
  { rewrite <- (take_drop_middle v i old Hi) at 1.
    rewrite concat_app, concat_cons. reflexivity. }
  rewrite Hv, insert_take_drop by (eapply lookup_lt_Some; eassumption).
  rewrite !concat_app, !concat_cons, !count_dirty_app. lia.
Qed.

Lemma exact_set_counted (g : globals) (n : nat) (ls : lset) :
  exact_set g n ls → E g <= INT_MAX → 1 <= E g ∨ Z.of_nat n < INT_MAX → counted ls.
Proof.
  intros (Hcnt & HE & Hn & _) HEmax Hor. unfold INT_MAX in *.
  assert (Z.of_nat (length (l_lines ls)) <= 2147483647) by (destruct Hor; lia).
  split; [|lia]. rewrite Hcnt. symmetry. apply wrap32_id. unfold INT_MIN, INT_MAX. lia.
Qed.

Lemma exact_set_view (g : globals) (n : nat) (ls : lset) :
  exact_set g n ls → l_view ls = l_lines ls.
Proof.
  intros (Hcnt & _). unfold l_view. rewrite Hcnt, Nat2Z.id. apply firstn_all.
Qed.

Lemma touch_dirty (is_load : Z) (e : Z * Z) :
  e.2 = 0 ∨ e.2 = 1 →
  ((touch is_load e).2 = 0 ∨ (touch is_load e).2 = 1) ∧
  (if is_dirty (touch is_load e) then 1 else 0)
  = (if is_dirty e then 1 else 0) + (if (is_load =? 0) && (e.2 =? 0) then 1 else 0).
Proof.
  unfold touch, is_dirty. cbn [snd]. intros [H|H]; rewrite H; cbn [Z.eqb Pos.eqb];
    destruct (is_load =? 0); cbn; auto.
Qed.

Lemma new_entry_dirty (is_load tg : Z) :
  ((new_entry is_load tg).2 = 0 ∨ (new_entry is_load tg).2 = 1) ∧
  (if is_dirty (new_entry is_load tg) then 1 else 0) = (if is_load =? 0 then 1 else 0).
Proof. unfold new_entry, is_dirty. cbn [snd]. destruct (is_load =? 0); cbn; auto. Qed.

(** One access keeps its set exact and moves [dirty_bytes] by the
    change of the number of dirty lines of that set. *)
Lemma l_apply_exact (g : globals) (n : nat) (is_load tg : Z) (ls : lset) (st : csim_stats_t) :
  exact_set g n ls → E g <= INT_MAX → 1 <= E g ∨ Z.of_nat n < INT_MAX →
  let r := l_apply g is_load tg (l_miss_type g ls tg) ls st in
  exact_set g (S n) r.1 ∧
  dirty_bytes r.2
  = dirty_bytes st
    + total_bytes g * (count_dirty (l_lines r.1) - count_dirty (l_lines ls)).
Proof.
  intros Hex HEmax Hor. pose proof (exact_set_counted g n ls Hex HEmax Hor) as Hc.
  pose proof (exact_set_view g n ls Hex) as Hview.
  destruct Hex as (Hcnt & HE & Hn & Hnd & Hd).
  pose proof (l_step_cases g is_load tg ls st Hc) as Hcases. cbv zeta in *.
  pose proof (new_entry_dirty is_load tg) as [Hnew01 Hnewd].
  unfold INT_MAX in *.
  destruct Hcases as [(_ & H0 & ->)|[(_ & Hnz & HnE & Hnin & ->)|
    [(_ & HisE & Hnz & Hnin & e0 & es & Hl & ->)|
     (Hpos & l1 & e & l2 & Hl & He & _ & _ & ->)]]]; cbn [fst snd l_count l_lines].
  - (* first line of an empty set *)
    assert (Hnil : l_lines ls = []).
    { destruct (l_lines ls); [reflexivity|cbn [length] in Hcnt; lia]. }
    rewrite Hnil. split.
    + split; [reflexivity|]. cbn [l_lines l_count length].
      split; [intros; lia|]. split; [lia|]. split; [apply NoDup_singleton|].
      constructor; [exact Hnew01|constructor].
    + unfold stats_cold. cbn [dirty_bytes]. rewrite count_dirty_cons, !count_dirty_nil, Hnewd.
      destruct (is_load =? 0); lia.
  - (* a line is appended *)
    rewrite Hview in Hnin. split.
    + unfold exact_set. cbn [l_lines l_count]. rewrite length_app. cbn [length].
      split; [rewrite wrap32_id by (unfold INT_MIN, INT_MAX; destruct Hor; lia); lia|].
      split; [intros H1; specialize (HE H1); lia|]. split; [lia|].
      split; [apply NoDup_fst_snoc; assumption|].
      apply Forall_app. split; [exact Hd|]. constructor; [exact Hnew01|constructor].
    + unfold stats_cold. cbn [dirty_bytes].
      rewrite count_dirty_app, count_dirty_cons, count_dirty_nil, Hnewd.
      destruct (is_load =? 0); lia.
  - (* the first line is replaced by a new last line *)
    rewrite Hview, Hl in Hnin. rewrite Hl in *. cbn [fmap list_fmap length] in *.
    apply NoDup_cons in Hnd as [_ Hnd]. apply not_elem_of_cons in Hnin as [_ Hnin].
    apply Forall_cons in Hd as [Hd0 Hd]. split.
    + unfold exact_set. cbn [l_lines l_count]. rewrite length_app. cbn [length].
      split; [lia|]. split; [intros H1; specialize (HE H1); lia|]. split; [lia|].
      split; [apply NoDup_fst_snoc; assumption|].
      apply Forall_app. split; [exact Hd|]. constructor; [exact Hnew01|constructor].
    + unfold stats_capacity. cbn [dirty_bytes].
      rewrite count_dirty_app, !count_dirty_cons, count_dirty_nil, Hnewd.
      unfold is_dirty. destruct (e0.2 =? 1); destruct (is_load =? 0); lia.
  - (* a line moves to the back *)
    rewrite Hl in *. apply Forall_app in Hd as [Hd1 Hd2]. apply Forall_cons in Hd2 as [Hde Hd2].
    destruct (touch_dirty is_load e Hde) as [Ht01 Htd]. split.
    + unfold exact_set. cbn [l_lines l_count]. rewrite !length_app in *. cbn [length] in *.
      split; [lia|]. split; [intros H1; specialize (HE H1); lia|]. split; [lia|].
      split; [eapply NoDup_fst_move; [|exact Hnd]; reflexivity|].
      apply Forall_app. split; [apply Forall_app; auto|]. constructor; [exact Ht01|constructor].
    + unfold stats_hit. cbn [dirty_bytes].
      rewrite !count_dirty_app, !count_dirty_cons, count_dirty_nil, Htd.
      destruct ((is_load =? 0) && (e.2 =? 0)); destruct (is_dirty e); lia.
Qed.

Lemma exact_set_S (g : globals) (n : nat) (ls : lset) :
  exact_set g n ls → exact_set g (S n) ls.
Proof. intros (H1 & H2 & H3 & H4). split; [exact H1|]. split; [exact H2|]. split; [lia|exact H4]. Qed.

Lemma l_access_exact (g : globals) (n : nat) (ln : trace_line) (a : lstate) :
  E g <= INT_MAX → 1 <= E g ∨ Z.of_nat n < INT_MAX →
  exact_inv g n a → exact_inv g (S n) (l_access g ln a).2.
Proof.
  intros HEmax Hor [Hall Hdb]. unfold l_access.
  destruct (parsing_line g ln) as [[is_load tg] set_num].
  destruct (l_sets a !! Z.to_nat set_num) as [ls|] eqn:Hls.
  - pose proof (l_apply_exact g n is_load tg ls (l_stats a)
                  (Forall_lookup_1 _ _ _ _ Hall Hls) HEmax Hor) as Hap.
    cbv zeta in Hap.
    destruct (l_apply g is_load tg (l_miss_type g ls tg) ls (l_stats a)) as [ls' st'].
    cbn [fst snd] in *. destruct Hap as [Hex Hd]. split; cbn [l_sets l_stats].
    + apply Forall_insert; [|exact Hex].
      eapply Forall_impl; [exact Hall|]. apply exact_set_S.
    + rewrite list_fmap_insert.
      rewrite (dirty_lines_insert _ _ (l_lines ls)) by (rewrite list_lookup_fmap, Hls; reflexivity).
      rewrite Hd, Hdb. lia.
  - split; [|exact Hdb]. eapply Forall_impl; [exact Hall|]. apply exact_set_S.
Qed.

Lemma init_exact (g : globals) : exact_inv g 0 (l_init g).
Proof.
  split.
  - unfold l_init. cbn [l_sets]. apply Forall_replicate.
    split; [reflexivity|]. cbn [l_lines length]. split; [intros; lia|]. split; [lia|].
    split; [apply NoDup_nil_2|constructor].
  - unfold l_init. cbn [l_sets l_stats dirty_bytes].
    assert (H0 : ∀ k, dirty_lines (l_lines <$> replicate k (LSet 0 [])) = 0).
    { induction k as [|k IH]; [reflexivity|]. exact IH. }
    rewrite H0. lia.
Qed.

Lemma l_run_exact (g : globals) (trace : list trace_line) :
  E g <= INT_MAX → 1 <= E g ∨ Z.of_nat (length trace) <= INT_MAX →
  exact_inv g (length trace) (l_run g trace (l_init g)).2.
Proof.
  intros HEmax. induction trace as [|ln trace IH] using rev_ind; intros Hor.
  - apply init_exact.
  - rewrite length_app in *. cbn [length] in *. rewrite l_run_snoc.
    assert (Hor' : 1 <= E g ∨ Z.of_nat (length trace) < INT_MAX) by (destruct Hor; [left|right]; lia).
    assert (Hor'' : 1 <= E g ∨ Z.of_nat (length trace) <= INT_MAX) by (destruct Hor'; [left|right]; lia).
    specialize (IH Hor'').
    destruct (l_run g trace (l_init g)) as [types a]. cbn [snd] in IH.
    pose proof (l_access_exact g (length trace) ln a HEmax Hor' IH) as Hex.
    destruct (l_access g ln a) as [type a']. cbn [snd] in *.
    replace (length trace + 1)%nat with (S (length trace)) by lia. exact Hex.
Qed.

Lemma E_is_int (argv : list cli_opt) : E (set_global_values argv) <= INT_MAX.
Proof.
  unfold set_global_values. cbn [E].
  assert (H : ∀ g, E g <= INT_MAX → E (fold_left apply_opt argv g) <= INT_MAX).
  { induction argv as [|o argv IH]; intros g Hg; [exact Hg|].
    cbn [fold_left]. apply IH. destruct o; cbn [apply_opt E]; try exact Hg.
    apply wrap32_is_int. }
  apply H. cbn. unfold INT_MAX. lia.
Qed.

(** *** Order of last reference *)

Lemma last_ref_from_snoc (g : globals) (set_num tg : Z) (trace : list trace_line)
      (ln : trace_line) (k : nat) :
  last_ref_from g set_num tg (trace ++ [ln]) k
  = if refers g set_num tg ln then Some (k + length trace)%nat
    else last_ref_from g set_num tg trace k.
Proof.
  revert k. induction trace as [|l0 trace IH]; intros k; cbn [app last_ref_from length].
  - rewrite Nat.add_0_r. reflexivity.
  - rewrite IH. destruct (refers g set_num tg ln); [|reflexivity].
    f_equal. lia.
Qed.

Lemma last_ref_from_bound (g : globals) (set_num tg : Z) (trace : list trace_line)
      (k t : nat) :
  last_ref_from g set_num tg trace k = Some t → (k ≤ t < k + length trace)%nat.
Proof.
  revert k. induction trace as [|l0 trace IH]; intros k; cbn [last_ref_from length].
  - discriminate.
  - destruct (last_ref_from g set_num tg trace (S k)) as [t'|] eqn:Hl.
    + intros [= ->]. specialize (IH _ Hl). lia.
    + destruct (refers g set_num tg l0); [|discriminate]. intros [= ->]. lia.
Qed.

Lemma last_ref_snoc (g : globals) (trace : list trace_line) (ln : trace_line)
      (set_num tg : Z) :
  last_ref g (trace ++ [ln]) set_num tg
  = if refers g set_num tg ln then Some (length trace)
    else last_ref g trace set_num tg.
Proof. unfold last_ref. rewrite last_ref_from_snoc. reflexivity. Qed.

Lemma last_ref_bound (g : globals) (trace : list trace_line) (set_num tg : Z) (t : nat) :
  last_ref g trace set_num tg = Some t → (t < length trace)%nat.
Proof. intros H. apply last_ref_from_bound in H. lia. Qed.

Lemma refers_iff (g : globals) (set_num tg : Z) (ln : trace_line) :
  refers g set_num tg ln = true ↔
  (parsing_line g ln).2 = set_num ∧ (parsing_line g ln).1.2 = tg.
Proof.
  unfold refers. destruct (parsing_line g ln) as [[il tg'] sn']. cbn [fst snd].
  rewrite andb_true_iff, !Z.eqb_eq. reflexivity.
Qed.

Lemma last_ref_snoc_other (g : globals) (trace : list trace_line) (ln : trace_line)
      (set_num tg : Z) :
  (parsing_line g ln).2 ≠ set_num ∨ (parsing_line g ln).1.2 ≠ tg →
  last_ref g (trace ++ [ln]) set_num tg = last_ref g trace set_num tg.
Proof.
  intros Hne. rewrite last_ref_snoc.
  destruct (refers g set_num tg ln) eqn:Hr; [|reflexivity].
  apply refers_iff in Hr. tauto.
Qed.

Lemma last_ref_snoc_same (g : globals) (trace : list trace_line) (ln : trace_line) :
  last_ref g (trace ++ [ln]) (parsing_line g ln).2 (parsing_line g ln).1.2
  = Some (length trace).
Proof.
  rewrite last_ref_snoc.
  destruct (refers g _ _ ln) eqn:Hr; [reflexivity|].
  assert (refers g (parsing_line g ln).2 (parsing_line g ln).1.2 ln = true)
    by (apply refers_iff; auto).
  congruence.
Qed.

Lemma StronglySorted_mono_in {A} (R R' : A → A → Prop) (l : list A) :
  (∀ x y, x ∈ l → y ∈ l → R x y → R' x y) →
  StronglySorted R l → StronglySorted R' l.
Proof.
  induction l as [|x l IH]; intros Himp Hs; [constructor|].
  apply StronglySorted_cons in Hs as [Hx Hs]. apply StronglySorted_cons. split.
  - rewrite Forall_forall in *. intros y Hy. apply Himp; [left|right; exact Hy|auto].
  - apply IH; [|exact Hs]. intros y z Hy Hz. apply Himp; right; assumption.
Qed.

(** The accessed line becomes the most recently referenced one; the
    lines that stay keep their times of last reference. *)
Lemma lru_set_step (g : globals) (trace : list trace_line) (ln : trace_line)
      (keep : list (Z * Z)) (x : Z * Z) :
  x.1 = (parsing_line g ln).1.2 → (parsing_line g ln).1.2 ∉ keep.*1 →
  Forall (λ e, is_Some (last_ref g trace (parsing_line g ln).2 e.1)) keep →
  StronglySorted (older g trace (parsing_line g ln).2) keep →
  Forall (λ e, is_Some (last_ref g (trace ++ [ln]) (parsing_line g ln).2 e.1)) (keep ++ [x]) ∧
  StronglySorted (older g (trace ++ [ln]) (parsing_line g ln).2) (keep ++ [x]).
Proof.
  intros Hx Hnin Hsome Hsorted.
  assert (Hkeep : ∀ e, e ∈ keep →
            last_ref g (trace ++ [ln]) (parsing_line g ln).2 e.1
            = last_ref g trace (parsing_line g ln).2 e.1).
  { intros e He. apply last_ref_snoc_other. right. intros Heq. apply Hnin.
    rewrite Heq. apply list_elem_of_fmap. exists e. auto. }
  assert (Hnew : last_ref g (trace ++ [ln]) (parsing_line g ln).2 x.1 = Some (length trace)).
  { rewrite Hx. apply last_ref_snoc_same. }
  split.
  - apply Forall_app. split.
    + rewrite Forall_forall in *. intros e He. rewrite (Hkeep e He). auto.
    + constructor; [rewrite Hnew; eauto|constructor].
  - apply StronglySorted_app. split; [|split].
    + intros e y He Hy. apply list_elem_of_singleton in Hy as ->.
      rewrite Forall_forall in Hsome. destruct (Hsome e He) as [t Ht].
      exists t, (length trace). rewrite (Hkeep e He). split; [exact Ht|].
      split; [exact Hnew|]. eapply last_ref_bound. exact Ht.
    + eapply StronglySorted_mono_in; [|exact Hsorted].
      intros e y He Hy (t1 & t2 & H1 & H2 & Hlt). exists t1, t2.
      rewrite (Hkeep e He), (Hkeep y Hy). auto.
    + apply StronglySorted_cons. split; constructor.
Qed.

Lemma l_access_lru (g : globals) (n : nat) (trace : list trace_line) (ln : trace_line)
      (a : lstate) :
  wf_globals g → length (l_sets a) = Z.to_nat (total_sets g) →
  E g <= INT_MAX → 1 <= E g ∨ Z.of_nat n < INT_MAX →
  exact_inv g n a → lru_ordered g trace a →
  lru_ordered g (trace ++ [ln]) (l_access g ln a).2.
Proof.
  intros Hwf Hlen HEmax Hor [Hex _] Hlru i ls'.
  pose proof (set_num_in_range g ln Hwf) as Hrange.
  destruct (l_access_lookup g ln a Hwf Hlen) as [ls Hls].
  rewrite (l_access_view g ln a ls Hls). cbn [snd l_sets].
  destruct (decide (i = Z.to_nat (parsing_line g ln).2)) as [->|Hne].
  - rewrite list_lookup_insert_eq by (eapply lookup_lt_Some; eassumption).
      intros Heq. apply (inj Some) in Heq. subst ls'. rewrite Z2Nat.id by lia.
      pose proof (Forall_lookup_1 _ _ _ _ Hex Hls) as Hexs.
      pose proof (exact_set_counted g n ls Hexs HEmax Hor) as Hc.
      pose proof (exact_set_view g n ls Hexs) as Hview.
      destruct (Hlru _ _ Hls) as [Hsome Hsorted]. rewrite Z2Nat.id in Hsome, Hsorted by lia.
      destruct Hexs as (_ & _ & _ & Hnd & _).
      pose proof (l_step_cases g (parsing_line g ln).1.1 (parsing_line g ln).1.2 ls
                    (l_stats a) Hc) as Hcases.
      cbv zeta in Hcases.
      destruct Hcases as [(_ & _ & ->)|[(_ & _ & _ & Hnin & ->)|
        [(_ & _ & _ & Hnin & e0 & es & Hl & ->)|
         (_ & l1 & e & l2 & Hl & He & _ & _ & ->)]]]; cbn [fst l_lines].
      * apply (lru_set_step g trace ln []);
          [reflexivity|apply not_elem_of_nil|constructor|constructor].
      * rewrite Hview in Hnin. apply lru_set_step; [reflexivity|assumption..].
      * rewrite Hview, Hl in Hnin. rewrite Hl in Hsome, Hsorted.
        cbn [fmap list_fmap] in Hnin. apply not_elem_of_cons in Hnin as [_ Hnin].
        apply Forall_cons in Hsome as [_ Hsome].
        apply StronglySorted_cons in Hsorted as [_ Hsorted].
        apply lru_set_step; [reflexivity|assumption..].
      * rewrite Hl in Hsome, Hsorted, Hnd.
        rewrite fmap_app, fmap_cons in Hnd. apply NoDup_mid in Hnd as (Hn1 & Hn2 & _).
        apply Forall_app in Hsome as [Hs1 Hs2]. apply Forall_cons in Hs2 as [_ Hs2].
        apply StronglySorted_app in Hsorted as (Hcross & Hso1 & Hso2).
        apply StronglySorted_cons in Hso2 as [_ Hso2].
        apply lru_set_step.
        -- exact He.
        -- rewrite <- He, fmap_app, not_elem_of_app. tauto.
        -- apply Forall_app. auto.
        -- apply StronglySorted_app. split; [|auto].
           intros y z Hy Hz. apply Hcross; [exact Hy|right; exact Hz].
  - rewrite list_lookup_insert_ne by (apply not_eq_sym; exact Hne). intros Hi.
      destruct (Hlru _ _ Hi) as [Hsome Hsorted].
      assert (Hsame : ∀ t, last_ref g (trace ++ [ln]) (Z.of_nat i) t
                           = last_ref g trace (Z.of_nat i) t).
      { intros t. apply last_ref_snoc_other. left. lia. }
      split.
      * eapply Forall_impl; [exact Hsome|]. intros e He. rewrite Hsame. exact He.
      * eapply StronglySorted_mono_in; [|exact Hsorted].
        intros e y _ _ (t1 & t2 & H1 & H2 & Hlt). exists t1, t2. rewrite !Hsame. auto.
Qed.

Lemma init_lru (g : globals) : lru_ordered g [] (l_init g).
Proof.
  intros i ls Hls. unfold l_init in Hls. cbn [l_sets] in Hls.
  apply lookup_replicate in Hls as [-> _]. cbn [l_lines]. split; constructor.
Qed.

Lemma l_run_lru (g : globals) (trace : list trace_line) :
  wf_globals g → E g <= INT_MAX → 1 <= E g ∨ Z.of_nat (length trace) <= INT_MAX →
  lru_ordered g trace (l_run g trace (l_init g)).2.
Proof.
  intros Hwf HEmax. induction trace as [|ln trace IH] using rev_ind; intros Hor.
  - apply init_lru.
  - rewrite length_app in Hor. cbn [length] in Hor.
    assert (Hor' : 1 <= E g ∨ Z.of_nat (length trace) < INT_MAX)
      by (destruct Hor; [left|right]; lia).
    assert (Hor'' : 1 <= E g ∨ Z.of_nat (length trace) <= INT_MAX)
      by (destruct Hor'; [left|right]; lia).
    specialize (IH Hor'').
    pose proof (l_run_exact g trace HEmax Hor'') as Hex.
    pose proof (l_run_length g trace (l_init g)) as Hlen. rewrite init_length in Hlen.
    rewrite l_run_snoc.
    destruct (l_run g trace (l_init g)) as [types a]. cbn [snd] in *.
    pose proof (l_access_lru g (length trace) trace ln a Hwf Hlen HEmax Hor' Hex IH) as Hlru.
    destruct (l_access g ln a) as [type a']. exact Hlru.
Qed.

(** * Properties of the simulator *)


(** ** Address decomposition *)

Lemma set_mask_small (argv : list cli_opt) :
  0 <= s (set_global_values argv) <= 30 →
  set_mask (set_global_values argv) = Z.shiftl 1 (s (set_global_values argv)) - 1.
Proof.
  intros Hs. unfold set_global_values in *. cbn [s set_mask total_sets] in *.
  set (s0 := s (fold_left apply_opt argv globals0)) in *.
  rewrite pow2_small by lia. rewrite Z.abs_eq by lia.
  rewrite Z.shiftl_1_l.
  assert (0 < 2 ^ s0 <= 2 ^ 30).
  { split; [apply Z.pow_pos_nonneg; lia|apply Z.pow_le_mono_r; lia]. }
  apply wrap32_id. unfold INT_MIN, INT_MAX. change (2 ^ 30) with 1073741824 in *. lia.
Qed.

(** C5.  For a geometry with [s] set-index bits (at most 30, so that
    the number of sets fits an [int]) and [b] block-offset bits (at
    most 63, a count by which C shifts a [long]),
    [parsing_line] yields [set_num = (A >> b) & ((1 << s) - 1)] and
    [tag = A >> (s + b)]; it is a total function; and with [s = 0] the
    set index is always 0. *)
Theorem address_decomposition (argv : list cli_opt) (ln : trace_line) :
  let g := set_global_values argv in
  0 <= s g <= 30 → 0 <= b g <= 63 →
  parsing_line g ln
  = (if Ascii.eqb (op ln) "S"%char then 0 else 1,
     Z.shiftr (addr ln) (s g + b g),
     Z.land (Z.shiftr (addr ln) (b g)) (Z.shiftl 1 (s g) - 1))
  ∧ (s g = 0 → (parsing_line g ln).2 = 0).
Proof.
  intros g Hs Hb. subst g. unfold parsing_line. cbn [snd].
  rewrite (set_mask_small argv Hs).
  rewrite Z.shiftr_shiftr by lia. rewrite (Z.add_comm (b _) (s _)).
  split; [reflexivity|]. intros ->. cbn [Z.shiftl Z.sub Z.add Z.opp Z.pos_sub].
  apply Z.land_0_r.
Qed.

Lemma address_decomposition_witness :
  let g := set_global_values [Opt_s 1; Opt_E 1; Opt_b 1] in
  let ln := TraceLine "L" 8 1 in
  parsing_line g ln = (1, 2, 0) ∧ (s g = 0 → (parsing_line g ln).2 = 0).
Proof.
  exact (address_decomposition [Opt_s 1; Opt_E 1; Opt_b 1] (TraceLine "L" 8 1)
           ltac:(vm_compute; split; discriminate) ltac:(vm_compute; split; discriminate)).
Defined.

(** ** Classification of accesses *)

(** C4.  Every access of every run gets exactly one of the three
    kinds, and at the end of any trace (hence at every point of any
    run) [hits], [misses] and [evictions] count the accesses of the
    corresponding kinds. *)
Theorem classification_counts (argv : list cli_opt) (trace : list trace_line) :
  let g := set_global_values argv in
  0 < total_sets g →
  ∃ types m,
    run g trace (init g) = Some (types, m) ∧
    length types = length trace ∧
    Forall (λ t, ∃ k, kinds_of t = [k]) types ∧
    hits (stats m) = count_kind is_hit types ∧
    misses (stats m) = count_kind is_cold types + count_kind is_capacity types ∧
    evictions (stats m) = count_kind is_capacity types.
Proof.
  intros g Hpos. pose proof (set_global_values_wf argv Hpos) as Hwf. fold g in Hwf.
  destruct (run_init g trace Hwf) as (m & Hrun & [nss Hrep] & Hlen).
  pose proof (l_run_counts g trace (l_init g) Hwf (init_length g) (init_counted g)) as Hc.
  cbv zeta in Hc. destruct Hc as (Hl & Hk & Hh & Hm & He).
  destruct Hrep as (_ & _ & _ & _ & _ & Hst).
  exists (l_run g trace (l_init g)).1, m. rewrite <- Hst.
  split; [exact Hrun|]. split; [exact Hl|]. split; [exact Hk|].
  cbn [l_init l_stats hits misses evictions] in Hh, Hm, He. lia.
Qed.

Lemma classification_counts_witness :
  let g := set_global_values [Opt_s 1; Opt_E 1; Opt_b 1] in
  let trace := [TraceLine "L" 0 1; TraceLine "L" 8 1; TraceLine "L" 8 1] in
  0 < total_sets g ∧
  ∃ types m,
    run g trace (init g) = Some (types, m) ∧
    length types = length trace ∧
    Forall (λ t, ∃ k, kinds_of t = [k]) types ∧
    hits (stats m) = count_kind is_hit types ∧
    misses (stats m) = count_kind is_cold types + count_kind is_capacity types ∧
    evictions (stats m) = count_kind is_capacity types.
Proof.
  split; [reflexivity|].
  apply (classification_counts [Opt_s 1; Opt_E 1; Opt_b 1]). reflexivity.
Defined.

(** ** Uniqueness of tags *)

Lemma general_inv_view_NoDup (a : lstate) :
  general_inv a → Forall (λ lines : list (Z * Z), NoDup lines.*1) (l_view <$> l_sets a).
Proof.
  intros Hall. apply Forall_fmap. eapply Forall_impl; [exact Hall|].
  intros ls [Hc Hu]. cbn.
  destruct (Z_lt_le_dec 0 (l_count ls)) as [Hpos|Hle].
  - rewrite (counted_pos_view ls Hc Hpos). apply Hu. exact Hpos.
  - rewrite (counted_nonpos_view ls Hle). apply NoDup_nil_2.
Qed.

(** Reachable states: the outcome of a run and the list-level state
    it represents. *)
Lemma reachable (argv : list cli_opt) (trace : list trace_line) :
  let g := set_global_values argv in
  0 < total_sets g →
  ∃ m, run g trace (init g) = Some ((l_run g trace (l_init g)).1, m) ∧
       Rep m (l_run g trace (l_init g)).2 ∧
       length (sets m) = Z.to_nat (total_sets g) ∧
       general_inv (l_run g trace (l_init g)).2 ∧
       cache_view m = Some (l_view <$> l_sets (l_run g trace (l_init g)).2).
Proof.
  intros g Hpos. pose proof (set_global_values_wf argv Hpos) as Hwf. fold g in Hwf.
  destruct (run_init g trace Hwf) as (m & Hrun & Hrep & Hlen).
  pose proof (l_run_general_inv g trace (l_init g) (init_general_inv g)) as Hinv.
  exists m. repeat split; try assumption.
  apply cache_view_refines; [exact Hrep|apply general_inv_counted; exact Hinv].
Qed.

(** C7.  After any trace (hence at all times during a run) no two
    resident lines of a set have the same tag. *)
Theorem unique_tags (argv : list cli_opt) (trace : list trace_line) :
  let g := set_global_values argv in
  0 < total_sets g →
  ∃ types m v,
    run g trace (init g) = Some (types, m) ∧
    cache_view m = Some v ∧
    Forall (λ lines : list (Z * Z), NoDup lines.*1) v.
Proof.
  intros g Hpos.
  destruct (reachable argv trace Hpos) as (m & Hrun & _ & _ & Hinv & Hview).
  eexists _, m, _. split; [exact Hrun|]. split; [exact Hview|].
  apply general_inv_view_NoDup. exact Hinv.
Qed.

Lemma unique_tags_witness :
  let g := set_global_values [Opt_s 0; Opt_E 2; Opt_b 0] in
  let trace := [TraceLine "L" 0 1; TraceLine "S" 1 1; TraceLine "L" 0 1; TraceLine "L" 2 1] in
  0 < total_sets g ∧
  ∃ types m v,
    run g trace (init g) = Some (types, m) ∧
    cache_view m = Some v ∧
    Forall (λ lines : list (Z * Z), NoDup lines.*1) v.
Proof.
  split; [reflexivity|].
  apply (unique_tags [Opt_s 0; Opt_E 2; Opt_b 0]). reflexivity.
Defined.

(** ** Reordering on a hit *)

Lemma view_nonempty_lines (ls : lset) (e : Z * Z) (l1 l2 : list (Z * Z)) :
  counted ls → l_view ls = l1 ++ e :: l2 → 0 < l_count ls ∧ l_lines ls = l1 ++ e :: l2.
Proof.
  intros Hc Hv.
  destruct (Z_lt_le_dec 0 (l_count ls)) as [Hpos|Hle].
  - split; [exact Hpos|]. rewrite <- (counted_pos_view ls Hc Hpos). exact Hv.
  - rewrite (counted_nonpos_view ls Hle) in Hv. destruct l1; discriminate.
Qed.

(** The access of a resident tag is a hit at the position of its line
    and moves that line to the back. *)
Lemma l_apply_hit (g : globals) (is_load tg d : Z) (ls : lset) (st : csim_stats_t)
      (l1 l2 : list (Z * Z)) :
  counted ls → tags_unique ls → l_view ls = l1 ++ (tg, d) :: l2 →
  l_miss_type g ls tg = Z.of_nat (length l1) ∧
  l_apply g is_load tg (l_miss_type g ls tg) ls st
  = (LSet (l_count ls) ((l1 ++ l2) ++ [touch is_load (tg, d)]), stats_hit g is_load d st).
Proof.
  intros Hc Hu Hv. destruct (view_nonempty_lines ls _ _ _ Hc Hv) as [Hpos Hl].
  specialize (Hu Hpos).
  assert (Hnin : tg ∉ l1.*1).
  { rewrite Hl, fmap_app, fmap_cons in Hu. apply NoDup_mid in Hu. tauto. }
  pose proof (l_step_cases g is_load tg ls st Hc) as Hcases. cbv zeta in Hcases.
  assert (Hin : tg ∈ (l_view ls).*1).
  { rewrite Hv, fmap_app, fmap_cons. apply elem_of_app. right. left. }
  destruct Hcases as [(_ & H0 & _)|[(_ & _ & _ & Hn & _)|
    [(_ & _ & _ & Hn & _)|(_ & l1' & e & l2' & Hl' & He & Hnin' & Hty & Hr)]]];
    [lia|contradiction|contradiction|].
  assert (Hsame : l1' = l1 ∧ e = (tg, d) ∧ l2' = l2).
  { rewrite Hl in Hl'. clear -Hl' He Hnin Hnin'. revert l1' Hl' Hnin'.
    induction l1 as [|x l1 IH]; intros l1' Hl' Hnin'.
    - destruct l1' as [|y l1']; cbn in Hl'.
      + injection Hl' as -> ->. auto.
      + injection Hl' as Hy _. exfalso. apply Hnin'. cbn. apply elem_of_cons. left.
        rewrite <- Hy. reflexivity.
    - destruct l1' as [|y l1']; cbn in Hl'.
      + injection Hl' as Hx _. exfalso. apply Hnin. cbn. apply elem_of_cons. left.
        rewrite Hx. symmetry. exact He.
      + injection Hl' as <- Hl'. cbn in Hnin, Hnin'.
        apply not_elem_of_cons in Hnin as [_ Hnin].
        apply not_elem_of_cons in Hnin' as [_ Hnin'].
        destruct (IH Hnin l1' Hl' Hnin') as (-> & -> & ->). auto. }
  destruct Hsame as (-> & -> & ->). split; [exact Hty|exact Hr].
Qed.

(** C1.  In any reachable state, an access whose tag is resident at
    any position of its set (after [l1], before [l2]) is a hit at that
    position; afterwards the line is the last (most recently used) of
    its set, the other lines of the set keep their relative order, and
    every other set is unchanged. *)
Theorem hit_moves_to_back (argv : list cli_opt) (trace : list trace_line) (ln : trace_line)
        (types : list Z) (m : machine) (v : list (list (Z * Z)))
        (l1 l2 : list (Z * Z)) (d : Z) :
  let g := set_global_values argv in
  let is_load := (parsing_line g ln).1.1 in
  let tg := (parsing_line g ln).1.2 in
  let set_num := (parsing_line g ln).2 in
  0 < total_sets g →
  run g trace (init g) = Some (types, m) →
  cache_view m = Some v →
  v !! Z.to_nat set_num = Some (l1 ++ (tg, d) :: l2) →
  ∃ m',
    access g ln m = Some (Z.of_nat (length l1), m') ∧
    cache_view m'
    = Some (<[Z.to_nat set_num :=
                l1 ++ l2 ++ [(tg, if (is_load =? 0) && (d =? 0) then 1 else d)]]> v).
Proof.
  intros g is_load tg set_num Hpos Hrun Hview Hv.
  pose proof (set_global_values_wf argv Hpos) as Hwf. fold g in Hwf.
  destruct (reachable argv trace Hpos) as (m0 & Hrun0 & Hrep & Hlen & Hinv & Hview0).
  fold g in Hrun0, Hrep, Hlen, Hinv, Hview0.
  rewrite Hrun in Hrun0. injection Hrun0 as _ <-.
  rewrite Hview in Hview0. injection Hview0 as ->.
  set (a := (l_run g trace (l_init g)).2) in *.
  pose proof (general_inv_counted a Hinv) as Hall.
  rewrite list_lookup_fmap in Hv.
  destruct (l_sets a !! Z.to_nat set_num) as [ls|] eqn:Hls; [|discriminate].
  cbn in Hv. injection Hv as Hv.
  destruct (Forall_lookup_1 _ _ _ _ Hinv Hls) as [Hc Hu].
  destruct (l_apply_hit g is_load tg d ls (l_stats a) l1 l2 Hc Hu Hv) as [Hty Hap].
  destruct (access_refines g ln m a Hwf Hlen Hrep Hall) as (type & m' & Hacc & Htype & Hrep' & _).
  rewrite (l_access_view g ln a ls Hls) in Htype, Hrep'. cbn [fst snd] in Htype, Hrep'.
  fold is_load tg set_num in Htype, Hrep'. rewrite Hap in Hrep'. rewrite Hty in Htype.
  cbn [fst snd] in Hrep'. subst type.
  exists m'. split; [exact Hacc|].
  rewrite (cache_view_refines m' _ Hrep').
  - cbn [l_sets]. rewrite list_fmap_insert. f_equal. f_equal.
    assert (Hpos' : 0 < l_count ls) by (eapply view_nonempty_lines; eassumption).
    unfold l_view at 1. cbn [l_count l_lines].
    rewrite (counted_pos ls Hc Hpos').
    destruct (view_nonempty_lines ls _ _ _ Hc Hv) as [_ Hl]. rewrite Hl, Nat2Z.id.
    rewrite firstn_all2 by (rewrite !length_app; cbn [length]; lia).
    rewrite <- app_assoc. reflexivity.
  - pose proof (l_access_counted g ln a Hall) as Hall'.
    rewrite (l_access_view g ln a ls Hls) in Hall'. cbn [fst snd] in Hall'.
    fold is_load tg set_num in Hall'. rewrite Hap in Hall'. exact Hall'.
Qed.

Lemma hit_moves_to_back_witness :
  let g := set_global_values [Opt_s 0; Opt_E 3; Opt_b 0] in
  let trace := [TraceLine "L" 5 1; TraceLine "L" 6 1; TraceLine "L" 7 1] in
  ∃ types m,
    0 < total_sets g ∧
    run g trace (init g) = Some (types, m) ∧
    cache_view m = Some [[(5, 0); (6, 0); (7, 0)]] ∧
    ∃ m',
      access g (TraceLine "S" 6 1) m = Some (1, m') ∧
      cache_view m' = Some [[(5, 0); (7, 0); (6, 1)]].
Proof.
  cbv zeta.
  destruct (run (set_global_values [Opt_s 0; Opt_E 3; Opt_b 0])
                [TraceLine "L" 5 1; TraceLine "L" 6 1; TraceLine "L" 7 1]
                (init (set_global_values [Opt_s 0; Opt_E 3; Opt_b 0])))
    as [[types m]|] eqn:Hrun; [|vm_compute in Hrun; discriminate].
  assert (Hview : cache_view m = Some [[(5, 0); (6, 0); (7, 0)]]).
  { vm_compute in Hrun. injection Hrun as _ <-. vm_compute. reflexivity. }
  exists types, m. split; [reflexivity|]. split; [reflexivity|]. split; [exact Hview|].
  exact (hit_moves_to_back [Opt_s 0; Opt_E 3; Opt_b 0]
           [TraceLine "L" 5 1; TraceLine "L" 6 1; TraceLine "L" 7 1]
           (TraceLine "S" 6 1) types m [[(5, 0); (6, 0); (7, 0)]]
           [(5, 0)] [(7, 0)] 0 ltac:(reflexivity) Hrun Hview ltac:(reflexivity)).
Defined.

(** ** Occupancy *)

(** The state after one more access. *)
Lemma run_snoc (g : globals) (trace : list trace_line) (ln : trace_line) (m0 : machine) :
  run g (trace ++ [ln]) m0 =
    match run g trace m0 with
    | Some (types, m) =>
        match access g ln m with
        | Some (type, m') => Some (types ++ [type], m')
        | None => None
        end
    | None => None
    end.
Proof.
  revert m0. induction trace as [|l0 trace IH]; intros m0; cbn [app run]; unfold bind, ret.
  - destruct (access g ln m0) as [[type m']|]; reflexivity.
  - destruct (access g l0 m0) as [[type0 m1]|]; [|reflexivity].
    fold (run g (trace ++ [ln])). fold (run g trace). rewrite IH.
    destruct (run g trace m1) as [[types m]|]; [|reflexivity].
    destruct (access g ln m) as [[type m']|]; reflexivity.
Qed.

(** A reachable state together with its successor under one more
    access, both with the list-level states they represent. *)
Lemma reachable_step (argv : list cli_opt) (trace : list trace_line) (ln : trace_line) :
  let g := set_global_values argv in
  let a := (l_run g trace (l_init g)).2 in
  0 < total_sets g →
  ∃ m m',
    run g trace (init g) = Some ((l_run g trace (l_init g)).1, m) ∧
    access g ln m = Some ((l_access g ln a).1, m') ∧
    cache_view m = Some (l_view <$> l_sets a) ∧
    cache_view m' = Some (l_view <$> l_sets (l_access g ln a).2) ∧
    stats m = l_stats a ∧
    stats m' = l_stats (l_access g ln a).2 ∧
    general_inv a ∧
    length (l_sets a) = Z.to_nat (total_sets g).
Proof.
  intros g a Hpos. pose proof (set_global_values_wf argv Hpos) as Hwf. fold g in Hwf.
  destruct (reachable argv trace Hpos) as (m & Hrun & Hrep & Hlen & Hinv & Hview).
  fold g in Hrun, Hrep, Hlen, Hinv, Hview. fold a in Hrep, Hinv, Hview.
  pose proof (general_inv_counted a Hinv) as Hall.
  destruct (access_refines g ln m a Hwf Hlen Hrep Hall) as (type & m' & Hacc & -> & Hrep' & _).
  exists m, m'.
  split; [exact Hrun|]. split; [exact Hacc|]. split; [exact Hview|].
  split; [apply cache_view_refines; [exact Hrep'|apply l_access_counted; exact Hall]|].
  destruct Hrep as [nss (_ & _ & _ & _ & _ & Hst)].
  destruct Hrep' as [nss' (_ & _ & _ & _ & _ & Hst')].
  split; [symmetry; exact Hst|]. split; [symmetry; exact Hst'|]. split; [exact Hinv|].
  unfold a. rewrite l_run_length. apply init_length.
Qed.

Lemma exact_inv_views (g : globals) (n : nat) (a : lstate) :
  exact_inv g n a → l_view <$> l_sets a = l_lines <$> l_sets a.
Proof.
  intros [Hall _]. apply list_eq. intros i. rewrite !list_lookup_fmap.
  destruct (l_sets a !! i) as [ls|] eqn:Hls; [|reflexivity]. cbn. f_equal.
  eapply exact_set_view, Forall_lookup_1; eassumption.
Qed.

(** C6, as amended.  When the associativity is at least 1, after any
    trace (hence at all times during a run) no set holds more than [E]
    lines. *)
Theorem occupancy_bound (argv : list cli_opt) (trace : list trace_line) :
  let g := set_global_values argv in
  0 < total_sets g → 1 <= E g →
  ∃ types m v,
    run g trace (init g) = Some (types, m) ∧
    cache_view m = Some v ∧
    Forall (λ lines : list (Z * Z), Z.of_nat (length lines) <= E g) v.
Proof.
  intros g Hpos HE.
  destruct (reachable argv trace Hpos) as (m & Hrun & _ & _ & _ & Hview).
  fold g in Hrun, Hview.
  pose proof (l_run_exact g trace (E_is_int argv) (or_introl HE)) as Hex.
  eexists _, m, _. split; [exact Hrun|]. split; [exact Hview|].
  rewrite (exact_inv_views _ _ _ Hex). destruct Hex as [Hall _].
  apply Forall_fmap. eapply Forall_impl; [exact Hall|].
  intros ls (_ & Hle & _). cbn. apply Hle. exact HE.
Qed.

Lemma occupancy_bound_witness :
  let g := set_global_values [Opt_s 1; Opt_E 1; Opt_b 1] in
  let trace := [TraceLine "L" 0 1; TraceLine "L" 8 1; TraceLine "S" 16 1] in
  0 < total_sets g ∧ 1 <= E g ∧
  ∃ types m v,
    run g trace (init g) = Some (types, m) ∧
    cache_view m = Some v ∧
    Forall (λ lines : list (Z * Z), Z.of_nat (length lines) <= E g) v.
Proof.
  split; [reflexivity|]. split; [vm_compute; discriminate|].
  apply (occupancy_bound [Opt_s 1; Opt_E 1; Opt_b 1]); [reflexivity|vm_compute; discriminate].
Defined.

(** C6 as stated fails: the program accepts [E = 0], and then the
    first access already leaves one line in a set of capacity 0. *)
Lemma occupancy_bound_fails_for_E0 :
  let g := set_global_values [Opt_s 1; Opt_E 0; Opt_b 1] in
  ∃ types m v lines,
    run g [TraceLine "L" 0 1] (init g) = Some (types, m) ∧
    cache_view m = Some v ∧
    v !! 0%nat = Some lines ∧
    E g < Z.of_nat (length lines).
Proof.
  cbv zeta. eexists _, _, _, _.
  split; [vm_compute; reflexivity|]. split; [vm_compute; reflexivity|].
  split; [reflexivity|]. vm_compute. reflexivity.
Qed.

(** ** Dirty bytes *)

Lemma l_apply_dirty_evictions (g : globals) (n : nat) (is_load tg : Z) (ls : lset)
      (st : csim_stats_t) :
  exact_set g n ls → counted ls →
  let type := l_miss_type g ls tg in
  dirty_evictions (l_apply g is_load tg type ls st).2
  = dirty_evictions st
    + (if is_capacity type &&
          match l_lines ls with e :: _ => is_dirty e | [] => false end
       then total_bytes g else 0).
Proof.
  intros Hex Hc. pose proof (l_step_cases g is_load tg ls st Hc) as Hcases. cbv zeta in *.
  destruct Hcases as [(Hty & _ & ->)|[(Hty & _ & _ & _ & ->)|
    [(Hty & _ & _ & _ & e0 & es & Hl & ->)|
     (_ & l1 & e & l2 & _ & _ & _ & Hty & ->)]]]; rewrite Hty; cbn [snd].
  - cbn. lia.
  - cbn. lia.
  - rewrite Hl. unfold stats_capacity, is_dirty. cbn [dirty_evictions].
    change (is_capacity (-2)) with true. cbn [andb].
    destruct (e0.2 =? 1); lia.
  - unfold is_capacity, CAPACITY_MISS_TYPE.
    assert (Hne : (Z.of_nat (length l1) =? -2) = false) by (apply Z.eqb_neq; lia).
    rewrite Hne. cbn. lia.
Qed.

(** C3.  In any reachable state [dirty_bytes] is the line size [2^b]
    times the number of resident dirty lines, and this still holds
    after one more access; that access adds the line size to
    [dirty_evictions] exactly when it evicts a dirty line and leaves it
    unchanged otherwise; and a store that hits a dirty line leaves
    [dirty_bytes] unchanged.  The run is one in which [line_count]
    does not overflow: [E >= 1], or fewer than [INT_MAX] accesses so
    far. *)
Theorem dirty_accounting (argv : list cli_opt) (trace : list trace_line) (ln : trace_line) :
  let g := set_global_values argv in
  let line_size := 2 ^ b g in
  let is_load := (parsing_line g ln).1.1 in
  let tg := (parsing_line g ln).1.2 in
  let set_num := (parsing_line g ln).2 in
  0 < total_sets g → 0 <= b g <= 30 →
  1 <= E g ∨ Z.of_nat (length trace) < INT_MAX →
  ∃ types m v type m' v',
    run g trace (init g) = Some (types, m) ∧ cache_view m = Some v ∧
    access g ln m = Some (type, m') ∧ cache_view m' = Some v' ∧
    dirty_bytes (stats m) = line_size * dirty_lines v ∧
    dirty_bytes (stats m') = line_size * dirty_lines v' ∧
    dirty_evictions (stats m')
    = dirty_evictions (stats m) + (if dirty_victim v set_num type then line_size else 0) ∧
    dirty_evictions (stats m) <= dirty_evictions (stats m') ∧
    (∀ l1 l2, is_load = 0 → v !! Z.to_nat set_num = Some (l1 ++ (tg, 1) :: l2) →
              type = Z.of_nat (length l1) ∧ dirty_bytes (stats m') = dirty_bytes (stats m)).
Proof.
  intros g line_size is_load tg set_num Hpos Hb Hor.
  pose proof (set_global_values_wf argv Hpos) as Hwf. fold g in Hwf.
  destruct (reachable_step argv trace ln Hpos)
    as (m & m' & Hrun & Hacc & Hview & Hview' & Hst & Hst' & Hinv & Hlen).
  fold g in Hrun, Hacc, Hview, Hview', Hst, Hst', Hinv, Hlen.
  set (a := (l_run g trace (l_init g)).2) in *.
  assert (Htb : total_bytes g = line_size).
  { unfold g, set_global_values. cbn [total_bytes]. unfold line_size, g, set_global_values.
    cbn [b]. unfold g, set_global_values in Hb. cbn [b] in Hb.
    rewrite pow2_small by lia. rewrite Z.abs_eq by lia. reflexivity. }
  assert (Hor0 : 1 <= E g ∨ Z.of_nat (length trace) <= INT_MAX) by (destruct Hor; [left|right]; lia).
  pose proof (l_run_exact g trace (E_is_int argv) Hor0) as Hex. fold a in Hex.
  pose proof (l_access_exact g (length trace) ln a (E_is_int argv) Hor Hex) as Hex'.
  destruct (l_access_lookup g ln a Hwf Hlen) as [ls Hls]. fold set_num in Hls.
  destruct (Forall_lookup_1 _ _ _ _ Hinv Hls) as [Hc Hu].
  pose proof (proj1 Hex) as HexF. pose proof (Forall_lookup_1 _ _ _ _ HexF Hls) as Hexs.
  exists (l_run g trace (l_init g)).1, m, (l_view <$> l_sets a), (l_access g ln a).1, m',
         (l_view <$> l_sets (l_access g ln a).2).
  split; [exact Hrun|]. split; [exact Hview|]. split; [exact Hacc|]. split; [exact Hview'|].
  rewrite Hst, Hst', (exact_inv_views _ _ _ Hex), (exact_inv_views _ _ _ Hex'), <- Htb.
  split; [exact (proj2 Hex)|]. split; [exact (proj2 Hex')|].
  rewrite (l_access_view g ln a ls Hls). cbn [fst snd l_stats]. fold is_load tg set_num.
  assert (Hde : dirty_evictions
                  (l_apply g is_load tg (l_miss_type g ls tg) ls (l_stats a)).2
                = dirty_evictions (l_stats a)
                  + (if dirty_victim (l_lines <$> l_sets a) set_num (l_miss_type g ls tg)
                     then total_bytes g else 0)).
  { rewrite (l_apply_dirty_evictions g (length trace) is_load tg ls (l_stats a) Hexs Hc).
    unfold dirty_victim. rewrite list_lookup_fmap, Hls. cbn. reflexivity. }
  split; [exact Hde|]. split.
  - rewrite Hde. assert (0 < total_bytes g) by (rewrite Htb; apply Z.pow_pos_nonneg; lia).
    destruct (dirty_victim _ _ _); lia.
  - intros l1 l2 Hstore Hv. rewrite list_lookup_fmap, Hls in Hv. cbn in Hv.
    injection Hv as Hv. rewrite <- (exact_set_view _ _ _ Hexs) in Hv.
    destruct (l_apply_hit g is_load tg 1 ls (l_stats a) l1 l2 Hc Hu Hv) as [Hty Hap].
    rewrite Hap. cbn [snd]. split; [exact Hty|].
    unfold stats_hit. cbn [dirty_bytes]. rewrite andb_false_r. reflexivity.
Qed.

Lemma dirty_accounting_witness :
  let g := set_global_values [Opt_s 1; Opt_E 1; Opt_b 1] in
  let trace := [TraceLine "S" 0 1; TraceLine "S" 8 1] in
  let ln := TraceLine "S" 8 1 in
  ∃ types m v type m' v',
    run g trace (init g) = Some (types, m) ∧ cache_view m = Some v ∧
    access g ln m = Some (type, m') ∧ cache_view m' = Some v' ∧
    dirty_bytes (stats m) = 2 * dirty_lines v ∧
    dirty_bytes (stats m') = 2 * dirty_lines v' ∧
    dirty_evictions (stats m')
    = dirty_evictions (stats m) + (if dirty_victim v 0 type then 2 else 0) ∧
    dirty_evictions (stats m) <= dirty_evictions (stats m') ∧
    (∀ l1 l2, 0 = 0 → v !! 0%nat = Some (l1 ++ (2, 1) :: l2) →
              type = Z.of_nat (length l1) ∧ dirty_bytes (stats m') = dirty_bytes (stats m)).
Proof.
  exact (dirty_accounting [Opt_s 1; Opt_E 1; Opt_b 1]
           [TraceLine "S" 0 1; TraceLine "S" 8 1] (TraceLine "S" 8 1)
           ltac:(reflexivity) ltac:(vm_compute; split; discriminate)
           ltac:(left; vm_compute; discriminate)).
Defined.

(** ** Eviction *)

(** C2.  With [E >= 1], in any reachable state, an access whose tag is
    not resident in a set holding [E] lines is a capacity miss: the
    line removed is the first of the order, every other line of the
    set has been referenced more recently than it, and a new line
    with the accessed tag is appended at the back (dirty exactly for a
    store).  The other sets are unchanged. *)
Theorem eviction_selects_lru (argv : list cli_opt) (trace : list trace_line) (ln : trace_line)
        (types : list Z) (m : machine) (v : list (list (Z * Z))) (lines : list (Z * Z)) :
  let g := set_global_values argv in
  let is_load := (parsing_line g ln).1.1 in
  let tg := (parsing_line g ln).1.2 in
  let set_num := (parsing_line g ln).2 in
  0 < total_sets g → 1 <= E g →
  run g trace (init g) = Some (types, m) →
  cache_view m = Some v →
  v !! Z.to_nat set_num = Some lines →
  Z.of_nat (length lines) = E g →
  tg ∉ lines.*1 →
  ∃ victim rest m',
    lines = victim :: rest ∧
    access g ln m = Some (CAPACITY_MISS_TYPE, m') ∧
    cache_view m'
    = Some (<[Z.to_nat set_num := rest ++ [(tg, if is_load =? 0 then 1 else 0)]]> v) ∧
    is_Some (last_ref g trace set_num victim.1) ∧
    Forall (older g trace set_num victim) rest.
Proof.
  intros g is_load tg set_num Hpos HE Hrun Hview Hv Hfull Hnin.
  pose proof (set_global_values_wf argv Hpos) as Hwf. fold g in Hwf.
  destruct (reachable_step argv trace ln Hpos)
    as (m0 & m' & Hrun0 & Hacc & Hview0 & Hview' & _ & _ & Hinv & Hlen).
  fold g in Hrun0, Hacc, Hview0, Hview', Hinv, Hlen.
  set (a := (l_run g trace (l_init g)).2) in *.
  rewrite Hrun in Hrun0. injection Hrun0 as _ <-.
  rewrite Hview in Hview0. injection Hview0 as ->.
  pose proof (l_run_exact g trace (E_is_int argv) (or_introl HE)) as Hex. fold a in Hex.
  pose proof (l_run_lru g trace Hwf (E_is_int argv) (or_introl HE)) as Hlru. fold a in Hlru.
  pose proof (set_num_in_range g ln Hwf) as Hrange. fold set_num in Hrange.
  rewrite list_lookup_fmap in Hv.
  destruct (l_sets a !! Z.to_nat set_num) as [ls|] eqn:Hls; [|discriminate].
  cbn in Hv. injection Hv as Hv.
  destruct (Forall_lookup_1 _ _ _ _ Hinv Hls) as [Hc Hu].
  pose proof (Forall_lookup_1 _ _ _ _ (proj1 Hex) Hls) as Hexs.
  pose proof (exact_set_view _ _ _ Hexs) as Hvl. subst lines. rewrite Hvl in Hfull, Hnin.
  destruct (Hlru _ _ Hls) as [Hsome Hsorted]. rewrite Z2Nat.id in Hsome, Hsorted by lia.
  pose proof Hexs as (Hcnt & _).
  pose proof (l_step_cases g is_load tg ls (l_stats a) Hc) as Hcases. cbv zeta in Hcases.
  rewrite (l_access_view g ln a ls Hls) in Hacc, Hview'. cbn [fst snd l_sets] in Hacc, Hview'.
  fold is_load tg set_num in Hacc, Hview'.
  destruct Hcases as [(_ & H0 & _)|[(_ & _ & HnE & _)|
    [(Hty & _ & _ & _ & e0 & es & Hl & Hr)|(_ & l1 & e & l2 & Hl & He & _)]]].
  - lia.
  - lia.
  - exists e0, es, m'. rewrite Hty in Hacc. rewrite Hr in Hview'. cbn [fst] in Hview'.
    rewrite Hl in Hsome, Hsorted.
    apply Forall_cons in Hsome as [Hs0 _].
    apply StronglySorted_cons in Hsorted as [Hold _].
    split; [rewrite Hvl; exact Hl|]. split; [exact Hacc|]. split; [|split; [exact Hs0|exact Hold]].
    rewrite Hview', list_fmap_insert. f_equal. f_equal.
    unfold l_view. cbn [l_count l_lines]. rewrite Hcnt, Nat2Z.id, Hl.
    rewrite length_cons, firstn_all2 by (rewrite length_app; cbn [length]; lia).
    reflexivity.
  - exfalso. apply Hnin. rewrite Hl, fmap_app, fmap_cons, He.
    apply elem_of_app. right. left.
Qed.

Lemma eviction_selects_lru_witness :
  let g := set_global_values [Opt_s 0; Opt_E 2; Opt_b 0] in
  let trace := [TraceLine "L" 5 1; TraceLine "S" 6 1; TraceLine "L" 5 1] in
  ∃ types m,
    run g trace (init g) = Some (types, m) ∧
    cache_view m = Some [[(6, 1); (5, 0)]] ∧
    ∃ m',
      access g (TraceLine "L" 7 1) m = Some (CAPACITY_MISS_TYPE, m') ∧
      cache_view m' = Some [[(5, 0); (7, 0)]] ∧
      Forall (older g trace 0 (6, 1)) [(5, 0)].
Proof.
  cbv zeta.
  destruct (run (set_global_values [Opt_s 0; Opt_E 2; Opt_b 0])
                [TraceLine "L" 5 1; TraceLine "S" 6 1; TraceLine "L" 5 1]
                (init (set_global_values [Opt_s 0; Opt_E 2; Opt_b 0])))
    as [[types m]|] eqn:Hrun; [|vm_compute in Hrun; discriminate].
  assert (Hview : cache_view m = Some [[(6, 1); (5, 0)]]).
  { vm_compute in Hrun. injection Hrun as _ <-. vm_compute. reflexivity. }
  exists types, m. split; [reflexivity|]. split; [exact Hview|].
  destruct (eviction_selects_lru [Opt_s 0; Opt_E 2; Opt_b 0]
              [TraceLine "L" 5 1; TraceLine "S" 6 1; TraceLine "L" 5 1]
              (TraceLine "L" 7 1) types m [[(6, 1); (5, 0)]] [(6, 1); (5, 0)])
    as (victim & rest & m' & Hl & Hacc & Hview' & _ & Hold).
  - reflexivity.
  - vm_compute. discriminate.
  - exact Hrun.
  - exact Hview.
  - reflexivity.
  - reflexivity.
  - vm_compute. intros Hin. apply elem_of_cons in Hin as [Hin|Hin]; [discriminate|].
    apply elem_of_cons in Hin as [Hin|Hin]; [discriminate|]. inversion Hin.
  - injection Hl as <- <-. exists m'. split; [exact Hacc|]. split; [exact Hview'|exact Hold].
Defined.

(** ** Instruction fetches *)

Lemma one_kind_counts (type : Z) :
  (∃ k, kinds_of type = [k]) →
  (if is_hit type then 1 else 0) + (if is_cold type then 1 else 0)
  + (if is_capacity type then 1 else 0) = 1.
Proof.
  unfold kinds_of. intros [k Hk].
  destruct (is_hit type), (is_cold type), (is_capacity type); cbn in Hk; try discriminate;
    reflexivity.
Qed.

(** C9, as amended.  In any reachable state a record whose operation
    character is [I] is processed exactly like a load of the same
    address; it is never ignored, since it adds one to [hits] or to
    [misses]. *)
Theorem instruction_fetch_is_load (argv : list cli_opt) (trace : list trace_line) (a n : Z) :
  let g := set_global_values argv in
  0 < total_sets g →
  ∃ types m type m',
    run g trace (init g) = Some (types, m) ∧
    access g (TraceLine "I" a n) m = Some (type, m') ∧
    access g (TraceLine "L" a n) m = Some (type, m') ∧
    hits (stats m') + misses (stats m') = hits (stats m) + misses (stats m) + 1.
Proof.
  intros g Hpos. pose proof (set_global_values_wf argv Hpos) as Hwf. fold g in Hwf.
  destruct (reachable_step argv trace (TraceLine "I" a n) Hpos)
    as (m & m' & Hrun & Hacc & _ & _ & Hst & Hst' & Hinv & Hlen).
  fold g in Hrun, Hacc, Hst, Hst', Hinv, Hlen.
  set (st := (l_run g trace (l_init g)).2) in *.
  exists (l_run g trace (l_init g)).1, m, (l_access g (TraceLine "I" a n) st).1, m'.
  split; [exact Hrun|]. split; [exact Hacc|]. split; [exact Hacc|].
  pose proof (l_access_counts g (TraceLine "I" a n) st Hwf Hlen (general_inv_counted st Hinv))
    as Hc.
  cbv zeta in Hc. destruct Hc as (Hk & Hh & Hm & _).
  pose proof (one_kind_counts _ Hk) as Hone.
  rewrite Hst, Hst', Hh, Hm. lia.
Qed.

Lemma instruction_fetch_is_load_witness :
  let g := set_global_values [Opt_s 1; Opt_E 1; Opt_b 1] in
  0 < total_sets g ∧
  ∃ types m type m',
    run g [TraceLine "L" 0 1] (init g) = Some (types, m) ∧
    access g (TraceLine "I" 8 1) m = Some (type, m') ∧
    access g (TraceLine "L" 8 1) m = Some (type, m') ∧
    hits (stats m') + misses (stats m') = hits (stats m) + misses (stats m) + 1.
Proof.
  split; [reflexivity|].
  apply (instruction_fetch_is_load [Opt_s 1; Opt_E 1; Opt_b 1]). reflexivity.
Defined.

(** C9 as stated fails: an [I] record on the empty cache is a cold
    miss that allocates a line and counts a miss. *)
Lemma instruction_fetch_not_ignored :
  let g := set_global_values [Opt_s 1; Opt_E 1; Opt_b 1] in
  ∃ m',
    access g (TraceLine "I" 0 1) (init g) = Some (COLD_MISS_TYPE, m') ∧
    cache_view (init g) = Some [[]; []] ∧
    cache_view m' = Some [[(0, 0)]; []] ∧
    misses (stats (init g)) = 0 ∧
    misses (stats m') = 1.
Proof.
  cbv zeta. eexists. split; [vm_compute; reflexivity|].
  split; [vm_compute; reflexivity|]. split; [vm_compute; reflexivity|].
  split; reflexivity.
Qed.

(** ** Configuration *)

(** C8, as amended.  No geometry is rejected for its sign: for every
    [E], every [b] and every [s] between -30 and 30, construction
    succeeds once the trace file opens; and for every [E], positive
    or not, with [0 <= s <= 30] and [0 <= b <= 63] the whole trace is
    then processed, one type for each of its lines. *)
Theorem construction_accepts_geometry (argv : list cli_opt) (trace : list trace_line) :
  let g := set_global_values argv in
  -30 <= s g <= 30 →
  main_init argv true = Some (g, init g) ∧
  (0 <= s g → 0 <= b g <= 63 →
   ∃ types summary, main argv (Some trace) = Exited types summary ∧
                    length types = length trace).
Proof.
  intros g Hs.
  assert (Hts : total_sets g = 2 ^ Z.abs (s g)).
  { unfold g, set_global_values in *. cbn [total_sets s] in *. apply pow2_small. exact Hs. }
  assert (Hpos : 0 < total_sets g) by (rewrite Hts; apply Z.pow_pos_nonneg; lia).
  assert (Hinit : main_init argv true = Some (g, init g)).
  { unfold main_init. fold g. destruct (total_sets g <? 0) eqn:Hlt; [|reflexivity].
    apply Z.ltb_lt in Hlt. lia. }
  split; [exact Hinit|]. intros _ _.
  pose proof (set_global_values_wf argv Hpos) as Hwf.
  destruct (run_init g trace Hwf) as (m & Hrun & _).
  exists (l_run g trace (l_init g)).1, (stats m).
  split.
  - unfold main. rewrite bool_decide_eq_true_2 by eauto. rewrite Hinit.
    change (default [] (Some trace)) with trace. rewrite Hrun. reflexivity.
  - apply (l_run_counts g trace _ Hwf (init_length g) (init_counted g)).
Qed.

Lemma construction_accepts_geometry_witness :
  (let argv := [Opt_s (-1); Opt_E (-2); Opt_b (-1)] in
   let g := set_global_values argv in
   main_init argv true = Some (g, init g)) ∧
  (let argv := [Opt_s 1; Opt_E 0; Opt_b 1] in
   ∃ types summary,
     main argv (Some [TraceLine "L" 12 1; TraceLine "S" 7 1; TraceLine "L" 13 1])
     = Exited types summary ∧
     length types = length [TraceLine "L" 12 1; TraceLine "S" 7 1; TraceLine "L" 13 1]).
Proof.
  split.
  - apply (construction_accepts_geometry [Opt_s (-1); Opt_E (-2); Opt_b (-1)] []).
    vm_compute. split; discriminate.
  - apply (construction_accepts_geometry [Opt_s 1; Opt_E 0; Opt_b 1]).
    + vm_compute. split; discriminate.
    + vm_compute. discriminate.
    + vm_compute. split; discriminate.
Defined.

(** C8 as stated fails: with [E = 0] the cache is constructed and the
    trace is processed to the end. *)
Lemma zero_associativity_is_constructed :
  main [Opt_s 1; Opt_E 0; Opt_b 1] (Some [TraceLine "L" 0 1; TraceLine "L" 0 1])
  = Exited [-1; 0] (Stats 1 1 0 0 0).
Proof. vm_compute. reflexivity. Qed.

(** ** Associativity zero *)

Lemma l_miss_type_E0 (g : globals) (ls : lset) (tg : Z) :
  E g = 0 → is_capacity (l_miss_type g ls tg) = false.
Proof.
  intros HE. unfold l_miss_type, is_capacity, CAPACITY_MISS_TYPE.
  destruct (l_count ls =? 0) eqn:H0; [reflexivity|].
  destruct (find_tag tg _ 0) as [i|] eqn:Hf.
  - apply find_tag_Some in Hf as (l1 & e & l2 & _ & _ & _ & ->).
    apply Z.eqb_neq. lia.
  - rewrite HE, H0. reflexivity.
Qed.

Lemma l_access_E0 (g : globals) (ln : trace_line) (a : lstate) :
  wf_globals g → length (l_sets a) = Z.to_nat (total_sets g) → E g = 0 →
  is_capacity (l_access g ln a).1 = false.
Proof.
  intros Hwf Hlen HE. destruct (l_access_lookup g ln a Hwf Hlen) as [ls Hls].
  rewrite (l_access_view g ln a ls Hls). cbn [fst]. apply l_miss_type_E0. exact HE.
Qed.

Lemma l_run_E0 (g : globals) (trace : list trace_line) (a : lstate) :
  wf_globals g → length (l_sets a) = Z.to_nat (total_sets g) → E g = 0 →
  Forall (λ t, is_capacity t = false) (l_run g trace a).1.
Proof.
  intros Hwf. revert a. induction trace as [|ln trace IH]; intros a Hlen HE; [constructor|].
  cbn [l_run]. pose proof (l_access_E0 g ln a Hwf Hlen HE) as H1.
  pose proof (l_access_length g ln a) as Hlen1.
  destruct (l_access g ln a) as [type a1]. cbn [fst snd] in *.
  specialize (IH a1 ltac:(congruence) HE).
  destruct (l_run g trace a1) as [types a2]. cbn [fst] in *. constructor; assumption.
Qed.

Lemma count_kind_none (f : Z → bool) (types : list Z) :
  Forall (λ t, f t = false) types → count_kind f types = 0.
Proof.
  induction 1 as [|t types Ht _ IH]; [reflexivity|].
  rewrite count_kind_cons, Ht, IH. reflexivity.
Qed.

(** The trace of distinct loads fills the only set of the geometry
    [s = 0], [b = 0], [E = 0] with one line per access. *)
Lemma l_run_distinct_loads (g : globals) (n : nat) :
  s g = 0 → b g = 0 → set_mask g = 0 → E g = 0 → total_sets g = 1 →
  Z.of_nat n <= INT_MAX →
  l_sets (l_run g (distinct_loads n) (l_init g)).2
  = [LSet (Z.of_nat n) (distinct_lines n)].
Proof.
  intros Hs Hb Hmask HE Hts. induction n as [|n IH]; intros Hn.
  - unfold l_init. rewrite Hts. reflexivity.
  - unfold distinct_loads, distinct_lines in *. rewrite !seq_S, !fmap_app. cbn [fmap list_fmap].
    rewrite Nat.add_0_l. rewrite l_run_snoc.
    specialize (IH ltac:(lia)).
    destruct (l_run g ((λ k : nat, TraceLine "L" (Z.of_nat k) 1) <$> seq 0 n) (l_init g))
      as [types a]. cbn [snd] in IH.
    assert (Hp : parsing_line g (TraceLine "L" (Z.of_nat n) 1) = (1, Z.of_nat n, 0)).
    { unfold parsing_line. cbn [op addr]. rewrite Hs, Hb, Hmask, !Z.shiftr_0_r, Z.land_0_r.
      reflexivity. }
    assert (Hty : l_miss_type g (LSet (Z.of_nat n) ((λ k : nat, (Z.of_nat k, 0)) <$> seq 0 n))
                              (Z.of_nat n) = -1).
    { unfold l_miss_type. cbn [l_count l_lines].
      destruct (Z.of_nat n =? 0) eqn:H0; [reflexivity|].
      assert (Hf : find_tag (Z.of_nat n)
                     (take (Z.to_nat (Z.of_nat n)) ((λ k : nat, (Z.of_nat k, 0)) <$> seq 0 n)) 0
                   = None).
      { apply find_tag_None. intros Hin. apply list_elem_of_fmap in Hin as (e & He & Hin).
        apply elem_of_take in Hin as (i & Hin & _).
        rewrite list_lookup_fmap in Hin.
        destruct (seq 0 n !! i) as [k|] eqn:Hk; [|discriminate].
        apply lookup_seq in Hk as [-> Hk]. cbn in Hin. injection Hin as <-.
        cbn in He. lia. }
      rewrite Hf, HE, H0. reflexivity. }
    assert (Hls : l_sets a !! Z.to_nat (parsing_line g (TraceLine "L" (Z.of_nat n) 1)).2
                  = Some (LSet (Z.of_nat n) ((λ k : nat, (Z.of_nat k, 0)) <$> seq 0 n))).
    { rewrite Hp, IH. reflexivity. }
    rewrite (l_access_view g _ a _ Hls). cbn [snd l_sets]. rewrite Hp. cbn [fst snd].
    rewrite Hty, IH. unfold l_apply. cbn [Z.eqb COLD_MISS_TYPE Pos.eqb fst].
    unfold l_cold, new_entry. cbn [l_count l_lines Z.eqb].
    change (Z.to_nat 0) with 0%nat. cbn [insert list_insert].
    destruct (Z.of_nat n =? 0) eqn:H0.
    + apply Z.eqb_eq in H0. assert (n = 0)%nat as -> by lia. reflexivity.
    + rewrite wrap32_id by (unfold INT_MIN, INT_MAX in *; lia).
      f_equal. f_equal. lia.
Qed.

(** C10.  With [E = 0]: no access of any run is a capacity miss and
    [evictions] stays 0; as long as [line_count] has not overflowed,
    every access that is not a hit appends a line to its set, removing
    none; and for every [n] up to [INT_MAX] the trace of [n] distinct
    loads leaves [n] lines in one set, far more than [E] (shown for
    [s = 0], [b = 0]). *)
Theorem zero_associativity (argv : list cli_opt) (trace : list trace_line) (ln : trace_line)
        (n : nat) :
  let g := set_global_values argv in
  let is_load := (parsing_line g ln).1.1 in
  let tg := (parsing_line g ln).1.2 in
  let set_num := (parsing_line g ln).2 in
  0 < total_sets g → E g = 0 →
  (∃ types m v type m' v',
     run g trace (init g) = Some (types, m) ∧ cache_view m = Some v ∧
     access g ln m = Some (type, m') ∧ cache_view m' = Some v' ∧
     Forall (λ t, is_capacity t = false) (types ++ [type]) ∧
     evictions (stats m) = 0 ∧ evictions (stats m') = 0 ∧
     (Z.of_nat (length trace) < INT_MAX → is_hit type = false →
      ∃ lines, v !! Z.to_nat set_num = Some lines ∧
               v' = <[Z.to_nat set_num :=
                        lines ++ [(tg, if is_load =? 0 then 1 else 0)]]> v)) ∧
  (s g = 0 → b g = 0 → Z.of_nat n <= INT_MAX →
   ∃ types m,
     run g (distinct_loads n) (init g) = Some (types, m) ∧
     cache_view m = Some [distinct_lines n] ∧
     length (distinct_lines n) = n).
Proof.
  intros g is_load tg set_num Hpos HE.
  pose proof (set_global_values_wf argv Hpos) as Hwf. fold g in Hwf.
  split.
  - destruct (reachable_step argv trace ln Hpos)
      as (m & m' & Hrun & Hacc & Hview & Hview' & Hst & Hst' & Hinv & Hlen).
    fold g in Hrun, Hacc, Hview, Hview', Hst, Hst', Hinv, Hlen.
    set (a := (l_run g trace (l_init g)).2) in *.
    pose proof (l_run_E0 g trace (l_init g) Hwf (init_length g) HE) as Hnocap.
    pose proof (l_access_E0 g ln a Hwf Hlen HE) as Hnocap1.
    pose proof (l_run_counts g trace (l_init g) Hwf (init_length g) (init_counted g)) as Hcnt.
    cbv zeta in Hcnt. destruct Hcnt as (_ & _ & _ & _ & Hev). fold a in Hev.
    rewrite (count_kind_none _ _ Hnocap) in Hev. cbn in Hev.
    pose proof (l_access_counts g ln a Hwf Hlen (general_inv_counted a Hinv)) as Hcnt1.
    cbv zeta in Hcnt1. destruct Hcnt1 as (_ & _ & _ & Hev1). rewrite Hnocap1, Hev in Hev1.
    exists (l_run g trace (l_init g)).1, m, (l_view <$> l_sets a), (l_access g ln a).1, m',
           (l_view <$> l_sets (l_access g ln a).2).
    split; [exact Hrun|]. split; [exact Hview|]. split; [exact Hacc|]. split; [exact Hview'|].
    split; [apply Forall_app; split; [exact Hnocap|constructor; [exact Hnocap1|constructor]]|].
    rewrite Hst, Hst'. split; [exact Hev|]. split; [exact Hev1|].
    intros Hshort Hnothit.
    assert (Hor : 1 <= E g ∨ Z.of_nat (length trace) < INT_MAX) by (right; exact Hshort).
    assert (Hor0 : 1 <= E g ∨ Z.of_nat (length trace) <= INT_MAX) by (right; lia).
    pose proof (l_run_exact g trace (E_is_int argv) Hor0) as Hex. fold a in Hex.
    pose proof (l_access_exact g (length trace) ln a (E_is_int argv) Hor Hex) as Hex'.
    rewrite (exact_inv_views _ _ _ Hex), (exact_inv_views _ _ _ Hex').
    destruct (l_access_lookup g ln a Hwf Hlen) as [ls Hls]. fold set_num in Hls.
    exists (l_lines ls). split; [rewrite list_lookup_fmap, Hls; reflexivity|].
    rewrite (l_access_view g ln a ls Hls) in Hnothit, Hnocap1 |- *.
    cbn [fst snd l_sets] in Hnothit, Hnocap1 |- *. fold is_load tg set_num in Hnothit, Hnocap1 |- *.
    rewrite list_fmap_insert. f_equal.
    destruct (Forall_lookup_1 _ _ _ _ Hinv Hls) as [Hc _].
    pose proof (Forall_lookup_1 _ _ _ _ (proj1 Hex) Hls) as (Hcount & _).
    pose proof (l_step_cases g is_load tg ls (l_stats a) Hc) as Hcases. cbv zeta in Hcases.
    destruct Hcases as [(_ & H0 & ->)|[(_ & _ & _ & _ & ->)|
      [(Hty & _)|(_ & l1 & e & l2 & _ & _ & _ & Hty & _)]]]; cbn [fst l_lines].
    + assert (Hnil : l_lines ls = []).
      { destruct (l_lines ls); [reflexivity|cbn [length] in Hcount; lia]. }
      rewrite Hnil. reflexivity.
    + reflexivity.
    + rewrite Hty in Hnocap1. discriminate.
    + rewrite Hty in Hnothit. unfold is_hit in Hnothit. apply Z.leb_gt in Hnothit. lia.
  - intros Hs Hb Hn.
    assert (Hts : total_sets g = 1).
    { unfold g, set_global_values in *. cbn [total_sets s] in *. rewrite Hs. reflexivity. }
    assert (Hmask : set_mask g = 0) by (destruct Hwf as [_ ->]; lia).
    destruct (reachable argv (distinct_loads n) Hpos) as (m & Hrun & _ & _ & _ & Hview).
    fold g in Hrun, Hview.
    rewrite (l_run_distinct_loads g n Hs Hb Hmask HE Hts Hn) in Hview.
    exists (l_run g (distinct_loads n) (l_init g)).1, m.
    split; [exact Hrun|]. split.
    + rewrite Hview. cbn [fmap list_fmap]. unfold l_view. cbn [l_count l_lines].
      rewrite Nat2Z.id, firstn_all2; [reflexivity|].
      unfold distinct_lines. rewrite length_fmap, length_seq. lia.
    + unfold distinct_lines. rewrite length_fmap, length_seq. reflexivity.
Qed.

Lemma zero_associativity_witness :
  let g := set_global_values [] in
  0 < total_sets g ∧ E g = 0 ∧
  ∃ types m,
    run g (distinct_loads 5) (init g) = Some (types, m) ∧
    cache_view m = Some [distinct_lines 5] ∧
    length (distinct_lines 5) = 5%nat.
Proof.
  split; [reflexivity|]. split; [reflexivity|].
  apply (proj2 (zero_associativity [] [] (TraceLine "L" 0 1) 5
                  ltac:(reflexivity) ltac:(reflexivity)));
    [reflexivity|reflexivity|vm_compute; discriminate].
Defined.

(** * Further properties of the code *)

(** ** [pow2] on every [int] *)

Lemma wrap32_mod (x : Z) : wrap32 x mod 4294967296 = x mod 4294967296.
Proof.
  unfold wrap32. rewrite (Z.mod_eq (x + 2147483648)) by lia.
  replace (x + 2147483648 - 4294967296 * ((x + 2147483648) / 4294967296) - 2147483648)
    with (x + (- ((x + 2147483648) / 4294967296)) * 4294967296) by lia.
  apply Z_mod_plus_full.
Qed.

Lemma wrap32_eq_mod (x y : Z) :
  x mod 4294967296 = y mod 4294967296 → wrap32 x = wrap32 y.
Proof.
  intros H. unfold wrap32.
  rewrite <- (Z.add_mod_idemp_l x), H, Z.add_mod_idemp_l by lia. reflexivity.
Qed.

Lemma wrap32_mul (x y : Z) : wrap32 (wrap32 x * wrap32 y) = wrap32 (x * y).
Proof.
  apply wrap32_eq_mod. rewrite Z.mul_mod, !wrap32_mod, <- Z.mul_mod by lia. reflexivity.
Qed.

Lemma wrap32_mul_l (x y : Z) : wrap32 (wrap32 x * y) = wrap32 (x * y).
Proof.
  apply wrap32_eq_mod. rewrite Z.mul_mod, wrap32_mod, <- Z.mul_mod by lia. reflexivity.
Qed.

Lemma wrap32_mul_r (x y : Z) : wrap32 (x * wrap32 y) = wrap32 (x * y).
Proof. rewrite Z.mul_comm, wrap32_mul_l. f_equal. lia. Qed.

Lemma abs_quot_rem2 (index : Z) :
  Z.abs index = 2 * Z.abs (index ÷ 2) + Z.abs (Z.rem index 2) ∧
  0 <= Z.abs (Z.rem index 2) < 2.
Proof.
  pose proof (Z.quot_rem' index 2) as Hqr.
  pose proof (Z.rem_bound_abs index 2 ltac:(lia)) as Hb. change (Z.abs 2) with 2 in Hb.
  destruct (Z.le_gt_cases 0 index) as [Hnn|Hneg].
  - pose proof (Z.quot_pos index 2 Hnn ltac:(lia)).
    pose proof (Z.rem_nonneg index 2 ltac:(lia) Hnn). lia.
  - pose proof (Z.quot_opp_l index 2 ltac:(lia)) as Hq.
    pose proof (Z.rem_opp_l index 2 ltac:(lia)) as Hr.
    pose proof (Z.quot_pos (- index) 2 ltac:(lia) ltac:(lia)).
    pose proof (Z.rem_nonneg (- index) 2 ltac:(lia) ltac:(lia)). lia.
Qed.

Lemma pow2_wraps_below (k : nat) (index : Z) :
  Z.abs index < Z.of_nat k → pow2 index = wrap32 (2 ^ Z.abs index).
Proof.
  revert index. induction k as [|k IH]; intros index Hk; [lia|].
  rewrite pow2_unfold. destruct (index =? 0) eqn:H0.
  { apply Z.eqb_eq in H0. subst index. reflexivity. }
  apply Z.eqb_neq in H0. cbv zeta.
  destruct (abs_quot_rem2 index) as [Habs Hrem].
  rewrite (IH (index ÷ 2)) by lia.
  set (h := Z.abs (index ÷ 2)) in *.
  assert (0 <= h) by (subst h; lia).
  destruct (Z.rem index 2 =? 0) eqn:Hr.
  - apply Z.eqb_eq in Hr. rewrite Hr in Habs. change (Z.abs 0) with 0 in Habs.
    rewrite wrap32_mul, Habs. f_equal.
    replace (2 * h + 0) with (h + h) by lia. rewrite Z.pow_add_r by lia. reflexivity.
  - apply Z.eqb_neq in Hr.
    assert (Z.abs (Z.rem index 2) = 1) as Hr1 by lia. rewrite Hr1 in Habs.
    rewrite (wrap32_mul_r 2 (2 ^ h)), wrap32_mul, Habs. f_equal.
    replace (2 * h + 1) with (1 + h + h) by lia. rewrite !Z.pow_add_r by lia.
    reflexivity.
Qed.

(** X1.  For every [int] argument, [pow2] returns two to the power
    of the absolute value of [index], reduced to an [int]: a negative
    index gives the same result as its absolute value, the result is
    the exact power up to 30, and it is 0 from 32 on. *)
Theorem pow2_wraps (index : Z) :
  pow2 index = wrap32 (2 ^ Z.abs index) ∧
  pow2 (- index) = pow2 index ∧
  (Z.abs index <= 30 → pow2 index = 2 ^ Z.abs index) ∧
  (32 <= Z.abs index → pow2 index = 0).
Proof.
  assert (Hw : ∀ i, pow2 i = wrap32 (2 ^ Z.abs i)).
  { intros i. apply (pow2_wraps_below (S (Z.to_nat (Z.abs i)))). lia. }
  split; [apply Hw|]. split; [rewrite !Hw, Z.abs_opp; reflexivity|]. split.
  - intros Hle. rewrite Hw. apply wrap32_id.
    assert (0 < 2 ^ Z.abs index <= 2 ^ 30).
    { split; [apply Z.pow_pos_nonneg; lia|apply Z.pow_le_mono_r; lia]. }
    unfold INT_MIN, INT_MAX. change (2 ^ 30) with 1073741824 in *. lia.
  - intros Hge. rewrite Hw.
    replace (Z.abs index) with (32 + (Z.abs index - 32)) by lia.
    rewrite Z.pow_add_r by lia. change (2 ^ 32) with 4294967296.
    unfold wrap32. rewrite Z.add_comm, Z.mul_comm, Z_mod_plus_full. reflexivity.
Qed.

(** ** Command-line options *)

Lemma fold_apply_opt_s (argv : list cli_opt) (g : globals) :
  (∀ k, Opt_s k ∉ argv) → s (fold_left apply_opt argv g) = s g.
Proof.
  revert g. induction argv as [|o argv IH]; intros g Hno; [reflexivity|].
  cbn [fold_left]. rewrite IH by (intros k Hk; apply (Hno k); right; exact Hk).
  destruct o; try reflexivity. exfalso. apply (Hno n). left.
Qed.

Lemma fold_apply_opt_E (argv : list cli_opt) (g : globals) :
  (∀ k, Opt_E k ∉ argv) → E (fold_left apply_opt argv g) = E g.
Proof.
  revert g. induction argv as [|o argv IH]; intros g Hno; [reflexivity|].
  cbn [fold_left]. rewrite IH by (intros k Hk; apply (Hno k); right; exact Hk).
  destruct o; try reflexivity. exfalso. apply (Hno n). left.
Qed.

Lemma fold_apply_opt_b (argv : list cli_opt) (g : globals) :
  (∀ k, Opt_b k ∉ argv) → b (fold_left apply_opt argv g) = b g.
Proof.
  revert g. induction argv as [|o argv IH]; intros g Hno; [reflexivity|].
  cbn [fold_left]. rewrite IH by (intros k Hk; apply (Hno k); right; exact Hk).
  destruct o; try reflexivity. exfalso. apply (Hno n). left.
Qed.

(** X2.  [set_global_values] handles the options from left to right:
    of several [-s], [-E] or [-b] the last one counts, whatever else
    stands on the command line, and an option that is not given
    leaves its variable at 0. *)
Theorem options_last_wins (argv1 argv2 : list cli_opt) (n : Z) :
  ((∀ k, Opt_s k ∉ argv2) →
     s (set_global_values (argv1 ++ Opt_s n :: argv2)) = wrap32 n ∧
     s (set_global_values argv2) = 0) ∧
  ((∀ k, Opt_E k ∉ argv2) →
     E (set_global_values (argv1 ++ Opt_E n :: argv2)) = wrap32 n ∧
     E (set_global_values argv2) = 0) ∧
  ((∀ k, Opt_b k ∉ argv2) →
     b (set_global_values (argv1 ++ Opt_b n :: argv2)) = wrap32 n ∧
     b (set_global_values argv2) = 0).
Proof.
  unfold set_global_values. cbn [s E b].
  split; [|split]; intros Hno; rewrite fold_left_app; cbn [fold_left].
  - rewrite !fold_apply_opt_s by exact Hno. split; reflexivity.
  - rewrite !fold_apply_opt_E by exact Hno. split; reflexivity.
  - rewrite !fold_apply_opt_b by exact Hno. split; reflexivity.
Qed.

(** X3.  For [s] and [b] between -30 and 30, [set_global_values]
    derives [2^|s|] sets, the mask [2^|s| - 1] and lines of [2^|b|]
    bytes; the number of sets is then between 1 and [2^30]. *)
Theorem derived_geometry (argv : list cli_opt) :
  let g := set_global_values argv in
  -30 <= s g <= 30 → -30 <= b g <= 30 →
  total_sets g = 2 ^ Z.abs (s g) ∧
  set_mask g = 2 ^ Z.abs (s g) - 1 ∧
  total_bytes g = 2 ^ Z.abs (b g) ∧
  1 <= total_sets g <= 1073741824.
Proof.
  intros g Hs Hb. subst g. unfold set_global_values in *.
  cbn [s b total_sets set_mask total_bytes] in *.
  set (s0 := s (fold_left apply_opt argv globals0)) in *.
  set (b0 := b (fold_left apply_opt argv globals0)) in *.
  rewrite !pow2_small by lia.
  assert (0 < 2 ^ Z.abs s0 <= 2 ^ 30).
  { split; [apply Z.pow_pos_nonneg; lia|apply Z.pow_le_mono_r; lia]. }
  change (2 ^ 30) with 1073741824 in *.
  split; [reflexivity|]. split; [|split; [reflexivity|lia]].
  apply wrap32_id. unfold INT_MIN, INT_MAX. lia.
Qed.

Lemma derived_geometry_witness :
  let g := set_global_values [Opt_s 4; Opt_E 2; Opt_b (-3)] in
  total_sets g = 16 ∧ set_mask g = 15 ∧ total_bytes g = 8 ∧ 1 <= total_sets g <= 1073741824.
Proof.
  exact (derived_geometry [Opt_s 4; Opt_E 2; Opt_b (-3)]
           ltac:(vm_compute; split; discriminate) ltac:(vm_compute; split; discriminate)).
Defined.

(** ** How [main] ends *)

Lemma run_no_sets (g : globals) (ln : trace_line) (trace : list trace_line) :
  total_sets g <= 0 → run g (ln :: trace) (init g) = None.
Proof.
  intros H0. cbn [run]. unfold bind at 1. unfold access.
  destruct (parsing_line g ln) as [[is_load tg] set_num].
  unfold bind at 1. unfold load_set, init. cbn [sets].
  replace (Z.to_nat (total_sets g)) with O by lia. cbn [replicate].
  destruct (set_num <? 0); [reflexivity|]. rewrite lookup_nil. reflexivity.
Qed.

Lemma main_exits (argv : list cli_opt) (trace : list trace_line) :
  let g := set_global_values argv in
  0 < total_sets g →
  main argv (Some trace)
  = Exited (l_run g trace (l_init g)).1 (l_stats (l_run g trace (l_init g)).2).
Proof.
  intros g Hpos. pose proof (set_global_values_wf argv Hpos) as Hwf. fold g in Hwf.
  destruct (run_init g trace Hwf) as (m & Hrun & [nss Hrep] & Hlen).
  destruct Hrep as (_ & _ & _ & _ & _ & Hst).
  unfold main, main_init. fold g.
  destruct (total_sets g <? 0) eqn:Hneg; [apply Z.ltb_lt in Hneg; lia|].
  rewrite bool_decide_true by eauto.
  change (default [] (Some trace)) with trace. rewrite Hrun, Hst. reflexivity.
Qed.

(** The three ways a run of [main] on a trace file that opens can
    go, by the sign of [total_sets]. *)
Lemma main_cases (argv : list cli_opt) (trace : list trace_line) :
  let g := set_global_values argv in
  (total_sets g < 0 ∧ main argv (Some trace) = Aborted) ∨
  (total_sets g = 0 ∧
   main argv (Some trace)
   = match trace with [] => Exited [] (Stats 0 0 0 0 0) | _ :: _ => Faulted end) ∨
  (0 < total_sets g ∧
   main argv (Some trace)
   = Exited (l_run g trace (l_init g)).1 (l_stats (l_run g trace (l_init g)).2)).
Proof.
  intros g.
  assert (Hcases : total_sets g < 0 ∨ total_sets g = 0 ∨ 0 < total_sets g) by lia.
  destruct Hcases as [Hneg|[H0|Hpos]].
  - left. split; [exact Hneg|]. unfold main, main_init. fold g.
    destruct (total_sets g <? 0) eqn:Hlt; [reflexivity|apply Z.ltb_ge in Hlt; lia].
  - right. left. split; [exact H0|]. unfold main, main_init. fold g.
    destruct (total_sets g <? 0) eqn:Hlt; [apply Z.ltb_lt in Hlt; lia|].
    rewrite bool_decide_true by eauto.
    change (default [] (Some trace)) with trace.
    destruct trace as [|ln trace]; [reflexivity|].
    rewrite run_no_sets by lia. reflexivity.
  - right. right. split; [exact Hpos|]. apply main_exits. exact Hpos.
Qed.

(** X4.  How a run of [main] ends.  Without a trace file that opens
    it aborts.  With one, it aborts exactly when the number of sets
    is negative; it makes an
    access outside the (empty) set array exactly when the number of
    sets is 0 and the trace has a line; and with a positive number of
    sets it never touches memory it does not own and classifies
    every line of the trace. *)
Theorem main_outcome (argv : list cli_opt) (trace : list trace_line) :
  let g := set_global_values argv in
  main argv None = Aborted ∧
  (main argv (Some trace) = Aborted ↔ total_sets g < 0) ∧
  (main argv (Some trace) = Faulted ↔ total_sets g = 0 ∧ trace ≠ []) ∧
  (0 < total_sets g →
   ∃ types summary, main argv (Some trace) = Exited types summary ∧
                    length types = length trace).
Proof.
  intros g. subst g. split.
  { unfold main, main_init. destruct (_ <? 0); reflexivity. }
  destruct (main_cases argv trace) as [[Hneg Hm]|[[H0 Hm]|[Hpos Hm]]]; rewrite Hm.
  - split; [tauto|]. split; [|lia]. split; [discriminate|lia].
  - split; [|split; [|lia]].
    + split; [destruct trace; discriminate|lia].
    + destruct trace as [|ln trace].
      * split; [discriminate|]. intros [_ Hne]. exfalso. apply Hne. reflexivity.
      * split; [intros _; split; [exact H0|discriminate]|intros _; reflexivity].
  - split; [split; [discriminate|lia]|]. split; [split; [discriminate|lia]|].
    intros _. eexists _, _. split; [reflexivity|].
    pose proof (set_global_values_wf argv Hpos) as Hwf.
    apply (l_run_counts _ trace _ Hwf (init_length _) (init_counted _)).
Qed.

(** ** The counters of a finished run *)

Lemma count_kinds_total (types : list Z) :
  Forall (λ t, ∃ k, kinds_of t = [k]) types →
  count_kind is_hit types + count_kind is_cold types + count_kind is_capacity types
  = Z.of_nat (length types).
Proof.
  induction 1 as [|t types Hk _ IH]; [reflexivity|].
  rewrite !count_kind_cons. pose proof (one_kind_counts t Hk). cbn [length]. lia.
Qed.

Lemma count_kind_nonneg (f : Z → bool) (types : list Z) : 0 <= count_kind f types.
Proof. unfold count_kind. lia. Qed.

(** X5.  The summary of every run that reaches [printSummary]
    accounts for every line of the trace once: [hits + misses] is the
    number of lines, evictions are at most the misses, and no counter
    is negative. *)
Theorem summary_counts_trace (argv : list cli_opt) (trace : list trace_line)
        (types : list Z) (summary : csim_stats_t) :
  main argv (Some trace) = Exited types summary →
  hits summary + misses summary = Z.of_nat (length trace) ∧
  0 <= hits summary ∧
  0 <= evictions summary <= misses summary ∧
  length types = length trace.
Proof.
  intros Hmain.
  destruct (main_cases argv trace) as [[Hneg Hm]|[[H0 Hm]|[Hpos Hm]]]; rewrite Hm in Hmain.
  all: set (g := set_global_values argv) in *.
  - discriminate.
  - destruct trace as [|ln trace]; [|discriminate].
    injection Hmain as <- <-. cbn [hits misses evictions length].
    split; [reflexivity|]. split; [lia|]. split; [lia|reflexivity].
  - injection Hmain as <- <-.
    pose proof (set_global_values_wf argv Hpos) as Hwf. fold g in Hwf.
    pose proof (l_run_counts g trace (l_init g) Hwf (init_length g) (init_counted g)) as Hc.
    cbv zeta in Hc. destruct Hc as (Hl & Hk & Hh & Hm' & He).
    cbn [l_init l_stats hits misses evictions] in Hh, Hm', He.
    pose proof (count_kinds_total _ Hk) as Htot.
    pose proof (count_kind_nonneg is_hit (l_run g trace (l_init g)).1).
    pose proof (count_kind_nonneg is_cold (l_run g trace (l_init g)).1).
    pose proof (count_kind_nonneg is_capacity (l_run g trace (l_init g)).1).
    split; [rewrite Hh, Hm'; lia|]. split; [lia|]. split; [lia|exact Hl].
Qed.

Lemma summary_counts_trace_witness :
  let summary := Stats 1 2 1 2 0 in
  hits summary + misses summary = 3 ∧
  0 <= hits summary ∧
  0 <= evictions summary <= misses summary ∧
  length [-1; -2; 0] = 3%nat.
Proof.
  exact (summary_counts_trace [Opt_s 1; Opt_E 1; Opt_b 1]
           [TraceLine "L" 0 1; TraceLine "L" 8 1; TraceLine "S" 8 1]
           [-1; -2; 0] (Stats 1 2 1 2 0) ltac:(vm_compute; reflexivity)).
Defined.

(** ** Every line in the heap stays initialised *)

Section Preserves.
Context {A B : Type}.

Lemma preserves_ret (a : A) : preserves (ret a).
Proof. intros m a' m' Hok [= _ <-]. exact Hok. Qed.

Lemma preserves_bind (c : M A) (k : A → M B) :
  preserves c → (∀ a, preserves (k a)) → preserves (bind c k).
Proof.
  intros Hc Hk m b' m' Hok Hrun. unfold bind in Hrun.
  destruct (c m) as [[a m1]|] eqn:Hcm; [|discriminate].
  eapply Hk; [|exact Hrun]. eapply Hc; eassumption.
Qed.

Lemma preserves_heap (c : M A) :
  (∀ m a m', c m = Some (a, m') → heap m' = heap m) → preserves c.
Proof.
  intros H m a m' Hok Hrun. unfold lines_ok. rewrite (H _ _ _ Hrun). exact Hok.
Qed.

(** A fresh line is initialised before anything else looks at it. *)
Lemma preserves_alloc_init (tg : Z) (k : ptr → M B) :
  (∀ p, preserves (k p)) →
  preserves (new_line <- xcalloc_line ;; init_line new_line tg ;;; k new_line).
Proof.
  intros Hk m b' m' Hok Hrun.
  unfold xcalloc_line, init_line, load_line, store_line, bind in Hrun.
  cbn [heap brk sets stats next] in Hrun.
  rewrite lookup_insert_eq in Hrun. cbn [heap brk sets stats next] in Hrun.
  rewrite lookup_insert_eq in Hrun. cbn [heap brk sets stats next] in Hrun.
  rewrite insert_insert_eq in Hrun.
  eapply Hk; [|exact Hrun]. unfold lines_ok. cbn [heap].
  apply map_Forall_insert_2; [|exact Hok]. split; [reflexivity|left; reflexivity].
Qed.
End Preserves.

Lemma preserves_load_line (p : ptr) : preserves (load_line p).
Proof.
  apply preserves_heap. intros m a m'. unfold load_line.
  destruct p as [l|]; [|discriminate]. destruct (heap m !! l); [|discriminate].
  intros [= _ <-]. reflexivity.
Qed.

Lemma preserves_update_line (f : line_t → line_t) (p : ptr) :
  (∀ ln, line_ok ln → line_ok (f ln)) →
  preserves (ln <- load_line p ;; store_line p (f ln)).
Proof.
  intros Hf m a m' Hok. unfold bind, load_line, store_line.
  destruct p as [l|]; [|discriminate].
  destruct (heap m !! l) as [ln|] eqn:Hl; [|discriminate].
  rewrite Hl. intros [= _ <-]. unfold lines_ok. cbn [heap].
  apply map_Forall_insert_2; [|exact Hok]. apply Hf. exact (Hok l ln Hl).
Qed.

Lemma preserves_set_next (p q : ptr) : preserves (set_next p q).
Proof.
  apply (preserves_update_line (λ ln, Line (dirty_bit ln) (valid_bit ln) (tag ln) q)).
  intros ln Hln. exact Hln.
Qed.

Lemma preserves_set_dirty (p : ptr) : preserves (set_dirty_bit p 1).
Proof.
  apply (preserves_update_line (λ ln, Line 1 (valid_bit ln) (tag ln) (next ln))).
  intros ln [Hv _]. split; [exact Hv|right; reflexivity].
Qed.

Lemma preserves_free (p : ptr) : preserves (free p).
Proof.
  intros m a m' Hok. unfold free. destruct p as [l|]; [|intros [= _ <-]; exact Hok].
  destruct (heap m !! l); [|discriminate]. intros [= _ <-].
  apply map_Forall_delete. exact Hok.
Qed.

Lemma preserves_load_set (i : Z) : preserves (load_set i).
Proof.
  apply preserves_heap. intros m a m'. unfold load_set.
  destruct (i <? 0); [discriminate|]. destruct (sets m !! Z.to_nat i); [|discriminate].
  intros [= _ <-]. reflexivity.
Qed.

Lemma preserves_set_field (f : set_t → set_t) (i : Z) :
  preserves (st <- load_set i ;; store_set i (f st)).
Proof.
  apply preserves_heap. intros m a m'. unfold bind, load_set, store_set.
  destruct (i <? 0); [discriminate|].
  destruct (sets m !! Z.to_nat i) as [st|] eqn:Hst; [|discriminate]. rewrite Hst.
  intros [= _ <-]. reflexivity.
Qed.

Lemma preserves_add_stats (f : csim_stats_t → csim_stats_t) :
  preserves (st <- load_stats ;; store_stats (f st)).
Proof. apply preserves_heap. intros m a m' [= _ <-]. reflexivity. Qed.

Ltac pres_prim :=
  lazymatch goal with
  | |- preserves (bind xcalloc_line _) => apply preserves_alloc_init; intros ?
  | |- preserves (bind _ _) => apply preserves_bind; [|intros ?]
  | |- preserves (ret _) => apply preserves_ret
  | |- preserves (if ?c then _ else _) => destruct c
  | |- preserves (match ?x with Some _ => _ | None => _ end) => destruct x
  | |- preserves (load_line _) => apply preserves_load_line
  | |- preserves (load_set _) => apply preserves_load_set
  | |- preserves (free _) => apply preserves_free
  | |- preserves (set_next _ _) => apply preserves_set_next
  | |- preserves (set_dirty_bit _ 1) => apply preserves_set_dirty
  | |- preserves (set_first_line _ _) => apply preserves_set_field
  | |- preserves (set_last_line _ _) => apply preserves_set_field
  | |- preserves (set_line_count _ _) => apply preserves_set_field
  | |- preserves (add_hits _) => apply preserves_add_stats
  | |- preserves (add_misses _) => apply preserves_add_stats
  | |- preserves (add_evictions _) => apply preserves_add_stats
  | |- preserves (add_dirty_bytes _) => apply preserves_add_stats
  | |- preserves (add_dirty_evictions _) => apply preserves_add_stats
  | |- preserves (sub_dirty_bytes _) => apply preserves_add_stats
  end.

Lemma preserves_miss_type_loop (tg : Z) (line : ptr) (i : Z) (n : nat) :
  preserves (miss_type_loop tg line i n).
Proof.
  revert line i. induction n as [|n IH]; intros line i; cbn [miss_type_loop].
  - apply preserves_ret.
  - repeat pres_prim. apply IH.
Qed.

Lemma preserves_get_line (set : set_t) (pos : Z) : preserves (get_line set pos).
Proof.
  unfold get_line. generalize (first_line set). induction (Z.to_nat pos) as [|n IH];
    intros line; cbn [get_line_loop].
  - apply preserves_ret.
  - repeat pres_prim. apply IH.
Qed.

Lemma preserves_access (g : globals) (ln : trace_line) : preserves (access g ln).
Proof.
  unfold access. destruct (parsing_line g ln) as [[is_load tg] set_num].
  apply preserves_bind; [apply preserves_load_set|intros this_set].
  apply preserves_bind.
  { unfold miss_type. repeat pres_prim. apply preserves_miss_type_loop. }
  intros type.
  apply preserves_bind; [pres_prim; [unfold cold_miss; repeat pres_prim|pres_prim]|intros _].
  apply preserves_bind; [pres_prim; [unfold capacity_miss; repeat pres_prim|pres_prim]|intros _].
  apply preserves_bind; [|intros _; apply preserves_ret].
  pres_prim; [|pres_prim]. unfold hit. apply preserves_bind; [|intros cur; repeat pres_prim].
  unfold update_position. repeat pres_prim. apply preserves_get_line.
Qed.

Lemma preserves_run (g : globals) (trace : list trace_line) : preserves (run g trace).
Proof.
  induction trace as [|ln trace IH]; cbn [run]; [apply preserves_ret|].
  apply preserves_bind; [apply preserves_access|intros type].
  apply preserves_bind; [exact IH|intros types]. apply preserves_ret.
Qed.

(** X6.  After any run, every line in the heap is valid and has a
    dirty bit of 0 or 1: [init_line] sets [valid_bit] to 1 before the
    line is linked, and nothing clears it. *)
Theorem lines_stay_valid (argv : list cli_opt) (trace : list trace_line) :
  let g := set_global_values argv in
  0 < total_sets g →
  ∃ types m,
    run g trace (init g) = Some (types, m) ∧
    ∀ l ln, heap m !! l = Some ln →
            valid_bit ln = 1 ∧ (dirty_bit ln = 0 ∨ dirty_bit ln = 1).
Proof.
  intros g Hpos. pose proof (set_global_values_wf argv Hpos) as Hwf. fold g in Hwf.
  destruct (run_init g trace Hwf) as (m & Hrun & _ & _).
  eexists _, m. split; [exact Hrun|]. intros l ln Hl.
  assert (Hok : lines_ok m).
  { eapply (preserves_run g trace); [|exact Hrun].
    unfold lines_ok, init. cbn [heap]. apply map_Forall_empty. }
  exact (Hok l ln Hl).
Qed.

Lemma lines_stay_valid_witness :
  let g := set_global_values [Opt_s 1; Opt_E 2; Opt_b 1] in
  let trace := [TraceLine "S" 0 1; TraceLine "L" 8 1; TraceLine "L" 16 1] in
  ∃ types m,
    run g trace (init g) = Some (types, m) ∧
    ∀ l ln, heap m !! l = Some ln →
            valid_bit ln = 1 ∧ (dirty_bit ln = 0 ∨ dirty_bit ln = 1).
Proof.
  apply (lines_stay_valid [Opt_s 1; Opt_E 2; Opt_b 1]). reflexivity.
Defined.

(** ** Lines allocated and lines resident *)

Section Tracked.
Context {A B : Type}.

Lemma tracked_ret (a : A) : tracked (ret a) (λ _, 0).
Proof. intros m a' m' Hb [= _ <-]. split; [exact Hb|lia]. Qed.

Lemma tracked_exact (c : M A) (d d' : Z) :
  tracked c (λ _, d') → d = d' → tracked c (λ _, d).
Proof. intros H ->. exact H. Qed.

Lemma tracked_seq (c : M A) (k : A → M B) (d d1 d2 : Z) :
  tracked c (λ _, d1) → (∀ a, tracked (k a) (λ _, d2)) → d = d1 + d2 →
  tracked (bind c k) (λ _, d).
Proof.
  intros Hc Hk -> m b' m' Hb Hrun. unfold bind in Hrun.
  destruct (c m) as [[a m1]|] eqn:Hcm; [|discriminate].
  destruct (Hc _ _ _ Hb Hcm) as [Hb1 Hs1].
  destruct (Hk a _ _ _ Hb1 Hrun) as [Hb2 Hs2]. split; [exact Hb2|lia].
Qed.

(** The same with a difference that depends on the result. *)
Lemma tracked_seq_dep (c : M A) (k : A → M B) (d : B → Z) (d1 : Z) :
  tracked c (λ _, d1) → (∀ a, tracked (k a) (λ r, d r - d1)) →
  tracked (bind c k) d.
Proof.
  intros Hc Hk m b' m' Hb Hrun. unfold bind in Hrun.
  destruct (c m) as [[a m1]|] eqn:Hcm; [|discriminate].
  destruct (Hc _ _ _ Hb Hcm) as [Hb1 Hs1].
  destruct (Hk a _ _ _ Hb1 Hrun) as [Hb2 Hs2]. split; [exact Hb2|lia].
Qed.

Lemma tracked_ret_dep (a : A) (d : A → Z) : d a = 0 → tracked (ret a) d.
Proof. intros Hd m a' m' Hb [= <- <-]. split; [exact Hb|lia]. Qed.

Lemma tracked_same (c : M A) :
  (∀ m a m', c m = Some (a, m') → heap m' = heap m ∧ brk m' = brk m) →
  tracked c (λ _, 0).
Proof.
  intros H m a m' Hb Hrun. destruct (H _ _ _ Hrun) as [-> ->]. split; [exact Hb|lia].
Qed.

(** Nothing is claimed of a computation that dereferences [NULL]. *)
Lemma tracked_fault (k : line_t → M B) (d : B → Z) : tracked (bind (load_line None) k) d.
Proof. intros m a m' _ Hrun. discriminate. Qed.
End Tracked.

Lemma tracked_load_line (p : ptr) : tracked (load_line p) (λ _, 0).
Proof.
  apply tracked_same. intros m a m'. unfold load_line.
  destruct p as [l|]; [|discriminate]. destruct (heap m !! l); [|discriminate].
  intros [= _ <-]. auto.
Qed.

Lemma tracked_update_line (f : line_t → line_t) (p : ptr) :
  tracked (ln <- load_line p ;; store_line p (f ln)) (λ _, 0).
Proof.
  intros m a m' Hb. unfold bind, load_line, store_line.
  destruct p as [l|]; [|discriminate].
  destruct (heap m !! l) as [ln|] eqn:Hl; [|discriminate].
  rewrite Hl. intros [= _ <-]. cbn [heap brk]. split.
  - apply bounded_insert; [apply Hb; eauto|exact Hb].
  - rewrite map_size_insert_Some by eauto. lia.
Qed.

Lemma tracked_xcalloc_line : tracked xcalloc_line (λ _, 1).
Proof.
  intros m a m' Hb [= _ <-]. cbn [heap brk]. split.
  - apply bounded_insert; [lia|apply bounded_succ; exact Hb].
  - rewrite map_size_insert_None; [lia|].
    destruct (heap m !! brk m) eqn:Hl; [|reflexivity].
    pose proof (Hb (brk m) ltac:(eauto)). lia.
Qed.

Lemma tracked_free (p : ptr) :
  tracked (free p) (λ _, match p with Some _ => -1 | None => 0 end).
Proof.
  intros m a m' Hb. unfold free. destruct p as [l|]; [|intros [= _ <-]; split; [exact Hb|lia]].
  destruct (heap m !! l) as [ln|] eqn:Hl; [|discriminate]. intros [= _ <-].
  cbn [heap brk]. split; [apply bounded_delete; exact Hb|].
  rewrite map_size_delete_Some by eauto.
  pose proof (map_size_ne_0_lookup_2 (heap m) l ltac:(eauto)). lia.
Qed.

Lemma tracked_load_set (i : Z) : tracked (load_set i) (λ _, 0).
Proof.
  apply tracked_same. intros m a m'. unfold load_set.
  destruct (i <? 0); [discriminate|]. destruct (sets m !! Z.to_nat i); [|discriminate].
  intros [= _ <-]. auto.
Qed.

Lemma tracked_set_field (f : set_t → set_t) (i : Z) :
  tracked (st <- load_set i ;; store_set i (f st)) (λ _, 0).
Proof.
  apply tracked_same. intros m a m'. unfold bind, load_set, store_set.
  destruct (i <? 0); [discriminate|].
  destruct (sets m !! Z.to_nat i) as [st|] eqn:Hst; [|discriminate]. rewrite Hst.
  intros [= _ <-]. auto.
Qed.

Lemma tracked_add_stats (f : csim_stats_t → csim_stats_t) :
  tracked (st <- load_stats ;; store_stats (f st)) (λ _, 0).
Proof. apply tracked_same. intros m a m' [= _ <-]. auto. Qed.

Create HintDb trk.

Ltac trk_leaf lem := eapply tracked_exact; [apply lem|reflexivity].

Ltac trk :=
  lazymatch goal with
  | |- tracked (bind (load_line None) _) _ => apply tracked_fault
  | |- tracked (bind _ _) _ => eapply tracked_seq; [trk|intros ?; trk|reflexivity]
  | |- tracked (if ?c then _ else _) _ => destruct c; trk
  | |- tracked (match ?x with Some _ => _ | None => _ end) _ => destruct x; trk
  | |- tracked (ret _) _ => trk_leaf (@tracked_ret)
  | |- tracked xcalloc_line _ => trk_leaf tracked_xcalloc_line
  | |- tracked (load_line _) _ => trk_leaf tracked_load_line
  | |- tracked (load_set _) _ => trk_leaf tracked_load_set
  | |- tracked (free (Some _)) _ => trk_leaf tracked_free
  | |- tracked (init_line _ _) _ => trk_leaf tracked_update_line
  | |- tracked (set_next _ _) _ => trk_leaf tracked_update_line
  | |- tracked (set_dirty_bit _ _) _ => trk_leaf tracked_update_line
  | |- tracked (set_first_line _ _) _ => trk_leaf tracked_set_field
  | |- tracked (set_last_line _ _) _ => trk_leaf tracked_set_field
  | |- tracked (set_line_count _ _) _ => trk_leaf tracked_set_field
  | |- tracked (add_hits _) _ => trk_leaf tracked_add_stats
  | |- tracked (add_misses _) _ => trk_leaf tracked_add_stats
  | |- tracked (add_evictions _) _ => trk_leaf tracked_add_stats
  | |- tracked (add_dirty_bytes _) _ => trk_leaf tracked_add_stats
  | |- tracked (add_dirty_evictions _) _ => trk_leaf tracked_add_stats
  | |- tracked (sub_dirty_bytes _) _ => trk_leaf tracked_add_stats
  | |- _ => eapply tracked_exact; [solve [eauto with trk]|reflexivity]
  end.

Lemma tracked_miss_type_loop (tg : Z) (line : ptr) (i : Z) (n : nat) :
  tracked (miss_type_loop tg line i n) (λ _, 0).
Proof.
  revert line i. induction n as [|n IH]; intros line i; cbn [miss_type_loop]; trk.
Qed.

Lemma tracked_get_line_loop (line : ptr) (n : nat) :
  tracked (get_line_loop line n) (λ _, 0).
Proof.
  revert line. induction n as [|n IH]; intros line; cbn [get_line_loop]; trk.
Qed.

#[local] Hint Resolve tracked_miss_type_loop tracked_get_line_loop : trk.

Lemma tracked_miss_type (g : globals) (set : set_t) (set_num tg : Z) :
  tracked (miss_type g set set_num tg) (λ _, 0).
Proof. unfold miss_type. trk. Qed.

Lemma tracked_cold_miss (g : globals) (is_load tg set_num : Z) :
  tracked (cold_miss g is_load tg set_num) (λ _, 1).
Proof. unfold cold_miss. trk. Qed.

Lemma tracked_capacity_miss (g : globals) (is_load tg set_num : Z) :
  tracked (capacity_miss g is_load tg set_num) (λ _, 0).
Proof.
  unfold capacity_miss.
  eapply (tracked_seq _ _ _ 1 (-1)); [trk|intros new_line|reflexivity].
  eapply (tracked_seq _ _ _ 0 (-1)); [trk|intros _|reflexivity].
  eapply (tracked_seq _ _ _ 0 (-1)); [trk|intros [cnt [l|] lp]|reflexivity];
    cbn [first_line last_line line_count]; cbv zeta; trk.
Qed.

Lemma tracked_hit (g : globals) (is_load set_num type : Z) :
  tracked (hit g is_load set_num type) (λ _, 0).
Proof. unfold hit, update_position, get_line. trk. Qed.

#[local] Hint Resolve tracked_miss_type tracked_cold_miss tracked_capacity_miss tracked_hit : trk.

Lemma tracked_access (g : globals) (ln : trace_line) :
  tracked (access g ln) (λ type, if type =? COLD_MISS_TYPE then 1 else 0).
Proof.
  unfold access. destruct (parsing_line g ln) as [[is_load tg] set_num].
  eapply (tracked_seq_dep _ _ _ 0); [trk|intros this_set].
  eapply (tracked_seq_dep _ _ _ 0); [trk|intros type].
  eapply (tracked_seq_dep _ _ _ (if type =? COLD_MISS_TYPE then 1 else 0)).
  { destruct (type =? COLD_MISS_TYPE); trk. }
  intros _.
  eapply (tracked_seq_dep _ _ _ 0); [trk|intros _].
  eapply (tracked_seq_dep _ _ _ 0); [trk|intros _].
  apply tracked_ret_dep. lia.
Qed.

Lemma count_kind_app (f : Z → bool) (l1 l2 : list Z) :
  count_kind f (l1 ++ l2) = count_kind f l1 + count_kind f l2.
Proof. unfold count_kind. rewrite filter_app, length_app. lia. Qed.

Lemma concat_insert_length {A} (v : list (list A)) (i : nat) (old new : list A) :
  v !! i = Some old →
  Z.of_nat (length (concat (<[i := new]> v)))
  = Z.of_nat (length (concat v)) - Z.of_nat (length old) + Z.of_nat (length new).
Proof.
  revert i. induction v as [|x v IH]; intros i Hi; [discriminate|].
  destruct i as [|i].
  - injection Hi as ->. change (<[0%nat := new]> (old :: v)) with (new :: v).
    cbn [concat]. rewrite !length_app. lia.
  - change (<[S i := new]> (x :: v)) with (x :: <[i := new]> v).
    cbn [concat]. rewrite !length_app, !Nat2Z.inj_add, (IH i Hi). lia.
Qed.

(** In a run without overflow of [line_count], only a cold miss
    changes the number of lines of the cache. *)
Lemma l_access_occupancy (g : globals) (n : nat) (ln : trace_line) (a : lstate) :
  wf_globals g → length (l_sets a) = Z.to_nat (total_sets g) →
  E g <= INT_MAX → 1 <= E g ∨ Z.of_nat n < INT_MAX →
  exact_inv g n a →
  occupancy (l_lines <$> l_sets (l_access g ln a).2)
  = occupancy (l_lines <$> l_sets a) + (if is_cold (l_access g ln a).1 then 1 else 0).
Proof.
  intros Hwf Hlen HE Hreg [Hex _].
  destruct (l_access_lookup g ln a Hwf Hlen) as [ls Hls].
  rewrite (l_access_view g ln a ls Hls). cbn [fst snd l_sets].
  pose proof (Forall_lookup_1 _ _ _ _ Hex Hls) as Hexs.
  pose proof (exact_set_counted g n ls Hexs HE Hreg) as Hc.
  set (is_load := (parsing_line g ln).1.1). set (tg := (parsing_line g ln).1.2).
  unfold occupancy. rewrite list_fmap_insert.
  rewrite (concat_insert_length _ _ (l_lines ls)) by (rewrite list_lookup_fmap, Hls; reflexivity).
  pose proof (l_step_cases g is_load tg ls (l_stats a) Hc) as Hcases. cbv zeta in Hcases.
  destruct Hexs as (Hcnt & _).
  destruct Hcases as [(Hty & H0 & Hr)|[(Hty & Hnz & _ & _ & Hr)|
                     [(Hty & _ & _ & _ & e0 & es & Hl & Hr)|
                      (Hpos & l1 & e & l2 & Hl & _ & _ & Hty & Hr)]]];
    rewrite Hr, Hty; cbn [fst l_lines length].
  - rewrite H0 in Hcnt. change (is_cold (-1)) with true. lia.
  - rewrite length_app. change (is_cold (-1)) with true. cbn [length]. lia.
  - rewrite Hl, length_app. change (is_cold (-2)) with false. cbn [length]. lia.
  - rewrite Hl, !length_app. cbn [length].
    assert (is_cold (Z.of_nat (length l1)) = false) as ->
      by (unfold is_cold, COLD_MISS_TYPE; apply Z.eqb_neq; lia).
    lia.
Qed.

Lemma l_run_occupancy (g : globals) (trace : list trace_line) :
  wf_globals g → E g <= INT_MAX → 1 <= E g ∨ Z.of_nat (length trace) <= INT_MAX →
  occupancy (l_lines <$> l_sets (l_run g trace (l_init g)).2)
  = count_kind is_cold (l_run g trace (l_init g)).1.
Proof.
  intros Hwf HE. induction trace as [|ln trace IH] using rev_ind; intros Hreg.
  - cbn [l_run fst snd l_init l_sets]. unfold occupancy.
    induction (Z.to_nat (total_sets g)) as [|k IHk]; [reflexivity|exact IHk].
  - rewrite length_app in Hreg. cbn [length] in Hreg.
    rewrite l_run_snoc.
    pose proof (l_run_exact g trace HE ltac:(lia)) as Hex.
    pose proof (l_run_length g trace (l_init g)) as Hlen. rewrite init_length in Hlen.
    pose proof (l_access_occupancy g (length trace) ln _ Hwf Hlen HE ltac:(lia) Hex) as Hstep.
    specialize (IH ltac:(lia)).
    destruct (l_run g trace (l_init g)) as [types a]. cbn [fst snd] in *.
    destruct (l_access g ln a) as [type a']. cbn [fst snd] in *.
    rewrite Hstep, IH, count_kind_app. unfold count_kind at 3. cbn [filter].
    unfold filter, list_filter. destruct (decide (is_cold type = true)) as [->|Hn].
    + reflexivity.
    + destruct (is_cold type); [congruence|reflexivity].
Qed.

Lemma tracked_run (g : globals) (trace : list trace_line) :
  tracked (run g trace) (count_kind is_cold).
Proof.
  induction trace as [|ln trace IH]; cbn [run].
  - apply tracked_ret_dep. reflexivity.
  - intros m types m' Hb Hrun. unfold bind in Hrun.
    destruct (access g ln m) as [[type m1]|] eqn:Hacc; [|discriminate].
    destruct (run g trace m1) as [[types1 m2]|] eqn:Hrun1; [|discriminate].
    injection Hrun as <- <-.
    destruct (tracked_access g ln _ _ _ Hb Hacc) as [Hb1 Hs1].
    destruct (IH _ _ _ Hb1 Hrun1) as [Hb2 Hs2].
    split; [exact Hb2|]. rewrite count_kind_cons. unfold is_cold at 1. lia.
Qed.

(** X7.  The heap holds one line for every cold miss so far, that
    is [misses - evictions] lines: a capacity miss frees the line it
    evicts.  As long as [line_count] has not overflowed these are
    exactly the lines resident in the sets, so no line is leaked. *)
Theorem heap_holds_resident_lines (argv : list cli_opt) (trace : list trace_line) :
  let g := set_global_values argv in
  0 < total_sets g →
  ∃ types m v,
    run g trace (init g) = Some (types, m) ∧
    cache_view m = Some v ∧
    Z.of_nat (size (heap m)) = misses (stats m) - evictions (stats m) ∧
    (1 <= E g ∨ Z.of_nat (length trace) <= INT_MAX →
     occupancy v = Z.of_nat (size (heap m))).
Proof.
  intros g Hpos. pose proof (set_global_values_wf argv Hpos) as Hwf. fold g in Hwf.
  destruct (reachable argv trace Hpos) as (m & Hrun & [nss Hrep] & Hlen & Hinv & Hview).
  fold g in Hrun, Hrep, Hlen, Hinv, Hview.
  eexists _, m, _. split; [exact Hrun|]. split; [exact Hview|].
  assert (Hb0 : bounded (heap (init g)) (brk (init g))).
  { intros x [v Hx]. unfold init in Hx. cbn [heap] in Hx. rewrite lookup_empty in Hx.
    discriminate. }
  destruct (tracked_run g trace _ _ _ Hb0 Hrun) as [_ Hsize].
  unfold init in Hsize at 1. cbn [heap] in Hsize. rewrite map_size_empty in Hsize.
  pose proof (l_run_counts g trace (l_init g) Hwf (init_length g) (init_counted g)) as Hc.
  cbv zeta in Hc. destruct Hc as (_ & _ & _ & Hm & He).
  cbn [l_init l_stats misses evictions] in Hm, He.
  destruct Hrep as (_ & _ & _ & _ & _ & Hst). rewrite <- Hst.
  split; [lia|]. intros Hreg.
  pose proof (l_run_exact g trace (E_is_int argv) Hreg) as Hex.
  rewrite (exact_inv_views g _ _ Hex).
  rewrite (l_run_occupancy g trace Hwf (E_is_int argv) Hreg). lia.
Qed.

Lemma heap_holds_resident_lines_witness :
  let g := set_global_values [Opt_s 1; Opt_E 1; Opt_b 1] in
  let trace := [TraceLine "L" 0 1; TraceLine "L" 8 1; TraceLine "S" 2 1] in
  ∃ types m v,
    run g trace (init g) = Some (types, m) ∧
    cache_view m = Some v ∧
    Z.of_nat (size (heap m)) = misses (stats m) - evictions (stats m) ∧
    (1 <= E g ∨ Z.of_nat (length trace) <= INT_MAX →
     occupancy v = Z.of_nat (size (heap m))).
Proof.
  apply (heap_holds_resident_lines [Opt_s 1; Opt_E 1; Opt_b 1]). reflexivity.
Defined.

(** ** [free_mem] releases every line *)

Lemma allocated_length (h : gmap loc line_t) (l : list loc) :
  NoDup l → (∀ x, x ∈ l → is_Some (h !! x)) → (length l ≤ size h)%nat.
Proof.
  revert h. induction l as [|y l IH]; intros h Hnd Hall; [cbn; lia|].
  apply NoDup_cons in Hnd as [Hy Hnd].
  assert (Hl : (length l ≤ size (delete y h))%nat).
  { apply IH; [exact Hnd|]. intros x Hx. rewrite lookup_delete_ne.
    - apply Hall. right. exact Hx.
    - intros ->. contradiction. }
  rewrite map_size_delete_Some in Hl by (apply Hall; left).
  pose proof (map_size_ne_0_lookup_2 h y (Hall y ltac:(left))). cbn [length]. lia.
Qed.

(** A duplicate-free list of allocated locations that is as long as
    the heap is large lists every allocated location. *)
Lemma allocated_all (h : gmap loc line_t) (l : list loc) :
  NoDup l → (∀ x, x ∈ l → is_Some (h !! x)) → length l = size h →
  ∀ x, is_Some (h !! x) → x ∈ l.
Proof.
  revert h. induction l as [|y l IH]; intros h Hnd Hall Hlen x Hx.
  - cbn in Hlen. symmetry in Hlen. apply map_size_empty_inv in Hlen. subst h.
    rewrite lookup_empty in Hx. destruct Hx as [? [=]].
  - apply NoDup_cons in Hnd as [Hy Hnd].
    destruct (decide (x = y)) as [->|Hne]; [left|right].
    apply (IH (delete y h)); [exact Hnd| | |].
    + intros z Hz. rewrite lookup_delete_ne; [apply Hall; right; exact Hz|].
      intros ->. contradiction.
    + rewrite map_size_delete_Some by (apply Hall; left). cbn [length] in Hlen. lia.
    + rewrite lookup_delete_ne by congruence. exact Hx.
Qed.

Lemma free_rest_lseg (ns : list (loc * (Z * Z))) (fuel : nat) (p : ptr) (m : machine) :
  lseg (heap m) p NULL ns → NoDup ns.*1 → (length ns ≤ fuel)%nat →
  ∃ m', free_rest fuel p m = Some (tt, m') ∧ freed ns m m'.
Proof.
  revert fuel p m. induction ns as [|n ns IH]; intros fuel p m Hs Hnd Hfuel.
  - simpl in Hs. subst p. exists m. destruct fuel; (split; [reflexivity|]);
      (split; [reflexivity|split; [reflexivity|]]);
      intros x Hx; inversion Hx.
  - simpl in Hs. destruct Hs as (-> & ln & Hl & He & Hs).
    destruct fuel as [|fuel]; [cbn in Hfuel; lia|].
    cbn [fmap list_fmap] in Hnd. apply NoDup_cons in Hnd as [Hn Hnd].
    set (m1 := Machine (delete n.1 (heap m)) (brk m) (sets m) (stats m)).
    destruct (IH fuel (next ln) m1) as (m' & Hrun & Hs' & Hfr & Hgone).
    + cbn [heap m1]. eapply lseg_frame; [|exact Hs].
      intros x Hx. apply lookup_delete_ne. intros <-. contradiction.
    + exact Hnd.
    + cbn in Hfuel. lia.
    + exists m'. split.
      * cbn [free_rest]. unfold bind, load_line, free. rewrite Hl. rewrite Hl. exact Hrun.
      * split; [exact Hs'|]. split.
        -- intros x Hx. cbn [fmap list_fmap] in Hx. apply not_elem_of_cons in Hx as [Hne Hx].
           rewrite (Hfr x Hx). cbn [heap m1]. apply lookup_delete_ne. congruence.
        -- intros x Hx. cbn [fmap list_fmap] in Hx. apply elem_of_cons in Hx as [->|Hx].
           ++ rewrite (Hfr _ Hn). cbn [heap m1]. apply lookup_delete_eq.
           ++ apply Hgone. exact Hx.
Qed.

Lemma free_set_lseg (ns : list (loc * (Z * Z))) (st : set_t) (m : machine) :
  lseg (heap m) (first_line st) NULL ns → NoDup ns.*1 →
  line_count st = Z.of_nat (length ns) →
  ∃ m', free_set st m = Some (tt, m') ∧ freed ns m m'.
Proof.
  intros Hs Hnd Hcnt. unfold free_set. destruct ns as [|n ns].
  - cbn in Hcnt. rewrite Hcnt. cbn. exists m. split; [reflexivity|].
    split; [reflexivity|split; [reflexivity|]]; intros x Hx; inversion Hx.
  - assert (Hpos : (0 <? line_count st) = true) by (apply Z.ltb_lt; cbn in Hcnt; lia).
    rewrite Hpos.
    pose proof Hs as Hs0. simpl in Hs0. destruct Hs0 as (Hfl & ln & Hl & _ & Hrest).
    pose proof Hnd as Hnd0. cbn [fmap list_fmap] in Hnd0.
    apply NoDup_cons in Hnd0 as [Hn Hnd0].
    apply (free_rest_lseg (n :: ns) (S (size (delete n.1 (heap m))))) in Hs
      as (m' & Hrun & Hfreed); [|exact Hnd|].
    + exists m'. split; [|exact Hfreed].
      rewrite Hfl. rewrite Hfl in Hrun. revert Hrun. cbn [free_rest].
      unfold bind, load_line, free. rewrite Hl. rewrite Hl. cbn [heap]. auto.
    + cbn [length]. apply le_n_S. rewrite <- (length_fmap fst).
      apply allocated_length; [exact Hnd0|].
      intros x Hx. rewrite lookup_delete_ne by (intros <-; contradiction).
      eapply lseg_allocated; eassumption.
Qed.

(** More fuel than the heap has lines changes nothing. *)
Lemma free_rest_fuel (fuel1 fuel2 : nat) (p : ptr) (m : machine) :
  (size (heap m) ≤ fuel1)%nat → (size (heap m) ≤ fuel2)%nat →
  free_rest fuel1 p m = free_rest fuel2 p m.
Proof.
  revert fuel2 p m. induction fuel1 as [|fuel1 IH]; intros fuel2 p m H1 H2.
  - destruct p as [l|]; [|destruct fuel2; reflexivity].
    assert (heap m = ∅) as Hempty by (apply map_size_empty_inv; lia).
    destruct fuel2 as [|fuel2]; [reflexivity|].
    cbn [free_rest]. unfold bind, load_line. rewrite Hempty, lookup_empty. reflexivity.
  - destruct p as [l|]; [|destruct fuel2; reflexivity].
    destruct fuel2 as [|fuel2].
    + assert (heap m = ∅) as Hempty by (apply map_size_empty_inv; lia).
      cbn [free_rest]. unfold bind, load_line. rewrite Hempty, lookup_empty. reflexivity.
    + cbn [free_rest]. unfold bind, load_line, free.
      destruct (heap m !! l) as [ln|] eqn:Hl; [|reflexivity]. rewrite Hl.
      pose proof (map_size_ne_0_lookup_2 (heap m) l ltac:(eauto)).
      apply IH; cbn [heap]; rewrite map_size_delete_Some by eauto; lia.
Qed.

Lemma elem_of_concat {A} (x : A) (ls : list (list A)) :
  x ∈ concat ls ↔ ∃ l, x ∈ l ∧ l ∈ ls.
Proof.
  induction ls as [|l ls IH]; cbn [concat].
  - split; [intros H; inversion H|intros (l & _ & H); inversion H].
  - rewrite elem_of_app, IH. split.
    + intros [H|(l' & H1 & H2)]; [exists l; split; [exact H|left]|].
      exists l'. split; [exact H1|right; exact H2].
    + intros (l' & H1 & H2). apply elem_of_cons in H2 as [->|H2]; [left; exact H1|].
      right. exists l'. auto.
Qed.

Lemma freed_nil (m : machine) : freed [] m m.
Proof.
  split; [reflexivity|split; [reflexivity|]]. intros x Hx. inversion Hx.
Qed.

Lemma free_sets_chains (nss : list (list (loc * (Z * Z)))) (i : nat) (m : machine) :
  (∀ j ns, nss !! j = Some ns →
     ∃ st, sets m !! (i + j)%nat = Some st ∧
           lseg (heap m) (first_line st) NULL ns ∧
           line_count st = Z.of_nat (length ns)) →
  NoDup (concat nss).*1 →
  ∃ m', free_sets (Z.of_nat i) (length nss) m = Some (tt, m') ∧ freed (concat nss) m m'.
Proof.
  revert i m. induction nss as [|ns nss IH]; intros i m Hch Hnd.
  - exists m. split; [reflexivity|apply freed_nil].
  - cbn [concat] in Hnd. rewrite fmap_app in Hnd. apply NoDup_app in Hnd as (Hnd1 & Hdis & Hnd2).
    destruct (Hch 0%nat ns eq_refl) as (st & Hst & Hs & Hcnt).
    rewrite Nat.add_0_r in Hst.
    destruct (free_set_lseg ns st m Hs Hnd1 Hcnt) as (m1 & Hfree & Hs1 & Hfr1 & Hgone1).
    destruct (IH (S i) m1) as (m' & Hrun & Hs' & Hfr & Hgone); [|exact Hnd2|].
    { intros j ns' Hj. destruct (Hch (S j) ns' Hj) as (st' & Hst'0 & Hs'0 & Hcnt').
      exists st'. rewrite Hs1. replace (S i + j)%nat with (i + S j)%nat by lia.
      split; [exact Hst'0|]. split; [|exact Hcnt'].
      eapply lseg_frame; [|exact Hs'0]. intros x Hx. apply Hfr1. intros Hin.
      apply (Hdis x Hin). apply list_elem_of_fmap.
      apply list_elem_of_fmap in Hx as (nd & -> & Hnd').
      exists nd. split; [reflexivity|]. apply elem_of_concat. exists ns'.
      split; [exact Hnd'|]. eapply list_elem_of_lookup_2. exact Hj. }
    exists m'. split.
    + cbn [length free_sets]. unfold bind, load_set.
      destruct (Z.of_nat i <? 0) eqn:Hneg; [apply Z.ltb_lt in Hneg; lia|].
      rewrite Nat2Z.id, Hst, Hfree.
      replace (Z.of_nat i + 1) with (Z.of_nat (S i)) by lia. exact Hrun.
    + split; [congruence|]. cbn [concat]. rewrite fmap_app. split.
      * intros x Hx. apply not_elem_of_app in Hx as [Hx1 Hx2].
        rewrite (Hfr x Hx2). apply Hfr1. exact Hx1.
      * intros x Hx. apply elem_of_app in Hx as [Hx|Hx].
        -- destruct (decide (x ∈ (concat nss).*1)) as [Hin|Hnin]; [apply Hgone; exact Hin|].
           rewrite (Hfr x Hnin). apply Hgone1. exact Hx.
        -- apply Hgone. exact Hx.
Qed.

Lemma rep_by_NoDup (nss : list (list (loc * (Z * Z)))) (m : machine) (a : lstate) :
  rep_by nss m a → NoDup (concat nss).*1.
Proof.
  intros (Hl1 & Hl2 & Hsets & Hdis & _).
  assert (Hnd : ∀ i ns, nss !! i = Some ns → NoDup ns.*1).
  { intros i ns Hns.
    destruct (lookup_lt_is_Some_2 (sets m) i) as [st Hst];
      [rewrite Hl1; eapply lookup_lt_Some; exact Hns|].
    destruct (lookup_lt_is_Some_2 (l_sets a) i) as [ls Hls];
      [rewrite Hl2; eapply lookup_lt_Some; exact Hns|].
    destruct (Hsets i st ns ls Hst Hns Hls) as (_ & _ & H & _). exact H. }
  clear Hl1 Hl2 Hsets. induction nss as [|ns nss IH]; [apply NoDup_nil_2|].
  cbn [concat]. rewrite fmap_app. apply NoDup_app. split; [apply (Hnd 0%nat); reflexivity|].
  split.
  - intros x Hx Hin. apply list_elem_of_fmap in Hin as (nd & -> & Hin).
    apply elem_of_concat in Hin as (ns' & Hnd' & Hns').
    apply list_elem_of_lookup_1 in Hns' as [j Hj].
    apply (Hdis 0%nat (S j) ns ns' nd.1 ltac:(lia) eq_refl Hj Hx).
    apply list_elem_of_fmap. exists nd. auto.
  - apply IH.
    + intros i j ns1 ns2 x Hij H1 H2. apply (Hdis (S i) (S j)); [lia|exact H1|exact H2].
    + intros i ns' Hi. apply (Hnd (S i)). exact Hi.
Qed.

Lemma rep_by_lines_length (nss : list (list (loc * (Z * Z)))) (m : machine) (a : lstate) :
  rep_by nss m a → length (concat nss) = length (concat (l_lines <$> l_sets a)).
Proof.
  intros (Hl1 & Hl2 & Hsets & _).
  assert (HF : Forall2 (λ ns ls, l_lines ls = ns.*2) nss (l_sets a)).
  { apply Forall2_same_length_lookup_2; [congruence|]. intros i ns ls Hns Hls.
    destruct (lookup_lt_is_Some_2 (sets m) i) as [st Hst];
      [rewrite Hl1; eapply lookup_lt_Some; exact Hns|].
    destruct (Hsets i st ns ls Hst Hns Hls) as (_ & _ & _ & _ & H). exact H. }
  clear Hl1 Hl2 Hsets. induction HF as [|ns ls nss lss Hh _ IH]; [reflexivity|].
  cbn [fmap list_fmap concat]. rewrite !length_app, IH, Hh, length_fmap. reflexivity.
Qed.

Lemma run_heap_size (g : globals) (trace : list trace_line) (types : list Z) (m : machine) :
  run g trace (init g) = Some (types, m) →
  Z.of_nat (size (heap m)) = count_kind is_cold types.
Proof.
  intros Hrun.
  assert (Hb0 : bounded (heap (init g)) (brk (init g))).
  { intros x [v Hx]. unfold init in Hx. cbn [heap] in Hx. rewrite lookup_empty in Hx.
    discriminate. }
  destruct (tracked_run g trace _ _ _ Hb0 Hrun) as [_ Hsize].
  unfold init in Hsize at 1. cbn [heap] in Hsize. rewrite map_size_empty in Hsize. lia.
Qed.

(** X8.  After a run in which [line_count] has not overflowed,
    [free_mem] releases the block of the counters, follows every
    chain to its end without touching a freed line, frees every line
    once, and releases the [sets] array: nothing that [main] has
    allocated stays allocated. *)
Theorem free_mem_releases_every_line (argv : list cli_opt) (trace : list trace_line) :
  let g := set_global_values argv in
  0 < total_sets g →
  1 <= E g ∨ Z.of_nat (length trace) <= INT_MAX →
  ∃ types m m',
    run g trace (init g) = Some (types, m) ∧
    free_mem g (Blocks true true) m = Some (Blocks false false, m') ∧
    heap m' = ∅.
Proof.
  intros g Hpos Hreg. pose proof (set_global_values_wf argv Hpos) as Hwf. fold g in Hwf.
  destruct (run_init g trace Hwf) as (m & Hrun & [nss Hrep] & Hlen).
  pose proof (l_run_exact g trace (E_is_int argv) Hreg) as [Hex _].
  pose proof (rep_by_NoDup _ _ _ Hrep) as Hnd.
  pose proof (rep_by_lines_length _ _ _ Hrep) as Hlines.
  pose proof (l_run_occupancy g trace Hwf (E_is_int argv) Hreg) as Hocc.
  pose proof (run_heap_size g trace _ _ Hrun) as Hsize.
  unfold occupancy in Hocc.
  pose proof Hrep as (Hl1 & Hl2 & Hsets & _).
  assert (Hch : ∀ j ns, nss !! j = Some ns →
            ∃ st, sets m !! (0 + j)%nat = Some st ∧
                  lseg (heap m) (first_line st) NULL ns ∧
                  line_count st = Z.of_nat (length ns)).
  { intros j ns Hns.
    destruct (lookup_lt_is_Some_2 (sets m) j) as [st Hst];
      [rewrite Hl1; eapply lookup_lt_Some; exact Hns|].
    destruct (lookup_lt_is_Some_2 (l_sets (l_run g trace (l_init g)).2) j) as [ls Hls];
      [rewrite Hl2; eapply lookup_lt_Some; exact Hns|].
    destruct (Hsets j st ns ls Hst Hns Hls) as (Hs & _ & _ & Hc & Hl).
    destruct (Forall_lookup_1 _ _ _ _ Hex Hls) as (Hcnt & _).
    exists st. split; [exact Hst|]. split; [exact Hs|].
    rewrite <- Hc, Hcnt, Hl, length_fmap. reflexivity. }
  destruct (free_sets_chains nss 0 m Hch Hnd) as (m' & Hfree & _ & Hfr & Hgone).
  exists (l_run g trace (l_init g)).1, m, m'.
  split; [exact Hrun|]. split.
  - unfold free_mem, free_block. cbn [stats_block sets_block].
    rewrite <- Hlen, Hl1. change (Z.of_nat 0) with 0 in Hfree. rewrite Hfree. reflexivity.
  - apply map_empty. intros x.
    destruct (decide (x ∈ (concat nss).*1)) as [Hin|Hnin]; [apply Hgone; exact Hin|].
    rewrite (Hfr x Hnin). destruct (heap m !! x) as [ln|] eqn:Hx; [|reflexivity].
    exfalso. apply Hnin. apply (allocated_all (heap m)); [exact Hnd| | |eauto].
    + intros y Hy. apply list_elem_of_fmap in Hy as (nd & -> & Hy).
      apply elem_of_concat in Hy as (ns & Hy & Hns).
      apply list_elem_of_lookup_1 in Hns as [j Hj].
      destruct (Hch j ns Hj) as (st & _ & Hs & _).
      eapply lseg_allocated; [exact Hs|]. apply list_elem_of_fmap. exists nd. auto.
    + rewrite length_fmap, Hlines. lia.
Qed.

Lemma free_mem_releases_every_line_witness :
  let g := set_global_values [Opt_s 1; Opt_E 2; Opt_b 1] in
  let trace := [TraceLine "L" 0 1; TraceLine "S" 8 1; TraceLine "L" 2 1; TraceLine "L" 16 1] in
  ∃ types m m',
    run g trace (init g) = Some (types, m) ∧
    free_mem g (Blocks true true) m = Some (Blocks false false, m') ∧
    heap m' = ∅.
Proof.
  apply (free_mem_releases_every_line [Opt_s 1; Opt_E 2; Opt_b 1]).
  - reflexivity.
  - left. vm_compute. discriminate.
Defined.

(** ** One access, case by case *)

Lemma l_view_full (lines : list (Z * Z)) :
  l_view (LSet (Z.of_nat (length lines)) lines) = lines.
Proof. unfold l_view. cbn [l_count l_lines]. rewrite Nat2Z.id. apply firstn_all. Qed.

Lemma l_access_step (g : globals) (n : nat) (ln : trace_line) (a : lstate) :
  wf_globals g → length (l_sets a) = Z.to_nat (total_sets g) →
  E g <= INT_MAX → 1 <= E g ∨ Z.of_nat n < INT_MAX →
  exact_inv g n a →
  ∃ ls lines',
    l_sets a !! Z.to_nat (parsing_line g ln).2 = Some ls ∧
    l_sets (l_access g ln a).2
    = <[Z.to_nat (parsing_line g ln).2 := LSet (Z.of_nat (length lines')) lines']> (l_sets a) ∧
    is_step g (parsing_line g ln).1.1 (parsing_line g ln).1.2 (l_lines ls) (l_stats a)
            (l_access g ln a).1 lines' (l_stats (l_access g ln a).2).
Proof.
  intros Hwf Hlen HE Hreg [Hex _].
  destruct (l_access_lookup g ln a Hwf Hlen) as [ls Hls].
  rewrite (l_access_view g ln a ls Hls). cbn [fst snd l_sets l_stats].
  pose proof (Forall_lookup_1 _ _ _ _ Hex Hls) as Hexs.
  pose proof (exact_set_counted g n ls Hexs HE Hreg) as Hc.
  pose proof (exact_set_view g n ls Hexs) as Hview.
  set (is_load := (parsing_line g ln).1.1). set (tg := (parsing_line g ln).1.2).
  destruct (l_apply_exact g n is_load tg ls (l_stats a) Hexs HE Hreg) as [(Hcnt' & _) _].
  pose proof (l_step_cases g is_load tg ls (l_stats a) Hc) as Hcases. cbv zeta in Hcases.
  destruct Hexs as (Hcnt & _).
  set (r := l_apply g is_load tg (l_miss_type g ls tg) ls (l_stats a)) in *.
  exists ls, (l_lines r.1). split; [exact Hls|]. split.
  { f_equal. destruct r.1 as [c l]. cbn [l_count l_lines] in *. rewrite Hcnt'. reflexivity. }
  unfold is_step, new_entry, touch in *. rewrite Hview in Hcases.
  destruct Hcases as [(Hty & H0 & Hr)|[(Hty & Hnz & HnE & Hnin & Hr)|
                     [(Hty & HisE & _ & Hnin & e0 & es & Hl & Hr)|
                      (Hpos & l1 & [t d] & l2 & Hl & He & _ & Hty & Hr)]]];
    rewrite Hr, Hty; cbn [fst snd l_lines].
  - left. assert (Hnil : l_lines ls = []).
    { destruct (l_lines ls); [reflexivity|cbn [length] in Hcnt; lia]. }
    rewrite Hnil. split; [reflexivity|]. split; [intros H; inversion H|].
    split; [left; reflexivity|]. split; reflexivity.
  - left. split; [reflexivity|]. split; [exact Hnin|]. split; [right; lia|].
    split; reflexivity.
  - right. left. split; [reflexivity|]. split; [exact Hnin|]. split; [lia|].
    exists e0, es. split; [exact Hl|]. split; reflexivity.
  - right. right. cbn [fst] in He. subst t. exists l1, d, l2.
    split; [exact Hl|]. split; [reflexivity|]. cbn [fst snd].
    rewrite <- app_assoc. split; reflexivity.
Qed.

(** The same for the machine: a reachable state, one more access,
    and what [cache_view] shows before and after. *)
Lemma access_step (argv : list cli_opt) (trace : list trace_line) (ln : trace_line) :
  let g := set_global_values argv in
  let a := (l_run g trace (l_init g)).2 in
  let set_num := (parsing_line g ln).2 in
  0 < total_sets g →
  1 <= E g ∨ Z.of_nat (length trace) < INT_MAX →
  ∃ m m' ls lines',
    run g trace (init g) = Some ((l_run g trace (l_init g)).1, m) ∧
    cache_view m = Some (l_lines <$> l_sets a) ∧
    stats m = l_stats a ∧
    l_sets a !! Z.to_nat set_num = Some ls ∧
    access g ln m = Some ((l_access g ln a).1, m') ∧
    cache_view m' = Some (<[Z.to_nat set_num := lines']> (l_lines <$> l_sets a)) ∧
    is_step g (parsing_line g ln).1.1 (parsing_line g ln).1.2 (l_lines ls) (stats m)
            (l_access g ln a).1 lines' (stats m').
Proof.
  intros g a set_num Hpos Hreg.
  pose proof (set_global_values_wf argv Hpos) as Hwf. fold g in Hwf.
  destruct (reachable_step argv trace ln Hpos)
    as (m & m' & Hrun & Hacc & Hview & Hview' & Hst & Hst' & Hinv & Hlen).
  fold g in Hrun, Hacc, Hview, Hview', Hst, Hst', Hinv, Hlen.
  fold a in Hacc, Hview, Hview', Hst, Hst', Hinv, Hlen.
  pose proof (l_run_exact g trace (E_is_int argv) ltac:(lia)) as Hex. fold a in Hex.
  destruct (l_access_step g (length trace) ln a Hwf Hlen (E_is_int argv) Hreg Hex)
    as (ls & lines' & Hls & Hsets & Hstep).
  exists m, m', ls, lines'.
  split; [exact Hrun|]. split; [rewrite Hview, (exact_inv_views g _ _ Hex); reflexivity|].
  split; [exact Hst|]. split; [exact Hls|]. split; [exact Hacc|].
  split; [|rewrite Hst, Hst'; exact Hstep].
  rewrite Hview', Hsets, !list_fmap_insert, l_view_full.
  rewrite (exact_inv_views g _ _ Hex). reflexivity.
Qed.

(** X9.  As long as [line_count] has not overflowed, every access
    does exactly one of three things, decided by the lines of its set
    alone: a tag that is not resident is appended when the set is
    empty or does not hold exactly [E] lines (cold miss), or replaces
    the first line when the set holds exactly [E] lines (capacity
    miss); a resident tag is moved to the back (hit).  The counters
    change as [stats_cold], [stats_capacity] and [stats_hit] say, and
    no other set changes. *)
Theorem access_case_analysis (argv : list cli_opt) (trace : list trace_line)
        (ln : trace_line) :
  let g := set_global_values argv in
  let is_load := (parsing_line g ln).1.1 in
  let tg := (parsing_line g ln).1.2 in
  let set_num := (parsing_line g ln).2 in
  0 < total_sets g →
  1 <= E g ∨ Z.of_nat (length trace) < INT_MAX →
  ∃ types m v lines type m' lines',
    run g trace (init g) = Some (types, m) ∧
    cache_view m = Some v ∧
    v !! Z.to_nat set_num = Some lines ∧
    access g ln m = Some (type, m') ∧
    cache_view m' = Some (<[Z.to_nat set_num := lines']> v) ∧
    is_step g is_load tg lines (stats m) type lines' (stats m').
Proof.
  intros g is_load tg set_num Hpos Hreg. subst g is_load tg set_num.
  destruct (access_step argv trace ln Hpos Hreg)
    as (m & m' & ls & lines' & Hrun & Hview & _ & Hls & Hacc & Hview' & Hstep).
  eexists _, m, _, (l_lines ls), _, m', lines'.
  split; [exact Hrun|]. split; [exact Hview|].
  split; [rewrite list_lookup_fmap, Hls; reflexivity|].
  split; [exact Hacc|]. split; [exact Hview'|exact Hstep].
Qed.

Lemma access_case_analysis_witness :
  let g := set_global_values [Opt_s 0; Opt_E 2; Opt_b 0] in
  let trace := [TraceLine "L" 5 1; TraceLine "S" 6 1] in
  let ln := TraceLine "L" 7 1 in
  ∃ types m v lines type m' lines',
    run g trace (init g) = Some (types, m) ∧
    cache_view m = Some v ∧
    v !! 0%nat = Some lines ∧
    access g ln m = Some (type, m') ∧
    cache_view m' = Some (<[0%nat := lines']> v) ∧
    is_step g 1 7 lines (stats m) type lines' (stats m').
Proof.
  apply (access_case_analysis [Opt_s 0; Opt_E 2; Opt_b 0]
           [TraceLine "L" 5 1; TraceLine "S" 6 1] (TraceLine "L" 7 1)).
  - reflexivity.
  - left. vm_compute. discriminate.
Defined.

(** ** An address that was just accessed *)

Lemma split_at_unique_tag (l1 l2 l1' l2' : list (Z * Z)) (x x' : Z * Z) :
  NoDup (l1 ++ x :: l2).*1 → l1 ++ x :: l2 = l1' ++ x' :: l2' → x.1 = x'.1 →
  l1 = l1' ∧ x = x' ∧ l2 = l2'.
Proof.
  revert l1'. induction l1 as [|y l1 IH]; intros l1' Hnd Heq Hx.
  - destruct l1' as [|y' l1']; cbn in Heq.
    + injection Heq as -> ->. auto.
    + injection Heq as -> ->. exfalso. cbn in Hnd. apply NoDup_cons in Hnd as [Hn _].
      apply Hn. rewrite fmap_app, fmap_cons, Hx. apply elem_of_app. right. left.
  - destruct l1' as [|y' l1']; cbn in Heq.
    + injection Heq as -> <-. exfalso. cbn in Hnd. apply NoDup_cons in Hnd as [Hn _].
      apply Hn. rewrite fmap_app, fmap_cons, <- Hx. apply elem_of_app. right. left.
    + injection Heq as <- Heq. cbn in Hnd. apply NoDup_cons in Hnd as [_ Hnd].
      destruct (IH l1' Hnd Heq Hx) as (-> & -> & ->). auto.
Qed.

Lemma is_step_last (g : globals) (is_load tg : Z) (lines : list (Z * Z)) (st : csim_stats_t)
      (type : Z) (lines' : list (Z * Z)) (st' : csim_stats_t) :
  is_step g is_load tg lines st type lines' st' →
  Forall (λ e, e.2 = 0 ∨ e.2 = 1) lines →
  ∃ keep d, lines' = keep ++ [(tg, d)] ∧ (is_load = 0 → d = 1).
Proof.
  intros [(_ & _ & _ & -> & _)|[(_ & _ & _ & victim & rest & _ & -> & _)|
         (l1 & d & l2 & Hl & _ & -> & _)]] Hd.
  - eexists _, _. split; [reflexivity|]. intros ->. reflexivity.
  - eexists _, _. split; [reflexivity|]. intros ->. reflexivity.
  - exists (l1 ++ l2), (if (is_load =? 0) && (d =? 0) then 1 else d).
    split; [rewrite app_assoc; reflexivity|]. intros ->.
    rewrite Hl in Hd. apply Forall_app in Hd as [_ Hd]. apply Forall_cons in Hd as [Hd _].
    cbn in Hd. destruct Hd as [->| ->]; reflexivity.
Qed.

(** X10.  Right after an access, the line of the accessed address is
    the last of its set, and dirty if the access was a store.  A
    second access to the same line is then a hit at that last
    position: it leaves the order of every set as it is, counts one
    hit and no miss. *)
Theorem reaccess_hits (argv : list cli_opt) (trace : list trace_line) (ln ln' : trace_line) :
  let g := set_global_values argv in
  let tg := (parsing_line g ln).1.2 in
  let set_num := (parsing_line g ln).2 in
  let is_load' := (parsing_line g ln').1.1 in
  0 < total_sets g →
  1 <= E g ∨ Z.of_nat (length trace) + 1 < INT_MAX →
  (parsing_line g ln').1.2 = tg → (parsing_line g ln').2 = set_num →
  ∃ types m v keep d m',
    run g (trace ++ [ln]) (init g) = Some (types, m) ∧
    cache_view m = Some v ∧
    v !! Z.to_nat set_num = Some (keep ++ [(tg, d)]) ∧
    ((parsing_line g ln).1.1 = 0 → d = 1) ∧
    access g ln' m = Some (Z.of_nat (length keep), m') ∧
    cache_view m'
    = Some (<[Z.to_nat set_num :=
                keep ++ [(tg, if (is_load' =? 0) && (d =? 0) then 1 else d)]]> v) ∧
    hits (stats m') = hits (stats m) + 1 ∧
    misses (stats m') = misses (stats m).
Proof.
  intros g tg set_num is_load' Hpos Hreg Htg Hsn.
  pose proof (set_global_values_wf argv Hpos) as Hwf. fold g in Hwf.
  assert (Hreg1 : 1 <= E g ∨ Z.of_nat (length (trace ++ [ln])) < INT_MAX).
  { rewrite length_app. cbn [length]. lia. }
  destruct (access_step argv (trace ++ [ln]) ln' Hpos Hreg1)
    as (m & m' & ls & lines' & Hrun & Hview & _ & Hls & Hacc & Hview' & Hstep).
  fold g in Hrun, Hview, Hls, Hacc, Hview', Hstep.
  rewrite Htg, Hsn in *. fold is_load' in Hstep.
  (* the set after the first access *)
  pose proof (l_run_exact g trace (E_is_int argv) ltac:(lia)) as Hex0.
  pose proof (l_run_length g trace (l_init g)) as Hlen0. rewrite init_length in Hlen0.
  destruct (l_access_step g (length trace) ln _ Hwf Hlen0 (E_is_int argv) ltac:(lia) Hex0)
    as (ls0 & lines1 & Hls0 & Hsets1 & Hstep1).
  fold tg set_num in Hls0, Hsets1, Hstep1.
  pose proof (Forall_lookup_1 _ _ _ _ (proj1 Hex0) Hls0) as (_ & _ & _ & _ & Hd0).
  destruct (is_step_last _ _ _ _ _ _ _ _ Hstep1 Hd0) as (keep & d & Hl1 & Hdirty).
  assert (Ha1 : (l_run g (trace ++ [ln]) (l_init g)).2
                = (l_access g ln (l_run g trace (l_init g)).2).2).
  { rewrite l_run_snoc. destruct (l_run g trace (l_init g)) as [ts a0]. cbn [snd].
    destruct (l_access g ln a0). reflexivity. }
  rewrite Ha1 in Hls, Hview, Hview'. rewrite Hsets1 in Hls.
  rewrite list_lookup_insert_eq in Hls by (eapply lookup_lt_Some; exact Hls0).
  injection Hls as <-. cbn [l_lines] in Hstep.
  pose proof (l_run_exact g (trace ++ [ln]) (E_is_int argv) ltac:(lia)) as [Hex1 _].
  rewrite Ha1, Hsets1 in Hex1.
  assert (Hnd : NoDup lines1.*1).
  { assert (Hlk : <[Z.to_nat set_num := LSet (Z.of_nat (length lines1)) lines1]>
                    (l_sets (l_run g trace (l_init g)).2) !! Z.to_nat set_num
                  = Some (LSet (Z.of_nat (length lines1)) lines1))
      by (apply list_lookup_insert_eq; eapply lookup_lt_Some; exact Hls0).
    pose proof (Forall_lookup_1 _ _ _ _ Hex1 Hlk) as (_ & _ & _ & H & _). exact H. }
  eexists (l_run g (trace ++ [ln]) (l_init g)).1, m, _, keep, d, m'.
  split; [exact Hrun|]. split; [exact Hview|].
  split.
  { rewrite Hsets1, list_fmap_insert, list_lookup_insert_eq
      by (rewrite length_fmap; eapply lookup_lt_Some; exact Hls0).
    cbn [l_lines]. rewrite Hl1. reflexivity. }
  split; [exact Hdirty|].
  assert (Hin : tg ∈ lines1.*1).
  { rewrite Hl1, fmap_app. apply elem_of_app. right. left. }
  destruct Hstep as [(_ & Hnin & _)|[(_ & Hnin & _)|(l1 & d' & l2 & Hl & Hty & Hl' & Hst')]];
    [contradiction|contradiction|].
  rewrite Hl1 in Hl, Hnd.
  destruct (split_at_unique_tag keep [] l1 l2 (tg, d) (tg, d') Hnd Hl eq_refl)
    as (<- & Hd' & <-). injection Hd' as <-.
  rewrite Hty in Hacc. split; [exact Hacc|].
  split; [rewrite Hview', Hl'; reflexivity|].
  rewrite Hst'. cbn [stats_hit hits misses]. split; reflexivity.
Qed.

Lemma reaccess_hits_witness :
  let g := set_global_values [Opt_s 1; Opt_E 2; Opt_b 1] in
  let trace := [TraceLine "L" 0 1; TraceLine "L" 8 1] in
  ∃ types m v keep d m',
    run g (trace ++ [TraceLine "S" 16 1]) (init g) = Some (types, m) ∧
    cache_view m = Some v ∧
    v !! 0%nat = Some (keep ++ [(4, d)]) ∧
    (0 = 0 → d = 1) ∧
    access g (TraceLine "L" 17 1) m = Some (Z.of_nat (length keep), m') ∧
    cache_view m'
    = Some (<[0%nat := keep ++ [(4, if (1 =? 0) && (d =? 0) then 1 else d)]]> v) ∧
    hits (stats m') = hits (stats m) + 1 ∧
    misses (stats m') = misses (stats m).
Proof.
  apply (reaccess_hits [Opt_s 1; Opt_E 2; Opt_b 1]
           [TraceLine "L" 0 1; TraceLine "L" 8 1] (TraceLine "S" 16 1) (TraceLine "L" 17 1)).
  - reflexivity.
  - left. vm_compute. discriminate.
  - reflexivity.
  - reflexivity.
Defined.

(** ** The order of every set *)

(** X11.  As long as [line_count] has not overflowed, in every state
    a run reaches every resident line has been referenced by the
    trace, and the lines of every set stand in the order of their last
    reference, the least recently referenced first. *)
Theorem sets_in_lru_order (argv : list cli_opt) (trace : list trace_line) :
  let g := set_global_values argv in
  0 < total_sets g →
  1 <= E g ∨ Z.of_nat (length trace) <= INT_MAX →
  ∃ types m v,
    run g trace (init g) = Some (types, m) ∧
    cache_view m = Some v ∧
    ∀ i lines, v !! i = Some lines →
      Forall (λ e, is_Some (last_ref g trace (Z.of_nat i) e.1)) lines ∧
      StronglySorted (older g trace (Z.of_nat i)) lines.
Proof.
  intros g Hpos Hreg. pose proof (set_global_values_wf argv Hpos) as Hwf. fold g in Hwf.
  destruct (reachable argv trace Hpos) as (m & Hrun & _ & _ & _ & Hview).
  fold g in Hrun, Hview.
  pose proof (l_run_exact g trace (E_is_int argv) Hreg) as Hex.
  pose proof (l_run_lru g trace Hwf (E_is_int argv) Hreg) as Hlru.
  rewrite (exact_inv_views g _ _ Hex) in Hview.
  eexists _, m, _. split; [exact Hrun|]. split; [exact Hview|].
  intros i lines Hi. rewrite list_lookup_fmap in Hi.
  destruct (l_sets (l_run g trace (l_init g)).2 !! i) as [ls|] eqn:Hls; [|discriminate].
  injection Hi as <-. exact (Hlru i ls Hls).
Qed.

Lemma sets_in_lru_order_witness :
  let g := set_global_values [Opt_s 1; Opt_E 2; Opt_b 1] in
  let trace := [TraceLine "L" 0 1; TraceLine "S" 8 1; TraceLine "L" 0 1; TraceLine "L" 2 1] in
  ∃ types m v,
    run g trace (init g) = Some (types, m) ∧
    cache_view m = Some v ∧
    ∀ i lines, v !! i = Some lines →
      Forall (λ e, is_Some (last_ref g trace (Z.of_nat i) e.1)) lines ∧
      StronglySorted (older g trace (Z.of_nat i)) lines.
Proof.
  apply (sets_in_lru_order [Opt_s 1; Opt_E 2; Opt_b 1]).
  - reflexivity.
  - left. vm_compute. discriminate.
Defined.

(** X12.  The first access to a line is a miss: if the trace so far
    has no access with the same set index and tag, the access is a
    cold or a capacity miss and counts one miss. *)
Theorem first_reference_misses (argv : list cli_opt) (trace : list trace_line)
        (ln : trace_line) :
  let g := set_global_values argv in
  let tg := (parsing_line g ln).1.2 in
  let set_num := (parsing_line g ln).2 in
  0 < total_sets g →
  1 <= E g ∨ Z.of_nat (length trace) < INT_MAX →
  last_ref g trace set_num tg = None →
  ∃ types m type m',
    run g trace (init g) = Some (types, m) ∧
    access g ln m = Some (type, m') ∧
    (type = COLD_MISS_TYPE ∨ type = CAPACITY_MISS_TYPE) ∧
    misses (stats m') = misses (stats m) + 1 ∧
    hits (stats m') = hits (stats m).
Proof.
  intros g tg set_num Hpos Hreg Hnone.
  pose proof (set_global_values_wf argv Hpos) as Hwf. fold g in Hwf.
  destruct (access_step argv trace ln Hpos Hreg)
    as (m & m' & ls & lines' & Hrun & _ & _ & Hls & Hacc & _ & Hstep).
  fold g in Hrun, Hls, Hacc, Hstep. fold tg set_num in Hls, Hstep.
  pose proof (l_run_lru g trace Hwf (E_is_int argv) ltac:(lia)) as Hlru.
  destruct (Hlru _ _ Hls) as [Hsome _].
  pose proof (set_num_in_range g ln Hwf) as Hrange. fold set_num in Hrange.
  rewrite Z2Nat.id in Hsome by lia.
  eexists _, m, _, m'. split; [exact Hrun|]. split; [exact Hacc|].
  destruct Hstep as [(Hty & _ & _ & _ & ->)|[(Hty & _ & _ & victim & rest & _ & _ & ->)|
                     (l1 & d & l2 & Hl & _)]].
  - split; [left; exact Hty|]. cbn [stats_cold misses hits]. split; reflexivity.
  - split; [right; exact Hty|]. cbn [stats_capacity misses hits]. split; reflexivity.
  - exfalso. rewrite Hl in Hsome. apply Forall_app in Hsome as [_ Hsome].
    apply Forall_cons in Hsome as [[t Ht] _]. cbn [fst] in Ht. congruence.
Qed.

Lemma first_reference_misses_witness :
  let g := set_global_values [Opt_s 1; Opt_E 2; Opt_b 1] in
  let trace := [TraceLine "L" 0 1; TraceLine "S" 8 1] in
  ∃ types m type m',
    run g trace (init g) = Some (types, m) ∧
    access g (TraceLine "L" 2 1) m = Some (type, m') ∧
    (type = COLD_MISS_TYPE ∨ type = CAPACITY_MISS_TYPE) ∧
    misses (stats m') = misses (stats m) + 1 ∧
    hits (stats m') = hits (stats m).
Proof.
  apply (first_reference_misses [Opt_s 1; Opt_E 2; Opt_b 1]
           [TraceLine "L" 0 1; TraceLine "S" 8 1] (TraceLine "L" 2 1)).
  - reflexivity.
  - left. vm_compute. discriminate.
  - reflexivity.
Defined.

(** ** Dirty bytes and stores *)

Lemma stores_cons (ln : trace_line) (trace : list trace_line) :
  stores (ln :: trace) = (if Ascii.eqb (op ln) "S"%char then 1 else 0) + stores trace.
Proof.
  unfold stores. rewrite filter_cons.
  destruct (decide (Ascii.eqb (op ln) "S"%char = true)) as [->|Hn].
  - cbn [length]. lia.
  - destruct (Ascii.eqb (op ln) "S"%char); [congruence|]. lia.
Qed.

Lemma stores_nonneg (trace : list trace_line) : 0 <= stores trace.
Proof. unfold stores. lia. Qed.

(** What one access does to the two dirty counters, whatever the
    state of the set. *)
Lemma l_access_dirty_traffic (g : globals) (ln : trace_line) (a : lstate) :
  0 <= total_bytes g →
  let st := l_stats a in
  let st' := l_stats (l_access g ln a).2 in
  dirty_bytes st' + dirty_evictions st'
  <= dirty_bytes st + dirty_evictions st
     + total_bytes g * (if Ascii.eqb (op ln) "S"%char then 1 else 0) ∧
  ∃ k, dirty_evictions st' = dirty_evictions st + total_bytes g * k ∧
       0 <= k ∧ k <= evictions st' - evictions st.
Proof.
  intros Htb. cbv zeta. unfold l_access, parsing_line.
  destruct (l_sets a !! _) as [ls|]; cbn [snd l_stats].
  - unfold l_apply.
    destruct (l_miss_type g ls _ =? COLD_MISS_TYPE);
      [|destruct (l_miss_type g ls _ =? CAPACITY_MISS_TYPE)];
      cbn [snd l_stats stats_cold stats_capacity stats_hit dirty_bytes dirty_evictions evictions].
    + split; [destruct (Ascii.eqb (op ln) "S"%char); cbn; lia|]. exists 0. lia.
    + split.
      * destruct (Ascii.eqb (op ln) "S"%char); destruct (_ =? 1); cbn; lia.
      * destruct (_ =? 1); [exists 1|exists 0]; lia.
    + split; [|exists 0; lia].
      destruct (Ascii.eqb (op ln) "S"%char); cbn; [destruct (_ =? 0)|]; lia.
  - split; [destruct (Ascii.eqb (op ln) "S"%char); lia|]. exists 0. lia.
Qed.

Lemma l_run_dirty_traffic (g : globals) (trace : list trace_line) (a : lstate) :
  0 <= total_bytes g →
  let st := l_stats a in
  let st' := l_stats (l_run g trace a).2 in
  dirty_bytes st' + dirty_evictions st'
  <= dirty_bytes st + dirty_evictions st + total_bytes g * stores trace ∧
  ∃ k, dirty_evictions st' = dirty_evictions st + total_bytes g * k ∧
       0 <= k ∧ k <= evictions st' - evictions st.
Proof.
  intros Htb. cbv zeta. revert a. induction trace as [|ln trace IH]; intros a.
  - cbn [l_run snd]. split; [unfold stores; cbn; lia|]. exists 0. lia.
  - cbn [l_run]. pose proof (l_access_dirty_traffic g ln a Htb) as Hstep. cbv zeta in Hstep.
    destruct (l_access g ln a) as [type a1]. cbn [snd] in Hstep.
    specialize (IH a1). destruct (l_run g trace a1) as [types a2]. cbn [snd] in *.
    destruct Hstep as (Hs1 & k1 & Hk1 & Hk1a & Hk1b).
    destruct IH as (Hs2 & k2 & Hk2 & Hk2a & Hk2b).
    rewrite stores_cons. split; [lia|]. exists (k1 + k2). lia.
Qed.

Lemma total_bytes_pow (argv : list cli_opt) :
  let g := set_global_values argv in
  -30 <= b g <= 30 → total_bytes g = 2 ^ Z.abs (b g) ∧ 0 < total_bytes g.
Proof.
  intros g Hb. subst g. unfold set_global_values in *. cbn [b total_bytes] in *.
  rewrite pow2_small by exact Hb. split; [reflexivity|]. apply Z.pow_pos_nonneg; lia.
Qed.

(** X13.  With lines of [2^|b|] bytes, the bytes counted as written
    back are a whole number of lines, at most one line for every
    eviction, and the bytes counted as dirty or written back together
    never exceed one line for every store of the trace. *)
Theorem dirty_traffic_bounded_by_stores (argv : list cli_opt) (trace : list trace_line) :
  let g := set_global_values argv in
  let line_size := 2 ^ Z.abs (b g) in
  0 < total_sets g → -30 <= b g <= 30 →
  ∃ types m k,
    run g trace (init g) = Some (types, m) ∧
    dirty_evictions (stats m) = line_size * k ∧
    0 <= k <= evictions (stats m) ∧
    dirty_bytes (stats m) + dirty_evictions (stats m) <= line_size * stores trace.
Proof.
  intros g line_size Hpos Hb. pose proof (set_global_values_wf argv Hpos) as Hwf.
  fold g in Hwf.
  destruct (run_init g trace Hwf) as (m & Hrun & [nss Hrep] & _).
  destruct Hrep as (_ & _ & _ & _ & _ & Hst).
  destruct (total_bytes_pow argv Hb) as [Htb Htbpos]. fold g line_size in Htb, Htbpos.
  assert (Htb0 : 0 <= total_bytes g) by lia.
  pose proof (l_run_dirty_traffic g trace (l_init g) Htb0) as Htr. cbv zeta in Htr.
  destruct Htr as (Hsum & k & Hk & Hk0 & Hk1).
  rewrite Hst, Htb in Hsum, Hk. rewrite Hst in Hk1.
  cbn [l_init l_stats dirty_bytes dirty_evictions evictions] in Hsum, Hk, Hk1.
  exists (l_run g trace (l_init g)).1, m, k.
  split; [exact Hrun|]. split; [lia|]. split; [lia|lia].
Qed.

Lemma dirty_traffic_bounded_by_stores_witness :
  let g := set_global_values [Opt_s 0; Opt_E 1; Opt_b 2] in
  let trace := [TraceLine "S" 0 1; TraceLine "L" 4 1; TraceLine "S" 8 1] in
  ∃ types m k,
    run g trace (init g) = Some (types, m) ∧
    dirty_evictions (stats m) = 4 * k ∧
    0 <= k <= evictions (stats m) ∧
    dirty_bytes (stats m) + dirty_evictions (stats m) <= 4 * stores trace.
Proof.
  apply (dirty_traffic_bounded_by_stores [Opt_s 0; Opt_E 1; Opt_b 2]).
  - reflexivity.
  - vm_compute. split; discriminate.
Defined.

(** ** Traces without stores *)

Lemma l_access_clean (g : globals) (ln : trace_line) (a : lstate) :
  Ascii.eqb (op ln) "S"%char = false → clean a → clean (l_access g ln a).2.
Proof.
  intros Hop (Hall & Hdb & Hde). unfold l_access, parsing_line. rewrite Hop.
  destruct (l_sets a !! _) as [ls|] eqn:Hls; [|split; auto].
  pose proof (Forall_lookup_1 _ _ _ _ Hall Hls) as Hl. cbv beta in Hl.
  assert (Hnew : ∀ tg, (new_entry 1 tg).2 = 0) by reflexivity.
  unfold l_apply.
  destruct (l_miss_type g ls _ =? COLD_MISS_TYPE);
    [|destruct (l_miss_type g ls _ =? CAPACITY_MISS_TYPE)];
    cbn [snd fst l_sets l_stats].
  - split; [|cbn; auto]. apply Forall_insert; [exact Hall|]. unfold l_cold.
    destruct (l_count ls =? 0); cbn [l_lines].
    + constructor; [apply Hnew|constructor].
    + apply Forall_app. split; [exact Hl|]. constructor; [apply Hnew|constructor].
  - split.
    + apply Forall_insert; [exact Hall|]. unfold l_capacity.
      destruct (l_count ls =? 1); cbn [l_lines].
      * constructor; [apply Hnew|constructor].
      * apply Forall_app. split; [|constructor; [apply Hnew|constructor]].
        revert Hl. destruct (l_lines ls) as [|e es]; intros Hl; [constructor|].
        apply Forall_cons in Hl as [_ Hl]. exact Hl.
    + assert (Hhd : (hd (0, 0) (l_lines ls)).2 = 0).
      { revert Hl. destruct (l_lines ls) as [|e es]; intros Hl; [reflexivity|].
        apply Forall_cons in Hl as [He _]. exact He. }
      rewrite Hhd. cbn. auto.
  - split; [|cbn; auto]. apply Forall_insert; [exact Hall|]. unfold l_hit. cbn [l_lines].
    apply Forall_app. split; [apply Forall_take; exact Hl|].
    apply Forall_app. split; [apply Forall_drop; exact Hl|].
    constructor; [|constructor]. unfold touch. cbn [snd Z.eqb andb].
    match goal with
    | |- (nth ?i ?l ?d).2 = 0 => destruct (nth_in_or_default i l d) as [Hin| ->]
    end; [|reflexivity].
    rewrite Forall_forall in Hl. apply Hl. apply list_elem_of_In. exact Hin.
Qed.

Lemma l_run_clean (g : globals) (trace : list trace_line) (a : lstate) :
  Forall (λ ln, Ascii.eqb (op ln) "S"%char = false) trace → clean a →
  clean (l_run g trace a).2.
Proof.
  intros Hops. revert a. induction Hops as [|ln trace Hop _ IH]; intros a Hc; [exact Hc|].
  cbn [l_run]. pose proof (l_access_clean g ln a Hop Hc) as Hc1.
  destruct (l_access g ln a) as [type a1]. cbn [snd] in Hc1.
  specialize (IH a1 Hc1). destruct (l_run g trace a1) as [types a2]. exact IH.
Qed.

(** X14.  A trace without stores leaves no line dirty: every line
    of every set has dirty bit 0, and [dirty_bytes] and
    [dirty_evictions] are 0 at its end. *)
Theorem loads_leave_nothing_dirty (argv : list cli_opt) (trace : list trace_line) :
  let g := set_global_values argv in
  0 < total_sets g →
  Forall (λ ln, op ln ≠ "S"%char) trace →
  ∃ types m v,
    run g trace (init g) = Some (types, m) ∧
    cache_view m = Some v ∧
    Forall (Forall (λ e : Z * Z, e.2 = 0)) v ∧
    dirty_bytes (stats m) = 0 ∧
    dirty_evictions (stats m) = 0.
Proof.
  intros g Hpos Hops.
  destruct (reachable argv trace Hpos) as (m & Hrun & [nss Hrep] & _ & _ & Hview).
  fold g in Hrun, Hrep, Hview.
  destruct Hrep as (_ & _ & _ & _ & _ & Hst).
  assert (Hops' : Forall (λ ln, Ascii.eqb (op ln) "S"%char = false) trace).
  { eapply Forall_impl; [exact Hops|]. intros ln Hne. apply Ascii.eqb_neq. exact Hne. }
  destruct (l_run_clean g trace (l_init g) Hops') as (Hall & Hdb & Hde).
  { split; [|split; reflexivity]. unfold l_init. cbn [l_sets].
    apply Forall_replicate. constructor. }
  eexists _, m, _. split; [exact Hrun|]. split; [exact Hview|].
  rewrite <- Hst. split; [|split; assumption].
  apply Forall_fmap. eapply Forall_impl; [exact Hall|].
  intros ls Hl. cbn. unfold l_view. apply Forall_take. exact Hl.
Qed.

Lemma loads_leave_nothing_dirty_witness :
  let g := set_global_values [Opt_s 1; Opt_E 1; Opt_b 1] in
  let trace := [TraceLine "L" 0 1; TraceLine "I" 8 1; TraceLine "M" 0 1] in
  ∃ types m v,
    run g trace (init g) = Some (types, m) ∧
    cache_view m = Some v ∧
    Forall (Forall (λ e : Z * Z, e.2 = 0)) v ∧
    dirty_bytes (stats m) = 0 ∧
    dirty_evictions (stats m) = 0.
Proof.
  apply (loads_leave_nothing_dirty [Opt_s 1; Opt_E 1; Opt_b 1]).
  - reflexivity.
  - repeat constructor; discriminate.
Defined.

(** ** The capacity of the cache *)

Lemma concat_length_bound {A} (v : list (list A)) (n : Z) :
  Forall (λ l, Z.of_nat (length l) <= n) v →
  Z.of_nat (length (concat v)) <= n * Z.of_nat (length v).
Proof.
  induction 1 as [|l v Hl _ IH]; cbn [concat length]; [lia|].
  rewrite length_app. lia.
Qed.

Lemma count_dirty_bound (es : list (Z * Z)) :
  0 <= count_dirty es <= Z.of_nat (length es).
Proof.
  unfold count_dirty. pose proof (length_filter (λ e, is_dirty e = true) es). lia.
Qed.

(** X15.  With [E >= 1] the cache never holds more than [E] lines
    for each of its sets, and [dirty_bytes] lies between 0 and the
    bytes of the lines it holds, hence within the capacity
    [E * total_sets * 2^|b|] of the cache. *)
Theorem capacity_bounds (argv : list cli_opt) (trace : list trace_line) :
  let g := set_global_values argv in
  let line_size := 2 ^ Z.abs (b g) in
  0 < total_sets g → 1 <= E g → -30 <= b g <= 30 →
  ∃ types m v,
    run g trace (init g) = Some (types, m) ∧
    cache_view m = Some v ∧
    occupancy v <= E g * total_sets g ∧
    0 <= dirty_bytes (stats m) <= line_size * occupancy v ∧
    dirty_bytes (stats m) <= line_size * E g * total_sets g.
Proof.
  intros g line_size Hpos HE Hb.
  destruct (reachable argv trace Hpos) as (m & Hrun & [nss Hrep] & _ & _ & Hview).
  fold g in Hrun, Hrep, Hview.
  destruct Hrep as (_ & _ & _ & _ & _ & Hst).
  pose proof (l_run_exact g trace (E_is_int argv) (or_introl HE)) as Hex.
  rewrite (exact_inv_views g _ _ Hex) in Hview.
  destruct Hex as [Hall Hdb].
  destruct (total_bytes_pow argv Hb) as [Htb Htbpos]. fold g line_size in Htb, Htbpos.
  pose proof (l_run_length g trace (l_init g)) as Hlen. rewrite init_length in Hlen.
  set (a := (l_run g trace (l_init g)).2) in *.
  assert (Hocc : occupancy (l_lines <$> l_sets a) <= E g * total_sets g).
  { unfold occupancy.
    replace (total_sets g) with (Z.of_nat (length (l_lines <$> l_sets a)))
      by (rewrite length_fmap, Hlen; lia).
    apply concat_length_bound. apply Forall_fmap.
    eapply Forall_impl; [exact Hall|]. intros ls (_ & Hle & _). cbn. auto. }
  pose proof (count_dirty_bound (concat (l_lines <$> l_sets a))) as Hcd.
  fold (dirty_lines (l_lines <$> l_sets a)) in Hcd.
  fold (occupancy (l_lines <$> l_sets a)) in Hcd.
  eexists _, m, _. split; [exact Hrun|]. split; [exact Hview|].
  rewrite <- Hst, Hdb, Htb. split; [exact Hocc|]. split; [nia|nia].
Qed.

Lemma capacity_bounds_witness :
  let g := set_global_values [Opt_s 1; Opt_E 2; Opt_b 3] in
  let trace := [TraceLine "S" 0 1; TraceLine "S" 16 1; TraceLine "S" 32 1; TraceLine "S" 8 1] in
  ∃ types m v,
    run g trace (init g) = Some (types, m) ∧
    cache_view m = Some v ∧
    occupancy v <= E g * total_sets g ∧
    0 <= dirty_bytes (stats m) <= 8 * occupancy v ∧
    dirty_bytes (stats m) <= 8 * E g * total_sets g.
Proof.
  apply (capacity_bounds [Opt_s 1; Opt_E 2; Opt_b 3]).
  - reflexivity.
  - vm_compute. discriminate.
  - vm_compute. split; discriminate.
Defined.

(** ** Accesses to different sets *)

Lemma l_apply_set_only (g : globals) (is_load tg type : Z) (ls : lset)
      (st1 st2 : csim_stats_t) :
  (l_apply g is_load tg type ls st1).1 = (l_apply g is_load tg type ls st2).1.
Proof.
  unfold l_apply. destruct (type =? COLD_MISS_TYPE); [reflexivity|].
  destruct (type =? CAPACITY_MISS_TYPE); reflexivity.
Qed.

Lemma l_apply_stats_commute (g : globals) (il1 tg1 ty1 : Z) (ls1 : lset)
      (il2 tg2 ty2 : Z) (ls2 : lset) (st : csim_stats_t) :
  (l_apply g il2 tg2 ty2 ls2 (l_apply g il1 tg1 ty1 ls1 st).2).2
  = (l_apply g il1 tg1 ty1 ls1 (l_apply g il2 tg2 ty2 ls2 st).2).2.
Proof.
  unfold l_apply.
  destruct (ty1 =? COLD_MISS_TYPE); [|destruct (ty1 =? CAPACITY_MISS_TYPE)];
    (destruct (ty2 =? COLD_MISS_TYPE); [|destruct (ty2 =? CAPACITY_MISS_TYPE)]);
    cbn [snd]; unfold stats_cold, stats_capacity, stats_hit;
    cbn [hits misses evictions dirty_bytes dirty_evictions];
    repeat match goal with |- context [if ?c then _ else _] => destruct c end;
    f_equal; lia.
Qed.

Lemma l_access_commute (g : globals) (ln1 ln2 : trace_line) (a : lstate) :
  (parsing_line g ln1).2 ≠ (parsing_line g ln2).2 →
  0 <= (parsing_line g ln1).2 → 0 <= (parsing_line g ln2).2 →
  (l_access g ln2 (l_access g ln1 a).2).1 = (l_access g ln2 a).1 ∧
  (l_access g ln1 (l_access g ln2 a).2).1 = (l_access g ln1 a).1 ∧
  (l_access g ln2 (l_access g ln1 a).2).2 = (l_access g ln1 (l_access g ln2 a).2).2.
Proof.
  intros Hne H1 H2.
  assert (Hn : Z.to_nat (parsing_line g ln1).2 ≠ Z.to_nat (parsing_line g ln2).2) by lia.
  destruct (l_sets a !! Z.to_nat (parsing_line g ln1).2) as [ls1|] eqn:Hls1;
    destruct (l_sets a !! Z.to_nat (parsing_line g ln2).2) as [ls2|] eqn:Hls2.
  - rewrite (l_access_view g ln1 a ls1 Hls1), (l_access_view g ln2 a ls2 Hls2).
    cbn [fst snd].
    erewrite (l_access_view g ln2 _ ls2)
      by (cbn [l_sets]; rewrite list_lookup_insert_ne by exact Hn; exact Hls2).
    erewrite (l_access_view g ln1 _ ls1)
      by (cbn [l_sets]; rewrite list_lookup_insert_ne by (apply not_eq_sym; exact Hn);
          exact Hls1).
    cbn [fst snd l_sets l_stats]. split; [reflexivity|]. split; [reflexivity|].
    f_equal.
    + rewrite list_insert_insert_ne by (apply not_eq_sym; exact Hn). f_equal.
      * apply l_apply_set_only.
      * f_equal. apply l_apply_set_only.
    + apply l_apply_stats_commute.
  - assert (Ha2 : ∀ a', l_sets a' !! Z.to_nat (parsing_line g ln2).2 = None →
                        l_access g ln2 a' = (0, a')).
    { intros a' Hl. unfold l_access. destruct (parsing_line g ln2) as [[il tg] sn].
      cbn [snd] in Hl. rewrite Hl. reflexivity. }
    rewrite (Ha2 a Hls2). cbn [fst snd].
    rewrite (Ha2 (l_access g ln1 a).2). { auto. }
    rewrite (l_access_view g ln1 a ls1 Hls1). cbn [snd l_sets].
    rewrite list_lookup_insert_ne by exact Hn. exact Hls2.
  - assert (Ha1 : ∀ a', l_sets a' !! Z.to_nat (parsing_line g ln1).2 = None →
                        l_access g ln1 a' = (0, a')).
    { intros a' Hl. unfold l_access. destruct (parsing_line g ln1) as [[il tg] sn].
      cbn [snd] in Hl. rewrite Hl. reflexivity. }
    rewrite (Ha1 a Hls1). cbn [fst snd].
    rewrite (Ha1 (l_access g ln2 a).2). { auto. }
    rewrite (l_access_view g ln2 a ls2 Hls2). cbn [snd l_sets].
    rewrite list_lookup_insert_ne by (apply not_eq_sym; exact Hn). exact Hls1.
  - assert (Ha : ∀ ln, l_sets a !! Z.to_nat (parsing_line g ln).2 = None →
                       l_access g ln a = (0, a)).
    { intros ln Hl. unfold l_access. destruct (parsing_line g ln) as [[il tg] sn].
      cbn [snd] in Hl. rewrite Hl. reflexivity. }
    rewrite (Ha ln1 Hls1), (Ha ln2 Hls2). cbn [fst snd].
    rewrite (Ha ln1 Hls1), (Ha ln2 Hls2). auto.
Qed.

Lemma l_run_two (g : globals) (trace : list trace_line) (ln1 ln2 : trace_line) (a0 : lstate) :
  l_run g (trace ++ [ln1; ln2]) a0
  = ((l_run g trace a0).1
       ++ [(l_access g ln1 (l_run g trace a0).2).1;
           (l_access g ln2 (l_access g ln1 (l_run g trace a0).2).2).1],
     (l_access g ln2 (l_access g ln1 (l_run g trace a0).2).2).2).
Proof.
  replace (trace ++ [ln1; ln2]) with ((trace ++ [ln1]) ++ [ln2])
    by (rewrite <- app_assoc; reflexivity).
  rewrite !l_run_snoc. destruct (l_run g trace a0) as [types a]. cbn [fst snd].
  destruct (l_access g ln1 a) as [t1 a1]. cbn [fst snd].
  destruct (l_access g ln2 a1) as [t2 a2]. cbn [fst snd].
  rewrite <- app_assoc. reflexivity.
Qed.

(** X16.  Accesses to different sets do not interfere: two
    consecutive accesses with different set indices can be swapped
    without changing the type of either, the lines of any set or any
    counter. *)
Theorem different_sets_commute (argv : list cli_opt) (trace : list trace_line)
        (ln1 ln2 : trace_line) :
  let g := set_global_values argv in
  0 < total_sets g →
  (parsing_line g ln1).2 ≠ (parsing_line g ln2).2 →
  ∃ types t1 t2 m12 m21 v,
    run g (trace ++ [ln1; ln2]) (init g) = Some (types ++ [t1; t2], m12) ∧
    run g (trace ++ [ln2; ln1]) (init g) = Some (types ++ [t2; t1], m21) ∧
    cache_view m12 = Some v ∧
    cache_view m21 = Some v ∧
    stats m12 = stats m21.
Proof.
  intros g Hpos Hne. pose proof (set_global_values_wf argv Hpos) as Hwf. fold g in Hwf.
  destruct (reachable argv (trace ++ [ln1; ln2]) Hpos)
    as (m12 & Hrun12 & [nss12 Hrep12] & _ & _ & Hview12).
  destruct (reachable argv (trace ++ [ln2; ln1]) Hpos)
    as (m21 & Hrun21 & [nss21 Hrep21] & _ & _ & Hview21).
  fold g in Hrun12, Hrep12, Hview12, Hrun21, Hrep21, Hview21.
  destruct Hrep12 as (_ & _ & _ & _ & _ & Hst12).
  destruct Hrep21 as (_ & _ & _ & _ & _ & Hst21).
  rewrite l_run_two in Hrun12, Hview12, Hst12.
  rewrite l_run_two in Hrun21, Hview21, Hst21.
  cbn [fst snd] in *.
  set (a := (l_run g trace (l_init g)).2) in *.
  destruct (l_access_commute g ln1 ln2 a Hne
              (proj1 (set_num_in_range g ln1 Hwf)) (proj1 (set_num_in_range g ln2 Hwf)))
    as (Ht2 & Ht1 & Hsame).
  rewrite Ht2 in Hrun12. rewrite Ht1 in Hrun21.
  rewrite <- Hsame in Hview21, Hst21.
  eexists _, _, _, m12, m21, _.
  split; [exact Hrun12|]. split; [exact Hrun21|]. split; [exact Hview12|].
  split; [exact Hview21|]. congruence.
Qed.

Lemma different_sets_commute_witness :
  let g := set_global_values [Opt_s 1; Opt_E 1; Opt_b 1] in
  let trace := [TraceLine "S" 0 1; TraceLine "L" 2 1] in
  ∃ types t1 t2 m12 m21 v,
    run g (trace ++ [TraceLine "S" 8 1; TraceLine "L" 10 1]) (init g)
    = Some (types ++ [t1; t2], m12) ∧
    run g (trace ++ [TraceLine "L" 10 1; TraceLine "S" 8 1]) (init g)
    = Some (types ++ [t2; t1], m21) ∧
    cache_view m12 = Some v ∧
    cache_view m21 = Some v ∧
    stats m12 = stats m21.
Proof.
  apply (different_sets_commute [Opt_s 1; Opt_E 1; Opt_b 1]
           [TraceLine "S" 0 1; TraceLine "L" 2 1] (TraceLine "S" 8 1) (TraceLine "L" 10 1)).
  - reflexivity.
  - vm_compute. discriminate.
Defined.

(** ** The shape of the chains *)

Lemma get_line_loop_end (m : machine) (p q : ptr) (ns : list (loc * (Z * Z))) :
  lseg (heap m) p q ns → get_line_loop p (length ns) m = Some (q, m).
Proof.
  revert p. induction ns as [|n ns IH]; intros p Hs.
  - simpl in Hs. subst p. reflexivity.
  - simpl in Hs. destruct Hs as (-> & ln & Hl & _ & Hs).
    cbn [length get_line_loop]. unfold bind, load_line. rewrite Hl. apply IH. exact Hs.
Qed.

(** X17.  As long as [line_count] has not overflowed, every set is
    a well-formed chain: following [next] from [first_line] for
    [line_count] steps ends at [NULL]; [get_line] at a position below
    [line_count] returns, without changing anything, the allocated
    line whose tag and dirty bit [cache_view] shows at that position;
    and [last_line] is the line at the last position, whose [next] is
    [NULL]. *)
Theorem chains_are_well_formed (argv : list cli_opt) (trace : list trace_line) :
  let g := set_global_values argv in
  0 < total_sets g →
  1 <= E g ∨ Z.of_nat (length trace) <= INT_MAX →
  ∃ types m v,
    run g trace (init g) = Some (types, m) ∧
    cache_view m = Some v ∧
    ∀ i st lines, sets m !! i = Some st → v !! i = Some lines →
      line_count st = Z.of_nat (length lines) ∧
      get_line st (line_count st) m = Some (NULL, m) ∧
      (lines = [] → first_line st = NULL) ∧
      ∀ pos e, lines !! pos = Some e →
        ∃ l ln, get_line st (Z.of_nat pos) m = Some (Some l, m) ∧
                heap m !! l = Some ln ∧
                (tag ln, dirty_bit ln) = e ∧
                (S pos = length lines → last_line st = Some l ∧ next ln = NULL).
Proof.
  intros g Hpos Hreg. pose proof (set_global_values_wf argv Hpos) as Hwf. fold g in Hwf.
  destruct (reachable argv trace Hpos) as (m & Hrun & [nss Hrep] & _ & _ & Hview).
  fold g in Hrun, Hrep, Hview.
  pose proof (l_run_exact g trace (E_is_int argv) Hreg) as Hex.
  rewrite (exact_inv_views g _ _ Hex) in Hview. destruct Hex as [Hall _].
  set (a := (l_run g trace (l_init g)).2) in *.
  destruct Hrep as (Hl1 & Hl2 & Hsets & _).
  eexists _, m, _. split; [exact Hrun|]. split; [exact Hview|].
  intros i st lines Hst Hlines. rewrite list_lookup_fmap in Hlines.
  destruct (l_sets a !! i) as [ls|] eqn:Hls; [|discriminate]. injection Hlines as <-.
  destruct (lookup_lt_is_Some_2 nss i) as [ns Hns];
    [rewrite <- Hl1; eapply lookup_lt_Some; exact Hst|].
  destruct (Hsets i st ns ls Hst Hns Hls) as (Hs & Hlast & Hnd & Hc & Hl).
  destruct (Forall_lookup_1 _ _ _ _ Hall Hls) as (Hcnt & _).
  assert (Hlen : line_count st = Z.of_nat (length ns)).
  { rewrite <- Hc, Hcnt, Hl, length_fmap. reflexivity. }
  split; [rewrite Hl, length_fmap; exact Hlen|]. split; [|split].
  - unfold get_line. rewrite Hlen, Nat2Z.id. apply get_line_loop_end. exact Hs.
  - intros Hnil. rewrite Hl in Hnil. apply fmap_nil_inv in Hnil. subst ns. exact Hs.
  - intros pos e He. rewrite Hl, list_lookup_fmap in He.
    destruct (ns !! pos) as [[l e']|] eqn:Hpos'; [|discriminate].
    cbn in He. injection He as ->.
    pose proof (take_drop_middle ns pos (l, e) Hpos') as Hsplit.
    assert (Htl : length (take pos ns) = pos).
    { rewrite length_take. apply lookup_lt_Some in Hpos'. lia. }
    rewrite <- Hsplit in Hs.
    pose proof Hs as Hs'. apply lseg_app in Hs' as (r & _ & Hmid).
    simpl in Hmid. destruct Hmid as (_ & ln & Hln & Htag & Hrest).
    exists l, ln. split; [|split; [exact Hln|split; [exact Htag|]]].
    + unfold get_line. rewrite Nat2Z.id. rewrite <- Htl at 1.
      rewrite (get_line_loop_lseg m _ _ (take pos ns) ((l, e) :: drop (S pos) ns) Hs
                 ltac:(discriminate)). reflexivity.
    + intros Hend. rewrite Hl, length_fmap in Hend.
      assert (Hdrop : drop (S pos) ns = []).
      { apply drop_ge. lia. }
      rewrite Hdrop in Hrest, Hsplit. simpl in Hrest. split; [|exact Hrest].
      rewrite Hlast, <- Hsplit, fmap_app. apply last_snoc.
Qed.

Lemma chains_are_well_formed_witness :
  let g := set_global_values [Opt_s 0; Opt_E 3; Opt_b 0] in
  let trace := [TraceLine "L" 5 1; TraceLine "S" 6 1; TraceLine "L" 5 1] in
  ∃ types m v,
    run g trace (init g) = Some (types, m) ∧
    cache_view m = Some v ∧
    ∀ i st lines, sets m !! i = Some st → v !! i = Some lines →
      line_count st = Z.of_nat (length lines) ∧
      get_line st (line_count st) m = Some (NULL, m) ∧
      (lines = [] → first_line st = NULL) ∧
      ∀ pos e, lines !! pos = Some e →
        ∃ l ln, get_line st (Z.of_nat pos) m = Some (Some l, m) ∧
                heap m !! l = Some ln ∧
                (tag ln, dirty_bit ln) = e ∧
                (S pos = length lines → last_line st = Some l ∧ next ln = NULL).
Proof.
  apply (chains_are_well_formed [Opt_s 0; Opt_E 3; Opt_b 0]).
  - reflexivity.
  - left. vm_compute. discriminate.
Defined.

(** ** More lines per set never lose a hit *)

Lemma NoDup_split_unique {A} (l1 l2 l1' l2' : list A) (x : A) :
  NoDup (l1 ++ x :: l2) → l1 ++ x :: l2 = l1' ++ x :: l2' → l1 = l1' ∧ l2 = l2'.
Proof.
  revert l1'. induction l1 as [|y l1 IH]; intros l1' Hnd Heq.
  - destruct l1' as [|y' l1']; cbn in Heq.
    + injection Heq as ->. auto.
    + injection Heq as -> ->. exfalso. apply NoDup_cons in Hnd as [Hn _].
      apply Hn. apply elem_of_app. right. left.
  - destruct l1' as [|y' l1']; cbn in Heq.
    + injection Heq as -> <-. exfalso. cbn in Hnd. apply NoDup_cons in Hnd as [Hn _].
      apply Hn. apply elem_of_app. right. left.
    + injection Heq as <- Heq. cbn in Hnd. apply NoDup_cons in Hnd as [_ Hnd].
      destruct (IH l1' Hnd Heq) as (-> & ->). auto.
Qed.

Lemma split_before_suffix {A} (a c k t : list A) (x : A) :
  a ++ x :: c = k ++ t → x ∉ t → ∃ k2, c = k2 ++ t.
Proof.
  revert a. induction k as [|y k IH]; intros a Heq Hx.
  - exfalso. apply Hx. cbn in Heq. rewrite <- Heq. apply elem_of_app. right. left.
  - destruct a as [|y' a]; cbn in Heq.
    + injection Heq as _ ->. exists k. reflexivity.
    + injection Heq as _ Heq. exact (IH a Heq Hx).
Qed.

(** One access to corresponding sets of the two caches. *)
Lemma is_step_included (g1 g2 : globals) (is_load tg : Z) (lines1 lines2 : list (Z * Z))
      (st1 st2 : csim_stats_t) (t1 t2 : Z) (lines1' lines2' : list (Z * Z))
      (st1' st2' : csim_stats_t) :
  is_step g1 is_load tg lines1 st1 t1 lines1' st1' →
  is_step g2 is_load tg lines2 st2 t2 lines2' st2' →
  lines1.*1 `suffix_of` lines2.*1 → NoDup lines2.*1 →
  Z.of_nat (length lines1) <= E g1 → E g1 <= E g2 →
  lines1'.*1 `suffix_of` lines2'.*1 ∧ (0 <= t1 → 0 <= t2).
Proof.
  intros H1 H2 [k Hk] Hnd Hle1 HE.
  destruct H2 as [(Ht2 & Hnin2 & Hroom2 & -> & _)|
                  [(Ht2 & Hnin2 & Hfull2 & v2 & rest2 & Hl2 & -> & _)|
                   (a2 & d2 & c2 & Hl2 & Ht2 & -> & _)]].
  - (* the larger cache appends *)
    destruct H1 as [(Ht1 & _ & _ & -> & _)|[(Ht1 & _ & _ & v1 & rest1 & Hl1 & -> & _)|
                    (a1 & d1 & c1 & Hl1 & _)]].
    + split; [|rewrite Ht1; unfold COLD_MISS_TYPE; lia].
      exists k. rewrite !fmap_app, Hk, app_assoc. reflexivity.
    + split; [|rewrite Ht1; unfold CAPACITY_MISS_TYPE; lia].
      exists (k ++ [v1.1]). rewrite !fmap_app, Hk, Hl1, fmap_cons, <- !app_assoc.
      reflexivity.
    + exfalso. apply Hnin2. rewrite Hk, Hl1, fmap_app, fmap_cons.
      apply elem_of_app. right. apply elem_of_app. right. left.
  - (* the larger cache evicts *)
    rewrite Hl2, fmap_cons in Hk.
    destruct H1 as [(Ht1 & _ & Hroom1 & -> & _)|[(Ht1 & _ & _ & v1 & rest1 & Hl1 & -> & _)|
                    (a1 & d1 & c1 & Hl1 & _)]].
    + split; [|rewrite Ht1; unfold COLD_MISS_TYPE; lia].
      destruct k as [|y k]; cbn in Hk.
      * exfalso. assert (Hlen : length lines1 = length lines2).
        { rewrite <- (length_fmap fst lines1), <- Hk, Hl2. cbn [length].
          rewrite length_fmap. reflexivity. }
        destruct Hroom1 as [->|Hne]; [discriminate|]. lia.
      * injection Hk as _ Hk. exists k. rewrite !fmap_app, Hk, app_assoc. reflexivity.
    + split; [|rewrite Ht1; unfold CAPACITY_MISS_TYPE; lia].
      rewrite Hl1, fmap_cons in Hk. destruct k as [|y k]; cbn in Hk.
      * injection Hk as _ Hk. exists []. rewrite !fmap_app, Hk. reflexivity.
      * injection Hk as _ Hk. exists (k ++ [v1.1]).
        rewrite !fmap_app, Hk, <- !app_assoc. reflexivity.
    + exfalso. apply Hnin2. rewrite Hl2, fmap_cons, Hk, Hl1, fmap_app, fmap_cons.
      apply elem_of_app. right. apply elem_of_app. right. left.
  - (* the larger cache hits *)
    split; [|rewrite Ht2; lia].
    rewrite Hl2, fmap_app, fmap_cons in Hk, Hnd. cbn [fst] in Hk, Hnd.
    destruct H1 as [(_ & Hnin1 & _ & -> & _)|[(_ & Hnin1 & _ & v1 & rest1 & Hl1 & -> & _)|
                    (a1 & d1 & c1 & Hl1 & _ & -> & _)]].
    + destruct (split_before_suffix _ _ _ _ _ Hk Hnin1) as [k2 Hc].
      exists (a2.*1 ++ k2). rewrite !fmap_app, Hc, <- !app_assoc. reflexivity.
    + destruct (split_before_suffix _ _ _ _ _ Hk Hnin1) as [k2 Hc].
      rewrite Hl1, fmap_cons in Hc.
      exists (a2.*1 ++ k2 ++ [v1.1]). rewrite !fmap_app, Hc, <- !app_assoc. reflexivity.
    + rewrite Hl1, fmap_app, fmap_cons, app_assoc in Hk. cbn [fst] in Hk.
      destruct (NoDup_split_unique _ _ _ _ _ Hnd Hk) as [Ha Hc].
      exists k. rewrite !fmap_app, Ha, Hc, <- !app_assoc. reflexivity.
Qed.

Lemma parsing_line_same_geometry (g1 g2 : globals) (ln : trace_line) :
  s g1 = s g2 → b g1 = b g2 → set_mask g1 = set_mask g2 →
  parsing_line g1 ln = parsing_line g2 ln.
Proof. intros Hs Hb Hm. unfold parsing_line. rewrite Hs, Hb, Hm. reflexivity. Qed.

Lemma l_access_included (g1 g2 : globals) (n : nat) (ln : trace_line) (a1 a2 : lstate) :
  wf_globals g1 → wf_globals g2 →
  s g1 = s g2 → b g1 = b g2 → set_mask g1 = set_mask g2 →
  length (l_sets a1) = Z.to_nat (total_sets g1) →
  length (l_sets a2) = Z.to_nat (total_sets g2) →
  E g2 <= INT_MAX → 1 <= E g1 <= E g2 →
  exact_inv g1 n a1 → exact_inv g2 n a2 → included a1 a2 →
  included (l_access g1 ln a1).2 (l_access g2 ln a2).2 ∧
  (0 <= (l_access g1 ln a1).1 → 0 <= (l_access g2 ln a2).1).
Proof.
  intros Hwf1 Hwf2 Hs Hb Hm Hlen1 Hlen2 HE2 HE Hex1 Hex2 Hincl.
  destruct (l_access_step g1 n ln a1 Hwf1 Hlen1 ltac:(lia) ltac:(lia) Hex1)
    as (ls1 & lines1' & Hls1 & Hsets1 & Hstep1).
  destruct (l_access_step g2 n ln a2 Hwf2 Hlen2 HE2 ltac:(lia) Hex2)
    as (ls2 & lines2' & Hls2 & Hsets2 & Hstep2).
  rewrite <- (parsing_line_same_geometry g1 g2 ln Hs Hb Hm) in Hls2, Hsets2, Hstep2.
  pose proof (Forall2_lookup_lr _ _ _ _ _ _ Hincl Hls1 Hls2) as Hsuf. cbv beta in Hsuf.
  destruct (Forall_lookup_1 _ _ _ _ (proj1 Hex1) Hls1) as (_ & Hle1 & _).
  destruct (Forall_lookup_1 _ _ _ _ (proj1 Hex2) Hls2) as (_ & _ & _ & Hnd2 & _).
  destruct (is_step_included _ _ _ _ _ _ _ _ _ _ _ _ _ _ Hstep1 Hstep2 Hsuf Hnd2
              ltac:(apply Hle1; lia) ltac:(lia)) as [Hsuf' Hhit].
  split; [|exact Hhit]. unfold included. rewrite Hsets1, Hsets2.
  apply Forall2_insert; [exact Hincl|exact Hsuf'].
Qed.

Lemma l_run_included (g1 g2 : globals) (trace : list trace_line) :
  wf_globals g1 → wf_globals g2 →
  s g1 = s g2 → b g1 = b g2 → set_mask g1 = set_mask g2 →
  E g2 <= INT_MAX → 1 <= E g1 <= E g2 →
  ∀ (n : nat) (a1 a2 : lstate),
    length (l_sets a1) = Z.to_nat (total_sets g1) →
    length (l_sets a2) = Z.to_nat (total_sets g2) →
    exact_inv g1 n a1 → exact_inv g2 n a2 → included a1 a2 →
    included (l_run g1 trace a1).2 (l_run g2 trace a2).2 ∧
    Forall2 (λ t1 t2, 0 <= t1 → 0 <= t2) (l_run g1 trace a1).1 (l_run g2 trace a2).1.
Proof.
  intros Hwf1 Hwf2 Hs Hb Hm HE2 HE.
  induction trace as [|ln trace IH]; intros n a1 a2 Hlen1 Hlen2 Hex1 Hex2 Hincl.
  - cbn [l_run fst snd]. split; [exact Hincl|constructor].
  - cbn [l_run].
    destruct (l_access_included g1 g2 n ln a1 a2 Hwf1 Hwf2 Hs Hb Hm Hlen1 Hlen2 HE2 HE
                Hex1 Hex2 Hincl) as [Hincl1 Hhit].
    pose proof (l_access_exact g1 n ln a1 ltac:(lia) ltac:(lia) Hex1) as Hex1'.
    pose proof (l_access_exact g2 n ln a2 HE2 ltac:(lia) Hex2) as Hex2'.
    pose proof (l_access_length g1 ln a1) as Hl1.
    pose proof (l_access_length g2 ln a2) as Hl2.
    destruct (l_access g1 ln a1) as [t1 a1']. destruct (l_access g2 ln a2) as [t2 a2'].
    cbn [fst snd] in *.
    destruct (IH (S n) a1' a2' ltac:(congruence) ltac:(congruence) Hex1' Hex2' Hincl1)
      as [Hincl2 Hhits].
    destruct (l_run g1 trace a1') as [ts1 a1'']. destruct (l_run g2 trace a2') as [ts2 a2''].
    cbn [fst snd] in *. split; [exact Hincl2|]. constructor; assumption.
Qed.

Lemma count_hits_mono (types1 types2 : list Z) :
  Forall2 (λ t1 t2, 0 <= t1 → 0 <= t2) types1 types2 →
  count_kind is_hit types1 <= count_kind is_hit types2.
Proof.
  induction 1 as [|t1 t2 ts1 ts2 Hh _ IH]; [reflexivity|].
  rewrite !count_kind_cons. unfold is_hit at 1 3.
  destruct (0 <=? t1) eqn:H1; destruct (0 <=? t2) eqn:H2; lia.
Qed.

(** X18.  Two runs of the same trace on caches that differ only in
    the number of lines per set, [1 <= E1 <= E2]: at the end every
    set of the smaller cache holds the tags of the most recently used
    lines of the same set of the larger one, in the same order; every
    access that hits in the smaller cache hits in the larger one; so
    the larger cache counts at least as many hits and at most as many
    misses. *)
Theorem more_lines_never_lose_hits (argv1 argv2 : list cli_opt) (trace : list trace_line) :
  let g1 := set_global_values argv1 in
  let g2 := set_global_values argv2 in
  s g1 = s g2 → b g1 = b g2 → 0 < total_sets g1 → 1 <= E g1 <= E g2 →
  ∃ types1 m1 v1 types2 m2 v2,
    run g1 trace (init g1) = Some (types1, m1) ∧ cache_view m1 = Some v1 ∧
    run g2 trace (init g2) = Some (types2, m2) ∧ cache_view m2 = Some v2 ∧
    Forall2 (λ lines1 lines2 : list (Z * Z), lines1.*1 `suffix_of` lines2.*1) v1 v2 ∧
    Forall2 (λ t1 t2, 0 <= t1 → 0 <= t2) types1 types2 ∧
    hits (stats m1) <= hits (stats m2) ∧
    misses (stats m2) <= misses (stats m1).
Proof.
  intros g1 g2 Hs Hb Hpos1 HE.
  assert (Hts : total_sets g2 = total_sets g1).
  { unfold g1, g2, set_global_values in *. cbn [s total_sets] in *. rewrite Hs. reflexivity. }
  assert (Hpos2 : 0 < total_sets g2) by lia.
  pose proof (set_global_values_wf argv1 Hpos1) as Hwf1. fold g1 in Hwf1.
  pose proof (set_global_values_wf argv2 Hpos2) as Hwf2. fold g2 in Hwf2.
  assert (Hm : set_mask g1 = set_mask g2).
  { destruct Hwf1 as [_ ->]. destruct Hwf2 as [_ ->]. lia. }
  destruct (reachable argv1 trace Hpos1) as (m1 & Hrun1 & [nss1 Hrep1] & _ & _ & Hview1).
  destruct (reachable argv2 trace Hpos2) as (m2 & Hrun2 & [nss2 Hrep2] & _ & _ & Hview2).
  fold g1 in Hrun1, Hrep1, Hview1. fold g2 in Hrun2, Hrep2, Hview2.
  destruct Hrep1 as (_ & _ & _ & _ & _ & Hst1). destruct Hrep2 as (_ & _ & _ & _ & _ & Hst2).
  pose proof (l_run_exact g1 trace (E_is_int argv1) ltac:(lia)) as Hex1.
  pose proof (l_run_exact g2 trace (E_is_int argv2) ltac:(lia)) as Hex2.
  rewrite (exact_inv_views g1 _ _ Hex1) in Hview1.
  rewrite (exact_inv_views g2 _ _ Hex2) in Hview2.
  assert (Hincl0 : included (l_init g1) (l_init g2)).
  { unfold included, l_init. cbn [l_sets]. rewrite Hts.
    apply Forall2_replicate. exists []. reflexivity. }
  destruct (l_run_included g1 g2 trace Hwf1 Hwf2 Hs Hb Hm (E_is_int argv2) HE
              0%nat (l_init g1) (l_init g2) (init_length g1) (init_length g2)
              (init_exact g1) (init_exact g2) Hincl0) as [Hincl Hhits].
  pose proof (l_run_counts g1 trace (l_init g1) Hwf1 (init_length g1) (init_counted g1)) as Hc1.
  pose proof (l_run_counts g2 trace (l_init g2) Hwf2 (init_length g2) (init_counted g2)) as Hc2.
  cbv zeta in Hc1, Hc2.
  destruct Hc1 as (Hl1 & Hk1 & Hh1 & Hm1 & _). destruct Hc2 as (Hl2 & Hk2 & Hh2 & Hm2 & _).
  cbn [l_init l_stats hits misses] in Hh1, Hm1, Hh2, Hm2.
  pose proof (count_kinds_total _ Hk1) as Htot1. pose proof (count_kinds_total _ Hk2) as Htot2.
  pose proof (count_hits_mono _ _ Hhits) as Hmono.
  eexists _, m1, _, _, m2, _.
  split; [exact Hrun1|]. split; [exact Hview1|]. split; [exact Hrun2|]. split; [exact Hview2|].
  split; [apply Forall2_fmap; exact Hincl|]. split; [exact Hhits|].
  rewrite <- Hst1, <- Hst2. split; lia.
Qed.

Lemma more_lines_never_lose_hits_witness :
  let g1 := set_global_values [Opt_s 1; Opt_E 1; Opt_b 1] in
  let g2 := set_global_values [Opt_s 1; Opt_E 2; Opt_b 1] in
  let trace := [TraceLine "L" 0 1; TraceLine "L" 8 1; TraceLine "L" 0 1; TraceLine "S" 16 1] in
  ∃ types1 m1 v1 types2 m2 v2,
    run g1 trace (init g1) = Some (types1, m1) ∧ cache_view m1 = Some v1 ∧
    run g2 trace (init g2) = Some (types2, m2) ∧ cache_view m2 = Some v2 ∧
    Forall2 (λ lines1 lines2 : list (Z * Z), lines1.*1 `suffix_of` lines2.*1) v1 v2 ∧
    Forall2 (λ t1 t2, 0 <= t1 → 0 <= t2) types1 types2 ∧
    hits (stats m1) <= hits (stats m2) ∧
    misses (stats m2) <= misses (stats m1).
Proof.
  apply (more_lines_never_lose_hits [Opt_s 1; Opt_E 1; Opt_b 1] [Opt_s 1; Opt_E 2; Opt_b 1]).
  - reflexivity.
  - reflexivity.
  - reflexivity.
  - vm_compute. split; discriminate.
Defined.
(** ** Addresses and blocks *)

Lemma shiftr_split (a n : Z) :
  0 <= n →
  a = Z.shiftr a n * 2 ^ n + Z.land a (Z.shiftl 1 n - 1) ∧
  0 <= Z.land a (Z.shiftl 1 n - 1) < 2 ^ n.
Proof.
  intros Hn. rewrite Z.shiftl_1_l, Z.shiftr_div_pow2 by exact Hn.
  replace (2 ^ n - 1) with (Z.ones n) by (rewrite Z.ones_equiv; lia).
  rewrite Z.land_ones by exact Hn.
  assert (0 < 2 ^ n) by (apply Z.pow_pos_nonneg; lia).
  pose proof (Z.div_mod a (2 ^ n) ltac:(lia)). pose proof (Z.mod_pos_bound a (2 ^ n) ltac:(lia)).
  lia.
Qed.

(** X19.  For [0 <= s <= 30] and [0 <= b <= 63], the tag and the set
    index that [parsing_line] computes are the two parts of the number
    of the block of [2^b] bytes that holds the address:
    [address >> b = tag * 2^s + set_num] with [0 <= set_num < 2^s].
    So two addresses get the same set index and tag exactly when they
    lie in the same block, whatever their offsets and sizes. *)
Theorem same_block_same_line (argv : list cli_opt) (ln ln' : trace_line) :
  let g := set_global_values argv in
  0 <= s g <= 30 → 0 <= b g <= 63 →
  addr ln / 2 ^ b g = (parsing_line g ln).1.2 * 2 ^ s g + (parsing_line g ln).2 ∧
  0 <= (parsing_line g ln).2 < 2 ^ s g ∧
  (((parsing_line g ln).1.2 = (parsing_line g ln').1.2 ∧
    (parsing_line g ln).2 = (parsing_line g ln').2) ↔
   addr ln / 2 ^ b g = addr ln' / 2 ^ b g).
Proof.
  intros g Hs Hb. subst g. unfold parsing_line. cbn [fst snd].
  rewrite (set_mask_small argv Hs).
  set (g := set_global_values argv) in *.
  rewrite !(Z.shiftr_div_pow2 _ (b g)) by lia.
  destruct (shiftr_split (addr ln / 2 ^ b g) (s g) ltac:(lia)) as [Hsplit Hrange].
  destruct (shiftr_split (addr ln' / 2 ^ b g) (s g) ltac:(lia)) as [Hsplit' Hrange'].
  split; [exact Hsplit|]. split; [exact Hrange|]. split.
  - intros [Ht Hn]. rewrite Hsplit, Hsplit', Ht, Hn. reflexivity.
  - intros Heq. rewrite Heq. split; reflexivity.
Qed.

Lemma same_block_same_line_witness :
  let g := set_global_values [Opt_s 2; Opt_E 1; Opt_b 4] in
  let ln := TraceLine "L" 291 1 in
  let ln' := TraceLine "S" 303 4 in
  addr ln / 2 ^ b g = (parsing_line g ln).1.2 * 2 ^ s g + (parsing_line g ln).2 ∧
  0 <= (parsing_line g ln).2 < 2 ^ s g ∧
  (((parsing_line g ln).1.2 = (parsing_line g ln').1.2 ∧
    (parsing_line g ln).2 = (parsing_line g ln').2) ↔
   addr ln / 2 ^ b g = addr ln' / 2 ^ b g).
Proof.
  exact (same_block_same_line [Opt_s 2; Opt_E 1; Opt_b 4]
           (TraceLine "L" 291 1) (TraceLine "S" 303 4)
           ltac:(vm_compute; split; discriminate) ltac:(vm_compute; split; discriminate)).
Defined.
(** * The transpose functions *)

Import Trans.
Local Open Scope ctl_scope.

Lemma wrap64_small (x : Z) : 0 <= x < 18446744073709551616 → wrap64 x = x.
Proof. intros H. unfold wrap64. apply Z.mod_small. exact H. Qed.

(** ** Rules for the loops *)

Lemma for_loop_rec_unit {S} (Inv : Z → S → Prop) (fuel : nat) (hi : Z)
      (body : Z → S → ctl S) (v : Z) (st : S) :
  0 <= v <= hi → hi < 18446744073709551616 → (Z.to_nat (hi - v) ≤ fuel)%nat →
  Inv v st →
  (∀ u s, v <= u < hi → Inv u s → ∃ s', body u s = Next s' ∧ Inv (u + 1) s') →
  ∃ st', for_loop_rec fuel 1 hi body v st = Next st' ∧ Inv hi st'.
Proof.
  revert v st. induction fuel as [|fuel IH]; intros v st Hv Hhi Hfuel Hinv Hbody.
  - assert (v = hi) as -> by lia. exists st. cbn [for_loop_rec].
    rewrite Z.ltb_irrefl. auto.
  - cbn [for_loop_rec]. destruct (v <? hi) eqn:Hlt.
    + apply Z.ltb_lt in Hlt. destruct (Hbody v st ltac:(lia) Hinv) as (s' & Hb & Hinv').
      rewrite Hb. cbn [ctl_bind]. rewrite wrap64_small by lia.
      apply IH; [lia|exact Hhi|lia|exact Hinv'|].
      intros u s Hu. apply Hbody. lia.
    + apply Z.ltb_ge in Hlt. assert (v = hi) as -> by lia. exists st. auto.
Qed.

(** [for (v = lo; v < hi; v++)] with an invariant. *)
Lemma for_loop_unit {S} (Inv : Z → S → Prop) (lo hi : Z) (body : Z → S → ctl S) (st : S) :
  0 <= lo <= hi → hi < 18446744073709551616 →
  Inv lo st →
  (∀ u s, lo <= u < hi → Inv u s → ∃ s', body u s = Next s' ∧ Inv (u + 1) s') →
  ∃ st', for_loop lo hi 1 body st = Next st' ∧ Inv hi st'.
Proof.
  intros Hlo Hhi Hinv Hbody. unfold for_loop.
  apply (for_loop_rec_unit Inv); [exact Hlo|exact Hhi|lia|exact Hinv|exact Hbody].
Qed.

Lemma for_loop_rec_blocks {S} (Inv : Z → S → Prop) (fuel : nat) (n : Z)
      (body : Z → S → ctl S) (k : Z) (st : S) :
  0 <= k <= n → 8 * n < 18446744073709551616 → (Z.to_nat (n - k) ≤ fuel)%nat →
  Inv k st →
  (∀ l s, k <= l < n → Inv l s → ∃ s', body (8 * l) s = Next s' ∧ Inv (l + 1) s') →
  ∃ st', for_loop_rec fuel 8 (8 * n) body (8 * k) st = Next st' ∧ Inv n st'.
Proof.
  revert k st. induction fuel as [|fuel IH]; intros k st Hk Hn Hfuel Hinv Hbody.
  - assert (k = n) as -> by lia. exists st. cbn [for_loop_rec].
    rewrite Z.ltb_irrefl. auto.
  - cbn [for_loop_rec]. destruct (8 * k <? 8 * n) eqn:Hlt.
    + apply Z.ltb_lt in Hlt. destruct (Hbody k st ltac:(lia) Hinv) as (s' & Hb & Hinv').
      rewrite Hb. cbn [ctl_bind]. rewrite wrap64_small by lia.
      replace (8 * k + 8) with (8 * (k + 1)) by lia.
      apply IH; [lia|exact Hn|lia|exact Hinv'|].
      intros l s Hl. apply Hbody. lia.
    + apply Z.ltb_ge in Hlt. assert (k = n) as -> by lia. exists st. auto.
Qed.

(** [for (v = 0; v < 8 * n; v = v + block)] with an invariant on the
    number of blocks done. *)
Lemma for_loop_blocks {S} (Inv : Z → S → Prop) (n : Z) (body : Z → S → ctl S) (st : S) :
  0 <= n → 8 * n < 18446744073709551616 →
  Inv 0 st →
  (∀ l s, 0 <= l < n → Inv l s → ∃ s', body (8 * l) s = Next s' ∧ Inv (l + 1) s') →
  ∃ st', for_loop 0 (8 * n) 8 body st = Next st' ∧ Inv n st'.
Proof.
  intros Hn Hhi Hinv Hbody. unfold for_loop.
  apply (for_loop_rec_blocks Inv _ n body 0); [lia|exact Hhi|lia|exact Hinv|exact Hbody].
Qed.

(** ** Arrays *)

Section Arrays.
Context {T : Type}.
Implicit Types (X : list (list T)) (t : list T).

Lemma rd2_in X (r c i j : Z) :
  shape r c X → 0 <= i < r → 0 <= j < c → ∃ v, rd2 X i j = Next v.
Proof.
  intros [Hr Hc] Hi Hj. unfold rd2.
  destruct (i <? 0) eqn:Hi0; [apply Z.ltb_lt in Hi0; lia|].
  destruct (j <? 0) eqn:Hj0; [apply Z.ltb_lt in Hj0; lia|]. cbn [orb].
  destruct (lookup_lt_is_Some_2 X (Z.to_nat i)) as [row Hrow]; [lia|]. rewrite Hrow.
  pose proof (Forall_lookup_1 _ _ _ _ Hc Hrow) as Hlen. cbv beta in Hlen.
  destruct (lookup_lt_is_Some_2 row (Z.to_nat j)) as [v Hv]; [lia|]. rewrite Hv. eauto.
Qed.

Lemma wr2_in X (r c i j : Z) (v : T) :
  shape r c X → 0 <= i < r → 0 <= j < c →
  ∃ X', wr2 X i j v = Next X' ∧ shape r c X' ∧ rd2 X' i j = Next v ∧
        ∀ i' j', (i', j') ≠ (i, j) → rd2 X' i' j' = rd2 X i' j'.
Proof.
  intros [Hr Hc] Hi Hj. unfold wr2.
  destruct (i <? 0) eqn:Hi0; [apply Z.ltb_lt in Hi0; lia|].
  destruct (j <? 0) eqn:Hj0; [apply Z.ltb_lt in Hj0; lia|]. cbn [orb].
  destruct (lookup_lt_is_Some_2 X (Z.to_nat i)) as [row Hrow]; [lia|]. rewrite Hrow.
  pose proof (Forall_lookup_1 _ _ _ _ Hc Hrow) as Hlen. cbv beta in Hlen.
  destruct (lookup_lt_is_Some_2 row (Z.to_nat j)) as [old Hold]; [lia|]. rewrite Hold.
  eexists. split; [reflexivity|]. split; [|split].
  - split; [rewrite length_insert; exact Hr|].
    apply Forall_insert; [exact Hc|]. rewrite length_insert. exact Hlen.
  - unfold rd2. rewrite Hi0, Hj0. cbn [orb].
    rewrite list_lookup_insert_eq by (eapply lookup_lt_Some; exact Hrow).
    rewrite list_lookup_insert_eq by (eapply lookup_lt_Some; exact Hold). reflexivity.
  - intros i' j' Hne. unfold rd2.
    destruct (i' <? 0) eqn:Hi'; [reflexivity|]. destruct (j' <? 0) eqn:Hj'; [reflexivity|].
    cbn [orb]. apply Z.ltb_ge in Hi', Hj'.
    destruct (decide (i' = i)) as [->|Hni].
    + rewrite list_lookup_insert_eq by (eapply lookup_lt_Some; exact Hrow). rewrite Hrow.
      rewrite list_lookup_insert_ne; [reflexivity|]. intros Heq.
      apply Hne. f_equal. lia.
    + rewrite list_lookup_insert_ne by lia. reflexivity.
Qed.

Lemma rd1_in t (k : Z) : 0 <= k < Z.of_nat (length t) → ∃ v, rd1 t k = Next v.
Proof.
  intros Hk. unfold rd1. destruct (k <? 0) eqn:Hk0; [apply Z.ltb_lt in Hk0; lia|].
  destruct (lookup_lt_is_Some_2 t (Z.to_nat k)) as [v Hv]; [lia|]. rewrite Hv. eauto.
Qed.

Lemma wr1_in t (k : Z) (v : T) :
  0 <= k < Z.of_nat (length t) →
  ∃ t', wr1 t k v = Next t' ∧ length t' = length t ∧ rd1 t' k = Next v ∧
        ∀ k', k' ≠ k → rd1 t' k' = rd1 t k'.
Proof.
  intros Hk. unfold wr1. destruct (k <? 0) eqn:Hk0; [apply Z.ltb_lt in Hk0; lia|].
  destruct (lookup_lt_is_Some_2 t (Z.to_nat k)) as [old Hold]; [lia|]. rewrite Hold.
  eexists. split; [reflexivity|]. split; [apply length_insert|]. split.
  - unfold rd1. rewrite Hk0. rewrite list_lookup_insert_eq by lia. reflexivity.
  - intros k' Hne. unfold rd1. destruct (k' <? 0) eqn:Hk'; [reflexivity|].
    apply Z.ltb_ge in Hk'. rewrite list_lookup_insert_ne by lia. reflexivity.
Qed.

(** ** Filling [B] *)

Variables (M N : Z) (A : list (list T)).
Hypothesis A_shape : shape N M A.

Lemma good_mono (W W' : Z → Z → Prop) (st : mem) :
  (∀ x y, W' x y → W x y) → good M N A W st → good M N A W' st.
Proof.
  intros Hsub (Hs & Ht & Hw). split; [exact Hs|]. split; [exact Ht|].
  intros x y Hxy. apply Hw, Hsub, Hxy.
Qed.

Lemma good_write (W : Z → Z → Prop) (st : mem) (x y : Z) (v : T) (t' : list T) :
  good M N A W st → 0 <= x < M → 0 <= y < N → rd2 A y x = Next v →
  64 <= Z.of_nat (length t') →
  ∃ B', wr2 (matB st) x y v = Next B' ∧
        good M N A (λ x' y', W x' y' ∨ (x' = x ∧ y' = y)) (Mem B' t').
Proof.
  intros (Hs & _ & Hw) Hx Hy Hv Ht'.
  destruct (wr2_in (matB st) M N x y v Hs Hx Hy) as (B' & Hwr & Hs' & Hrd & Hother).
  exists B'. split; [exact Hwr|]. split; [exact Hs'|]. split; [exact Ht'|].
  cbn [matB]. intros x' y' [HW|[-> ->]].
  - destruct (decide ((x', y') = (x, y))) as [Heq|Hne].
    + injection Heq as -> ->. exists v. auto.
    + destruct (Hw x' y' HW) as (v' & Hb & Ha). exists v'. rewrite (Hother _ _ Hne). auto.
  - exists v. auto.
Qed.

(** [B[x][y] = A[y][x]]. *)
Lemma copy_good (W : Z → Z → Prop) (st : mem) (x y : Z) :
  good M N A W st → 0 <= x < M → 0 <= y < N →
  ∃ st', copy A x y y x st = Next st' ∧
         good M N A (λ x' y', W x' y' ∨ (x' = x ∧ y' = y)) st'.
Proof.
  intros Hg Hx Hy. destruct (rd2_in A N M y x A_shape Hy Hx) as [v Hv].
  pose proof Hg as (_ & Ht & _).
  destruct (good_write W st x y v (tmp st) Hg Hx Hy Hv Ht) as (B' & Hwr & Hg').
  exists (Mem B' (tmp st)). split; [|exact Hg'].
  unfold copy. rewrite Hv. cbn [ctl_bind]. rewrite Hwr. reflexivity.
Qed.

(** Two nested loops whose body fills the position [f u v] fill the
    image of the rectangle. *)
Lemma rect_rule (body : Z → Z → mem → ctl mem) (f : Z → Z → Z * Z)
      (W : Z → Z → Prop) (lo1 hi1 lo2 hi2 : Z) (st : mem) :
  0 <= lo1 <= hi1 → hi1 < 18446744073709551616 →
  0 <= lo2 <= hi2 → hi2 < 18446744073709551616 →
  (∀ u v s W', lo1 <= u < hi1 → lo2 <= v < hi2 → good M N A W' s →
     ∃ s', body u v s = Next s' ∧
           good M N A (λ x y, W' x y ∨ (x = (f u v).1 ∧ y = (f u v).2)) s') →
  good M N A W st →
  ∃ st', for_loop lo1 hi1 1 (λ u s, for_loop lo2 hi2 1 (λ v s, body u v s) s) st = Next st' ∧
         good M N A (λ x y, W x y ∨
                            ∃ u v, lo1 <= u < hi1 ∧ lo2 <= v < hi2 ∧
                                   x = (f u v).1 ∧ y = (f u v).2) st'.
Proof.
  intros H1 Hh1 H2 Hh2 Hbody Hg.
  apply (for_loop_unit
           (λ u s, good M N A (λ x y, W x y ∨
                                 ∃ u' v, lo1 <= u' < u ∧ lo2 <= v < hi2 ∧
                                         x = (f u' v).1 ∧ y = (f u' v).2) s));
    [exact H1|exact Hh1| |].
  - eapply good_mono; [|exact Hg]. intros x y [HW|(u' & v & Hu & _)]; [exact HW|lia].
  - intros u s Hu Hgu.
    destruct (for_loop_unit
                (λ v s, good M N A (λ x y, (W x y ∨
                                      ∃ u' v', lo1 <= u' < u ∧ lo2 <= v' < hi2 ∧
                                               x = (f u' v').1 ∧ y = (f u' v').2) ∨
                                     ∃ v', lo2 <= v' < v ∧
                                           x = (f u v').1 ∧ y = (f u v').2) s)
                lo2 hi2 (λ v s, body u v s) s H2 Hh2) as (s' & Hrun & Hg').
    + eapply good_mono; [|exact Hgu]. intros x y [HW|(v' & Hv & _)]; [exact HW|lia].
    + intros v s0 Hv Hgv. destruct (Hbody u v s0 _ Hu Hv Hgv) as (s1 & Hb & Hg1).
      exists s1. split; [exact Hb|]. eapply good_mono; [|exact Hg1].
      intros x y [HW|(v' & Hv' & Hx & Hy)]; [left; left; exact HW|].
      destruct (decide (v' = v)) as [->|Hne]; [right; auto|].
      left. right. exists v'. split; [lia|auto].
    + exists s'. split; [exact Hrun|]. eapply good_mono; [|exact Hg'].
      intros x y [HW|(u' & v & Hu' & Hv & Hx & Hy)]; [left; left; exact HW|].
      destruct (decide (u' = u)) as [->|Hne].
      * right. exists v. auto.
      * left. right. exists u', v. split; [lia|auto].
Qed.

Lemma div_mod_8 (a c : Z) : 0 <= c < 8 → (8 * a + c) mod 8 = c ∧ (8 * a + c) / 8 = a.
Proof.
  intros Hc. split.
  - rewrite Z.add_comm, Z.mul_comm, Z_mod_plus_full. apply Z.mod_small. exact Hc.
  - rewrite Z.add_comm, Z.mul_comm, Z_div_plus_full by lia.
    rewrite Z.div_small by exact Hc. lia.
Qed.

Lemma diagonal_block_good (W : Z → Z → Prop) (st : mem) (i j : Z) :
  good M N A W st → 0 <= i → i + 8 <= M → 0 <= j → j + 8 <= N →
  M < 18446744073709551616 → N < 18446744073709551616 →
  ∃ st', diagonal_block A i j st = Next st' ∧
         good M N A (λ x y, W x y ∨ (i <= x < i + 8 ∧ j <= y < j + 8)) st'.
Proof.
  intros Hg Hi HiM Hj HjN HM HN. unfold diagonal_block, block.
  rewrite !(wrap64_small (i + 8)), !(wrap64_small (j + 8)) by lia.
  pose proof Hg as (Hshape & Htmp & Hw).
  (* first pass: the block goes to [tmp] *)
  destruct (for_loop_unit
              (λ i1 (s : mem * Z),
                 s.2 = 8 * (i1 - i) ∧ matB s.1 = matB st ∧
                 length (tmp s.1) = length (tmp st) ∧
                 tmp_holds A (tmp s.1) i j (8 * (i1 - i)))
              i (i + 8)
              (λ i1 s, for_loop j (j + 8) 1
                         (λ j1 s, let '(st, idx) := s in
                                  a <- rd2 A j1 i1 ;;
                                  t' <- wr1 (tmp st) idx a ;;
                                  Next (Mem (matB st) t', wrap64 (idx + 1))) s)
              (st, 0)) as ([st1 idx1] & Hrun1 & _ & HB1 & Hlen1 & Hholds1);
    [lia|lia| | |].
  { cbn [fst snd]. split; [lia|]. split; [reflexivity|]. split; [reflexivity|].
    intros k Hk. lia. }
  { intros i1 s Hi1 (Hidx & HB & Hlen & Hholds).
    destruct (for_loop_unit
                (λ j1 (s : mem * Z),
                   s.2 = 8 * (i1 - i) + (j1 - j) ∧ matB s.1 = matB st ∧
                   length (tmp s.1) = length (tmp st) ∧
                   tmp_holds A (tmp s.1) i j (8 * (i1 - i) + (j1 - j)))
                j (j + 8)
                (λ j1 s, let '(st, idx) := s in
                         a <- rd2 A j1 i1 ;;
                         t' <- wr1 (tmp st) idx a ;;
                         Next (Mem (matB st) t', wrap64 (idx + 1))) s)
      as (s' & Hrun & Hidx' & HB' & Hlen' & Hholds'); [lia|lia| | |].
    - split; [lia|]. split; [exact HB|]. split; [exact Hlen|].
      intros k Hk. apply Hholds. lia.
    - intros j1 [st0 idx] Hj1 (Hidx0 & HB0 & Hlen0 & Hholds0). cbn [fst snd] in *.
      destruct (rd2_in A N M j1 i1 A_shape ltac:(lia) ltac:(lia)) as [a Ha].
      destruct (wr1_in (tmp st0) idx a ltac:(lia)) as (t' & Hwr & Hlt' & Hrd & Hother).
      rewrite Ha. cbn [ctl_bind]. rewrite Hwr. cbn [ctl_bind].
      eexists. split; [reflexivity|]. cbn [fst snd matB tmp].
      rewrite wrap64_small by lia. split; [lia|]. split; [exact HB0|].
      split; [congruence|]. intros k Hk.
      destruct (decide (k = idx)) as [->|Hne].
      + exists a. split; [exact Hrd|]. subst idx.
        destruct (div_mod_8 (i1 - i) (j1 - j) ltac:(lia)) as [-> ->].
        replace (j + (j1 - j)) with j1 by lia. replace (i + (i1 - i)) with i1 by lia.
        exact Ha.
      + rewrite (Hother k Hne). apply Hholds0. lia.
    - exists s'. split; [exact Hrun|]. split; [lia|]. split; [exact HB'|].
      split; [exact Hlen'|]. intros k Hk. apply Hholds'. lia. }
  rewrite Hrun1. cbn [ctl_bind fst snd] in *.
  replace (8 * (i + 8 - i)) with 64 in Hholds1 by lia.
  assert (Hg1 : good M N A W st1).
  { split; [rewrite HB1; exact Hshape|]. split; [lia|]. rewrite HB1. exact Hw. }
  (* second pass: from [tmp] to [B] *)
  destruct (for_loop_unit
              (λ i1 (s : mem * Z),
                 s.2 = 8 * (i1 - i) ∧ tmp s.1 = tmp st1 ∧
                 good M N A (λ x y, W x y ∨ (i <= x < i1 ∧ j <= y < j + 8)) s.1)
              i (i + 8)
              (λ i1 s, for_loop j (j + 8) 1
                         (λ j1 s, let '(st, idx) := s in
                                  a <- rd1 (tmp st) idx ;;
                                  B' <- wr2 (matB st) i1 j1 a ;;
                                  Next (Mem B' (tmp st), wrap64 (idx + 1))) s)
              (st1, 0)) as ([st2 idx2] & Hrun2 & _ & _ & Hg2);
    [lia|lia| | |].
  { cbn [fst snd]. split; [lia|]. split; [reflexivity|].
    eapply good_mono; [|exact Hg1]. intros x y [HW|[Hx _]]; [exact HW|lia]. }
  { intros i1 s Hi1 (Hidx & Ht & Hgs).
    destruct (for_loop_unit
                (λ j1 (s : mem * Z),
                   s.2 = 8 * (i1 - i) + (j1 - j) ∧ tmp s.1 = tmp st1 ∧
                   good M N A (λ x y, (W x y ∨ (i <= x < i1 ∧ j <= y < j + 8)) ∨
                                      (x = i1 ∧ j <= y < j1)) s.1)
                j (j + 8)
                (λ j1 s, let '(st, idx) := s in
                         a <- rd1 (tmp st) idx ;;
                         B' <- wr2 (matB st) i1 j1 a ;;
                         Next (Mem B' (tmp st), wrap64 (idx + 1))) s)
      as (s' & Hrun & Hidx' & Ht' & Hg'); [lia|lia| | |].
    - split; [lia|]. split; [exact Ht|].
      eapply good_mono; [|exact Hgs]. intros x y [HW|[_ Hy]]; [exact HW|lia].
    - intros j1 [st0 idx] Hj1 (Hidx0 & Ht0 & Hg0). cbn [fst snd] in *.
      destruct (Hholds1 idx ltac:(lia)) as (a & Hrd & Ha).
      subst idx. destruct (div_mod_8 (i1 - i) (j1 - j) ltac:(lia)) as [Hm Hd].
      rewrite Hm, Hd in Ha.
      replace (j + (j1 - j)) with j1 in Ha by lia.
      replace (i + (i1 - i)) with i1 in Ha by lia.
      pose proof Hg0 as (_ & Htmp0 & _).
      destruct (good_write _ st0 i1 j1 a (tmp st0) Hg0 ltac:(lia) ltac:(lia) Ha Htmp0)
        as (B' & Hwr & Hgw).
      rewrite Ht0, Hrd. cbn [ctl_bind]. rewrite Hwr. cbn [ctl_bind].
      eexists. split; [reflexivity|]. cbn [fst snd tmp].
      rewrite wrap64_small by lia. split; [lia|]. split; [reflexivity|].
      rewrite <- Ht0. eapply good_mono; [|exact Hgw].
      intros x y [HW|[-> Hy]]; [left; left; exact HW|].
      destruct (decide (y = j1)) as [->|Hne]; [right; auto|].
      left. right. split; [reflexivity|lia].
    - exists s'. split; [exact Hrun|]. split; [lia|]. split; [exact Ht'|].
      eapply good_mono; [|exact Hg']. intros x y [HW|[Hx Hy]]; [left; left; exact HW|].
      destruct (decide (x = i1)) as [->|Hne]; [right; split; [reflexivity|lia]|].
      left. right. lia. }
  rewrite Hrun2. cbn [ctl_bind fst snd] in *.
  exists st2. split; [reflexivity|exact Hg2].
Qed.

(** [tmp[8 * di + dj] = A[i][j]; B[j][i] = tmp[8 * di + dj];] *)
Lemma copy_through_tmp_good (W : Z → Z → Prop) (st : mem) (i j : Z) :
  good M N A W st → 0 <= i < N → 0 <= j < M →
  ∃ st', copy_through_tmp A i j st = Next st' ∧
         good M N A (λ x y, W x y ∨ (x = j ∧ y = i)) st'.
Proof.
  intros Hg Hi Hj. unfold copy_through_tmp. cbv zeta.
  pose proof (Z.mod_pos_bound i 8 ltac:(lia)). pose proof (Z.mod_pos_bound j 8 ltac:(lia)).
  rewrite (wrap64_small (8 * (i mod 8))) by lia.
  rewrite (wrap64_small (8 * (i mod 8) + j mod 8)) by lia.
  destruct (rd2_in A N M i j A_shape Hi Hj) as [a Ha].
  pose proof Hg as (_ & Htmp & _).
  destruct (wr1_in (tmp st) (8 * (i mod 8) + j mod 8) a ltac:(lia))
    as (t' & Hwr & Hlt' & Hrd & _).
  destruct (good_write W st j i a t' Hg Hj Hi Ha ltac:(lia)) as (B' & Hwr2 & Hg').
  rewrite Ha. cbn [ctl_bind]. rewrite Hwr. cbn [ctl_bind]. rewrite Hrd. cbn [ctl_bind].
  rewrite Hwr2. cbn [ctl_bind]. eexists. split; [reflexivity|exact Hg'].
Qed.

(** [is_transpose] answers [true] on a transposed matrix whose
    elements all compare equal to themselves. *)
Lemma is_transpose_true (dne : T → T → bool) (B : list (list T)) :
  (∀ x, dne x x = false) →
  0 <= M < 18446744073709551616 → 0 <= N < 18446744073709551616 →
  transposed_on (whole M N) A B →
  is_transpose dne M N A B = Return true.
Proof.
  intros Hrefl HM HN Ht. unfold is_transpose.
  destruct (for_loop_unit (λ _ (_ : unit), True) 0 N
              (λ i _, for_loop 0 M 1
                        (λ j _, a <- rd2 A i j ;; b <- rd2 B j i ;;
                                if dne a b then Return false else Next tt) tt) tt)
    as ([] & Hrun & _); [lia|lia|exact I| |].
  - intros i [] Hi _.
    destruct (for_loop_unit (λ _ (_ : unit), True) 0 M
                (λ j _, a <- rd2 A i j ;; b <- rd2 B j i ;;
                        if dne a b then Return false else Next tt) tt)
      as ([] & Hrun & _); [lia|lia|exact I| |].
    + intros j [] Hj _. destruct (Ht j i) as (v & Hb & Ha); [split; lia|].
      rewrite Ha. cbn [ctl_bind]. rewrite Hb. cbn [ctl_bind]. rewrite Hrefl.
      exists tt. auto.
    + exists tt. auto.
  - rewrite Hrun. reflexivity.
Qed.


Lemma copy_uv (W : Z → Z → Prop) (s : mem) (u v : Z) :
  0 <= u < M → 0 <= v < N → good M N A W s →
  ∃ s', copy A u v v u s = Next s' ∧
        good M N A (λ x y, W x y ∨ (x = (u, v).1 ∧ y = (u, v).2)) s'.
Proof. intros Hu Hv Hg. exact (copy_good W s u v Hg Hu Hv). Qed.

Lemma copy_vu (W : Z → Z → Prop) (s : mem) (u v : Z) :
  0 <= v < M → 0 <= u < N → good M N A W s →
  ∃ s', copy A v u u v s = Next s' ∧
        good M N A (λ x y, W x y ∨ (x = (v, u).1 ∧ y = (v, u).2)) s'.
Proof. intros Hv Hu Hg. exact (copy_good W s v u Hg Hv Hu). Qed.

Variable dne : T → T → bool.
Hypothesis dne_irrefl : ∀ x, dne x x = false.
Hypothesis M_size : 0 < M < 18446744073709551616.
Hypothesis N_size : 0 < N < 18446744073709551616.

Lemma assert_is_transpose_good (W : Z → Z → Prop) (st : mem) :
  good M N A W st → (∀ x y, whole M N x y → W x y) →
  assert_is_transpose dne M N A st = Next st ∧
  shape M N (matB st) ∧ transposed_on (whole M N) A (matB st).
Proof.
  intros Hg Hall. apply (good_mono W (whole M N) st Hall) in Hg as (Hs & _ & Ht).
  split; [|auto]. unfold assert_is_transpose.
  rewrite (is_transpose_true dne (matB st) dne_irrefl ltac:(lia) ltac:(lia) Ht).
  reflexivity.
Qed.

Lemma trans_tmp_good (st : mem) :
  good M N A (λ _ _, False) st →
  ∃ st', trans_tmp dne M N A st = Next st' ∧
         shape M N (matB st') ∧ transposed_on (whole M N) A (matB st').
Proof.
  intros Hg. unfold trans_tmp, assert.
  assert ((0 <? M) = true) as -> by (apply Z.ltb_lt; lia).
  assert ((0 <? N) = true) as -> by (apply Z.ltb_lt; lia).
  cbn [ctl_bind]. unfold block.
  assert (Hloops : ∃ st1 W,
    (if M <? 8 then
       for_loop 0 M 1 (λ j st, for_loop 0 N 1 (λ i st, copy A j i i j st) st) st
     else if N <? 8 then
       for_loop 0 N 1 (λ i st, for_loop 0 M 1 (λ j st, copy A j i i j st) st) st
     else
       for_loop 0 N 1 (λ i st, for_loop 0 M 1 (λ j st, copy_through_tmp A i j st) st) st)
    = Next st1 ∧ good M N A W st1 ∧ ∀ x y, whole M N x y → W x y).
  { destruct (M <? 8); [|destruct (N <? 8)].
    - destruct (rect_rule (λ u v, copy A u v v u) (λ u v, (u, v)) (λ _ _, False)
                  0 M 0 N st ltac:(lia) ltac:(lia) ltac:(lia) ltac:(lia)) as (st1 & Hr & Hg1);
        [|exact Hg|].
      + intros u v s W' Hu Hv. apply copy_uv; lia.
      + eexists st1, _. split; [exact Hr|]. split; [exact Hg1|].
        intros x y [Hx Hy]. right. exists x, y. auto.
    - destruct (rect_rule (λ u v, copy A v u u v) (λ u v, (v, u)) (λ _ _, False)
                  0 N 0 M st ltac:(lia) ltac:(lia) ltac:(lia) ltac:(lia)) as (st1 & Hr & Hg1);
        [|exact Hg|].
      + intros u v s W' Hu Hv. apply copy_vu; lia.
      + eexists st1, _. split; [exact Hr|]. split; [exact Hg1|].
        intros x y [Hx Hy]. right. exists y, x. auto.
    - destruct (rect_rule (λ u v, copy_through_tmp A u v) (λ u v, (v, u)) (λ _ _, False)
                  0 N 0 M st ltac:(lia) ltac:(lia) ltac:(lia) ltac:(lia)) as (st1 & Hr & Hg1);
        [|exact Hg|].
      + intros u v s W' Hu Hv Hgs. apply (copy_through_tmp_good W' s u v Hgs); lia.
      + eexists st1, _. split; [exact Hr|]. split; [exact Hg1|].
        intros x y [Hx Hy]. right. exists y, x. auto. }
  destruct Hloops as (st1 & W & -> & Hg1 & Hall). cbn [ctl_bind].
  destruct (assert_is_transpose_good W st1 Hg1 Hall) as (-> & Hs & Ht).
  exists st1. auto.
Qed.

(** The blocks of eight by eight of [trans_basic]. *)
Lemma blocks_good (st : mem) :
  good M N A (λ _ _, False) st →
  ∃ st', for_loop 0 (8 * (M / 8)) 8
           (λ i st, for_loop 0 (8 * (N / 8)) 8
              (λ j st, if i =? j then diagonal_block A i j st
                       else for_loop i (wrap64 (i + 8)) 1
                              (λ i1 st, for_loop j (wrap64 (j + 8)) 1
                                 (λ j1 st, copy A i1 j1 j1 i1 st) st) st) st) st = Next st' ∧
         good M N A (λ x y, 0 <= x < 8 * (M / 8) ∧ 0 <= y < 8 * (N / 8)) st'.
Proof.
  intros Hg. set (p := M / 8). set (q := N / 8).
  assert (Hp : 0 <= 8 * p <= M).
  { subst p. pose proof (Z.div_mod M 8 ltac:(lia)). pose proof (Z.mod_pos_bound M 8 ltac:(lia)).
    lia. }
  assert (Hq : 0 <= 8 * q <= N).
  { subst q. pose proof (Z.div_mod N 8 ltac:(lia)). pose proof (Z.mod_pos_bound N 8 ltac:(lia)).
    lia. }
  lazymatch goal with
  | |- context [for_loop 0 (8 * p) 8 ?body st] =>
      destruct (for_loop_blocks
                  (λ k s, good M N A (λ x y, 0 <= x < 8 * k ∧ 0 <= y < 8 * q) s) p body st)
        as (st1 & Hrun1 & Hg1); [lia|lia| | |]
  end.
  - eapply good_mono; [|exact Hg]. intros x y [Hx _]. lia.
  - intros k s Hk Hgk.
    lazymatch goal with
    | |- context [for_loop 0 (8 * q) 8 ?body s] =>
        destruct (for_loop_blocks
                    (λ l s, good M N A (λ x y, (0 <= x < 8 * k ∧ 0 <= y < 8 * q) ∨
                                               (8 * k <= x < 8 * k + 8 ∧ 0 <= y < 8 * l)) s)
                    q body s)
          as (s' & Hrun & Hg'); [lia|lia| | |]
    end.
    + eapply good_mono; [|exact Hgk]. intros x y [HW|[_ Hy]]; [exact HW|lia].
    + intros l s0 Hl Hgl.
      assert (Hblock : ∃ s1,
        (if 8 * k =? 8 * l then diagonal_block A (8 * k) (8 * l) s0
         else for_loop (8 * k) (wrap64 (8 * k + 8)) 1
                (λ i1 st, for_loop (8 * l) (wrap64 (8 * l + 8)) 1
                            (λ j1 st, copy A i1 j1 j1 i1 st) st) s0) = Next s1 ∧
        good M N A (λ x y, ((0 <= x < 8 * k ∧ 0 <= y < 8 * q) ∨
                            (8 * k <= x < 8 * k + 8 ∧ 0 <= y < 8 * l)) ∨
                           (8 * k <= x < 8 * k + 8 ∧ 8 * l <= y < 8 * l + 8)) s1).
      { destruct (8 * k =? 8 * l).
        - apply diagonal_block_good; [exact Hgl|lia..].
        - rewrite !wrap64_small by lia.
          epose proof (rect_rule (λ u v, copy A u v v u) (λ u v, (u, v)) _
                         (8 * k) (8 * k + 8) (8 * l) (8 * l + 8) s0
                         ltac:(lia) ltac:(lia) ltac:(lia) ltac:(lia)) as Hrect.
          destruct (Hrect ltac:(intros u v s2 W' Hu Hv; apply copy_uv; lia) Hgl)
            as (s1 & Hr & Hgr).
          exists s1. split; [exact Hr|]. eapply good_mono; [|exact Hgr].
          intros x y [HW|[Hx Hy]]; [left; exact HW|]. right. exists x, y. cbn. lia. }
      destruct Hblock as (s1 & Hb & Hgb). exists s1. split; [exact Hb|].
      eapply good_mono; [|exact Hgb]. intros x y [HW|[Hx Hy]]; [left; left; exact HW|].
      destruct (Z_lt_le_dec y (8 * l)); [left; right; lia|right; lia].
    + exists s'. split; [exact Hrun|]. eapply good_mono; [|exact Hg'].
      intros x y [Hx Hy]. destruct (Z_lt_le_dec x (8 * k)); [left; lia|right; lia].
  - exists st1. split; [exact Hrun1|exact Hg1].
Qed.

Lemma trans_basic_good (st : mem) :
  M = N → good M N A (λ _ _, False) st →
  ∃ st', trans_basic dne M N A st = Next st' ∧
         shape M N (matB st') ∧ transposed_on (whole M N) A (matB st').
Proof.
  intros Hsq Hg. unfold trans_basic, assert.
  assert ((0 <? M) = true) as -> by (apply Z.ltb_lt; lia).
  assert ((0 <? N) = true) as -> by (apply Z.ltb_lt; lia).
  cbn [ctl_bind]. cbv zeta. unfold block.
  assert (Hq : 0 <= 8 * (M / 8) <= M ∧ M < 8 * (M / 8) + 8).
  { pose proof (Z.div_mod M 8 ltac:(lia)). pose proof (Z.mod_pos_bound M 8 ltac:(lia)). lia. }
  assert (Hq' : N / 8 = M / 8) by (rewrite Hsq; reflexivity).
  rewrite (Z.mul_comm (M / 8) 8), (Z.mul_comm (N / 8) 8).
  rewrite (wrap64_small (8 * (M / 8))), (wrap64_small (8 * (N / 8))) by lia.
  destruct (blocks_good st Hg) as (st1 & -> & Hg1). cbn [ctl_bind].
  rewrite Hq' in *. set (q := M / 8) in *.
  (* the rows and columns that remain *)
  assert (Htail : ∃ st2,
    (if negb (8 * q =? N) || negb (8 * q =? M) then
       st <- for_loop 0 (8 * q) 1
               (λ i st, for_loop (8 * q) N 1 (λ j st, copy A j i i j st) st) st1 ;;
       st <- for_loop (8 * q) M 1
               (λ i st, for_loop 0 (8 * q) 1 (λ j st, copy A j i i j st) st) st ;;
       for_loop (8 * q) M 1
         (λ i st, for_loop (8 * q) N 1 (λ j st, copy A i j j i st) st) st
     else Next st1) = Next st2 ∧
    ∃ W, good M N A W st2 ∧ ∀ x y, whole M N x y → W x y).
  { destruct (negb (8 * q =? N) || negb (8 * q =? M)) eqn:Hmult.
    - epose proof (rect_rule (λ u v, copy A v u u v) (λ u v, (v, u)) _
                     0 (8 * q) (8 * q) N st1 ltac:(lia) ltac:(lia) ltac:(lia) ltac:(lia))
        as Hrect1.
      destruct (Hrect1 ltac:(intros u v s W' Hu Hv; apply copy_vu; lia) Hg1)
        as (s1 & Hr1 & Hgr1).
      rewrite Hr1. cbn [ctl_bind].
      epose proof (rect_rule (λ u v, copy A v u u v) (λ u v, (v, u)) _
                     (8 * q) M 0 (8 * q) s1 ltac:(lia) ltac:(lia) ltac:(lia) ltac:(lia))
        as Hrect2.
      destruct (Hrect2 ltac:(intros u v s W' Hu Hv; apply copy_vu; lia) Hgr1)
        as (s2 & Hr2 & Hgr2).
      rewrite Hr2. cbn [ctl_bind].
      epose proof (rect_rule (λ u v, copy A u v v u) (λ u v, (u, v)) _
                     (8 * q) M (8 * q) N s2 ltac:(lia) ltac:(lia) ltac:(lia) ltac:(lia))
        as Hrect3.
      destruct (Hrect3 ltac:(intros u v s W' Hu Hv; apply copy_uv; lia) Hgr2)
        as (s3 & Hr3 & Hgr3).
      exists s3. split; [exact Hr3|]. eexists. split; [exact Hgr3|].
      intros x y [Hx Hy]. cbn [fst snd].
      destruct (Z_lt_le_dec x (8 * q)) as [Hxl|Hxg];
        destruct (Z_lt_le_dec y (8 * q)) as [Hyl|Hyg].
      + left. left. left. lia.
      + left. right. exists y, x. lia.
      + left. left. right. exists y, x. lia.
      + right. exists x, y. lia.
    - apply orb_false_iff in Hmult as [H1 H2]. apply negb_false_iff, Z.eqb_eq in H1, H2.
      exists st1. split; [reflexivity|].
      eexists. split; [exact Hg1|]. intros x y [Hx Hy]. lia. }
  destruct Htail as (st2 & -> & W & Hg2 & Hall). cbn [ctl_bind].
  destruct (assert_is_transpose_good W st2 Hg2 Hall) as (-> & Hs & Ht).
  exists st2. auto.
Qed.

(** The first access of the loops after the blocks, [A[0][multN]],
    when this column is not one of [A]. *)
Lemma trans_basic_fault (st : mem) :
  good M N A (λ _ _, False) st →
  8 <= M → M <= 8 * (N / 8) → 8 * (N / 8) < N →
  trans_basic dne M N A st = Fault.
Proof.
  intros Hg HM HMN HN. unfold trans_basic, assert.
  assert ((0 <? M) = true) as -> by (apply Z.ltb_lt; lia).
  assert ((0 <? N) = true) as -> by (apply Z.ltb_lt; lia).
  cbn [ctl_bind]. cbv zeta. unfold block.
  assert (Hp : 8 <= 8 * (M / 8) <= M).
  { pose proof (Z.div_mod M 8 ltac:(lia)). pose proof (Z.mod_pos_bound M 8 ltac:(lia)). lia. }
  rewrite (Z.mul_comm (M / 8) 8), (Z.mul_comm (N / 8) 8).
  rewrite (wrap64_small (8 * (M / 8))), (wrap64_small (8 * (N / 8))) by lia.
  destruct (blocks_good st Hg) as (st1 & -> & Hg1). cbn [ctl_bind].
  assert ((8 * (N / 8) =? N) = false) as -> by (apply Z.eqb_neq; lia).
  cbn [negb orb].
  assert (Hfirst : for_loop 0 (8 * (M / 8)) 1
            (λ i st, for_loop (8 * (N / 8)) N 1 (λ j st, copy A j i i j st) st) st1 = Fault).
  { unfold for_loop at 1.
    destruct (Z.to_nat (8 * (M / 8))) as [|f1] eqn:Hf1; [lia|]. cbn [for_loop_rec].
    assert ((0 <? 8 * (M / 8)) = true) as -> by (apply Z.ltb_lt; lia).
    unfold for_loop at 1.
    destruct (Z.to_nat N) as [|f2] eqn:Hf2; [lia|]. cbn [for_loop_rec].
    assert ((8 * (N / 8) <? N) = true) as -> by (apply Z.ltb_lt; lia).
    assert (Hrd : rd2 A 0 (8 * (N / 8)) = Fault).
    { destruct A_shape as [Hrows Hcols]. unfold rd2.
      assert ((8 * (N / 8) <? 0) = false) as -> by (apply Z.ltb_ge; lia). cbn [Z.ltb orb].
      change (0 <? 0) with false. cbn [orb].
      destruct (A !! Z.to_nat 0) as [row|] eqn:Hrow; [|reflexivity].
      pose proof (Forall_lookup_1 _ _ _ _ Hcols Hrow) as Hlen. cbv beta in Hlen.
      rewrite lookup_ge_None_2 by lia. reflexivity. }
    unfold copy at 1. rewrite Hrd. reflexivity. }
  rewrite Hfirst. reflexivity.
Qed.

End Arrays.

(** ** The checker *)

(** A loop over [unit] whose body either goes on or returns
    [false]. *)
Lemma for_loop_rec_check (P Q : Z → Prop) (fuel : nat) (hi : Z)
      (body : Z → unit → ctl unit) (v : Z) :
  0 <= v <= hi → hi < 18446744073709551616 → (Z.to_nat (hi - v) ≤ fuel)%nat →
  (∀ u, v <= u < hi → (body u tt = Next tt ∧ P u) ∨ (body u tt = Return false ∧ Q u)) →
  (for_loop_rec fuel 1 hi body v tt = Next tt ∧ ∀ u, v <= u < hi → P u) ∨
  (for_loop_rec fuel 1 hi body v tt = Return false ∧ ∃ u, v <= u < hi ∧ Q u).
Proof.
  revert v. induction fuel as [|fuel IH]; intros v Hv Hhi Hfuel Hbody.
  - assert (v = hi) as -> by lia. left. cbn [for_loop_rec]. rewrite Z.ltb_irrefl.
    split; [reflexivity|]. intros u Hu. lia.
  - cbn [for_loop_rec]. destruct (v <? hi) eqn:Hlt.
    + apply Z.ltb_lt in Hlt. destruct (Hbody v ltac:(lia)) as [[Hb HP]|[Hb HQ]].
      * rewrite Hb. cbn [ctl_bind]. rewrite wrap64_small by lia.
        destruct (IH (v + 1)) as [[Hrun Hall]|[Hrun (u & Hu & HQ)]];
          [lia|exact Hhi|lia|intros u Hu; apply Hbody; lia| |].
        -- left. split; [exact Hrun|]. intros u Hu.
           destruct (decide (u = v)) as [->|Hne]; [exact HP|apply Hall; lia].
        -- right. split; [exact Hrun|]. exists u. split; [lia|exact HQ].
      * rewrite Hb. cbn [ctl_bind]. right. split; [reflexivity|]. exists v. split; [lia|exact HQ].
    + apply Z.ltb_ge in Hlt. left. split; [reflexivity|]. intros u Hu. lia.
Qed.

Lemma for_loop_check (P Q : Z → Prop) (hi : Z) (body : Z → unit → ctl unit) :
  0 <= hi < 18446744073709551616 →
  (∀ u, 0 <= u < hi → (body u tt = Next tt ∧ P u) ∨ (body u tt = Return false ∧ Q u)) →
  (for_loop 0 hi 1 body tt = Next tt ∧ ∀ u, 0 <= u < hi → P u) ∨
  (for_loop 0 hi 1 body tt = Return false ∧ ∃ u, 0 <= u < hi ∧ Q u).
Proof.
  intros Hhi Hbody. unfold for_loop. apply for_loop_rec_check; [lia|lia|lia|exact Hbody].
Qed.

(** X20.  On matrices of the declared sizes [is_transpose] stays
    within their bounds and answers [true] when no element of [A]
    compares unequal ([!=]) to the element of [B] at the mirrored
    position, and [false] when one does. *)
Theorem is_transpose_decides {T : Type} (dne : T → T → bool) (M N : Z)
        (A B : list (list T)) :
  0 <= M < 18446744073709551616 → 0 <= N < 18446744073709551616 →
  shape N M A → shape M N B →
  (is_transpose dne M N A B = Return true ∧
   ∀ i j, 0 <= i < N → 0 <= j < M →
          ∃ a b, rd2 A i j = Next a ∧ rd2 B j i = Next b ∧ dne a b = false) ∨
  (is_transpose dne M N A B = Return false ∧
   ∃ i j a b, 0 <= i < N ∧ 0 <= j < M ∧
              rd2 A i j = Next a ∧ rd2 B j i = Next b ∧ dne a b = true).
Proof.
  intros HM HN HA HB. unfold is_transpose.
  destruct (for_loop_check
              (λ i, ∀ j, 0 <= j < M →
                         ∃ a b, rd2 A i j = Next a ∧ rd2 B j i = Next b ∧ dne a b = false)
              (λ i, ∃ j a b, 0 <= j < M ∧
                             rd2 A i j = Next a ∧ rd2 B j i = Next b ∧ dne a b = true)
              N
              (λ i _, for_loop 0 M 1
                        (λ j _, a <- rd2 A i j ;; b <- rd2 B j i ;;
                                if dne a b then Return false else Next tt) tt) HN)
    as [[Hrun Hall]|[Hrun (i & Hi & j & a & b & Hj & Ha & Hb & Hne)]].
  - intros i Hi.
    destruct (for_loop_check
                (λ j, ∃ a b, rd2 A i j = Next a ∧ rd2 B j i = Next b ∧ dne a b = false)
                (λ j, ∃ a b, rd2 A i j = Next a ∧ rd2 B j i = Next b ∧ dne a b = true)
                M
                (λ j _, a <- rd2 A i j ;; b <- rd2 B j i ;;
                        if dne a b then Return false else Next tt) HM)
      as [[Hrun Hall]|[Hrun (j & Hj & a & b & Ha & Hb & Hne)]].
    + intros j Hj. destruct (rd2_in A N M i j HA Hi Hj) as [a Ha].
      destruct (rd2_in B M N j i HB Hj Hi) as [b Hb].
      rewrite Ha. cbn [ctl_bind]. rewrite Hb. cbn [ctl_bind].
      destruct (dne a b) eqn:Hd; [right|left]; (split; [reflexivity|]); exists a, b; auto.
    + left. auto.
    + right. split; [exact Hrun|]. exists j, a, b. auto.
  - left. rewrite Hrun. cbn [ctl_bind]. auto.
  - right. rewrite Hrun. cbn [ctl_bind]. split; [reflexivity|]. exists i, j, a, b. auto.
Qed.

Lemma is_transpose_decides_witness :
  (is_transpose xorb 2 1 [[true; false]] [[true]; [true]] = Return true ∧
   ∀ i j, 0 <= i < 1 → 0 <= j < 2 →
          ∃ a b, rd2 [[true; false]] i j = Next a ∧ rd2 [[true]; [true]] j i = Next b ∧
                 xorb a b = false) ∨
  (is_transpose xorb 2 1 [[true; false]] [[true]; [true]] = Return false ∧
   ∃ i j a b, 0 <= i < 1 ∧ 0 <= j < 2 ∧
              rd2 [[true; false]] i j = Next a ∧ rd2 [[true]; [true]] j i = Next b ∧
              xorb a b = true).
Proof.
  apply (is_transpose_decides xorb 2 1 [[true; false]] [[true]; [true]]);
    [lia|lia|split; [reflexivity|repeat constructor]..].
Defined.

(** X21.  For all sizes [0 < M, N < 2^64], a source [A] of [N] rows of
    [M] elements, a destination of [M] rows of [N] elements and room
    for 64 elements in [tmp], [transpose_submit] stays within the
    bounds of the arrays, passes its assertions and leaves in [B] the
    transpose of [A]: [B[x][y]] is [A[y][x]] for all [x < M] and
    [y < N], provided every element compares equal to itself. *)
Theorem transpose_submit_transposes {T : Type} (dne : T → T → bool) (M N : Z)
        (A B : list (list T)) (t : list T) :
  (∀ x, dne x x = false) →
  0 < M < 18446744073709551616 → 0 < N < 18446744073709551616 →
  shape N M A → shape M N B → 64 <= Z.of_nat (length t) →
  ∃ st', transpose_submit dne M N A (Mem B t) = Next st' ∧
         shape M N (matB st') ∧ transposed_on (whole M N) A (matB st').
Proof.
  intros Hrefl HM HN HA HB Ht.
  assert (Hg : good M N A (λ _ _, False) (Mem B t)).
  { split; [exact HB|]. split; [exact Ht|]. intros x y []. }
  unfold transpose_submit. destruct (M =? N) eqn:Hsq.
  - apply Z.eqb_eq in Hsq. apply trans_basic_good; assumption.
  - apply trans_tmp_good; assumption.
Qed.

Lemma transpose_submit_transposes_witness :
  ∃ st', transpose_submit xorb 2 3 [[true; false]; [false; false]; [true; true]]
           (Mem [[false; false; false]; [false; false; false]] (replicate 64 false)) = Next st' ∧
         shape 2 3 (matB st') ∧
         transposed_on (whole 2 3) [[true; false]; [false; false]; [true; true]] (matB st').
Proof.
  apply (transpose_submit_transposes xorb 2 3);
    [intros []; reflexivity|lia|lia|split; [reflexivity|repeat constructor]..|].
  vm_compute. intros H. discriminate H.
Defined.

(** X22.  [trans_tmp], which is also registered on its own, transposes
    every matrix, square or not, under the same conditions. *)
Theorem trans_tmp_transposes {T : Type} (dne : T → T → bool) (M N : Z)
        (A B : list (list T)) (t : list T) :
  (∀ x, dne x x = false) →
  0 < M < 18446744073709551616 → 0 < N < 18446744073709551616 →
  shape N M A → shape M N B → 64 <= Z.of_nat (length t) →
  ∃ st', trans_tmp dne M N A (Mem B t) = Next st' ∧
         shape M N (matB st') ∧ transposed_on (whole M N) A (matB st').
Proof.
  intros Hrefl HM HN HA HB Ht. apply trans_tmp_good; try assumption.
  split; [exact HB|]. split; [exact Ht|]. intros x y [].
Qed.

Lemma trans_tmp_transposes_witness :
  ∃ st', trans_tmp xorb 2 2 [[true; false]; [false; false]]
           (Mem [[false; false]; [false; false]] (replicate 64 false)) = Next st' ∧
         shape 2 2 (matB st') ∧
         transposed_on (whole 2 2) [[true; false]; [false; false]] (matB st').
Proof.
  apply (trans_tmp_transposes xorb 2 2);
    [intros []; reflexivity|lia|lia|split; [reflexivity|repeat constructor]..|].
  vm_compute. intros H. discriminate H.
Defined.

(** X23.  [trans_basic], which is registered on its own as well, is
    not a transpose for every size: when [8 <= M <= 8 * (N / 8) < N]
    (eight columns and nine rows, say) the first access after the
    blocks, [A[0][8 * (N / 8)]], is outside the [M] elements of a row
    of [A], and the function faults there. *)
Theorem trans_basic_leaves_bounds {T : Type} (dne : T → T → bool) (M N : Z)
        (A B : list (list T)) (t : list T) :
  8 <= M → M <= 8 * (N / 8) → 8 * (N / 8) < N → N < 18446744073709551616 →
  shape N M A → shape M N B → 64 <= Z.of_nat (length t) →
  trans_basic dne M N A (Mem B t) = Fault.
Proof.
  intros HM HMN HN Hsize HA HB Ht. apply trans_basic_fault; try assumption; try lia.
  split; [exact HB|]. split; [exact Ht|]. intros x y [].
Qed.

Lemma trans_basic_leaves_bounds_witness :
  trans_basic xorb 8 9 (replicate 9 (replicate 8 false))
    (Mem (replicate 8 (replicate 9 false)) (replicate 64 false)) = Fault.
Proof.
  apply (trans_basic_leaves_bounds xorb 8 9);
    [lia|vm_compute; discriminate|vm_compute; reflexivity|lia|split; [reflexivity|repeat constructor]..|].
  vm_compute. intros H. discriminate H.
Defined.
